(** * zeroshot: model policy, schema normalisation, settings and task store

    A shallow embedding of the parts of the zeroshot coordination engine
    that its specification makes checkable statements about:

    - [lib/settings.js]: the model hierarchy, [validateModelAgainstMax],
      the legacy model-to-level mapping and [loadSettings];
    - [src/agent/agent-config.js]: the cost ceiling/floor part of
      [validateAgentConfig];
    - [src/agent/schema-utils.js]: [normalizeEnumValues];
    - [src/claude-task-runner.js]: the argument vector built by
      [ClaudeTaskRunner.run] and [_runIsolated];
    - [task-lib/store.js]: [cleanStaleLock], [loadTasks], [loadSchedules],
      and the store under its lock;
    - [lib/provider-names.js], [src/providers], [cli/commands/providers.js],
      [cli/lib/first-run.js], [src/github.js] and
      [task-lib/claude-recovery.js]: the functions that the second half
      of the development is about.

    JavaScript values are represented by the types the code expects:
    a nullable string is an [option string], a thrown [Error] is the
    [Throw] constructor of [result] carrying the message, a parsed JSON
    document is a [json] tree.  Strings are sequences of characters of
    the ASCII range, on which case conversion, trimming and the classes
    of regular expressions are modelled; theorems that depend on these
    say so in a hypothesis.  An object is the
    list of its own properties: names that every object inherits from
    [Object.prototype] ([constructor], [__proto__] and the like), used as
    keys or as level and provider names, are outside the model.

    [JSON.parse], [JSON.stringify], the paths of [task-lib/config.js] and
    the provider modules are not part of these files; the functions that
    call them take them as parameters. *)

From Stdlib Require Import String Ascii List ZArith Bool Lia Arith PeanoNat.
From Stdlib Require Import DecimalString DecimalNat Decimal.
From Stdlib Require QArith_base QArith.
From Stdlib Require Import Sorted.
Import ListNotations.
Set Warnings "-register-all".
Open Scope string_scope.
Open Scope list_scope.

(* ================================================================== *)
(** * Part I: definitions *)
(* ================================================================== *)

(** ** Results of fallible functions *)

(** A JavaScript function either returns a value or throws an [Error]
    with a message. *)
Inductive result (A : Type) : Type :=
| Ok (a : A)
| Throw (msg : string).
Arguments Ok {A} a.
Arguments Throw {A} msg.

Definition throws {A : Type} (r : result A) : bool :=
  match r with Ok _ => false | Throw _ => true end.

(** Truthiness of a nullable string: [null], [undefined] and the empty
    string are falsy. *)
Definition truthy (x : option string) : bool :=
  match x with
  | Some s => negb (s =? EmptyString)
  | None => false
  end.

(** [x || null] on a nullable string. *)
Definition or_null (x : option string) : option string :=
  if truthy x then x else None.

(** A string between double quotes, as the error messages print names. *)
Definition dquote : string := String (ascii_of_nat 34) EmptyString.
Definition quote (s : string) : string := dquote ++ s ++ dquote.

(** [Array.prototype.includes] on an array of strings. *)
Definition includes (l : list string) (s : string) : bool :=
  existsb (String.eqb s) l.

(** [Array.prototype.join]. *)
Definition join (sep : string) (l : list string) : string :=
  String.concat sep l.

(** ** lib/settings.js: model hierarchy *)

(** [MODEL_HIERARCHY]: a higher number is a more expensive model. *)
Definition MODEL_HIERARCHY (m : string) : option nat :=
  if m =? "opus" then Some 3
  else if m =? "sonnet" then Some 2
  else if m =? "haiku" then Some 1
  else None.

(** [Object.keys(MODEL_HIERARCHY)], in declaration order. *)
Definition VALID_MODELS : list string := ["opus"; "sonnet"; "haiku"].

(** [a > b] on two table lookups; a comparison with [undefined] is
    false. *)
Definition rank_gt (a b : option nat) : bool :=
  match a, b with
  | Some x, Some y => Nat.ltb y x
  | _, _ => false
  end.

Definition rank_lt (a b : option nat) : bool := rank_gt b a.

(** The rank of a model name, [haiku < sonnet < opus]; [0] for a name
    outside the hierarchy. *)
Definition rank (m : string) : nat :=
  match MODEL_HIERARCHY m with Some n => n | None => 0 end.

(** A requested model is out of bounds when it ranks above the ceiling or
    below the floor (when there is one). *)
Definition out_of_bounds (requested maxModel : string)
  (minModel : option string) : bool :=
  Nat.ltb (rank maxModel) (rank requested)
  || match minModel with
     | Some m => Nat.ltb (rank requested) (rank m)
     | None => false
     end.

(** [validateModelAgainstMax(requestedModel, maxModel, minModel = null)]. *)
Definition validateModelAgainstMax
  (requestedModel : option string) (maxModel : string)
  (minModel : option string) : result string :=
  match or_null requestedModel with
  | None => Ok maxModel
  | Some requested =>
    if negb (includes VALID_MODELS requested) then
      Throw ("Invalid model " ++ quote requested ++ ". Valid: "
             ++ join ", " VALID_MODELS)
    else if negb (includes VALID_MODELS maxModel) then
      Throw ("Invalid maxModel " ++ quote maxModel ++ ". Valid: "
             ++ join ", " VALID_MODELS)
    else if rank_gt (MODEL_HIERARCHY requested) (MODEL_HIERARCHY maxModel) then
      Throw ("Agent requests " ++ quote requested ++ " but maxModel is "
             ++ quote maxModel ++ ". "
             ++ "Either lower agent's model or raise maxModel.")
    else
      match or_null minModel with
      | None => Ok requested
      | Some minM =>
        if negb (includes VALID_MODELS minM) then
          Throw ("Invalid minModel " ++ quote minM ++ ". Valid: "
                 ++ join ", " VALID_MODELS)
        else if rank_gt (MODEL_HIERARCHY minM) (MODEL_HIERARCHY maxModel) then
          Throw ("minModel " ++ quote minM
                 ++ " cannot be higher than maxModel " ++ quote maxModel ++ ".")
        else if rank_lt (MODEL_HIERARCHY requested) (MODEL_HIERARCHY minM) then
          Throw ("Agent requests " ++ quote requested ++ " but minModel is "
                 ++ quote minM ++ ". "
                 ++ "Either raise agent's model or lower minModel.")
        else Ok requested
      end
  end.

(** ** src/agent/agent-config.js: cost ceiling and floor at config time *)

Definition VALID_LEVELS : list string := ["level1"; "level2"; "level3"].

(** One entry of [config.modelRules]. *)
Record model_rule : Type := {
  iterations : string;
  rule_model : option string;
  rule_modelLevel : option string;
  rule_reasoningEffort : option string
}.

(** A rule that names a model for a pattern. *)
Definition model_for (pattern model_name : string) : model_rule :=
  {| iterations := pattern;
     rule_model := Some model_name;
     rule_modelLevel := None;
     rule_reasoningEffort := None |}.

(** The fields of a raw agent configuration that model selection reads. *)
Record agent_config : Type := {
  id : string;
  model : option string;
  modelLevel : option string;
  modelRules : option (list model_rule)
}.

(** [modelConfig], the normalised form: a static model or a rule list. *)
Inductive modelConfig : Type :=
| static (m : option string) (level : option string)
| rules (rs : list model_rule).

(** What [validateAgentConfig] reads from [loadSettings()]. *)
Record model_bounds : Type := {
  settings_maxModel : option string;
  settings_minModel : option string
}.

Definition build_modelConfig (config : agent_config) : modelConfig :=
  match modelRules config with
  | Some rs => rules rs
  | None => static (or_null (model config)) (or_null (modelLevel config))
  end.

(** [if (level && !VALID_LEVELS.includes(level))]. *)
Definition invalid_level (level : option string) : option string :=
  match or_null level with
  | Some l => if includes VALID_LEVELS l then None else Some l
  | None => None
  end.

(** [if (m && VALID_MODELS.includes(m))]: the legacy Claude models. *)
Definition legacy_model (m : option string) : bool :=
  match or_null m with
  | Some s => includes VALID_MODELS s
  | None => false
  end.

Definition or_empty (x : option string) : string :=
  match x with Some s => s | None => EmptyString end.

(** The body of the [for (const rule of modelConfig.rules)] loop: the
    first rule that violates a bound or names an unknown level throws. *)
Fixpoint validate_rules (agent : string) (maxModel : string)
  (minModel : option string) (rs : list model_rule) : result unit :=
  match rs with
  | [] => Ok tt
  | rule :: rest =>
    let model_ok :=
      if legacy_model (rule_model rule) then
        negb (throws (validateModelAgainstMax (rule_model rule) maxModel minModel))
      else true in
    if negb model_ok then
      Throw ("Agent " ++ quote agent ++ ": modelRule " ++ quote (iterations rule)
             ++ " requests " ++ quote (or_empty (rule_model rule)) ++ " "
             ++ "but maxModel is " ++ quote maxModel
             ++ (match or_null minModel with
                 | Some m => " and minModel is " ++ quote m
                 | None => EmptyString
                 end)
             ++ ". "
             ++ "Either adjust the rule's model or change maxModel/minModel settings.")
    else
      match invalid_level (rule_modelLevel rule) with
      | Some l =>
        Throw ("Agent " ++ quote agent ++ ": modelRule " ++ quote (iterations rule)
               ++ " has invalid modelLevel " ++ quote l ++ ". Valid: "
               ++ join ", " VALID_LEVELS)
      | None => validate_rules agent maxModel minModel rest
      end
  end.

(** [validateAgentConfig], from the construction of [modelConfig] to the end
    of the cost ceiling/floor enforcement.  Nothing before this part throws,
    so an error raised here is the error of the whole call; the checks that
    follow it (prompt format, timeout, test-mode mock) can only reject
    more configurations. *)
Definition validateAgentConfig (settings : model_bounds) (config : agent_config)
  : result modelConfig :=
  let mc := build_modelConfig config in
  let maxModel :=
    match or_null (settings_maxModel settings) with
    | Some m => m
    | None => "sonnet"
    end in
  let minModel := or_null (settings_minModel settings) in
  match mc with
  | static m level =>
    let checked :=
      if legacy_model m then
        match validateModelAgainstMax m maxModel minModel with
        | Ok _ => Ok tt
        | Throw msg => Throw ("Agent " ++ quote (id config) ++ ": " ++ msg)
        end
      else Ok tt in
    match checked with
    | Throw msg => Throw msg
    | Ok _ =>
      match invalid_level level with
      | Some l =>
        Throw ("Agent " ++ quote (id config) ++ ": invalid modelLevel "
               ++ quote l ++ ". " ++ "Valid: " ++ join ", " VALID_LEVELS)
      | None => Ok mc
      end
    end
  | rules rs =>
    match validate_rules (id config) maxModel minModel rs with
    | Throw msg => Throw msg
    | Ok _ => Ok mc
    end
  end.

(** Settings whose ceiling is [maxModel] and whose floor is [minModel]. *)
Definition bounds_of (maxModel : string) (minModel : option string) : model_bounds :=
  {| settings_maxModel := Some maxModel; settings_minModel := minModel |}.

(** ** JavaScript strings (ASCII range) *)

(** Text is modelled for the characters of the ASCII range, codes 0 to
    127.  On such text the functions below are [toUpperCase],
    [toLowerCase] and [trim] of JavaScript, and the classes of white
    space and of digits are those of its regular expressions.  Other
    characters have case mappings and white space of their own; the
    theorems that depend on these functions take text of the ASCII range
    as a hypothesis. *)
Definition ascii_char (c : ascii) : bool := Nat.ltb (nat_of_ascii c) 128.

Fixpoint ascii_text (s : string) : bool :=
  match s with
  | EmptyString => true
  | String c rest => ascii_char c && ascii_text rest
  end.

Definition is_lower (c : ascii) : bool :=
  let n := nat_of_ascii c in Nat.leb 97 n && Nat.leb n 122.

Definition is_upper (c : ascii) : bool :=
  let n := nat_of_ascii c in Nat.leb 65 n && Nat.leb n 90.

Definition upper_char (c : ascii) : ascii :=
  if is_lower c then ascii_of_nat (nat_of_ascii c - 32) else c.

Definition lower_char (c : ascii) : ascii :=
  if is_upper c then ascii_of_nat (nat_of_ascii c + 32) else c.

(** [String.prototype.toUpperCase] and [toLowerCase]. *)
Fixpoint toUpperCase (s : string) : string :=
  match s with
  | EmptyString => EmptyString
  | String c rest => String (upper_char c) (toUpperCase rest)
  end.

Fixpoint toLowerCase (s : string) : string :=
  match s with
  | EmptyString => EmptyString
  | String c rest => String (lower_char c) (toLowerCase rest)
  end.

(** The white space of the ASCII range, which [trim] removes: tab, line
    feed, vertical tab, form feed, carriage return and space. *)
Definition is_space (c : ascii) : bool :=
  let n := nat_of_ascii c in
  (Nat.leb 9 n && Nat.leb n 13) || Nat.eqb n 32.

Fixpoint trimStart (s : string) : string :=
  match s with
  | EmptyString => EmptyString
  | String c rest => if is_space c then trimStart rest else s
  end.

Fixpoint trimEnd (s : string) : string :=
  match s with
  | EmptyString => EmptyString
  | String c rest =>
    match trimEnd rest with
    | EmptyString => if is_space c then EmptyString else String c EmptyString
    | rest' => String c rest'
    end
  end.

(** [String.prototype.trim]. *)
Definition trim (s : string) : string := trimEnd (trimStart s).

Definition pipe : ascii := ascii_of_nat 124.

(** [s.includes('|')]. *)
Fixpoint includes_pipe (s : string) : bool :=
  match s with
  | EmptyString => false
  | String c rest => Ascii.eqb c pipe || includes_pipe rest
  end.

(** [s.split('|')]: the parts between the separators, at least one. *)
Fixpoint split_pipe (s : string) : list string :=
  match s with
  | EmptyString => [EmptyString]
  | String c rest =>
    if Ascii.eqb c pipe then EmptyString :: split_pipe rest
    else
      match split_pipe rest with
      | [] => [String c EmptyString]
      | part :: parts => String c part :: parts
      end
  end.

Definition nonempty (s : string) : bool := negb (s =? EmptyString).

(** The character at a position and [String.prototype.slice(0, n)]. *)
Fixpoint slice_prefix (n : nat) (s : string) : string :=
  match n, s with
  | S n', String c rest => String c (slice_prefix n' rest)
  | _, _ => EmptyString
  end.

(** The decimal text of a natural number, as array indices are printed. *)
Definition nat_to_string (n : nat) : string :=
  NilEmpty.string_of_uint (Nat.to_uint n).

(** The natural number written by a string of decimal digits. *)
Definition string_to_nat (s : string) : option nat :=
  match s with
  | EmptyString => None
  | _ =>
    match NilEmpty.uint_of_string s with
    | Some d => Some (Nat.of_uint d)
    | None => None
    end
  end.

(** ** Parsed JSON documents *)

(** A value produced by [JSON.parse].  The fields of an object are its
    own properties in enumeration order; the members every object
    inherits from [Object.prototype] are not part of the model. *)
Inductive json : Type :=
| JNull
| JBool (b : bool)
| JNum (q : QArith_base.Q)
| JStr (s : string)
| JArr (items : list json)
| JObj (fields : list (string * json)).

(** Truthiness of a value; an absent property is [undefined]. *)
Definition js_truthy (v : json) : bool :=
  match v with
  | JNull => false
  | JBool b => b
  | JNum q => negb (Z.eqb (QArith_base.Qnum q) 0)
  | JStr s => nonempty s
  | JArr _ | JObj _ => true
  end.

Definition opt_truthy (v : option json) : bool :=
  match v with Some x => js_truthy x | None => false end.

(** [v && typeof v === 'object']: a non-null object or an array. *)
Definition is_object (v : json) : bool :=
  match v with JArr _ | JObj _ => true | _ => false end.

Fixpoint assoc_get {A : Type} (fields : list (string * A)) (key : string)
  : option A :=
  match fields with
  | [] => None
  | (k, v) :: rest => if k =? key then Some v else assoc_get rest key
  end.

(** Assignment [o[key] = v]: an existing property keeps its place, a new
    one is added last. *)
Fixpoint assoc_set {A : Type} (fields : list (string * A)) (key : string)
  (v : A) : list (string * A) :=
  match fields with
  | [] => [(key, v)]
  | (k, x) :: rest =>
    if k =? key then (k, v) :: rest else (k, x) :: assoc_set rest key v
  end.

(** An array index: the canonical decimal text of a position. *)
Definition array_index (key : string) : option nat :=
  match string_to_nat key with
  | Some i => if nat_to_string i =? key then Some i else None
  | None => None
  end.

Fixpoint list_set {A : Type} (l : list A) (i : nat) (v : A) : list A :=
  match l, i with
  | [], _ => []
  | _ :: rest, O => v :: rest
  | x :: rest, S i' => x :: list_set rest i' v
  end.

(** Property read [v[key]] on own properties; [None] is [undefined].
    ([length] of an array is a number, on which no caller acts.) *)
Definition get (v : json) (key : string) : option json :=
  match v with
  | JObj fields => assoc_get fields key
  | JArr items =>
    match array_index key with
    | Some i => nth_error items i
    | None => None
    end
  | _ => None
  end.

(** Property write [v[key] = x] on an object, or on an existing element
    of an array. *)
Definition set (v : json) (key : string) (x : json) : json :=
  match v with
  | JObj fields => JObj (assoc_set fields key x)
  | JArr items =>
    match array_index key with
    | Some i => JArr (list_set items i x)
    | None => v
    end
  | _ => v
  end.

(** ** src/agent/schema-utils.js: enum normalisation *)

(** The part of a JSON schema that [normalizeEnumValues] reads: [type],
    [enum], [properties] and [items].  The options of an [enum] are JSON
    values of any kind; the keys of [properties] are the keys of a
    JavaScript object. *)
Inductive json_schema : Type :=
| JsonSchema (type : option string) (enum : option (list json))
             (properties : option (list (string * json_schema)))
             (items : option json_schema).

Definition schema_type (s : json_schema) : option string :=
  match s with JsonSchema t _ _ _ => t end.
Definition schema_enum (s : json_schema) : option (list json) :=
  match s with JsonSchema _ e _ _ => e end.
Definition schema_properties (s : json_schema)
  : option (list (string * json_schema)) :=
  match s with JsonSchema _ _ p _ => p end.
Definition schema_items (s : json_schema) : option json_schema :=
  match s with JsonSchema _ _ _ i => i end.

(** [propSchema.type === t]. *)
Definition schema_type_is (s : json_schema) (t : string) : bool :=
  match schema_type s with Some t' => t' =? t | None => false end.

Definition schema_has_properties (s : json_schema) : bool :=
  match schema_properties s with Some _ => true | None => false end.

(** The table of common variations of the enum values. *)
Definition variations : list (string * string) :=
  [ ("BUG", "DEBUG"); ("FIX", "DEBUG"); ("BUGFIX", "DEBUG");
    ("BUG_FIX", "DEBUG"); ("INVESTIGATE", "DEBUG"); ("TROUBLESHOOT", "DEBUG");
    ("IMPLEMENT", "TASK"); ("BUILD", "TASK"); ("CREATE", "TASK");
    ("ADD", "TASK"); ("FEATURE", "TASK");
    ("QUESTION", "INQUIRY"); ("ASK", "INQUIRY"); ("EXPLORE", "INQUIRY");
    ("RESEARCH", "INQUIRY"); ("UNDERSTAND", "INQUIRY");
    ("EASY", "TRIVIAL"); ("BASIC", "SIMPLE"); ("MINOR", "SIMPLE");
    ("MODERATE", "STANDARD"); ("MEDIUM", "STANDARD"); ("NORMAL", "STANDARD");
    ("HARD", "STANDARD");
    ("COMPLEX", "CRITICAL"); ("RISKY", "CRITICAL"); ("HIGH_RISK", "CRITICAL");
    ("DANGEROUS", "CRITICAL") ].

(** The pipe-separated parts of a value, each trimmed. *)
Definition pipe_parts (value : string) : list string :=
  map trim (split_pipe value).

(** [propSchema.enum.includes(p)] for a string [p]: only an option that
    is a string can be equal to it. *)
Definition enum_includes (options : list json) (p : string) : bool :=
  existsb (fun e => match e with JStr t => t =? p | _ => false end) options.

(** Detection of a copied enum list: with a ['|'] in the value and at
    least two parts that are enum options, the value becomes the first
    such part (when that part is not the empty string). *)
Definition collapse_copied_list (options : list json) (value : string)
  : string :=
  if includes_pipe value then
    let parts := pipe_parts value in
    let matchCount := List.length (filter (enum_includes options) parts) in
    if Nat.leb 2 matchCount then
      match find (enum_includes options) parts with
      | Some firstValid => if nonempty firstValid then firstValid else value
      | None => value
      end
    else value
  else value.

(** [propSchema.enum.find((e) => e.toUpperCase() === value)]: the options
    are tried in order up to the first match; an option that is not a
    string has no [toUpperCase], and trying it throws a [TypeError]. *)
Fixpoint enum_find (options : list json) (value : string)
  : result (option string) :=
  match options with
  | [] => Ok None
  | JStr e :: rest =>
    if toUpperCase e =? value then Ok (Some e) else enum_find rest value
  | JNull :: _ =>
    Throw "TypeError: Cannot read properties of null (reading 'toUpperCase')"
  | _ :: _ => Throw "TypeError: e.toUpperCase is not a function"
  end.

(** What the enum branch does to a string value: replace it by the option
    it matches and go to the next property, replace it by the variation the
    table gives, or leave it. *)
Inductive enum_outcome : Type :=
| Matched (option_ : string)
| Varied (variation : string)
| Unchanged.

(** [variations[value] && propSchema.enum.includes(variations[value])]. *)
Definition enum_variation (options : list json) (value : string)
  : enum_outcome :=
  match assoc_get variations value with
  | Some v => if enum_includes options v then Varied v else Unchanged
  | None => Unchanged
  end.

(** The enum branch on a string value. *)
Definition normalize_enum_value (options : list json) (s : string)
  : result enum_outcome :=
  let value := collapse_copied_list options (toUpperCase (trim s)) in
  match enum_find options value with
  | Throw e => Throw e
  | Ok (Some m) =>
    if nonempty m then Ok (Matched m) else Ok (enum_variation options value)
  | Ok None => Ok (enum_variation options value)
  end.

(** The loop [for (const item of result[key])]: the first call that
    throws ends it. *)
Fixpoint normalize_elements (f : json -> result json) (elements : list json)
  : result (list json) :=
  match elements with
  | [] => Ok []
  | x :: rest =>
    match f x with
    | Throw e => Throw e
    | Ok y =>
      match normalize_elements f rest with
      | Throw e => Throw e
      | Ok ys => Ok (y :: ys)
      end
    end
  end.

(** The two blocks that follow the enum branch in the loop body: the
    recursive call on a nested object and the calls on the elements of an
    array.  [recur] is the call on the property's own schema, [recurItems]
    the call on [propSchema.items] when that schema has properties. *)
Definition normalize_nested_object (key : string) (propSchema : json_schema)
  (recur : json -> result json) (res : json) : result json :=
  if schema_type_is propSchema "object" && schema_has_properties propSchema then
    match get res key with
    | Some child =>
      if js_truthy child then
        match recur child with
        | Throw e => Throw e
        | Ok child' => Ok (set res key child')
        end
      else Ok res
    | None => Ok res
    end
  else Ok res.

Definition normalize_nested_array (key : string) (propSchema : json_schema)
  (recurItems : option (json -> result json)) (res : json) : result json :=
  if schema_type_is propSchema "array" then
    match recurItems, get res key with
    | Some f, Some (JArr elements) =>
      match normalize_elements f elements with
      | Throw e => Throw e
      | Ok elements' => Ok (set res key (JArr elements'))
      end
    | _, _ => Ok res
    end
  else Ok res.

Definition normalize_nested_blocks (key : string) (propSchema : json_schema)
  (recur : json -> result json) (recurItems : option (json -> result json))
  (res : json) : result json :=
  match normalize_nested_object key propSchema recur res with
  | Throw e => Throw e
  | Ok res' => normalize_nested_array key propSchema recurItems res'
  end.

(** The outcome of the enum branch for the value found under a key. *)
Definition enum_branch_of (propSchema : json_schema) (v : option json)
  : result enum_outcome :=
  match schema_enum propSchema, v with
  | Some options, Some (JStr s) => normalize_enum_value options s
  | _, _ => Ok Unchanged
  end.

(** The body of the loop over [Object.entries(schema.properties)] for one
    property; a match ends the iteration ([continue]). *)
Definition process_entry (key : string) (propSchema : json_schema)
  (recur : json -> result json) (recurItems : option (json -> result json))
  (res : json) : result json :=
  match enum_branch_of propSchema (get res key) with
  | Throw e => Throw e
  | Ok (Matched m) => Ok (set res key (JStr m))
  | Ok (Varied v) =>
    normalize_nested_blocks key propSchema recur recurItems
      (set res key (JStr v))
  | Ok Unchanged => normalize_nested_blocks key propSchema recur recurItems res
  end.

(** [normalizeEnumValues(result, schema)].  The function mutates [result]
    in place and returns it; on a parsed document, which shares no
    sub-object, that is the functional update computed here.  An error
    ends the call, and no value is returned. *)
Fixpoint normalizeEnumValues (res : json) (s : json_schema) {struct s}
  : result json :=
  match s with
  | JsonSchema _ _ (Some props) _ =>
    if is_object res then
      (fix loop (ps : list (string * json_schema)) (r : json) {struct ps}
         : result json :=
         match ps with
         | [] => Ok r
         | (key, propSchema) :: rest =>
           match process_entry key propSchema
                   (fun child => normalizeEnumValues child propSchema)
                   (match propSchema with
                    | JsonSchema _ _ _ (Some it) =>
                      match it with
                      | JsonSchema _ _ (Some _) _ =>
                        Some (fun item => normalizeEnumValues item it)
                      | _ => None
                      end
                    | _ => None
                    end)
                   r with
           | Throw e => Throw e
           | Ok r' => loop rest r'
           end
         end) props res
    else Ok res
  | _ => Ok res
  end.

(** The recursive calls that [normalizeEnumValues] makes for a property,
    and the loop over the entries of [schema.properties]. *)
Definition recur_into (propSchema : json_schema) : json -> result json :=
  fun child => normalizeEnumValues child propSchema.

Definition recur_into_items (propSchema : json_schema)
  : option (json -> result json) :=
  match propSchema with
  | JsonSchema _ _ _ (Some it) =>
    match it with
    | JsonSchema _ _ (Some _) _ => Some (fun item => normalizeEnumValues item it)
    | _ => None
    end
  | _ => None
  end.

Fixpoint process_entries (props : list (string * json_schema)) (res : json)
  : result json :=
  match props with
  | [] => Ok res
  | (key, propSchema) :: rest =>
    match process_entry key propSchema (recur_into propSchema)
            (recur_into_items propSchema) res with
    | Throw e => Throw e
    | Ok res' => process_entries rest res'
    end
  end.

(** Text of the ASCII range in a document and in a schema. *)
Fixpoint ascii_json (v : json) : bool :=
  match v with
  | JStr s => ascii_text s
  | JArr elements => forallb ascii_json elements
  | JObj fields =>
    forallb (fun field =>
               match field with (k, x) => ascii_text k && ascii_json x end)
      fields
  | _ => true
  end.

Fixpoint ascii_schema (s : json_schema) : bool :=
  match s with
  | JsonSchema _ en props its =>
    match en with Some options => forallb ascii_json options | None => true end
    && match props with
       | Some ps =>
         forallb (fun entry =>
                    match entry with (_, p) => ascii_schema p end) ps
       | None => true
       end
    && match its with Some it => ascii_schema it | None => true end
  end.

(** *** Schemas whose enum options are strings

    On a schema in which every option of every enum is a string, no call
    of [toUpperCase] can throw, and [normalizeEnumValues] is the total
    function [normalizeStringEnums] below, on schemas that hold their
    options as strings.  The properties of [normalizeEnumValues] are
    proved on this form and carried over. *)

(** The part of such a schema that is read: [type], [enum] (a list of
    string options), [properties] and [items]. *)
Inductive schema : Type :=
| Schema (type : option string) (enum : option (list string))
         (properties : option (list (string * schema)))
         (items : option schema).

Definition s_type (s : schema) : option string :=
  match s with Schema t _ _ _ => t end.
Definition s_enum (s : schema) : option (list string) :=
  match s with Schema _ e _ _ => e end.
Definition s_properties (s : schema) : option (list (string * schema)) :=
  match s with Schema _ _ p _ => p end.
Definition s_items (s : schema) : option schema :=
  match s with Schema _ _ _ i => i end.

(** [propSchema.type === t]. *)
Definition type_is (s : schema) (t : string) : bool :=
  match s_type s with Some t' => t' =? t | None => false end.

Definition has_properties (s : schema) : bool :=
  match s_properties s with Some _ => true | None => false end.

(** Detection of a copied enum list: with a ['|'] in the value and at
    least two parts that are enum options, the value becomes the first
    such part (when that part is not the empty string). *)
Definition collapse_enum_list (options : list string) (value : string) : string :=
  if includes_pipe value then
    let parts := pipe_parts value in
    let matchCount := List.length (filter (includes options) parts) in
    if Nat.leb 2 matchCount then
      match find (includes options) parts with
      | Some firstValid => if nonempty firstValid then firstValid else value
      | None => value
      end
    else value
  else value.

(** [propSchema.enum.find((e) => e.toUpperCase() === value)]. *)
Definition find_match (options : list string) (value : string) : option string :=
  find (fun e => toUpperCase e =? value) options.

Definition normalize_enum_string (options : list string) (s : string)
  : enum_outcome :=
  let value := collapse_enum_list options (toUpperCase (trim s)) in
  match find_match options value with
  | Some m =>
    if nonempty m then Matched m
    else
      match assoc_get variations value with
      | Some v => if includes options v then Varied v else Unchanged
      | None => Unchanged
      end
  | None =>
    match assoc_get variations value with
    | Some v => if includes options v then Varied v else Unchanged
    | None => Unchanged
    end
  end.

(** The two blocks that follow the enum branch in the loop body: the
    recursive call on a nested object and the calls on the elements of an
    array.  [recur] is the call on the property's own schema, [recurItems]
    the call on [propSchema.items] when that schema has properties. *)
Definition normalize_nested (key : string) (propSchema : schema)
  (recur : json -> json) (recurItems : option (json -> json))
  (result : json) : json :=
  let r2 :=
    if type_is propSchema "object" && has_properties propSchema then
      match get result key with
      | Some child =>
        if js_truthy child then set result key (recur child) else result
      | None => result
      end
    else result in
  if type_is propSchema "array" then
    match recurItems, get r2 key with
    | Some f, Some (JArr elements) => set r2 key (JArr (map f elements))
    | _, _ => r2
    end
  else r2.

(** The outcome of the enum branch for the value found under a key. *)
Definition enum_branch (propSchema : schema) (v : option json) : enum_outcome :=
  match s_enum propSchema, v with
  | Some options, Some (JStr s) => normalize_enum_string options s
  | _, _ => Unchanged
  end.

(** The body of the loop over [Object.entries(schema.properties)] for one
    property; a match ends the iteration ([continue]). *)
Definition process_property (key : string) (propSchema : schema)
  (recur : json -> json) (recurItems : option (json -> json))
  (result : json) : json :=
  match enum_branch propSchema (get result key) with
  | Matched m => set result key (JStr m)
  | Varied v =>
    normalize_nested key propSchema recur recurItems (set result key (JStr v))
  | Unchanged =>
    normalize_nested key propSchema recur recurItems result
  end.

(** [normalizeEnumValues(result, schema)] on a schema whose options are
    strings. *)
Fixpoint normalizeStringEnums (result : json) (s : schema) {struct s} : json :=
  match s with
  | Schema _ _ (Some props) _ =>
    if is_object result then
      (fix loop (ps : list (string * schema)) (r : json) {struct ps} : json :=
         match ps with
         | [] => r
         | (key, propSchema) :: rest =>
           loop rest
             (process_property key propSchema
                (fun child => normalizeStringEnums child propSchema)
                (match propSchema with
                 | Schema _ _ _ (Some it) =>
                   match it with
                   | Schema _ _ (Some _) _ =>
                     Some (fun item => normalizeStringEnums item it)
                   | _ => None
                   end
                 | _ => None
                 end)
                r)
         end) props result
    else result
  | _ => result
  end.

(** Well-formed schemas.  The keys of a [properties] object are pairwise
    distinct, as the keys of any JavaScript object are; the options of an
    [enum] are pairwise distinct up to letter case. *)
Fixpoint distinct_keys (keys : list string) : bool :=
  match keys with
  | [] => true
  | k :: rest => negb (includes rest k) && distinct_keys rest
  end.

Definition case_distinct (options : list string) : bool :=
  forallb (fun e1 =>
    forallb (fun e2 =>
      implb (toUpperCase e1 =? toUpperCase e2) (e1 =? e2)) options) options.

Fixpoint well_formed (s : schema) : bool :=
  match s with
  | Schema _ en props its =>
    match en with Some options => case_distinct options | None => true end
    && match props with
       | Some ps =>
         distinct_keys (map fst ps)
         && (fix all (l : list (string * schema)) : bool :=
               match l with
               | [] => true
               | (_, p) :: rest => well_formed p && all rest
               end) ps
       | None => true
       end
    && match its with Some it => well_formed it | None => true end
  end.

(** The value that the loop body leaves in [result[key]], as a function of
    the value it finds there. *)
Definition nested_value (propSchema : schema)
  (recur : json -> json) (recurItems : option (json -> json))
  (v : json) : json :=
  let v2 :=
    if type_is propSchema "object" && has_properties propSchema then
      if js_truthy v then recur v else v
    else v in
  if type_is propSchema "array" then
    match recurItems, v2 with
    | Some f, JArr elements => JArr (map f elements)
    | _, _ => v2
    end
  else v2.

Definition property_value (propSchema : schema)
  (recur : json -> json) (recurItems : option (json -> json))
  (v : json) : json :=
  match enum_branch propSchema (Some v) with
  | Matched m => JStr m
  | Varied x => nested_value propSchema recur recurItems (JStr x)
  | Unchanged => nested_value propSchema recur recurItems v
  end.

(** The recursive calls that [normalizeStringEnums] makes for a property. *)
Definition recur_on (propSchema : schema) : json -> json :=
  fun child => normalizeStringEnums child propSchema.

Definition recur_on_items (propSchema : schema) : option (json -> json) :=
  match propSchema with
  | Schema _ _ _ (Some it) =>
    match it with
    | Schema _ _ (Some _) _ => Some (fun item => normalizeStringEnums item it)
    | _ => None
    end
  | _ => None
  end.

(** The loop over the entries of [schema.properties]. *)
Definition normalize_properties (props : list (string * schema)) (result : json)
  : json :=
  fold_left
    (fun r kp =>
       process_property (fst kp) (snd kp) (recur_on (snd kp))
         (recur_on_items (snd kp)) r)
    props result.

(** A string that is empty or starts with a character that is not white
    space. *)
Definition starts_clean (s : string) : Prop :=
  match s with
  | EmptyString => True
  | String c _ => is_space c = false
  end.

(** The schema of the conductor's classification, as the tests of
    [normalizeStringEnums] use it. *)
Definition conductorSchema : schema :=
  Schema (Some "object") None
    (Some [ ("complexity",
             Schema (Some "string")
               (Some ["TRIVIAL"; "SIMPLE"; "STANDARD"; "CRITICAL"; "UNCERTAIN"])
               None None);
            ("taskType",
             Schema (Some "string") (Some ["INQUIRY"; "TASK"; "DEBUG"]) None None);
            ("reasoning", Schema (Some "string") None None None) ])
    None.

(** A conductor's answer that copies an enum list and uses a variation. *)
Definition example_result : json :=
  JObj [ ("complexity", JStr "simple|standard");
         ("taskType", JStr " fix ");
         ("reasoning", JStr "a | b") ].

(** A schema whose enum lists the same option in two letter cases. *)
Definition twoCaseSchema : schema :=
  Schema (Some "object") None
    (Some [ ("taskType",
             Schema (Some "string") (Some ["debug"; "DEBUG"]) None None) ])
    None.

(** *** From one form of schema to the other *)

(** Whether every option of every enum of a schema is a string, and the
    schema with its options held as strings. *)
Definition string_option (e : json) : bool :=
  match e with JStr _ => true | _ => false end.

Fixpoint option_strings (options : list json) : list string :=
  match options with
  | [] => []
  | JStr s :: rest => s :: option_strings rest
  | _ :: rest => option_strings rest
  end.

Fixpoint string_enums (s : json_schema) : bool :=
  match s with
  | JsonSchema _ en props its =>
    match en with Some options => forallb string_option options | None => true end
    && match props with
       | Some ps =>
         forallb (fun entry =>
                    match entry with (_, p) => string_enums p end) ps
       | None => true
       end
    && match its with Some it => string_enums it | None => true end
  end.

Fixpoint string_schema (s : json_schema) : schema :=
  match s with
  | JsonSchema ty en props its =>
    Schema ty
      (match en with
       | Some options => Some (option_strings options)
       | None => None
       end)
      (match props with
       | Some ps =>
         Some ((fix each (l : list (string * json_schema))
                  : list (string * schema) :=
                  match l with
                  | [] => []
                  | (k, p) :: rest => (k, string_schema p) :: each rest
                  end) ps)
       | None => None
       end)
      (match its with
       | Some it => Some (string_schema it)
       | None => None
       end)
  end.

(** A schema with string options as a JSON schema. *)
Fixpoint json_schema_of (s : schema) : json_schema :=
  match s with
  | Schema ty en props its =>
    JsonSchema ty
      (match en with
       | Some options => Some (map JStr options)
       | None => None
       end)
      (match props with
       | Some ps =>
         Some ((fix each (l : list (string * schema))
                  : list (string * json_schema) :=
                  match l with
                  | [] => []
                  | (k, p) :: rest => (k, json_schema_of p) :: each rest
                  end) ps)
       | None => None
       end)
      (match its with
       | Some it => Some (json_schema_of it)
       | None => None
       end)
  end.

(** A schema with [null] among the options of an enum, as a schema may
    have for a value that can be absent. *)
Definition nullable_enum_schema : json_schema :=
  JsonSchema (Some "object") None
    (Some [ ("complexity",
             JsonSchema None (Some [JNull; JStr "SIMPLE"]) None None) ])
    None.

(** ** lib/provider-names.js *)

Definition PROVIDER_ALIASES : list (string * string) :=
  [ ("anthropic", "claude"); ("openai", "codex"); ("google", "gemini");
    ("claude", "claude"); ("codex", "codex"); ("gemini", "gemini") ].

Definition VALID_PROVIDERS : list string := ["claude"; "codex"; "gemini"].

(** [normalizeProviderName] on a string: the canonical name of an alias,
    any other name as it is. *)
Definition normalizeProviderName (name : string) : string :=
  match assoc_get PROVIDER_ALIASES (toLowerCase name) with
  | Some canonical => canonical
  | None => name
  end.

(** ** src/claude-task-runner.js: the command the runner spawns *)

Record modelSpec : Type := {
  spec_model : option string;
  spec_reasoningEffort : option string
}.

(** The options of [run]; an absent field is [None] and takes the default
    of the destructuring pattern. *)
Record run_options : Type := {
  opt_provider : option string;
  opt_model : option string;
  opt_modelLevel : option string;
  opt_modelSpec : option modelSpec;
  opt_reasoningEffort : option string;
  opt_outputFormat : option string;
  opt_jsonSchema : option json;
  opt_strictSchema : option bool;
  opt_isolation_enabled : bool
}.

(** What [run] takes from its surroundings: the loaded settings, the
    provider module and [JSON.stringify] (compact, and indented by two).
    [resolveModelSpec] of a provider throws for a level that it does not
    know when its default level is unknown too. *)
Record runner_env : Type := {
  env_defaultProvider : option string;
  env_defaultLevel : string -> option string;
  env_getDefaultLevel : string -> string;
  env_resolveModelSpec : string -> string -> result modelSpec;
  env_stringify : json -> string;
  env_stringify_pretty : json -> string
}.

(** The keys of [PROVIDERS] in src/providers/index.js, in the order of
    the object literal. *)
Definition PROVIDER_KEYS : list string := ["claude"; "codex"; "gemini"].

(** [getProvider(name)]: the provider of a name or of an alias, given by
    its key in [PROVIDERS]; any other name throws.  (The names of
    inherited members, for which [PROVIDERS[normalized]] is not empty,
    are set aside by a hypothesis of the theorems on [run].) *)
Definition getProvider (name : string) : result string :=
  let normalized := normalizeProviderName name in
  if includes PROVIDER_KEYS normalized then Ok normalized
  else Throw ("Unknown provider: " ++ name ++ ". Valid: "
              ++ join ", " PROVIDER_KEYS).

(** The process the runner starts: on the host ([spawn('zeroshot', args)])
    or in the cluster's container ([spawnInContainer(clusterId, command)]). *)
Inductive spawned : Type :=
| spawn_host (args : list string)
| spawn_container (command : list string).

Definition first_truthy (a b : option string) : option string :=
  if truthy a then a else b.

Definition outputFormat_of (o : run_options) : string :=
  match opt_outputFormat o with Some f => f | None => "stream-json" end.

Definition strictSchema_of (o : run_options) : bool :=
  match opt_strictSchema o with Some b => b | None => false end.

(** [provider || settings.defaultProvider || 'claude']. *)
Definition requested_provider (env : runner_env) (o : run_options) : string :=
  match first_truthy (opt_provider o) (env_defaultProvider env) with
  | Some p => if nonempty p then p else "claude"
  | None => "claude"
  end.

Definition providerName_of (env : runner_env) (o : run_options) : string :=
  normalizeProviderName (requested_provider env o).

(** [resolvedModelSpec]: the explicit spec, the named model, or the spec
    of the requested or default level. *)
Definition resolvedModelSpec (env : runner_env) (o : run_options)
  : result modelSpec :=
  let providerName := providerName_of env o in
  match opt_modelSpec o with
  | Some spec => Ok spec
  | None =>
    if truthy (opt_model o) then
      Ok {| spec_model := opt_model o;
            spec_reasoningEffort := opt_reasoningEffort o |}
    else
      let level :=
        match first_truthy (opt_modelLevel o) (env_defaultLevel env providerName) with
        | Some l => if nonempty l then l else env_getDefaultLevel env providerName
        | None => env_getDefaultLevel env providerName
        end in
      match env_resolveModelSpec env providerName level with
      | Throw e => Throw e
      | Ok spec =>
        if truthy (opt_reasoningEffort o) then
          Ok {| spec_model := spec_model spec;
                spec_reasoningEffort := opt_reasoningEffort o |}
        else Ok spec
      end
  end.

(** [runOutputFormat]: a configured schema with [json] output and no
    strict schema runs as [stream-json]. *)
Definition runOutputFormat (o : run_options) : string :=
  if opt_truthy (opt_jsonSchema o)
     && (outputFormat_of o =? "json")
     && negb (strictSchema_of o)
  then "stream-json"
  else outputFormat_of o.

(** [if (v) args.push(flag, v)]. *)
Definition push_flag (flag : string) (v : option string) : list string :=
  match v with
  | Some x => if nonempty x then [flag; x] else []
  | None => []
  end.

(** [if (jsonSchema && runOutputFormat === 'json')
       args.push('--json-schema', JSON.stringify(jsonSchema))]. *)
Definition schema_flag (env : runner_env) (o : run_options) : list string :=
  match opt_jsonSchema o with
  | Some schema_ =>
    if js_truthy schema_ && (runOutputFormat o =? "json")
    then ["--json-schema"; env_stringify env schema_]
    else []
  | None => []
  end.

(** The arguments that [run] and [_runIsolated] build alike, for the
    model spec that has been resolved. *)
Definition task_run_args (env : runner_env) (o : run_options)
  (spec : modelSpec) : list string :=
  ["task"; "run"; "--output-format"; runOutputFormat o;
   "--provider"; providerName_of env o]
  ++ push_flag "--model" (spec_model spec)
  ++ push_flag "--reasoning-effort" (spec_reasoningEffort spec)
  ++ schema_flag env o.

Definition newline : string := String (ascii_of_nat 10) EmptyString.
Definition code_fence : string :=
  String (ascii_of_nat 96) (String (ascii_of_nat 96)
    (String (ascii_of_nat 96) EmptyString)).

(** [finalContext] of [_runIsolated]: the schema is written into the prompt
    when it is not passed as a flag. *)
Definition finalContext (env : runner_env) (context : string) (o : run_options)
  : string :=
  match opt_jsonSchema o with
  | Some schema_ =>
    if js_truthy schema_ && (outputFormat_of o =? "json")
       && (runOutputFormat o =? "stream-json")
    then context ++ newline ++ newline ++ "## Output Format (REQUIRED)"
         ++ newline ++ newline
         ++ "Return a JSON object that matches this schema exactly."
         ++ newline ++ newline ++ "Schema:" ++ newline
         ++ code_fence ++ "json" ++ newline
         ++ env_stringify_pretty env schema_ ++ newline
         ++ code_fence ++ newline
    else context
  | None => context
  end.

(** [ClaudeTaskRunner.run], up to the process it starts.  The provider
    is looked up first, then the model spec is resolved; an error of
    either ends the call before any argument is built. *)
Definition run (env : runner_env) (context : string) (o : run_options)
  : result spawned :=
  match getProvider (providerName_of env o) with
  | Throw e => Throw e
  | Ok _ =>
    match resolvedModelSpec env o with
    | Throw e => Throw e
    | Ok spec =>
      if opt_isolation_enabled o then
        Ok (spawn_container
              ("zeroshot" :: task_run_args env o spec
               ++ [finalContext env context o]))
      else
        Ok (spawn_host (task_run_args env o spec ++ [context]))
    end
  end.



(** A runner environment for examples: Claude as the default provider,
    its three levels, and a serialiser that prints a fixed text. *)
Definition example_env : runner_env :=
  {| env_defaultProvider := Some "claude";
     env_defaultLevel := fun _ => Some "level2";
     env_getDefaultLevel := fun _ => "level2";
     env_resolveModelSpec := fun _ level =>
       Ok {| spec_model :=
               Some (if level =? "level1" then "haiku"
                     else if level =? "level3" then "opus" else "sonnet");
             spec_reasoningEffort := None |};
     env_stringify := fun _ => "{schema}";
     env_stringify_pretty := fun _ => "{ schema }" |}.

(** Options with a schema and [json] output on the host. *)
Definition example_options (strict : option bool) : run_options :=
  {| opt_provider := None;
     opt_model := None;
     opt_modelLevel := None;
     opt_modelSpec := None;
     opt_reasoningEffort := None;
     opt_outputFormat := Some "json";
     opt_jsonSchema := Some (JObj [("type", JStr "object")]);
     opt_strictSchema := strict;
     opt_isolation_enabled := false |}.

(** Options that name a provider that does not exist. *)
Definition unknown_provider_options : run_options :=
  {| opt_provider := Some "llama";
     opt_model := None;
     opt_modelLevel := None;
     opt_modelSpec := None;
     opt_reasoningEffort := None;
     opt_outputFormat := Some "json";
     opt_jsonSchema := Some (JObj [("type", JStr "object")]);
     opt_strictSchema := None;
     opt_isolation_enabled := false |}.

(** ** task-lib/store.js: the task store and its lock *)

(** Times are milliseconds; [mtimeMs] has a fractional part, so they are
    rational numbers. *)
Definition ms : Type := QArith_base.Q.

Definition ms_of_Z (z : Z) : ms := QArith_base.inject_Z z.

(** [a > b] on times. *)
Definition ms_gt (a b : ms) : bool := negb (QArith_base.Qle_bool a b).

(** A file system: paths to directories and regular files. *)
Inductive node : Type :=
| directory (mtimeMs : ms)
| regular_file (content : string) (mtimeMs : ms).

Definition file_system : Type := list (string * node).

Definition existsSync (fs : file_system) (path : string) : bool :=
  match assoc_get fs path with Some _ => true | None => false end.

(** [statSync(path).mtimeMs]; throws when nothing is at the path. *)
Definition statSync_mtimeMs (fs : file_system) (path : string) : result ms :=
  match assoc_get fs path with
  | Some (directory m) => Ok m
  | Some (regular_file _ m) => Ok m
  | None => Throw "ENOENT: no such file or directory"
  end.

Fixpoint assoc_remove {A : Type} (fields : list (string * A)) (key : string)
  : list (string * A) :=
  match fields with
  | [] => []
  | (k, v) :: rest =>
    if k =? key then assoc_remove rest key else (k, v) :: assoc_remove rest key
  end.

(** [unlinkSync(path)] removes a regular file and throws on anything
    else. *)
Definition unlinkSync (fs : file_system) (path : string) : result file_system :=
  match assoc_get fs path with
  | Some (regular_file _ _) => Ok (assoc_remove fs path)
  | Some (directory _) => Throw "EISDIR: illegal operation on a directory"
  | None => Throw "ENOENT: no such file or directory"
  end.

(** [readFileSync(path, 'utf-8')]. *)
Definition readFileSync (fs : file_system) (path : string) : result string :=
  match assoc_get fs path with
  | Some (regular_file content _) => Ok content
  | Some (directory _) => Throw "EISDIR: illegal operation on a directory"
  | None => Throw "ENOENT: no such file or directory"
  end.

(** [if (!existsSync(dir)) mkdirSync(dir, { recursive: true })]. *)
Definition mkdir_if_missing (now : ms) (fs : file_system) (dir : string)
  : file_system :=
  if existsSync fs dir then fs else assoc_set fs dir (directory now).

(** Stale lock timeout: [LOCK_STALE_MS = 5000]. *)
Definition LOCK_STALE_MS : Z := 5000.

(** [LOCK_OPTIONS], the options given to [lockfile.lock]. *)
Record retry_options : Type := {
  retries : nat;
  minTimeout : Z;
  maxTimeout : Z;
  randomize : bool
}.

Record lock_options : Type := {
  stale : Z;
  lock_retries : retry_options
}.

Definition LOCK_OPTIONS : lock_options :=
  {| stale := LOCK_STALE_MS;
     lock_retries :=
       {| retries := 20; minTimeout := 100; maxTimeout := 200;
          randomize := true |} |}.



(** [filePath + '.lock']. *)
Definition lock_path (filePath : string) : string := filePath ++ ".lock".

(** [cleanStaleLock(filePath)] at time [now]: errors of [statSync] and
    [unlinkSync] are caught and ignored. *)
Definition cleanStaleLock (now : ms) (filePath : string) (fs : file_system)
  : file_system :=
  let lockPath := lock_path filePath in
  if existsSync fs lockPath then
    match statSync_mtimeMs fs lockPath with
    | Ok mtime =>
      let age := QArith_base.Qminus now mtime in
      if ms_gt age (ms_of_Z LOCK_STALE_MS) then
        match unlinkSync fs lockPath with
        | Ok fs' => fs'
        | Throw _ => fs
        end
      else fs
    | Throw _ => fs
    end
  else fs.




Section Store.

(** The paths of [config.js] and [JSON.parse], which throws a
    [SyntaxError] with a message on a text that is not JSON. *)
Variable TASKS_DIR TASKS_FILE LOGS_DIR SCHEDULES_FILE : string.
Variable JSON_parse : string -> result json.

Definition ensureDirs (now : ms) (fs : file_system) : file_system :=
  mkdir_if_missing now (mkdir_if_missing now fs TASKS_DIR) LOGS_DIR.

(** [loadTasks()]: [{}] when the file is absent, the parsed content
    otherwise, and an error that quotes the content when it does not
    parse. *)
Definition loadTasks (now : ms) (fs : file_system)
  : file_system * result json :=
  let fs1 := ensureDirs now fs in
  if negb (existsSync fs1 TASKS_FILE) then (fs1, Ok (JObj []))
  else
    match readFileSync fs1 TASKS_FILE with
    | Throw e => (fs1, Throw e)
    | Ok content =>
      match JSON_parse content with
      | Ok v => (fs1, Ok v)
      | Throw message =>
        (fs1,
         Throw ("CRITICAL: tasks.json is corrupted and cannot be parsed. Error: "
                ++ message ++ ". Content: " ++ slice_prefix 200 content
                ++ "..."))
      end
    end.

(** [loadSchedules()], the same for the schedules. *)
Definition loadSchedules (now : ms) (fs : file_system)
  : file_system * result json :=
  let fs1 := ensureDirs now fs in
  if negb (existsSync fs1 SCHEDULES_FILE) then (fs1, Ok (JObj []))
  else
    match readFileSync fs1 SCHEDULES_FILE with
    | Throw e => (fs1, Throw e)
    | Ok content =>
      match JSON_parse content with
      | Ok v => (fs1, Ok v)
      | Throw message =>
        (fs1,
         Throw ("CRITICAL: schedules.json is corrupted and cannot be parsed. Error: "
                ++ message ++ ". Content: " ++ slice_prefix 200 content
                ++ "..."))
      end
    end.

End Store.

(** A parser for examples: it accepts the empty object and rejects any
    other text. *)
Definition example_parse (text : string) : result json :=
  if text =? "{}" then Ok (JObj []) else Throw "Unexpected token".

(** A task store whose [tasks.json] was cut short. *)
Definition corrupt_fs : file_system :=
  [ ("/state", directory (ms_of_Z 0));
    ("/state/logs", directory (ms_of_Z 0));
    ("/state/tasks.json", regular_file "{ truncated" (ms_of_Z 10));
    ("/state/schedules.json", regular_file "[1, 2" (ms_of_Z 10)) ].

(** ** lib/settings.js: loading the settings *)

(** The own enumerable properties that an object spread [{...v}] copies:
    the fields of an object, the elements of an array and the characters
    of a string under their indices, nothing for other values. *)
Fixpoint indexed {A : Type} (start : nat) (l : list A) : list (string * A) :=
  match l with
  | [] => []
  | x :: rest => (nat_to_string start, x) :: indexed (S start) rest
  end.

Fixpoint characters (s : string) : list json :=
  match s with
  | EmptyString => []
  | String c rest => JStr (String c EmptyString) :: characters rest
  end.

Definition spread (v : json) : list (string * json) :=
  match v with
  | JObj fields => fields
  | JArr elements => indexed 0 elements
  | JStr s => indexed 0 (characters s)
  | _ => []
  end.

(** [{...a, ...b}] on property lists: the properties of [b] are assigned
    over those of [a]. *)
Definition assign_all (base over : list (string * json)) : list (string * json) :=
  fold_left (fun acc kv => assoc_set acc (fst kv) (snd kv)) over base.

(** [v || {}]. *)
Definition or_empty_object (v : option json) : json :=
  match v with
  | Some x => if js_truthy x then x else JObj []
  | None => JObj []
  end.

Definition provider_defaults : json :=
  JObj [ ("maxLevel", JStr "level3");
         ("minLevel", JStr "level1");
         ("defaultLevel", JStr "level2");
         ("levelOverrides", JObj []) ].

(** [DEFAULT_SETTINGS] as the module declares it: what its object holds
    until something is written into it (see the section on the defaults
    as an object of the module). *)
Definition DEFAULT_SETTINGS : json :=
  JObj [ ("maxModel", JStr "opus");
         ("minModel", JNull);
         ("defaultProvider", JStr "claude");
         ("providerSettings",
          JObj [ ("claude", provider_defaults);
                 ("codex", provider_defaults);
                 ("gemini", provider_defaults) ]);
         ("defaultConfig", JStr "conductor-bootstrap");
         ("defaultDocker", JBool false);
         ("strictSchema", JBool true);
         ("logLevel", JStr "normal");
         ("autoCheckUpdates", JBool true);
         ("lastUpdateCheckAt", JNull);
         ("lastSeenVersion", JNull);
         ("claudeCommand", JStr "claude");
         ("dockerMounts", JArr [JStr "gh"; JStr "git"; JStr "ssh"]);
         ("dockerEnvPassthrough", JArr []);
         ("dockerContainerHome", JStr "/home/node") ].

Definition LEVEL_RANKS (level : string) : option nat :=
  if level =? "level1" then Some 1
  else if level =? "level2" then Some 2
  else if level =? "level3" then Some 3
  else None.

(** [LEVEL_RANKS[v] || fallback].  A level is a string; any other value,
    like a string that names no level, reads as the fallback. *)
Definition level_rank (v : option json) (fallback : nat) : nat :=
  match v with
  | Some (JStr s) =>
    match LEVEL_RANKS s with Some n => n | None => fallback end
  | _ => fallback
  end.

(** [mapLegacyModelToLevel(model)]; [None] is [null]. *)
Definition mapLegacyModelToLevel (m : option json) : option string :=
  match m with
  | Some (JStr s) =>
    if s =? "haiku" then Some "level1"
    else if s =? "sonnet" then Some "level2"
    else if s =? "opus" then Some "level3"
    else None
  | _ => None
  end.

(** [normalizeProviderName(name)] on any value: what is falsy or not a
    string is returned as it is. *)
Definition normalizeProviderName_value (name : json) : json :=
  match name with
  | JStr s => if nonempty s then JStr (normalizeProviderName s) else name
  | _ => name
  end.

(** One step of the loop of [normalizeProviderSettings]. *)
Definition normalize_provider_entry (normalized : list (string * json))
  (entry : string * json) : list (string * json) :=
  let (key, value) := entry in
  let canonical := normalizeProviderName key in
  if negb (includes VALID_PROVIDERS canonical) then
    assoc_set normalized key value
  else
    assoc_set normalized canonical
      (JObj (assign_all
               (spread (or_empty_object (assoc_get normalized canonical)))
               (spread (or_empty_object (Some value))))).

Definition is_canonical (entry : string * json) : bool :=
  normalizeProviderName (fst entry) =? fst entry.

(** [normalizeProviderSettings(providerSettings)]: the entries are sorted,
    aliases first, and merged under their canonical names. *)
Definition normalizeProviderSettings (providerSettings : json) : json :=
  match providerSettings with
  | JObj entries =>
    let aliasFirst :=
      filter (fun e => negb (is_canonical e)) entries
      ++ filter is_canonical entries in
    JObj (fold_left normalize_provider_entry aliasFirst [])
  | _ => providerSettings
  end.

(** [normalizeLoadedSettings(parsed)]; reading a property of [null]
    throws a [TypeError]. *)
Definition normalizeLoadedSettings (parsed : json) : result json :=
  match parsed with
  | JNull => Throw "TypeError: Cannot read properties of null"
  | _ =>
    let normalized := spread parsed in
    let n1 :=
      match get parsed "defaultProvider" with
      | Some v =>
        if js_truthy v
        then assoc_set normalized "defaultProvider" (normalizeProviderName_value v)
        else normalized
      | None => normalized
      end in
    let n2 :=
      match get parsed "providerSettings" with
      | Some v =>
        if js_truthy v
        then assoc_set n1 "providerSettings" (normalizeProviderSettings v)
        else n1
      | None => n1
      end in
    Ok (JObj n2)
  end.

(** [overrides?.[provider]]. *)
Definition optional_get (v : option json) (key : string) : option json :=
  match v with
  | Some x => get x key
  | None => None
  end.

(** [mergeProviderSettings(current, overrides)]. *)
Definition mergeProviderSettings (current : json) (overrides : option json)
  : json :=
  JObj (fold_left
          (fun merged provider =>
             let entry :=
               assign_all (spread (or_empty_object (get current provider)))
                 (spread (or_empty_object (optional_get overrides provider))) in
             let entry' :=
               if opt_truthy (assoc_get entry "levelOverrides") then entry
               else assoc_set entry "levelOverrides" (JObj []) in
             assoc_set merged provider (JObj entry'))
          VALID_PROVIDERS (spread current)).

(** The part of [applyLegacyModelBounds] that acts on the [claude] object:
    the legacy bounds are written, inconsistent bounds are reset, and the
    default level is moved into the bounds. *)
Definition bound_claude_levels (maxModel minModel : option json) (claude : json)
  : json :=
  let legacyMaxLevel := mapLegacyModelToLevel maxModel in
  let legacyMinLevel := mapLegacyModelToLevel minModel in
  let claude1 :=
    match legacyMaxLevel with
    | Some l => set claude "maxLevel" (JStr l)
    | None => claude
    end in
  let claude2 :=
    match legacyMinLevel with
    | Some l => set claude1 "minLevel" (JStr l)
    | None => claude1
    end in
  let minRank := level_rank (get claude2 "minLevel") 1 in
  let maxRank := level_rank (get claude2 "maxLevel") 3 in
  let defaultRank := level_rank (get claude2 "defaultLevel") 2 in
  if Nat.ltb maxRank minRank then
    set (set claude2 "minLevel" (JStr "level1")) "maxLevel" (JStr "level3")
  else if Nat.ltb defaultRank minRank then
    match get claude2 "minLevel" with
    | Some v => set claude2 "defaultLevel" v
    | None => claude2
    end
  else if Nat.ltb maxRank defaultRank then
    match get claude2 "maxLevel" with
    | Some v => set claude2 "defaultLevel" v
    | None => claude2
    end
  else claude2.

(** [applyLegacyModelBounds(settings)]. *)
Definition applyLegacyModelBounds (settings : json) : json :=
  match get settings "providerSettings" with
  | None => settings
  | Some providerSettings =>
    if negb (js_truthy providerSettings) then settings
    else
      let claude := or_empty_object (get providerSettings "claude") in
      set settings "providerSettings"
        (set providerSettings "claude"
           (bound_claude_levels (get settings "maxModel")
              (get settings "minModel") claude))
  end.

(** [settings.providerSettings.claude[field]]. *)
Definition claude_setting (settings : json) (field : string) : option json :=
  match get settings "providerSettings" with
  | Some providerSettings =>
    match get providerSettings "claude" with
    | Some claude => get claude field
    | None => None
    end
  | None => None
  end.

(** The rank of a level name; [0] for a text that names no level. *)
Definition lrank (level : string) : nat :=
  match LEVEL_RANKS level with Some n => n | None => 0 end.

(** The level a legacy model name stands for, or the level given. *)
Definition legacy_or (m : option json) (level : string) : string :=
  match mapLegacyModelToLevel m with Some l => l | None => level end.

(** The settings file as [loadSettings] finds it. *)
Inductive settings_file : Type :=
| file_absent
| file_unreadable
| file_content (data : string).

Section Settings.

Variable JSON_parse : string -> result json.

(** The settings before the legacy bounds are applied: the defaults, the
    parsed properties over them, the provider name normalised and the
    provider settings merged. *)
Definition merge_loaded (parsed : json) : json :=
  let merged := JObj (assign_all (spread DEFAULT_SETTINGS) (spread parsed)) in
  let defaultProvider :=
    match get merged "defaultProvider" with
    | Some v =>
      if js_truthy (normalizeProviderName_value v)
      then normalizeProviderName_value v
      else JStr "claude"
    | None => JStr "claude"
    end in
  let merged1 := set merged "defaultProvider" defaultProvider in
  set merged1 "providerSettings"
    (mergeProviderSettings
       (or_empty_object (get DEFAULT_SETTINGS "providerSettings"))
       (get parsed "providerSettings")).

(** The body of the [try] block of [loadSettings]. *)
Definition loadSettings_try (file : settings_file) : result json :=
  match file with
  | file_absent => Ok DEFAULT_SETTINGS
  | file_unreadable => Throw "EACCES: permission denied"
  | file_content data =>
    match JSON_parse data with
    | Throw e => Throw e
    | Ok document =>
      match normalizeLoadedSettings document with
      | Throw e => Throw e
      | Ok parsed => Ok (applyLegacyModelBounds (merge_loaded parsed))
      end
    end
  end.

(** [loadSettings()]: an absent file and any error give the defaults. *)
Definition loadSettings (file : settings_file) : json :=
  match loadSettings_try file with
  | Ok settings => settings
  | Throw _ => DEFAULT_SETTINGS
  end.

End Settings.

(** *** The defaults as an object of the module

    [loadSettings] returns [{ ...DEFAULT_SETTINGS }], a copy whose nested
    objects are those of the module's own object, and [setupCommand]
    writes into the provider settings of the settings it has loaded.
    After a setup on an absent settings file the module's object
    therefore holds what was written, and no longer what the constant
    [DEFAULT_SETTINGS] holds.  The functions of this section are those
    above for any value [defaults] of the module's object. *)

Section ModuleDefaults.

Variable defaults : json.
Variable JSON_parse : string -> result json.

(** The settings before the legacy bounds are applied.  Reading a
    provider of provider settings that are [null] or missing throws a
    [TypeError]; a missing [defaultProvider] of the defaults is read as
    [null]. *)
Definition merge_loaded_from (parsed : json) : result json :=
  let merged := JObj (assign_all (spread defaults) (spread parsed)) in
  let fallback :=
    match get defaults "defaultProvider" with
    | Some d => d
    | None => JNull
    end in
  let defaultProvider :=
    match get merged "defaultProvider" with
    | Some v =>
      if js_truthy (normalizeProviderName_value v)
      then normalizeProviderName_value v
      else fallback
    | None => fallback
    end in
  let merged1 := set merged "defaultProvider" defaultProvider in
  match get defaults "providerSettings" with
  | None | Some JNull =>
    Throw "TypeError: Cannot read properties of undefined"
  | Some current =>
    Ok (set merged1 "providerSettings"
          (mergeProviderSettings current (get parsed "providerSettings")))
  end.

(** The body of the [try] block of [loadSettings]. *)
Definition loadSettings_try_from (file : settings_file) : result json :=
  match file with
  | file_absent => Ok (JObj (spread defaults))
  | file_unreadable => Throw "EACCES: permission denied"
  | file_content data =>
    match JSON_parse data with
    | Throw e => Throw e
    | Ok document =>
      match normalizeLoadedSettings document with
      | Throw e => Throw e
      | Ok parsed =>
        match merge_loaded_from parsed with
        | Throw e => Throw e
        | Ok merged => Ok (applyLegacyModelBounds merged)
        end
      end
    end
  end.

(** [loadSettings()]: an absent file and any error give a copy of the
    defaults. *)
Definition loadSettings_from (file : settings_file) : json :=
  match loadSettings_try_from file with
  | Ok settings => settings
  | Throw _ => JObj (spread defaults)
  end.

(** What the module's object holds after [setupCommand] has written
    [settings.providerSettings[provider] = entry] into settings that
    share its provider settings, as those loaded from an absent file
    do. *)
Definition defaults_after_setup (provider : string) (entry : json) : json :=
  match get defaults "providerSettings" with
  | Some providerSettings =>
    if js_truthy providerSettings
    then set defaults "providerSettings" (set providerSettings provider entry)
    else defaults
  | None => defaults
  end.

End ModuleDefaults.



(** The keys of the built-in default settings. *)
Definition default_keys : list string := map fst (spread DEFAULT_SETTINGS).

(** A settings file of the time before provider levels. *)
Definition legacy_settings : json :=
  JObj [ ("maxModel", JStr "haiku"); ("logLevel", JStr "verbose") ].

Definition legacy_parse (text : string) : result json :=
  if text =? "legacy" then Ok legacy_settings else Throw "Unexpected token".

(** A level moved into the bounds [[lo, hi]] by rank. *)
Definition clamp_level (level lo hi : string) : string :=
  if Nat.ltb (lrank level) (lrank lo) then lo
  else if Nat.ltb (lrank hi) (lrank level) then hi
  else level.

(** ** Model selection by iteration rules *)

(** Modelled from the spec: the iteration patterns of [modelConfig.rules]
    and of prompt rules, whose matcher lives in [src/agent-wrapper.js],
    a file that is not among the sources (its tests are).  A pattern is
    ["N"] (exactly iteration N), ["N-M"] (the inclusive range), ["N+"]
    (N and every later iteration) or ["all"]. *)
Inductive iteration_pattern : Type :=
| exact_iteration (n : nat)
| iteration_range (n m : nat)
| open_ended (n : nat)
| all_iterations.

Definition dash : ascii := ascii_of_nat 45.
Definition plus : ascii := ascii_of_nat 43.

(** The text before and after the first ['-']. *)
Fixpoint split_at_dash (s : string) : option (string * string) :=
  match s with
  | EmptyString => None
  | String c rest =>
    if Ascii.eqb c dash then Some (EmptyString, rest)
    else
      match split_at_dash rest with
      | Some (a, b) => Some (String c a, b)
      | None => None
      end
  end.

(** The text before a final ['+']. *)
Fixpoint strip_plus (s : string) : option string :=
  match s with
  | EmptyString => None
  | String c rest =>
    match rest with
    | EmptyString => if Ascii.eqb c plus then Some EmptyString else None
    | _ =>
      match strip_plus rest with
      | Some prefix => Some (String c prefix)
      | None => None
      end
    end
  end.

(** Modelled from the spec: reading a pattern; a text of no pattern form
    gives [None] (the tests expect an "Invalid iteration pattern" error
    for it). *)
Definition parse_iteration_pattern (s : string) : option iteration_pattern :=
  if s =? "all" then Some all_iterations
  else
    match strip_plus s with
    | Some prefix => option_map open_ended (string_to_nat prefix)
    | None =>
      match split_at_dash s with
      | Some (a, b) =>
        match string_to_nat a, string_to_nat b with
        | Some n, Some m => Some (iteration_range n m)
        | _, _ => None
        end
      | None => option_map exact_iteration (string_to_nat s)
      end
    end.

(** Modelled from the spec: whether a pattern matches an iteration. *)
Definition pattern_matches (p : iteration_pattern) (iteration : nat) : bool :=
  match p with
  | exact_iteration n => Nat.eqb iteration n
  | iteration_range n m => Nat.leb n iteration && Nat.leb iteration m
  | open_ended n => Nat.leb n iteration
  | all_iterations => true
  end.

(** Modelled from the spec: whether the pattern written as [s] matches;
    [None] for a text that is no pattern. *)
Definition matchesIteration (s : string) (iteration : nat) : option bool :=
  option_map (fun p => pattern_matches p iteration) (parse_iteration_pattern s).

(** Modelled from the spec: the outcome of selecting a rule, a rule or one
    of the two errors. *)
Inductive selection : Type :=
| selected (rule : model_rule)
| NO_MODEL_RULE (iteration : nat)
| INVALID_PATTERN (pattern : string).

(** Modelled from the spec: the rule branch of [AgentWrapper._selectModel]
    ([src/agent-wrapper.js], not among the sources).  The rules are tried
    in declared order and the first whose pattern matches the current
    iteration is taken; when none matches, selection fails with
    [NO_MODEL_RULE] for that iteration. *)
Fixpoint selectModelRule (rs : list model_rule) (iteration : nat) : selection :=
  match rs with
  | [] => NO_MODEL_RULE iteration
  | rule :: rest =>
    match matchesIteration (iterations rule) iteration with
    | Some true => selected rule
    | Some false => selectModelRule rest iteration
    | None => INVALID_PATTERN (iterations rule)
    end
  end.

(** A decimal digit, and a text of decimal digits only. *)
Definition is_digit (c : ascii) : bool :=
  let n := nat_of_ascii c in Nat.leb 48 n && Nat.leb n 57.

Fixpoint digits_only (s : string) : bool :=
  match s with
  | EmptyString => true
  | String c rest => is_digit c && digits_only rest
  end.

(** The patterns as they are written for given bounds. *)
Definition exact_text (n : nat) : string := nat_to_string n.
Definition range_text (n m : nat) : string :=
  nat_to_string n ++ String dash (nat_to_string m).
Definition open_ended_text (n : nat) : string :=
  nat_to_string n ++ String plus EmptyString.

(* ================================================================== *)
(** * Part I, continued: the functions around the ones above *)
(* ================================================================== *)

(** The names of the members that every object inherits from
    [Object.prototype].  A table written as an object literal answers a
    lookup under one of these names with the inherited member; the tables
    below are read on their own entries only, and the properties about them
    are stated for the other names. *)
Definition OBJECT_PROTOTYPE_MEMBERS : list string :=
  [ "constructor"; "__defineGetter__"; "__defineSetter__"; "hasOwnProperty";
    "__lookupGetter__"; "__lookupSetter__"; "isPrototypeOf";
    "propertyIsEnumerable"; "toString"; "valueOf"; "__proto__";
    "toLocaleString" ].

Definition own_name (name : string) : bool :=
  negb (includes OBJECT_PROTOTYPE_MEMBERS name).

(** ** lib/provider-names.js, continued *)

(** The keys of an object, in enumeration order. *)
Definition keys_of {A : Type} (fields : list (string * A)) : list string :=
  map fst fields.

(** Whether a name stands for a provider: a canonical name or an alias,
    in any letter case. *)
Definition known_provider (name : string) : bool :=
  match assoc_get PROVIDER_ALIASES (toLowerCase name) with
  | Some _ => true
  | None => false
  end.

(** The entries of a provider settings object in the order in which
    [normalizeProviderSettings] visits them. *)
Definition aliasFirst (entries : list (string * json)) : list (string * json) :=
  filter (fun e => negb (is_canonical e)) entries ++ filter is_canonical entries.

(** The entries that name a given provider. *)
Definition entries_for (provider : string) (entries : list (string * json))
  : list (string * json) :=
  filter (fun e => normalizeProviderName (fst e) =? provider) entries.

(** [{...a, ...b, ...}] over the values of a list of entries, from left to
    right, each value read as [value || {}]. *)
Definition merge_entries (base : list (string * json))
  (entries : list (string * json)) : list (string * json) :=
  fold_left
    (fun acc e => assign_all acc (spread (or_empty_object (Some (snd e)))))
    entries base.

(** What the loop of [normalizeProviderSettings] keeps true of the object
    it builds: distinct canonical keys, and under each provider name an
    object with distinct keys. *)
Definition normalized_entries (acc : list (string * json)) : Prop :=
  NoDup (keys_of acc)
  /\ forall k v, In (k, v) acc ->
       normalizeProviderName k = k
       /\ (In k VALID_PROVIDERS ->
           exists fields, v = JObj fields /\ NoDup (keys_of fields)).

(** ** lib/settings.js, continued *)

(** The fields of the settings of one provider. *)
Definition PROVIDER_FIELDS : list string :=
  ["maxLevel"; "minLevel"; "defaultLevel"; "levelOverrides"].

(** [settings.providerSettings[provider]]. *)
Definition provider_entry (settings : json) (provider : string) : option json :=
  match get settings "providerSettings" with
  | Some providerSettings => get providerSettings provider
  | None => None
  end.

(** A provider entry that is an object with every field of the defaults
    and a truthy [levelOverrides]. *)
Definition complete_entry (entry : option json) : Prop :=
  exists fields,
    entry = Some (JObj fields)
    /\ (forall f, In f PROVIDER_FIELDS -> assoc_get fields f <> None)
    /\ opt_truthy (assoc_get fields "levelOverrides") = true.


(** ** lib/settings.js: the command that starts the Claude CLI *)

(** Whether a string holds a white space character. *)
Fixpoint has_space (s : string) : bool :=
  match s with
  | EmptyString => false
  | String c rest => is_space c || has_space rest
  end.

(** [s.split(/\s+/)]: the parts of [s] between maximal runs of white
    space, at least one part.  [in_gap] tells that the character before
    was white space. *)
Fixpoint split_spaces_from (in_gap : bool) (s : string) : list string :=
  match s with
  | EmptyString => [EmptyString]
  | String c rest =>
    if is_space c then
      if in_gap then split_spaces_from true rest
      else EmptyString :: split_spaces_from true rest
    else
      match split_spaces_from false rest with
      | [] => [String c EmptyString]
      | part :: parts => String c part :: parts
      end
  end.

Definition split_spaces (s : string) : list string := split_spaces_from false s.

(** Words: non-empty strings without white space. *)
Definition clean_words (parts : list string) : Prop :=
  Forall (fun p => p <> EmptyString /\ has_space p = false) parts.

(** The object that [getClaudeCommand] returns; [parts[0]] of an empty
    array would be [undefined]. *)
Record claude_command : Type := {
  command : option string;
  args : list string
}.

(** [process.env.ZEROSHOT_CLAUDE_COMMAND || settings.claudeCommand || 'claude']. *)
Definition raw_claude_command (ZEROSHOT_CLAUDE_COMMAND : option string)
  (settings : json) : json :=
  match or_null ZEROSHOT_CLAUDE_COMMAND with
  | Some s => JStr s
  | None =>
    match get settings "claudeCommand" with
    | Some v => if js_truthy v then v else JStr "claude"
    | None => JStr "claude"
    end
  end.

(** [raw.trim().split(/\s+/)] cut into the command and its arguments; a
    truthy value that is not a string has no [trim]. *)
Definition parse_claude_command (raw : json) : result claude_command :=
  match raw with
  | JStr s =>
    let parts := split_spaces (trim s) in
    Ok {| command := hd_error parts; args := tl parts |}
  | _ => Throw "TypeError: raw.trim is not a function"
  end.

Section ClaudeCommand.

Variable JSON_parse : string -> result json.

(** [getClaudeCommand()], given the settings file and the environment
    variable. *)
Definition getClaudeCommand (file : settings_file)
  (ZEROSHOT_CLAUDE_COMMAND : option string) : result claude_command :=
  let settings := loadSettings JSON_parse file in
  parse_claude_command (raw_claude_command ZEROSHOT_CLAUDE_COMMAND settings).

End ClaudeCommand.

(** ** lib/settings.js: validating and coercing one setting *)

(** [key in DEFAULT_SETTINGS]: the operator follows the prototype chain,
    so the members of [Object.prototype] are in the object as well. *)
Definition in_DEFAULT_SETTINGS (key : string) : bool :=
  includes default_keys key || includes OBJECT_PROTOTYPE_MEMBERS key.

(** [list.includes(value)] on an array of strings: only a string is
    strictly equal to an element. *)
Definition includes_value (l : list string) (v : json) : bool :=
  match v with
  | JStr s => includes l s
  | _ => false
  end.

Definition is_null (v : json) : bool :=
  match v with JNull => true | _ => false end.

Definition is_string (v : json) : bool :=
  match v with JStr _ => true | _ => false end.

(** [typeof v === 'object' && v !== null && !Array.isArray(v)]. *)
Definition is_plain_object (v : json) : bool :=
  match v with JObj _ => true | _ => false end.

Definition LOG_LEVELS : list string := ["quiet"; "normal"; "verbose"].

(** The first error of a sequence of checks. *)
Definition first_error (a b : option string) : option string :=
  match a with Some e => Some e | None => b end.

Section SettingValues.

(** The text of a number, [parseInt], [JSON.parse] and the validators of
    [docker-config.js]. *)
Variable number_text : QArith_base.Q -> string.
Variable parseInt : json -> option QArith_base.Q.
Variable JSON_parse : string -> result json.
Variable validateMountConfig validateEnvPassthrough : json -> option string.

(** The text of a value in a template literal and as a property key. *)
Fixpoint to_text (v : json) : string :=
  match v with
  | JNull => "null"
  | JBool true => "true"
  | JBool false => "false"
  | JNum q => number_text q
  | JStr s => s
  | JArr items =>
    join ","
      (map (fun x => match x with JNull => EmptyString | _ => to_text x end)
         items)
  | JObj _ => "[object Object]"
  end.

(** [LEVEL_RANKS[level]] is truthy: an own entry, all of which are
    positive numbers, or an inherited member. *)
Definition level_known (level : json) : bool :=
  includes VALID_LEVELS (to_text level)
  || includes OBJECT_PROTOTYPE_MEMBERS (to_text level).

(** [settings[field] && !LEVEL_RANKS[settings[field]]]. *)
Definition level_error (provider : string) (settings : json) (field : string)
  : option string :=
  match get settings field with
  | Some level =>
    if js_truthy level && negb (level_known level)
    then Some ("Invalid " ++ field ++ " for " ++ provider ++ ": " ++ to_text level)%string
    else None
  | None => None
  end.

(** The checks on one entry of the normalised provider settings. *)
Definition provider_entry_error (provider : string) (settings : json)
  : option string :=
  if negb (includes VALID_PROVIDERS provider) then
    Some ("Unknown provider in providerSettings: " ++ provider)%string
  else if negb (is_object settings) then
    Some ("providerSettings." ++ provider ++ " must be an object")%string
  else
    first_error (level_error provider settings "maxLevel")
      (first_error (level_error provider settings "minLevel")
         (first_error (level_error provider settings "defaultLevel")
            (match get settings "levelOverrides" with
             | Some o =>
               if js_truthy o && negb (is_plain_object o)
               then Some ("levelOverrides for " ++ provider ++ " must be an object")%string
               else None
             | None => None
             end))).

(** The loop over the entries: the first error is returned. *)
Fixpoint provider_entries_error (entries : list (string * json))
  : option string :=
  match entries with
  | [] => None
  | (provider, settings) :: rest =>
    first_error (provider_entry_error provider settings)
      (provider_entries_error rest)
  end.

Definition providerSettings_error (value : json) : option string :=
  let normalizedSettings := normalizeProviderSettings value in
  if negb (is_plain_object value) then Some "providerSettings must be an object"
  else provider_entries_error (spread (or_empty_object (Some normalizedSettings))).

Definition claudeCommand_error (value : json) : option string :=
  match value with
  | JStr s =>
    if trim s =? EmptyString then Some "claudeCommand cannot be empty" else None
  | _ => Some "claudeCommand must be a string"
  end.

Definition defaultProvider_error (value : json) : option string :=
  let normalized := normalizeProviderName_value value in
  if negb (includes_value VALID_PROVIDERS normalized) then
    Some ("Invalid provider: " ++ to_text value ++ ". Valid providers: "
          ++ join ", " VALID_PROVIDERS)%string
  else None.

(** [validateSetting(key, value)]: an error message, or [None] for the
    [null] of a valid setting. *)
Definition validateSetting (key : string) (value : json) : option string :=
  if negb (in_DEFAULT_SETTINGS key) then Some ("Unknown setting: " ++ key)%string
  else if (key =? "maxModel") && negb (includes_value VALID_MODELS value) then
    Some ("Invalid model: " ++ to_text value ++ ". Valid models: "
          ++ join ", " VALID_MODELS)%string
  else if (key =? "minModel") && negb (is_null value)
          && negb (includes_value VALID_MODELS value) then
    Some ("Invalid model: " ++ to_text value ++ ". Valid models: "
          ++ join ", " VALID_MODELS ++ ", null")%string
  else if (key =? "logLevel") && negb (includes_value LOG_LEVELS value) then
    Some ("Invalid log level: " ++ to_text value
          ++ ". Valid levels: quiet, normal, verbose")%string
  else
    first_error (if key =? "claudeCommand" then claudeCommand_error value else None)
      (first_error
         (if key =? "defaultProvider" then defaultProvider_error value else None)
         (first_error
            (if key =? "providerSettings" then providerSettings_error value
             else None)
            (if key =? "dockerMounts" then validateMountConfig value
             else if key =? "dockerEnvPassthrough" then validateEnvPassthrough value
             else None))).

(** [value === 'true' || value === '1' || value === 'yes' || value === true]. *)
Definition reads_true (value : json) : bool :=
  match value with
  | JStr s => (s =? "true") || (s =? "1") || (s =? "yes")
  | JBool b => b
  | _ => false
  end.

(** [value === 'null' || value === null]. *)
Definition reads_null (value : json) : bool :=
  match value with
  | JStr s => s =? "null"
  | JNull => true
  | _ => false
  end.

(** [coerceValue(key, value)]; the type of the default decides. *)
Definition coerceValue (key : string) (value : json) : result json :=
  let defaultValue := get DEFAULT_SETTINGS key in
  if (key =? "minModel") && reads_null value then Ok JNull
  else
    match defaultValue with
    | Some (JBool _) => Ok (JBool (reads_true value))
    | Some (JNum _) =>
      match parseInt value with
      | Some parsed => Ok (JNum parsed)
      | None => Throw ("Invalid number: " ++ to_text value)%string
      end
    | Some (JArr _) =>
      match value with
      | JStr s =>
        match JSON_parse s with
        | Ok (JArr parsed) => Ok (JArr parsed)
        | Ok _ => Throw (key ++ " must be an array")%string
        | Throw _ => Throw ("Invalid JSON for " ++ key ++ ": " ++ s)%string
        end
      | _ => Ok value
      end
    | _ =>
      if key =? "providerSettings" then
        match value with
        | JStr s =>
          match JSON_parse s with
          | Ok parsed => Ok (normalizeProviderSettings parsed)
          | Throw _ => Throw ("Invalid JSON for providerSettings: " ++ s)%string
          end
        | _ => Ok (normalizeProviderSettings value)
        end
      else if key =? "defaultProvider" then Ok (normalizeProviderName_value value)
      else Ok value
    end.

End SettingValues.

(** Stand-ins for the runtime and for the validators of the Docker
    settings, for examples. *)
Definition example_number_text (q : QArith_base.Q) : string := "0".
Definition example_parseInt (v : json) : option QArith_base.Q := None.
Definition no_docker_error (v : json) : option string := None.



(** ** task-lib/store.js, continued: the store under its lock *)

(** [writeFileSync(path, data)] at time [now]: the file is created or
    replaced.  The directory that holds the file is taken to exist; the
    callers have run [ensureDirs]. *)
Definition writeFileSync (now : ms) (fs : file_system) (path data : string)
  : result file_system :=
  match assoc_get fs path with
  | Some (directory _) => Throw "EISDIR: illegal operation on a directory"
  | _ => Ok (assoc_set fs path (regular_file data now))
  end.

(** The text that an update under the lock reads from a store file: its
    content, or the [{}] with which a missing file is created. *)
Definition store_text (fs : file_system) (path : string) : option string :=
  match assoc_get fs path with
  | Some (regular_file content _) => Some content
  | Some (directory _) => None
  | None => Some "{}"
  end.

(** The content of a regular file. *)
Definition content_of (fs : file_system) (path : string) : option string :=
  match assoc_get fs path with
  | Some (regular_file content _) => Some content
  | _ => None
  end.

Section LockedStore.

Variable TASKS_DIR TASKS_FILE LOGS_DIR SCHEDULES_FILE : string.

(** [JSON.parse], and [JSON.stringify(value, null, 2)]. *)
Variable JSON_parse : string -> result json.
Variable JSON_stringify : json -> string.

(** The library [proper-lockfile]: [lock(file, options)] takes the lock of
    a file or fails, and the function it resolves to releases the lock. *)
Variable lockfile_lock :
  string -> lock_options -> file_system -> result file_system.
Variable lockfile_release : string -> file_system -> result file_system.

(** [new Date(now).toISOString()] and the text of a number. *)
Variable toISOString : ms -> string.
Variable number_text : QArith_base.Q -> string.

(** What the runtime does with a property of a value that is neither
    [null] nor a plain object (an array, a string, a number, a boolean):
    reading, assigning and deleting it. *)
Variable other_read : json -> string -> result (option json).
Variable other_write : json -> string -> json -> result json.
Variable other_delete : json -> string -> result json.

(** [v[key]], [v[key] = x] and [delete v[key]] in a module, that is in
    strict mode; [None] is [undefined]. *)
Definition read_member (v : json) (key : string) : result (option json) :=
  match v with
  | JObj fields => Ok (assoc_get fields key)
  | JNull => Throw "TypeError: Cannot read properties of null"
  | _ => other_read v key
  end.

Definition write_member (v : json) (key : string) (x : json) : result json :=
  match v with
  | JObj fields => Ok (JObj (assoc_set fields key x))
  | JNull => Throw "TypeError: Cannot set properties of null"
  | _ => other_write v key x
  end.

Definition delete_member (v : json) (key : string) : result json :=
  match v with
  | JObj fields => Ok (JObj (assoc_remove fields key))
  | JNull => Throw "TypeError: Cannot convert undefined or null to object"
  | _ => other_delete v key
  end.

(** The key that a value names as a property: [undefined] names
    ["undefined"]. *)
Definition property_key (v : option json) : string :=
  match v with
  | Some x => to_text number_text x
  | None => "undefined"
  end.

(** [saveTasks(tasks)] and [saveSchedules(schedules)]. *)
Definition saveTasks (now : ms) (fs : file_system) (tasks : json)
  : result file_system :=
  writeFileSync now (ensureDirs TASKS_DIR LOGS_DIR now fs) TASKS_FILE
    (JSON_stringify tasks).

Definition saveSchedules (now : ms) (fs : file_system) (schedules : json)
  : result file_system :=
  writeFileSync now (ensureDirs TASKS_DIR LOGS_DIR now fs) SCHEDULES_FILE
    (JSON_stringify schedules).

(** A modifier changes the document it is given and returns a value, or
    throws; [None] is [undefined]. *)
Definition modifier : Type := json -> result (json * option json).

(** The part of [withTasksLock] and [withSchedulesLock] that runs with
    the lock held: read, parse, modify, write back. *)
Definition locked_update (path name : string) (m : modifier) (now : ms)
  (fs : file_system) : file_system * result (option json) :=
  match readFileSync fs path with
  | Throw e => (fs, Throw e)
  | Ok content =>
    match JSON_parse content with
    | Throw message =>
      (fs, Throw ("CRITICAL: " ++ name ++ " is corrupted. Error: " ++ message)%string)
    | Ok document =>
      match m document with
      | Throw e => (fs, Throw e)
      | Ok (document', value) =>
        match writeFileSync now fs path (JSON_stringify document') with
        | Throw e => (fs, Throw e)
        | Ok fs' => (fs', Ok value)
        end
      end
    end
  end.

(** The two functions are the same text up to the file and its name in
    the error message.  The file is created when it is missing; a stale
    lock is removed; when the lock is taken the update runs and the lock
    is released whatever the update did; an error of the release takes
    the place of the outcome. *)
Definition with_file_lock (path name : string) (m : modifier) (now : ms)
  (fs : file_system) : file_system * result (option json) :=
  let fs1 := ensureDirs TASKS_DIR LOGS_DIR now fs in
  match (if negb (existsSync fs1 path) then writeFileSync now fs1 path "{}"
         else Ok fs1) with
  | Throw e => (fs1, Throw e)
  | Ok fs2 =>
    let fs3 := cleanStaleLock now path fs2 in
    match lockfile_lock path LOCK_OPTIONS fs3 with
    | Throw e => (fs3, Throw e)
    | Ok fs4 =>
      let (fs5, outcome) := locked_update path name m now fs4 in
      match lockfile_release path fs5 with
      | Throw e => (fs5, Throw e)
      | Ok fs6 => (fs6, outcome)
      end
    end
  end.

Definition withTasksLock : modifier -> ms -> file_system
  -> file_system * result (option json) :=
  with_file_lock TASKS_FILE "tasks.json".

Definition withSchedulesLock : modifier -> ms -> file_system
  -> file_system * result (option json) :=
  with_file_lock SCHEDULES_FILE "schedules.json".

(** [getTask(id)] and [getSchedule(id)]. *)
Definition getTask (id : string) (now : ms) (fs : file_system)
  : file_system * result (option json) :=
  match loadTasks TASKS_DIR TASKS_FILE LOGS_DIR JSON_parse now fs with
  | (fs', Ok tasks) => (fs', read_member tasks id)
  | (fs', Throw e) => (fs', Throw e)
  end.

Definition getSchedule (id : string) (now : ms) (fs : file_system)
  : file_system * result (option json) :=
  match loadSchedules TASKS_DIR LOGS_DIR SCHEDULES_FILE JSON_parse now fs with
  | (fs', Ok schedules) => (fs', read_member schedules id)
  | (fs', Throw e) => (fs', Throw e)
  end.

(** The modifier of [updateTask] and [updateSchedule]. *)
Definition update_entry (id : string) (updates : json) (now : ms) : modifier :=
  fun document =>
    match read_member document id with
    | Throw e => Throw e
    | Ok current =>
      if negb (opt_truthy current) then Ok (document, Some JNull)
      else
        let merged :=
          JObj (assign_all
                  (assign_all (spread (or_empty_object current)) (spread updates))
                  [("updatedAt", JStr (toISOString now))]) in
        match write_member document id merged with
        | Throw e => Throw e
        | Ok document' =>
          match read_member document' id with
          | Throw e => Throw e
          | Ok value => Ok (document', value)
          end
        end
    end.

(** The modifier of [addTask] and [addSchedule]; [entry.id] is read
    first. *)
Definition add_entry (entry : json) : modifier :=
  fun document =>
    match read_member entry "id" with
    | Throw e => Throw e
    | Ok id =>
      match write_member document (property_key id) entry with
      | Throw e => Throw e
      | Ok document' => Ok (document', Some entry)
      end
    end.

(** The modifier of [removeTask] and [removeSchedule]. *)
Definition remove_entry (id : string) : modifier :=
  fun document =>
    match delete_member document id with
    | Throw e => Throw e
    | Ok document' => Ok (document', None)
    end.

Definition updateTask (id : string) (updates : json) (now : ms)
  : file_system -> file_system * result (option json) :=
  withTasksLock (update_entry id updates now) now.

Definition addTask (task : json) : ms -> file_system
  -> file_system * result (option json) :=
  withTasksLock (add_entry task).

(** [removeTask] awaits the update and returns nothing. *)
Definition removeTask (id : string) (now : ms) (fs : file_system)
  : file_system * result (option json) :=
  match withTasksLock (remove_entry id) now fs with
  | (fs', Ok _) => (fs', Ok None)
  | (fs', Throw e) => (fs', Throw e)
  end.

Definition updateSchedule (id : string) (updates : json) (now : ms)
  : file_system -> file_system * result (option json) :=
  withSchedulesLock (update_entry id updates now) now.

Definition addSchedule (schedule : json) : ms -> file_system
  -> file_system * result (option json) :=
  withSchedulesLock (add_entry schedule).

Definition removeSchedule (id : string) (now : ms) (fs : file_system)
  : file_system * result (option json) :=
  match withSchedulesLock (remove_entry id) now fs with
  | (fs', Ok _) => (fs', Ok None)
  | (fs', Throw e) => (fs', Throw e)
  end.

(** A lock library that leaves every other file alone. *)
Definition lock_frame : Prop :=
  (forall path fs fs' other,
      lockfile_lock path LOCK_OPTIONS fs = Ok fs' ->
      other <> lock_path path -> assoc_get fs' other = assoc_get fs other)
  /\ (forall path fs fs' other,
        lockfile_release path fs = Ok fs' ->
        other <> lock_path path -> assoc_get fs' other = assoc_get fs other).

(** The store file is not one of the directories. *)
Definition file_apart (path : string) : Prop :=
  path <> TASKS_DIR /\ path <> LOGS_DIR.

End LockedStore.

(** A lock kept as a directory beside the file, as [proper-lockfile]
    does, for examples. *)
Definition example_lock (path : string) (o : lock_options) (fs : file_system)
  : result file_system :=
  if existsSync fs (lock_path path) then Throw "ELOCKED: Lock file is already being held"
  else Ok (assoc_set fs (lock_path path) (directory (ms_of_Z 0))).

Definition example_release (path : string) (fs : file_system)
  : result file_system :=
  Ok (assoc_remove fs (lock_path path)).

Definition example_task : json :=
  JObj [ ("id", JStr "task-1"); ("status", JStr "running") ].

Definition example_tasks : json := JObj [ ("task-1", example_task) ].

(** A printer and a parser that agree on two documents. *)
Definition example_stringify (v : json) : string :=
  match v with
  | JObj [] => "{}"
  | _ => "tasks"
  end.

Definition example_parse_tasks (text : string) : result json :=
  if text =? "{}" then Ok (JObj [])
  else if text =? "tasks" then Ok example_tasks
  else Throw "Unexpected token".

Definition example_toISOString (t : ms) : string := "1970-01-01T00:00:00.000Z".

Definition no_other_read (v : json) (key : string) : result (option json) :=
  Ok None.
Definition no_other_write (v : json) (key : string) (x : json) : result json :=
  Ok v.
Definition no_other_delete (v : json) (key : string) : result json := Ok v.

(** An empty state directory. *)
Definition fresh_fs : file_system := [].

(** A state directory with one task in the store, and one whose store
    holds the empty object. *)
Definition tasks_fs : file_system :=
  [ ("/state", directory (ms_of_Z 0));
    ("/state/logs", directory (ms_of_Z 0));
    ("/state/tasks.json", regular_file "tasks" (ms_of_Z 10)) ].

Definition empty_store_fs : file_system :=
  [ ("/state", directory (ms_of_Z 0));
    ("/state/logs", directory (ms_of_Z 0));
    ("/state/tasks.json", regular_file "{}" (ms_of_Z 10)) ].

Definition example_updates : json := JObj [ ("status", JStr "completed") ].

(** ** src/providers/base-provider.js: the levels of a provider *)

(** An entry of a [LEVEL_MAPPING]; [None] is [null]. *)
Record level_spec : Type := {
  entry_rank : Z;
  entry_model : option string;
  entry_reasoningEffort : option string
}.

(** What a provider class gives to the methods of [BaseProvider]. *)
Record provider : Type := {
  provider_name : string;
  getLevelMapping : list (string * level_spec);
  getDefaultLevel : string;
  getModelCatalog : list (string * json)
}.

(** [mapping[key]?.rank]; [None] is [undefined]. *)
Definition rank_of (mapping : list (string * level_spec)) (key : string)
  : option Z :=
  match assoc_get mapping key with
  | Some spec => Some (entry_rank spec)
  | None => None
  end.

(** [a > b] on numbers that may be [undefined]: a comparison with
    [undefined] is false. *)
Definition number_gt (a b : option Z) : bool :=
  match a, b with
  | Some x, Some y => Z.ltb y x
  | _, _ => false
  end.

Definition has_level (mapping : list (string * level_spec)) (key : string)
  : bool :=
  match assoc_get mapping key with Some _ => true | None => false end.

(** [validateLevel(level, minLevel, maxLevel)]. *)
Definition validateLevel (p : provider) (level : string)
  (minLevel maxLevel : option string) : result string :=
  let mapping := getLevelMapping p in
  let rank := rank_of mapping in
  let for_provider := (" for provider " ++ quote (provider_name p))%string in
  if negb (has_level mapping level) then
    Throw ("Invalid level " ++ quote level ++ for_provider)%string
  else if truthy minLevel && negb (has_level mapping (or_empty minLevel)) then
    Throw ("Invalid minLevel " ++ quote (or_empty minLevel) ++ for_provider)%string
  else if truthy maxLevel && negb (has_level mapping (or_empty maxLevel)) then
    Throw ("Invalid maxLevel " ++ quote (or_empty maxLevel) ++ for_provider)%string
  else if truthy minLevel && truthy maxLevel
          && number_gt (rank (or_empty minLevel)) (rank (or_empty maxLevel)) then
    Throw ("minLevel " ++ quote (or_empty minLevel) ++ " exceeds maxLevel "
           ++ quote (or_empty maxLevel) ++ for_provider)%string
  else if truthy maxLevel
          && number_gt (rank level) (rank (or_empty maxLevel)) then
    Throw ("Level " ++ quote level ++ " exceeds maxLevel "
           ++ quote (or_empty maxLevel) ++ for_provider)%string
  else if truthy minLevel
          && number_gt (rank (or_empty minLevel)) (rank level) then
    Throw ("Level " ++ quote level ++ " is below minLevel "
           ++ quote (or_empty minLevel) ++ for_provider)%string
  else Ok level.

(** [validateModelId(modelId)]. *)
Definition validateModelId (p : provider) (modelId : option string)
  : result (option string) :=
  if truthy modelId
     && negb (opt_truthy (assoc_get (getModelCatalog p) (or_empty modelId)))
  then Throw ("Invalid model " ++ quote (or_empty modelId) ++ " for provider "
              ++ quote (provider_name p))%string
  else Ok modelId.

(** ** src/providers/openai: the Codex levels *)

Definition LEVEL_MAPPING : list (string * level_spec) :=
  [ ("level1", {| entry_rank := 1; entry_model := None;
                  entry_reasoningEffort := Some "low" |});
    ("level2", {| entry_rank := 2; entry_model := None;
                  entry_reasoningEffort := Some "medium" |});
    ("level3", {| entry_rank := 3; entry_model := None;
                  entry_reasoningEffort := Some "high" |}) ].

Definition OpenAIProvider : provider :=
  {| provider_name := "codex";
     getLevelMapping := LEVEL_MAPPING;
     getDefaultLevel := "level2";
     getModelCatalog := [] |}.

(** ** cli/commands/providers.js: setting up the levels of a provider *)

(** [levels[key].rank] for a key of [levels]. *)
Definition rank_key (levels : list (string * level_spec)) (key : string) : Z :=
  match assoc_get levels key with
  | Some spec => entry_rank spec
  | None => 0%Z
  end.

(** [keys.sort((a, b) => rank(a) - rank(b))]: the sort is stable, so each
    key goes behind the keys before it that rank no higher. *)
Fixpoint insert_by (rank : string -> Z) (key : string) (sorted : list string)
  : list string :=
  match sorted with
  | [] => [key]
  | k :: rest =>
    if Z.ltb (rank key) (rank k) then key :: sorted
    else k :: insert_by rank key rest
  end.

Definition sort_by (rank : string -> Z) (keys : list string) : list string :=
  fold_left (fun sorted key => insert_by rank key sorted) keys [].

(** The keys of the levels, cheapest first. *)
Definition levelKeys (levels : list (string * level_spec)) : list string :=
  sort_by (rank_key levels) (keys_of levels).

(** [x || fallback] on the result of [parseInt]: [NaN], here [None], and
    [0] are falsy. *)
Definition or_number (x : option Z) (fallback : Z) : Z :=
  match x with
  | Some v => if Z.eqb v 0 then fallback else v
  | None => fallback
  end.

(** [keys[index - 1]]; [None] is [undefined]. *)
Definition key_at (keys : list string) (index : Z) : option string :=
  if Z.ltb (index - 1) 0 then None else nth_error keys (Z.to_nat (index - 1)).

(** The three indices that the setup computes. *)
Record level_choice : Type := {
  minIdx : Z;
  maxIdx : Z;
  defaultIdxNum : Z
}.

Section ProviderSetup.

(** [parseInt] on an answer ([None] is [NaN]; an infinite result is an
    integer beyond every index), and the lines that the user types, in
    the order of the questions. *)
Variable parseInt : string -> option Z.
Variable typed : nat -> string.

(** [question(rl, prompt)] resolves to the trimmed answer. *)
Definition question (n : nat) : string := trim (typed n).

(** The answers to the first three questions, as indices into the sorted
    levels. *)
Definition choose_levels (count : Z) : level_choice :=
  let maxIdxRaw := question 0 in
  let minIdxRaw := question 1 in
  let maxIdxNum := Z.min count (Z.max 1 (or_number (parseInt maxIdxRaw) count)) in
  let minIdxNum := Z.min count (Z.max 1 (or_number (parseInt minIdxRaw) 1)) in
  let minIdx_ := Z.min minIdxNum maxIdxNum in
  let maxIdx_ := Z.max minIdxNum maxIdxNum in
  let defaultIdxRaw := question 2 in
  {| minIdx := minIdx_;
     maxIdx := maxIdx_;
     defaultIdxNum :=
       Z.min maxIdx_ (Z.max minIdx_ (or_number (parseInt defaultIdxRaw) maxIdx_)) |}.

(** The loop over the levels that asks for a model and, for Codex, for a
    reasoning effort; [next] counts the questions asked so far. *)
Fixpoint ask_overrides (codex : bool) (levels : list string) (next : nat)
  (levelOverrides : list (string * json)) : list (string * json) :=
  match levels with
  | [] => levelOverrides
  | level :: rest =>
    let modelChoice := question next in
    let overrides1 :=
      if nonempty modelChoice
      then assoc_set levelOverrides level (JObj [("model", JStr modelChoice)])
      else levelOverrides in
    if codex then
      let reasoning := question (S next) in
      let overrides2 :=
        if nonempty reasoning
        then assoc_set overrides1 level
               (JObj (assign_all
                        (spread (or_empty_object (assoc_get overrides1 level)))
                        [("reasoningEffort", JStr reasoning)]))
        else overrides1 in
      ask_overrides codex rest (S (S next)) overrides2
    else ask_overrides codex rest (S next) overrides1
  end.

(** A property whose value may be [undefined]; [JSON.stringify] leaves
    such a property out. *)
Definition defined_field (name : string) (value : option string)
  : list (string * json) :=
  match value with
  | Some v => [(name, JStr v)]
  | None => []
  end.

(** The settings of the provider as the setup saves them. *)
Definition setup_entry (p : provider) (provider_key : string) : json :=
  let levels := getLevelMapping p in
  let keys := levelKeys levels in
  let choice := choose_levels (Z.of_nat (List.length keys)) in
  let wantsOverrides := question 3 in
  let levelOverrides :=
    if toLowerCase wantsOverrides =? "y"
    then ask_overrides (provider_key =? "codex") keys 4 []
    else [] in
  JObj (defined_field "maxLevel" (key_at keys (maxIdx choice))
        ++ defined_field "minLevel" (key_at keys (minIdx choice))
        ++ defined_field "defaultLevel" (key_at keys (defaultIdxNum choice))
        ++ [("levelOverrides", JObj levelOverrides)]).

(** The settings that the setup passes to [saveSettings]. *)
Definition setup_settings (p : provider) (provider_key : string)
  (settings : json) : json :=
  let providerSettings := or_empty_object (get settings "providerSettings") in
  set settings "providerSettings"
    (set providerSettings provider_key (setup_entry p provider_key)).

End ProviderSetup.

(** Answers for examples: every level, level 2 as the floor, no
    overrides. *)
Definition example_parseInt_answer (s : string) : option Z :=
  if s =? "2" then Some 2%Z else if s =? "9" then Some 9%Z else None.

Definition example_typed (n : nat) : string :=
  match n with
  | 0 => " 9 "
  | 1 => "2"
  | _ => EmptyString
  end.

(** ** lib/settings.js: saving the settings *)

(** The settings file after [saveSettings(settings)] has returned: it
    holds [JSON.stringify(settings, null, 2)]. *)
Definition saveSettings (JSON_stringify : json -> string) (settings : json)
  : settings_file :=
  file_content (JSON_stringify settings).

(** The entry that the setup saves for a provider with a level. *)
Definition level_entry (lmax lmin ldefault : string)
  (levelOverrides : list (string * json)) : json :=
  JObj [ ("maxLevel", JStr lmax); ("minLevel", JStr lmin);
         ("defaultLevel", JStr ldefault);
         ("levelOverrides", JObj levelOverrides) ].

(** The settings that a setup of Codex saves over the defaults, with a
    printer and a parser that agree on them. *)
Definition saved_codex_settings : json :=
  setup_settings example_parseInt_answer example_typed OpenAIProvider "codex"
    DEFAULT_SETTINGS.

Definition saved_stringify (v : json) : string := "saved".

Definition saved_parse (text : string) : result json :=
  if text =? "saved" then Ok saved_codex_settings else Throw "Unexpected token".

(** ** src/providers/index.js: the events in a chunk of the log *)

Definition line_feed : ascii := ascii_of_nat 10.
Definition carriage_return : ascii := ascii_of_nat 13.

(** [chunk.split('\n')]. *)
Fixpoint split_lines (s : string) : list string :=
  match s with
  | EmptyString => [EmptyString]
  | String c rest =>
    if Ascii.eqb c line_feed then EmptyString :: split_lines rest
    else
      match split_lines rest with
      | [] => [String c EmptyString]
      | line :: lines => String c line :: lines
      end
  end.

(** The replacement of a carriage return at the very end of the string
    by nothing. *)
Fixpoint drop_final_cr (s : string) : string :=
  match s with
  | EmptyString => EmptyString
  | String c EmptyString =>
    if Ascii.eqb c carriage_return then EmptyString else s
  | String c rest => String c (drop_final_cr rest)
  end.

(** [n] digits at the start of a string: what follows them. *)
Fixpoint take_digits (n : nat) (s : string) : option string :=
  match n with
  | O => Some s
  | S n' =>
    match s with
    | String c rest => if is_digit c then take_digits n' rest else None
    | EmptyString => None
    end
  end.

(** Whether the rest of a line can be matched to its end: among the
    characters of the ASCII range, the dot of a regular expression
    matches all but the line feed and the carriage return. *)
Fixpoint one_line (s : string) : bool :=
  match s with
  | EmptyString => true
  | String c rest =>
    negb (Ascii.eqb c line_feed) && negb (Ascii.eqb c carriage_return)
    && one_line rest
  end.

(** A time stamp in brackets, thirteen digits, at the start of a line:
    what follows it on the line, when the line has this form. *)
Definition timestamp_rest (s : string) : option string :=
  match s with
  | String c rest =>
    if Ascii.eqb c "["%char then
      match take_digits 13 rest with
      | Some (String d tail) =>
        if Ascii.eqb d "]"%char && one_line tail then Some tail else None
      | _ => None
      end
    else None
  | EmptyString => None
  end.

(** [stripTimestampPrefix(line)] on a string. *)
Definition stripTimestampPrefix (line : string) : string :=
  if line =? EmptyString then EmptyString
  else
    let trimmed := drop_final_cr (trim line) in
    if trimmed =? EmptyString then EmptyString
    else
      match timestamp_rest trimmed with
      | Some rest => rest
      | None => trimmed
      end.

(** What [provider.parseEvent] returns: nothing (a falsy value), one
    event, or an array of events. *)
Inductive parsed (A : Type) : Type :=
| no_event
| one_event (event : A)
| event_list (events : list A).
Arguments no_event {A}.
Arguments one_event {A} event.
Arguments event_list {A} events.

Section ChunkParsing.

(** The events, the state that the parser of a provider keeps between
    lines, and the parser, which may throw. *)
Variable event : Type.
Variable parser_state : Type.
Variable parseEvent : parser_state -> string -> parser_state * result (parsed event).

(** The loop over the lines of [parseChunkWithProvider]. *)
Fixpoint parse_lines (lines : list string) (st : parser_state)
  (events : list event) : parser_state * result (list event) :=
  match lines with
  | [] => (st, Ok events)
  | line :: rest =>
    let content := stripTimestampPrefix line in
    if content =? EmptyString then parse_lines rest st events
    else
      match parseEvent st content with
      | (st', Throw e) => (st', Throw e)
      | (st', Ok no_event) => parse_lines rest st' events
      | (st', Ok (one_event e)) => parse_lines rest st' (events ++ [e])
      | (st', Ok (event_list es)) => parse_lines rest st' (events ++ es)
      end
  end.

(** [parseChunkWithProvider(provider, chunk)]. *)
Definition parseChunkWithProvider (chunk : string) (st : parser_state)
  : parser_state * result (list event) :=
  if chunk =? EmptyString then (st, Ok [])
  else parse_lines (split_lines chunk) st [].

(** One chunk after another. *)
Definition parse_then (first second : string) (st : parser_state)
  : parser_state * result (list event) :=
  match parseChunkWithProvider first st with
  | (st1, Throw e) => (st1, Throw e)
  | (st1, Ok events1) =>
    match parseChunkWithProvider second st1 with
    | (st2, Throw e) => (st2, Throw e)
    | (st2, Ok events2) => (st2, Ok (events1 ++ events2))
    end
  end.

End ChunkParsing.

(** A line of a log with its time stamp, between white space. *)
Definition timestamped_line : string :=
  ("  [1721088000000]{}" ++ String carriage_return EmptyString)%string.

(** A parser for examples: a line is an event, and the state counts the
    lines. *)
Definition count_lines (st : nat) (line : string)
  : nat * result (parsed string) :=
  (S st, Ok (one_event line)).

(** ** src/providers/openai/cli-builder.js: strict schemas for Codex *)

(** [result.type === 'object']. *)
Definition type_is_object (result : list (string * json)) : bool :=
  match assoc_get result "type" with
  | Some (JStr t) => t =? "object"
  | _ => false
  end.

(** [Object.entries(v)] of a property that may be missing. *)
Definition entries_of (v : option json) : list (string * json) :=
  match v with
  | Some x => spread x
  | None => []
  end.

Definition COMBINATORS : list string := ["anyOf"; "oneOf"; "allOf"].

Section EnforceStep.

(** The function that the body of [enforceStrictSchema] calls on the
    schemas inside the schema: the function itself. *)
Variable recur : json -> json.

(** The steps of the body, each on the copy [result] of the schema. *)
Definition strict_object (result : list (string * json))
  : list (string * json) :=
  if type_is_object result
  then assoc_set result "additionalProperties" (JBool false)
  else result.

(** The keys of an object are distinct, so the loop that assigns the
    entries one by one to an empty object gives the entries in turn. *)
Definition strict_properties (schema : json) (result : list (string * json))
  : list (string * json) :=
  if opt_truthy (assoc_get result "properties") then
    assoc_set result "properties"
      (JObj (map (fun entry => (fst entry, recur (snd entry)))
               (entries_of (get schema "properties"))))
  else result.

Definition strict_items (schema : json) (result : list (string * json))
  : list (string * json) :=
  if opt_truthy (assoc_get result "items") then
    match get schema "items" with
    | Some items => assoc_set result "items" (recur items)
    | None => result
    end
  else result.

Definition strict_combinator (result : list (string * json)) (key : string)
  : list (string * json) :=
  match assoc_get result key with
  | Some (JArr schemas) => assoc_set result key (JArr (map recur schemas))
  | _ => result
  end.

Definition strict_additional (result : list (string * json))
  : list (string * json) :=
  match assoc_get result "additionalProperties" with
  | Some additional =>
    if js_truthy additional && is_object additional
    then assoc_set result "additionalProperties" (recur additional)
    else result
  | None => result
  end.

(** The body of [enforceStrictSchema]. *)
Definition enforce_step (schema : json) : json :=
  if negb (js_truthy schema && is_object schema) then schema
  else
    JObj (strict_additional
            (fold_left strict_combinator COMBINATORS
               (strict_items schema
                  (strict_properties schema
                     (strict_object (spread schema)))))).

End EnforceStep.

(** The nesting of a value. *)
Fixpoint depth (v : json) : nat :=
  match v with
  | JArr items => S (list_max (map depth items))
  | JObj fields =>
    S (list_max (map (fun field => match field with (_, x) => depth x end)
                   fields))
  | _ => 0
  end.

(** The body, unfolded as often as the recursion can go. *)
Fixpoint enforce_to (fuel : nat) (schema : json) : json :=
  match fuel with
  | O => schema
  | S n => enforce_step (enforce_to n) schema
  end.

(** [enforceStrictSchema(schema)]: the recursion goes into the schema, so
    its nesting bounds it. *)
Definition enforceStrictSchema (schema : json) : json :=
  enforce_to (depth schema) schema.

(** A schema for examples: an object with an object among its
    properties and a list of objects. *)
Definition nested_schema : json :=
  JObj [ ("type", JStr "object");
         ("properties",
          JObj [ ("name", JObj [("type", JStr "string")]);
                 ("address",
                  JObj [ ("type", JStr "object");
                         ("properties",
                          JObj [("city", JObj [("type", JStr "string")])]) ]);
                 ("tags",
                  JObj [ ("type", JStr "array");
                         ("items", JObj [("type", JStr "object")]) ]) ]) ].

(** A schema inside a schema: the schema itself, a schema inside one of
    its properties, inside its items, inside one of the alternatives of
    [anyOf], [oneOf] and [allOf], or inside the schema of its additional
    properties. *)
Inductive inside_schema : json -> json -> Prop :=
| inside_self (s : json) : inside_schema s s
| inside_property (fields properties : list (string * json)) (k : string)
    (v t : json) :
    assoc_get fields "properties" = Some (JObj properties) ->
    In (k, v) properties -> inside_schema v t ->
    inside_schema (JObj fields) t
| inside_items (fields : list (string * json)) (v t : json) :
    assoc_get fields "items" = Some v -> inside_schema v t ->
    inside_schema (JObj fields) t
| inside_combinator (fields : list (string * json)) (key : string)
    (schemas : list json) (v t : json) :
    In key COMBINATORS ->
    assoc_get fields key = Some (JArr schemas) -> In v schemas ->
    inside_schema v t ->
    inside_schema (JObj fields) t
| inside_additional (fields : list (string * json)) (v t : json) :
    assoc_get fields "additionalProperties" = Some v -> inside_schema v t ->
    inside_schema (JObj fields) t.

(** A list whose one element is described by position. *)
Definition tuple_schema : json :=
  JObj [ ("type", JStr "array");
         ("items", JArr [JObj [("type", JStr "object")]]) ].

(** The schema of the address in the example. *)
Definition address_schema : json :=
  JObj [ ("type", JStr "object");
         ("properties", JObj [("city", JObj [("type", JStr "string")])]);
         ("additionalProperties", JBool false) ].

(** ** src/providers/openai/cli-builder.js: the Codex command *)

(** What the help of a CLI shows it to support: the flags of
    [cliFeatures] that the command builders read. *)
Record cli_features : Type := {
  supportsJson : bool;
  supportsStreamJson : bool;
  supportsOutputSchema : bool;
  supportsAutoApprove : bool;
  supportsCwd : bool;
  supportsConfigOverride : bool
}.

(** The options of the [buildCommand] of a provider; a schema is a
    value or its JSON text. *)
Record build_options : Type := {
  build_modelSpec : option modelSpec;
  build_outputFormat : option string;
  build_jsonSchema : option json;
  build_cwd : option string;
  build_autoApprove : bool;
  build_cliFeatures : cli_features
}.

(** The command that [buildCommand] returns, and the schema file that it
    has written on the way, as path and content. *)
Record codex_command : Type := {
  binary : string;
  command_args : list string;
  cleanup : list string;
  written_file : option (string * string)
}.

(** The paragraph that carries the schema in the prompt. *)
Definition codex_schema_prompt (schemaStr : string) : string :=
  newline ++ newline ++ "## OUTPUT FORMAT (CRITICAL - REQUIRED)"
  ++ newline ++ newline
  ++ "You MUST respond with a JSON object that exactly matches this schema. NO markdown, NO explanation, NO code blocks. ONLY the raw JSON object."
  ++ newline ++ newline ++ "Schema:" ++ newline
  ++ code_fence ++ "json" ++ newline ++ schemaStr ++ newline ++ code_fence
  ++ newline ++ newline
  ++ "Your response must be ONLY valid JSON. Start with { and end with }. Nothing else.".

Section CodexCommand.

(** [JSON.parse], [JSON.stringify(value, null, 2)] and the path of the
    temporary file, made from the time and a random number. *)
Variable JSON_parse : string -> result json.
Variable JSON_stringify : json -> string.
Variable schemaFile : string.

(** The flags that come before the schema and the prompt. *)
Definition codex_flags (options : build_options) : list string :=
  let features := build_cliFeatures options in
  let modelSpec := build_modelSpec options in
  (if (match build_outputFormat options with
       | Some f => (f =? "stream-json") || (f =? "json")
       | None => false
       end) && supportsJson features
   then ["--json"] else [])
  ++ push_flag "-m"
       (match modelSpec with Some spec => spec_model spec | None => None end)
  ++ (match modelSpec with
      | Some spec =>
        if truthy (spec_reasoningEffort spec) && supportsConfigOverride features
        then ["--config";
              ("model_reasoning_effort="
               ++ quote (or_empty (spec_reasoningEffort spec)))%string]
        else []
      | None => []
      end)
  ++ (if truthy (build_cwd options) && supportsCwd features
      then ["-C"; or_empty (build_cwd options)] else [])
  ++ (if build_autoApprove options && supportsAutoApprove features
      then ["--dangerously-bypass-approvals-and-sandbox"] else []).

(** [buildCommand(context, options)]. *)
Definition buildCommand (context : string) (options : build_options)
  : result codex_command :=
  let args := "exec" :: codex_flags options in
  let jsonSchema := build_jsonSchema options in
  if opt_truthy jsonSchema
     && supportsOutputSchema (build_cliFeatures options) then
    match (match jsonSchema with
           | Some (JStr text) => JSON_parse text
           | Some value => Ok value
           | None => Ok JNull
           end) with
    | Throw e => Throw e
    | Ok parsedSchema =>
      let strictSchema := enforceStrictSchema parsedSchema in
      let schemaStr := JSON_stringify strictSchema in
      Ok {| binary := "codex";
            command_args := args ++ ["--output-schema"; schemaFile] ++ [context];
            cleanup := [schemaFile];
            written_file := Some (schemaFile, schemaStr) |}
    end
  else if opt_truthy jsonSchema then
    let schemaStr :=
      match jsonSchema with
      | Some (JStr text) => text
      | Some value => JSON_stringify value
      | None => EmptyString
      end in
    Ok {| binary := "codex";
          command_args := args ++ [(context ++ codex_schema_prompt schemaStr)%string];
          cleanup := [];
          written_file := None |}
  else
    Ok {| binary := "codex";
          command_args := args ++ [context];
          cleanup := [];
          written_file := None |}.

End CodexCommand.

(** Options for examples: a schema, and a CLI with every feature. *)
Definition full_features : cli_features :=
  {| supportsJson := true; supportsStreamJson := true;
     supportsOutputSchema := true;
     supportsAutoApprove := true; supportsCwd := true;
     supportsConfigOverride := true |}.

Definition codex_example_options : build_options :=
  {| build_modelSpec :=
       Some {| spec_model := None; spec_reasoningEffort := Some "high" |};
     build_outputFormat := Some "json";
     build_jsonSchema := Some nested_schema;
     build_cwd := None;
     build_autoApprove := false;
     build_cliFeatures := full_features |}.

(** ** cli/lib/first-run.js: the first-run setup *)

(** [list[idx]] for a number that may be negative: [undefined] outside
    the list. *)
Definition entry_at {A : Type} (l : list A) (idx : Z) : option A :=
  if Z.ltb idx 0 then None else nth_error l (Z.to_nat idx).

(** What [checkFirstRun] comes to: nothing to do, the settings that it
    has saved, or the exit of the process with code 1. *)
Inductive first_run : Type :=
| not_needed
| set_up (saved : json)
| process_exit.

(** The answer of [promptModel] and of [promptAutoUpdate] to what the
    user typed. *)
Definition promptModel (answer : string) : string :=
  let choice := if nonempty (trim answer) then trim answer else "2" in
  if choice =? "2" then "opus"
  else if choice =? "3" then "haiku"
  else "sonnet".

Definition promptAutoUpdate (answer : string) : bool :=
  let normalized := toLowerCase (trim answer) in
  (normalized =? EmptyString) || (normalized =? "y") || (normalized =? "yes").

(** [detectFirstRun(settings)]. *)
Definition detectFirstRun (settings : json) : bool :=
  negb (opt_truthy (get settings "firstRunComplete")).

Section FirstRun.

(** [parseInt] ([None] is [NaN]), [isAvailable()] of the provider of a
    name, what the user types at each question, and the settings file
    with its parser. *)
Variable parseInt : string -> option Z.
Variable isAvailable : string -> bool.
Variable typed : nat -> string.
Variable JSON_parse : string -> result json.

(** [detectProviders()]: name and [available] of each provider. *)
Definition detectProviders : list (string * bool) :=
  map (fun name => (name, isAvailable name)) PROVIDER_KEYS.

(** [parseInt(answer) - 1 || 0]. *)
Definition choice_index (answer : string) : Z :=
  match parseInt answer with
  | Some n => (n - 1)%Z
  | None => 0%Z
  end.

(** [promptProvider(rl, detected)]; [None] when the process exits for
    want of a provider. *)
Definition promptProvider (answer : string) (detected : list (string * bool))
  : option string :=
  let available := filter (fun entry => snd entry) detected in
  match available with
  | [] => None
  | first :: _ =>
    Some (match entry_at available (choice_index answer) with
          | Some (name, _) => if nonempty name then name else fst first
          | None => fst first
          end)
  end.

(** [checkFirstRun(options)] on the settings file; the settings of
    [set_up] are those handed to [saveSettings]. *)
Definition checkFirstRun (file : settings_file) (quiet : bool) : first_run :=
  let settings := loadSettings JSON_parse file in
  if negb (detectFirstRun settings) then not_needed
  else if quiet then set_up (set settings "firstRunComplete" (JBool true))
  else
    match promptProvider (typed 0) detectProviders with
    | None => process_exit
    | Some provider =>
      let s1 := set settings "defaultProvider" (JStr provider) in
      let s2 := set s1 "maxModel" (JStr (promptModel (typed 1))) in
      let s3 := set s2 "autoCheckUpdates" (JBool (promptAutoUpdate (typed 2))) in
      set_up (set s3 "firstRunComplete" (JBool true))
    end.

End FirstRun.

(** A user who asks for the fifth provider of two and then presses
    return twice, on a machine with Codex and Gemini. *)
Definition first_run_typed (question : nat) : string :=
  match question with
  | O => "5"
  | _ => EmptyString
  end.

Definition first_run_parseInt (text : string) : option Z :=
  if text =? "5" then Some 5%Z else None.

Definition first_run_available (name : string) : bool :=
  negb (name =? "claude").

(** ** src/providers/google/cli-builder.js: the Gemini command *)

Module Gemini.

(** The command that [buildCommand] returns. *)
Record command : Type := {
  binary : string;
  args : list string
}.

(** The paragraph that carries the schema in the prompt. *)
Definition schema_prompt (schemaStr : string) : string :=
  newline ++ newline ++ "## OUTPUT FORMAT (CRITICAL - REQUIRED)"
  ++ newline ++ newline
  ++ "You MUST respond with a JSON object that exactly matches this schema. NO markdown, NO explanation, NO code blocks. ONLY the raw JSON object."
  ++ newline ++ newline
  ++ "Schema:" ++ newline
  ++ code_fence ++ "json" ++ newline
  ++ schemaStr ++ newline
  ++ code_fence ++ newline ++ newline
  ++ "Your response must be ONLY valid JSON. Start with { and end with }. Nothing else.".

Section Command.

(** [JSON.stringify(value, null, 2)]. *)
Variable JSON_stringify : json -> string.

(** [finalContext]: the context, with the schema when there is one. *)
Definition finalContext (context : string) (options : build_options)
  : string :=
  let jsonSchema := build_jsonSchema options in
  if opt_truthy jsonSchema then
    let schemaStr :=
      match jsonSchema with
      | Some (JStr text) => text
      | Some value => JSON_stringify value
      | None => EmptyString
      end in
    (context ++ schema_prompt schemaStr)%string
  else context.

(** [buildCommand(context, options)]. *)
Definition buildCommand (context : string) (options : build_options)
  : command :=
  let features := build_cliFeatures options in
  {| binary := "gemini";
     args :=
       ["-p"; finalContext context options]
       ++ (if (match build_outputFormat options with
               | Some f => (f =? "stream-json") || (f =? "json")
               | None => false
               end) && supportsStreamJson features
           then ["--output-format"; "stream-json"] else [])
       ++ push_flag "-m"
            (match build_modelSpec options with
             | Some spec => spec_model spec
             | None => None
             end)
       ++ (if truthy (build_cwd options) && supportsCwd features
           then ["--cwd"; or_empty (build_cwd options)] else [])
       ++ (if build_autoApprove options && supportsAutoApprove features
           then ["--yolo"] else []) |}.

End Command.

End Gemini.

(** The example options for a CLI without [--output-schema]. *)
Definition prompt_schema_options : build_options :=
  {| build_modelSpec := build_modelSpec codex_example_options;
     build_outputFormat := Some "json";
     build_jsonSchema := Some nested_schema;
     build_cwd := Some "/repo";
     build_autoApprove := true;
     build_cliFeatures :=
       {| supportsJson := true; supportsStreamJson := true;
          supportsOutputSchema := false; supportsAutoApprove := true;
          supportsCwd := true; supportsConfigOverride := false |} |}.

(** ** src/github.js: the number of an issue *)

(** What follows a prefix in a string that starts with it. *)
Fixpoint strip_prefix (prefix s : string) : option string :=
  match prefix with
  | EmptyString => Some s
  | String a prefix' =>
    match s with
    | String b s' => if Ascii.eqb a b then strip_prefix prefix' s' else None
    | EmptyString => None
    end
  end.

(** The longest run of digits at the start of a string. *)
Fixpoint leading_digits (s : string) : string :=
  match s with
  | String c rest =>
    if is_digit c then String c (leading_digits rest) else EmptyString
  | EmptyString => EmptyString
  end.

(** The pattern of [_extractIssueNumber] tried at the start of a string:
    the text [/issues/] and then one digit or more, as many as there
    are; the result is the group of digits. *)
Definition issue_at (s : string) : option string :=
  match strip_prefix "/issues/" s with
  | Some rest =>
    let digits := leading_digits rest in
    if nonempty digits then Some digits else None
  | None => None
  end.

(** [issueRef.match] with that pattern: the first place, from the left,
    where it matches. *)
Fixpoint issue_match (s : string) : option string :=
  match issue_at s with
  | Some digits => Some digits
  | None =>
    match s with
    | String _ rest => issue_match rest
    | EmptyString => None
    end
  end.

(** [GitHub._extractIssueNumber(issueRef)]. *)
Definition _extractIssueNumber (issueRef : string) : string :=
  match issue_match issueRef with
  | Some digits => digits
  | None => issueRef
  end.

(** ** task-lib/claude-recovery.js: the transcript of a session *)

(** An entry of a directory as [readdirSync] lists it with its type: a
    file, a directory with what [readdirSync] gives for it in turn
    ([None] when it throws), or anything else. *)
Inductive dirent : Type :=
| dirent_file (name : string)
| dirent_directory (name : string) (listing : option (list dirent))
| dirent_other (name : string).

(** The number of directories in and below an entry. *)
Fixpoint dirent_size (e : dirent) : nat :=
  match e with
  | dirent_directory _ (Some entries) =>
    S (list_sum (map dirent_size entries))
  | dirent_directory _ None => 1
  | _ => 0
  end.

(** A directory that waits on the queue: its path and its listing. *)
Definition queued : Type := (string * option (list dirent))%type.

(** The number of directories that a queue will bring to the loop. *)
Definition listing_size (listing : option (list dirent)) : nat :=
  S (match listing with
     | Some entries => list_sum (map dirent_size entries)
     | None => 0
     end).

Definition queue_size (queue : list queued) : nat :=
  list_sum (map (fun item : queued => listing_size (snd item)) queue).

Section SessionSearch.

(** [path.join] on two segments, the variable [CLAUDE_CONFIG_DIR] of the
    environment and the home directory. *)
Variable path_join : string -> string -> string.
Variable CLAUDE_CONFIG_DIR : option string.
Variable homedir : string.

(** [projectsDir]. *)
Definition projectsDir : string :=
  let claudeDir :=
    if truthy CLAUDE_CONFIG_DIR then or_empty CLAUDE_CONFIG_DIR
    else path_join homedir ".claude" in
  path_join claudeDir "projects".

(** The loop over the entries of one directory: the path of the file
    looked for, or the queue with the directories pushed onto it.  The
    top of the queue, where [push] and [pop] work, is the head of the
    list. *)
Fixpoint scan_entries (dir target : string) (entries : list dirent)
  (queue : list queued) : string + list queued :=
  match entries with
  | [] => inr queue
  | dirent_file name :: rest =>
    if name =? target then inl (path_join dir name)
    else scan_entries dir target rest queue
  | dirent_directory name listing :: rest =>
    scan_entries dir target rest ((path_join dir name, listing) :: queue)
  | dirent_other _ :: rest => scan_entries dir target rest queue
  end.

(** The [while] loop, for a number of rounds. *)
Fixpoint search_queue (rounds : nat) (target : string) (queue : list queued)
  : option string :=
  match rounds with
  | O => None
  | S rounds' =>
    match queue with
    | [] => None
    | (dir, listing) :: rest =>
      if negb (nonempty dir) then search_queue rounds' target rest
      else
        match listing with
        | None => search_queue rounds' target rest
        | Some entries =>
          match scan_entries dir target entries rest with
          | inl found => Some found
          | inr queue' => search_queue rounds' target queue'
          end
        end
    end
  end.

(** [findSessionJsonlPath(sessionId)] where the projects directory is
    absent ([None]) or has a listing; every round of the loop takes one
    directory off the queue, so there are no more rounds than
    directories. *)
Definition findSessionJsonlPath (projects : option (option (list dirent)))
  (sessionId : string) : option string :=
  match projects with
  | None => None
  | Some listing =>
    let target := (sessionId ++ ".jsonl")%string in
    let queue := [(projectsDir, listing)] in
    search_queue (queue_size queue) target queue
  end.

(** A file of the given name lies in a directory or, through listings
    that can be read, below it, at the given path. *)
Inductive file_below (target : string)
  : string -> list dirent -> string -> Prop :=
| file_here (dir : string) (entries : list dirent) :
    In (dirent_file target) entries ->
    file_below target dir entries (path_join dir target)
| file_deeper (dir : string) (entries : list dirent) (name : string)
    (listing : list dirent) (path : string) :
    In (dirent_directory name (Some listing)) entries ->
    file_below target (path_join dir name) listing path ->
    file_below target dir entries path.

End SessionSearch.

(** A projects directory with two projects, one of them unreadable, and
    the transcript of session [s1] two levels down. *)
Definition slash_join (a b : string) : string := a ++ "/" ++ b.

Definition example_projects : list dirent :=
  [ dirent_file "settings.json";
    dirent_directory "alpha"
      (Some [ dirent_file "s0.jsonl";
              dirent_directory "nested" (Some [dirent_file "s1.jsonl"]) ]);
    dirent_directory "beta" None;
    dirent_other "link" ].
(* ================================================================== *)
(** * Part II: properties *)
(* ================================================================== *)

(** ** Model ceiling and floor *)

Lemma includes_In (l : list string) (s : string) :
  includes l s = true <-> In s l.
Proof.
  unfold includes. rewrite existsb_exists. split.
  - intros [x [Hin Heq]]. apply String.eqb_eq in Heq. now subst.
  - intros Hin. exists s. split; [assumption | apply String.eqb_refl].
Qed.

Lemma valid_model_cases (m : string) :
  In m VALID_MODELS -> m = "opus" \/ m = "sonnet" \/ m = "haiku".
Proof.
  unfold VALID_MODELS. simpl. intuition.
Qed.

Example rank_order : rank "haiku" < rank "sonnet" /\ rank "sonnet" < rank "opus".
Proof. vm_compute. lia. Qed.

Lemma validateModelAgainstMax_bounds (requested maxModel : string)
  (minModel : option string) :
  In requested VALID_MODELS ->
  In maxModel VALID_MODELS ->
  (forall m, minModel = Some m -> In m VALID_MODELS) ->
  if out_of_bounds requested maxModel minModel
  then throws (validateModelAgainstMax (Some requested) maxModel minModel) = true
  else validateModelAgainstMax (Some requested) maxModel minModel = Ok requested.
Proof.
  intros Hr Hm Hmin.
  apply valid_model_cases in Hr. apply valid_model_cases in Hm.
  destruct minModel as [mn|].
  - specialize (Hmin mn eq_refl). apply valid_model_cases in Hmin.
    destruct Hr as [-> | [-> | ->]], Hm as [-> | [-> | ->]],
      Hmin as [-> | [-> | ->]]; vm_compute; reflexivity.
  - destruct Hr as [-> | [-> | ->]], Hm as [-> | [-> | ->]];
      vm_compute; reflexivity.
Qed.

Lemma legacy_model_valid (m : string) :
  In m VALID_MODELS -> legacy_model (Some m) = true.
Proof.
  intros H. apply valid_model_cases in H.
  destruct H as [-> | [-> | ->]]; reflexivity.
Qed.

(** A rule list with one out-of-bounds rule is rejected, wherever the rule
    stands in the list. *)
Lemma validate_rules_rejects (agent maxModel : string)
  (minModel : option string) (rs : list model_rule) (r : model_rule) :
  In r rs ->
  legacy_model (rule_model r) = true ->
  throws (validateModelAgainstMax (rule_model r) maxModel minModel) = true ->
  throws (validate_rules agent maxModel minModel rs) = true.
Proof.
  intros Hin Hlegacy Hthrows.
  induction rs as [|r0 rest IH]; [contradiction|].
  simpl.
  destruct Hin as [-> | Hin].
  - rewrite Hlegacy, Hthrows. reflexivity.
  - destruct (legacy_model (rule_model r0)).
    + destruct (throws (validateModelAgainstMax (rule_model r0) maxModel minModel));
        simpl; [reflexivity|].
      destruct (invalid_level (rule_modelLevel r0)); [reflexivity | auto].
    + simpl. destruct (invalid_level (rule_modelLevel r0)); [reflexivity | auto].
Qed.

(** A rule list is accepted when every legacy model it names is within the
    bounds and every level it names is a valid level. *)
Lemma validate_rules_accepts (agent maxModel : string)
  (minModel : option string) (rs : list model_rule) :
  (forall r, In r rs ->
     legacy_model (rule_model r) = true ->
     throws (validateModelAgainstMax (rule_model r) maxModel minModel) = false) ->
  (forall r, In r rs -> invalid_level (rule_modelLevel r) = None) ->
  validate_rules agent maxModel minModel rs = Ok tt.
Proof.
  induction rs as [|r0 rest IH]; intros Hm Hl; [reflexivity|].
  simpl.
  destruct (legacy_model (rule_model r0)) eqn:Hleg.
  - rewrite (Hm r0 (or_introl eq_refl) Hleg). simpl.
    rewrite (Hl r0 (or_introl eq_refl)).
    apply IH; intros; [apply Hm | apply Hl]; simpl; auto.
  - simpl. rewrite (Hl r0 (or_introl eq_refl)).
    apply IH; intros; [apply Hm | apply Hl]; simpl; auto.
Qed.

(** C1. With the requested model, the ceiling and the floor (when present)
    among haiku, sonnet and opus, [validateModelAgainstMax] throws exactly
    when the requested model ranks above [maxModel] or below [minModel],
    and returns the requested model otherwise.  [validateAgentConfig]
    applies the check to the static model and to every model rule: a
    configuration whose static model, or one of whose rules, is out of
    bounds is rejected when the configuration is validated. *)
Theorem validateModelAgainstMax_enforces_bounds
  (requested maxModel : string) (minModel : option string) :
  In requested VALID_MODELS ->
  In maxModel VALID_MODELS ->
  (forall m, minModel = Some m -> In m VALID_MODELS) ->
  (throws (validateModelAgainstMax (Some requested) maxModel minModel)
     = out_of_bounds requested maxModel minModel)
  /\ (out_of_bounds requested maxModel minModel = false ->
      validateModelAgainstMax (Some requested) maxModel minModel = Ok requested)
  /\ (out_of_bounds requested maxModel minModel = true ->
      forall config : agent_config,
        (modelRules config = None -> model config = Some requested ->
         throws (validateAgentConfig (bounds_of maxModel minModel) config) = true)
        /\ (forall rs r, modelRules config = Some rs -> In r rs ->
            rule_model r = Some requested ->
            throws (validateAgentConfig (bounds_of maxModel minModel) config) = true))
  /\ (out_of_bounds requested maxModel minModel = false ->
      forall config : agent_config,
        modelRules config = None -> model config = Some requested ->
        invalid_level (or_null (modelLevel config)) = None ->
        validateAgentConfig (bounds_of maxModel minModel) config
        = Ok (static (Some requested) (or_null (modelLevel config)))).
Proof.
  intros Hr Hm Hmin.
  pose proof (validateModelAgainstMax_bounds requested maxModel minModel Hr Hm Hmin) as H.
  assert (Hmax : or_null (Some maxModel) = Some maxModel).
  { apply valid_model_cases in Hm. destruct Hm as [-> | [-> | ->]]; reflexivity. }
  assert (Hmn : or_null minModel = minModel).
  { destruct minModel as [mn|]; [|reflexivity].
    specialize (Hmin mn eq_refl). apply valid_model_cases in Hmin.
    destruct Hmin as [-> | [-> | ->]]; reflexivity. }
  assert (Hreq : or_null (Some requested) = Some requested).
  { apply valid_model_cases in Hr. destruct Hr as [-> | [-> | ->]]; reflexivity. }
  destruct (out_of_bounds requested maxModel minModel) eqn:Hout.
  - split; [assumption|]. split; [discriminate|]. split; [|discriminate].
    intros _ config. split.
    + intros Hrules Hmodel.
      unfold validateAgentConfig, build_modelConfig, bounds_of; simpl.
      rewrite Hrules, Hmodel, Hmax, Hmn, Hreq.
      rewrite (legacy_model_valid requested Hr).
      destruct (validateModelAgainstMax (Some requested) maxModel minModel);
        [discriminate H | reflexivity].
    + intros rs r Hrules Hin Hmodel.
      unfold validateAgentConfig, build_modelConfig, bounds_of; simpl.
      rewrite Hrules, Hmax, Hmn.
      assert (Hth : throws (validate_rules (id config) maxModel minModel rs) = true).
      { apply validate_rules_rejects with (r := r); try assumption.
        - rewrite Hmodel. apply legacy_model_valid, Hr.
        - rewrite Hmodel. exact H. }
      destruct (validate_rules (id config) maxModel minModel rs);
        [discriminate Hth | reflexivity].
  - split; [rewrite H; reflexivity|]. split; [intros _; exact H|].
    split; [discriminate|].
    intros _ config Hrules Hmodel Hlevel.
    unfold validateAgentConfig, build_modelConfig, bounds_of; simpl.
    rewrite Hrules, Hmodel, Hmax, Hmn, Hreq.
    rewrite (legacy_model_valid requested Hr), H, Hlevel. reflexivity.
Qed.

Lemma validateModelAgainstMax_enforces_bounds_witness :
  throws (validateModelAgainstMax (Some "opus") "sonnet" (Some "haiku")) = true
  /\ validateModelAgainstMax (Some "sonnet") "opus" (Some "haiku") = Ok "sonnet".
Proof.
  split.
  - refine (eq_trans
      (proj1 (validateModelAgainstMax_enforces_bounds "opus" "sonnet" (Some "haiku") _ _ _))
      eq_refl).
    + simpl; auto.
    + simpl; auto.
    + intros m Hm; injection Hm as <-; simpl; auto.
  - refine (proj1 (proj2
      (validateModelAgainstMax_enforces_bounds "sonnet" "opus" (Some "haiku") _ _ _))
      eq_refl).
    + simpl; auto.
    + simpl; auto.
    + intros m Hm; injection Hm as <-; simpl; auto.
Defined.

(** The cases of the ceiling tests: a static model and a late rule above
    the ceiling, with the messages the tests look for. *)
Example validateAgentConfig_static_above_ceiling :
  validateAgentConfig (bounds_of "sonnet" None)
    {| id := "worker"; model := Some "opus"; modelLevel := None;
       modelRules := None |}
  = Throw ("Agent " ++ quote "worker" ++ ": Agent requests " ++ quote "opus"
           ++ " but maxModel is " ++ quote "sonnet"
           ++ ". Either lower agent's model or raise maxModel.").
Proof. vm_compute. reflexivity. Qed.

Example validateAgentConfig_late_rule_above_ceiling :
  validateAgentConfig (bounds_of "sonnet" None)
    {| id := "late-escalator"; model := None; modelLevel := None;
       modelRules := Some [ model_for "1" "haiku"; model_for "2-10" "sonnet";
                            model_for "11+" "opus" ] |}
  = Throw ("Agent " ++ quote "late-escalator" ++ ": modelRule " ++ quote "11+"
           ++ " requests " ++ quote "opus" ++ " but maxModel is "
           ++ quote "sonnet"
           ++ ". Either adjust the rule's model or change maxModel/minModel settings.").
Proof. vm_compute. reflexivity. Qed.

Example validateAgentConfig_rules_within_ceiling :
  throws (validateAgentConfig (bounds_of "opus" None)
            {| id := "flexible-worker"; model := None; modelLevel := None;
               modelRules := Some [ model_for "1" "haiku"; model_for "2-5" "sonnet";
                                    model_for "6+" "opus" ] |})
  = false.
Proof. vm_compute. reflexivity. Qed.

(** C9, as the code has it.  With no requested model ([null],
    [undefined] or the empty string) [validateModelAgainstMax] returns
    the ceiling as it is: neither the validity of [maxModel] nor the
    floor is looked at.  [validateAgentConfig] never makes that call: for
    an agent with no model and no rules the model of its configuration
    stays [null], whatever the ceiling and the floor of the settings, and
    the one thing that can reject it here is a [modelLevel] that is not a
    level. *)
Theorem validateModelAgainstMax_unspecified
  (maxModel : string) (minModel : option string) :
  (forall requested,
     truthy requested = false ->
     validateModelAgainstMax requested maxModel minModel = Ok maxModel)
  /\ (forall settings config,
        modelRules config = None ->
        truthy (model config) = false ->
        validateAgentConfig settings config
        = match invalid_level (modelLevel config) with
          | Some level =>
            Throw ("Agent " ++ quote (id config) ++ ": invalid modelLevel "
                   ++ quote level ++ ". Valid: level1, level2, level3")
          | None => Ok (static None (or_null (modelLevel config)))
          end).
Proof.
  split.
  - intros requested H. unfold validateModelAgainstMax, or_null. now rewrite H.
  - intros settings config Hrules Hmodel.
    unfold validateAgentConfig, build_modelConfig. rewrite Hrules.
    assert (Hm : or_null (model config) = None)
      by (unfold or_null; now rewrite Hmodel).
    rewrite Hm. cbn [legacy_model or_null truthy].
    assert (Hlevel : invalid_level (or_null (modelLevel config))
                     = invalid_level (modelLevel config)).
    { unfold invalid_level, or_null.
      destruct (truthy (modelLevel config)) eqn:E; [now rewrite E|].
      reflexivity. }
    rewrite Hlevel.
    destruct (invalid_level (modelLevel config)); reflexivity.
Qed.

(** C9, as stated, fails for agents: under the ceiling [opus] an agent
    that names no model is not given [opus]; its model stays [null] and
    is chosen later from the provider's default level. *)
Lemma agent_without_model_not_ceiling :
  ~ (forall (settings : model_bounds) (config : agent_config)
       (maxModel : string),
       settings_maxModel settings = Some maxModel ->
       modelRules config = None ->
       truthy (model config) = false ->
       validateAgentConfig settings config
       = Ok (static (Some maxModel) (or_null (modelLevel config)))).
Proof.
  intros H.
  specialize (H (bounds_of "opus" None)
                {| id := "worker"; model := None; modelLevel := None;
                   modelRules := None |}
                "opus" eq_refl eq_refl eq_refl).
  vm_compute in H. discriminate H.
Qed.

Example agent_without_model :
  validateAgentConfig (bounds_of "opus" None)
    {| id := "worker"; model := None; modelLevel := None; modelRules := None |}
  = Ok (static None None).
Proof. vm_compute. reflexivity. Qed.

(** ** Strings: case conversion and trimming *)

Lemma upper_char_idem (c : ascii) : upper_char (upper_char c) = upper_char c.
Proof.
  destruct c as [[] [] [] [] [] [] [] []]; vm_compute; reflexivity.
Qed.

Lemma is_space_upper_char (c : ascii) : is_space (upper_char c) = is_space c.
Proof.
  destruct c as [[] [] [] [] [] [] [] []]; vm_compute; reflexivity.
Qed.

Lemma pipe_upper_char (c : ascii) :
  Ascii.eqb (upper_char c) pipe = Ascii.eqb c pipe.
Proof.
  destruct c as [[] [] [] [] [] [] [] []]; vm_compute; reflexivity.
Qed.

Lemma toUpperCase_idem (s : string) : toUpperCase (toUpperCase s) = toUpperCase s.
Proof.
  induction s as [|c s IH]; simpl; [reflexivity|].
  now rewrite upper_char_idem, IH.
Qed.

Lemma trimStart_upper (s : string) :
  trimStart (toUpperCase s) = toUpperCase (trimStart s).
Proof.
  induction s as [|c s IH]; simpl; [reflexivity|].
  rewrite is_space_upper_char. destruct (is_space c); [exact IH | reflexivity].
Qed.

Lemma trimEnd_upper (s : string) :
  trimEnd (toUpperCase s) = toUpperCase (trimEnd s).
Proof.
  induction s as [|c s IH]; simpl; [reflexivity|].
  rewrite IH, is_space_upper_char.
  destruct (trimEnd s) as [|d r]; simpl.
  - destruct (is_space c); reflexivity.
  - reflexivity.
Qed.

Lemma trim_upper (s : string) : trim (toUpperCase s) = toUpperCase (trim s).
Proof.
  unfold trim. now rewrite trimStart_upper, trimEnd_upper.
Qed.

Lemma trimStart_clean (s : string) : starts_clean (trimStart s).
Proof.
  induction s as [|c s IH]; simpl; [exact I|].
  destruct (is_space c) eqn:E; [exact IH | exact E].
Qed.

Lemma trimStart_of_clean (s : string) : starts_clean s -> trimStart s = s.
Proof.
  destruct s as [|c s]; simpl; [reflexivity|].
  intros ->. reflexivity.
Qed.

Lemma trimEnd_clean (s : string) : starts_clean s -> starts_clean (trimEnd s).
Proof.
  destruct s as [|c s]; simpl; [trivial|].
  intros H. destruct (trimEnd s); [rewrite H|]; exact H.
Qed.

Lemma trimEnd_idem (s : string) : trimEnd (trimEnd s) = trimEnd s.
Proof.
  induction s as [|c s IH]; simpl; [reflexivity|].
  destruct (trimEnd s) as [|d r] eqn:E.
  - destruct (is_space c) eqn:Ec; simpl; [reflexivity|]. now rewrite Ec.
  - change (trimEnd (String c (String d r))) with
      (match trimEnd (String d r) with
       | EmptyString => if is_space c then EmptyString else String c EmptyString
       | rest' => String c rest'
       end).
    rewrite IH. reflexivity.
Qed.

Lemma trim_idem (s : string) : trim (trim s) = trim s.
Proof.
  unfold trim.
  rewrite (trimStart_of_clean (trimEnd (trimStart s))).
  - apply trimEnd_idem.
  - apply trimEnd_clean, trimStart_clean.
Qed.

Lemma includes_pipe_trimStart (s : string) :
  includes_pipe s = false -> includes_pipe (trimStart s) = false.
Proof.
  induction s as [|c s IH]; simpl; [trivial|].
  intros H. apply orb_false_iff in H as [Hc Hs].
  destruct (is_space c); [auto|]. simpl. now rewrite Hc, Hs.
Qed.

Lemma includes_pipe_trimEnd (s : string) :
  includes_pipe s = false -> includes_pipe (trimEnd s) = false.
Proof.
  induction s as [|c s IH]; simpl; [trivial|].
  intros H. apply orb_false_iff in H as [Hc Hs].
  specialize (IH Hs).
  destruct (trimEnd s) as [|d r].
  - destruct (is_space c); simpl; [reflexivity|]. now rewrite Hc.
  - simpl in *. now rewrite Hc, IH.
Qed.

Lemma includes_pipe_trim (s : string) :
  includes_pipe s = false -> includes_pipe (trim s) = false.
Proof.
  intros H. unfold trim. now apply includes_pipe_trimEnd, includes_pipe_trimStart.
Qed.

Lemma split_pipe_parts (s : string) (p : string) :
  In p (split_pipe s) -> includes_pipe p = false.
Proof.
  revert p. induction s as [|c s IH]; simpl; intros p Hin.
  - destruct Hin as [<- | []]. reflexivity.
  - destruct (Ascii.eqb c pipe) eqn:Ec.
    + destruct Hin as [<- | Hin]; [reflexivity | auto].
    + destruct (split_pipe s) as [|q qs] eqn:Es.
      * destruct Hin as [<- | []]. simpl. now rewrite Ec.
      * destruct Hin as [<- | Hin].
        -- simpl. rewrite Ec. apply IH. now left.
        -- apply IH. now right.
Qed.

(** ** Enum normalisation of one string *)

(** The value left by the detection of a copied enum list is either the
    value it was given or a trimmed part of it, which holds no pipe. *)
Lemma collapse_enum_list_cases (options : list string) (value : string) :
  collapse_enum_list options value = value
  \/ (exists p, In p (split_pipe value)
        /\ collapse_enum_list options value = trim p
        /\ includes options (trim p) = true
        /\ nonempty (trim p) = true
        /\ includes_pipe value = true
        /\ 2 <= List.length (filter (includes options) (pipe_parts value))).
Proof.
  unfold collapse_enum_list.
  destruct (includes_pipe value) eqn:Hp; [|now left].
  destruct (Nat.leb 2 _) eqn:Hc; [|now left].
  destruct (find (includes options) (pipe_parts value)) as [fv|] eqn:Hf; [|now left].
  destruct (nonempty fv) eqn:Hn; [|now left].
  right. apply find_some in Hf as [Hin Hinc].
  unfold pipe_parts in Hin. apply in_map_iff in Hin as [p [<- Hin]].
  exists p. apply Nat.leb_le in Hc. repeat split; assumption.
Qed.

Lemma collapse_enum_list_no_pipe (options : list string) (value : string) :
  includes_pipe value = false -> collapse_enum_list options value = value.
Proof.
  intros H. unfold collapse_enum_list. now rewrite H.
Qed.

Lemma collapse_enum_list_idem (options : list string) (value : string) :
  collapse_enum_list options (collapse_enum_list options value)
  = collapse_enum_list options value.
Proof.
  destruct (collapse_enum_list_cases options value) as [H | [p [Hin [-> _]]]].
  - rewrite H. exact H.
  - apply collapse_enum_list_no_pipe, includes_pipe_trim.
    eapply split_pipe_parts; eassumption.
Qed.

Lemma collapse_enum_list_trimmed (options : list string) (s : string) :
  trim (collapse_enum_list options (toUpperCase (trim s)))
  = collapse_enum_list options (toUpperCase (trim s)).
Proof.
  destruct (collapse_enum_list_cases options (toUpperCase (trim s)))
    as [-> | [p [_ [-> _]]]].
  - now rewrite trim_upper, trim_idem.
  - apply trim_idem.
Qed.

Lemma find_match_upper (options : list string) (value m : string) :
  find_match options value = Some m -> In m options /\ toUpperCase m = value.
Proof.
  unfold find_match. intros H. apply find_some in H as [Hin Heq].
  apply String.eqb_eq in Heq. auto.
Qed.

(** An option that matched is matched again by itself. *)
Lemma normalize_enum_string_matched (options : list string) (s m : string) :
  normalize_enum_string options s = Matched m ->
  normalize_enum_string options m = Matched m.
Proof.
  unfold normalize_enum_string.
  set (value := collapse_enum_list options (toUpperCase (trim s))).
  destruct (find_match options value) as [m0|] eqn:Hfind.
  - destruct (nonempty m0) eqn:Hne.
    + intros [= <-].
      pose proof (find_match_upper _ _ _ Hfind) as [_ Hup].
      assert (Hv : toUpperCase (trim m0) = value).
      { rewrite <- trim_upper, Hup. apply collapse_enum_list_trimmed. }
      rewrite Hv. unfold value at 1. rewrite collapse_enum_list_idem.
      fold value. rewrite Hfind, Hne. reflexivity.
    + destruct (assoc_get variations value) as [v|];
        [destruct (includes options v)|]; discriminate.
  - destruct (assoc_get variations value) as [v|];
      [destruct (includes options v)|]; discriminate.
Qed.

(** The values of the variation table are fixed points of the string
    operations. *)
Lemma assoc_get_In {A : Type} (l : list (string * A)) (k : string) (v : A) :
  assoc_get l k = Some v -> In (k, v) l.
Proof.
  induction l as [|[k0 v0] l IH]; simpl; [discriminate|].
  destruct (k0 =? k) eqn:E.
  - intros [= <-]. apply String.eqb_eq in E. subst. now left.
  - intros H. right. auto.
Qed.

Lemma variations_values (k v : string) :
  assoc_get variations k = Some v ->
  toUpperCase (trim v) = v /\ includes_pipe v = false /\ nonempty v = true.
Proof.
  intros H. apply assoc_get_In in H.
  assert (Hall : forallb (fun kv : string * string =>
                   (toUpperCase (trim (snd kv)) =? snd kv)
                   && negb (includes_pipe (snd kv))
                   && nonempty (snd kv)) variations = true)
    by (vm_compute; reflexivity).
  rewrite forallb_forall in Hall. specialize (Hall _ H). simpl in Hall.
  apply andb_true_iff in Hall as [Hall Hne].
  apply andb_true_iff in Hall as [Hfix Hpipe].
  apply String.eqb_eq in Hfix. apply negb_true_iff in Hpipe. auto.
Qed.

Lemma case_distinct_spec (options : list string) (e1 e2 : string) :
  case_distinct options = true ->
  In e1 options -> In e2 options ->
  toUpperCase e1 = toUpperCase e2 -> e1 = e2.
Proof.
  unfold case_distinct. intros H H1 H2 Heq.
  rewrite forallb_forall in H. specialize (H e1 H1).
  rewrite forallb_forall in H. specialize (H e2 H2).
  rewrite Heq, String.eqb_refl in H. simpl in H.
  now apply String.eqb_eq.
Qed.

Lemma find_match_exists (options : list string) (value e : string) :
  In e options -> toUpperCase e = value ->
  exists m, find_match options value = Some m.
Proof.
  intros Hin Heq. unfold find_match.
  destruct (find (fun e0 => toUpperCase e0 =? value) options) as [m|] eqn:Hf.
  - now exists m.
  - exfalso. eapply find_none in Hf; [|exact Hin].
    simpl in Hf. rewrite Heq, String.eqb_refl in Hf. discriminate.
Qed.

(** With options that are distinct up to case, a variation that was
    substituted is matched by itself. *)
Lemma normalize_enum_string_varied (options : list string) (s v : string) :
  case_distinct options = true ->
  normalize_enum_string options s = Varied v ->
  normalize_enum_string options v = Matched v.
Proof.
  intros Hd. unfold normalize_enum_string.
  set (value := collapse_enum_list options (toUpperCase (trim s))).
  assert (Hvar : match assoc_get variations value with
                 | Some v0 => if includes options v0 then Varied v0 else Unchanged
                 | None => Unchanged
                 end = Varied v ->
                 match find_match options
                         (collapse_enum_list options (toUpperCase (trim v))) with
                 | Some m =>
                   if nonempty m then Matched m
                   else match assoc_get variations
                                (collapse_enum_list options (toUpperCase (trim v))) with
                        | Some v0 => if includes options v0 then Varied v0 else Unchanged
                        | None => Unchanged
                        end
                 | None =>
                   match assoc_get variations
                           (collapse_enum_list options (toUpperCase (trim v))) with
                   | Some v0 => if includes options v0 then Varied v0 else Unchanged
                   | None => Unchanged
                   end
                 end = Matched v).
  { destruct (assoc_get variations value) as [v0|] eqn:Hv; [|discriminate].
    destruct (includes options v0) eqn:Hinc; [|discriminate].
    intros [= <-].
    destruct (variations_values _ _ Hv) as [Hfix [Hpipe Hne]].
    rewrite Hfix, (collapse_enum_list_no_pipe _ _ Hpipe).
    apply includes_In in Hinc.
    assert (Hup : toUpperCase v0 = v0).
    { rewrite <- Hfix at 2. rewrite <- Hfix at 1.
      rewrite toUpperCase_idem. reflexivity. }
    destruct (find_match_exists options v0 v0 Hinc Hup) as [m Hm].
    rewrite Hm. destruct (find_match_upper _ _ _ Hm) as [Hin Hmu].
    assert (m = v0) as ->.
    { apply (case_distinct_spec options); try assumption. now rewrite Hmu, Hup. }
    now rewrite Hne. }
  destruct (find_match options value) as [m0|]; [destruct (nonempty m0)|];
    try discriminate; exact Hvar.
Qed.

(** ** Reading and writing properties *)

Lemma assoc_get_set_same {A : Type} (l : list (string * A)) (k : string) (x : A) :
  assoc_get (assoc_set l k x) k = Some x.
Proof.
  induction l as [|[k0 v0] l IH]; simpl.
  - now rewrite String.eqb_refl.
  - destruct (k0 =? k) eqn:E; simpl; now rewrite E.
Qed.

Lemma assoc_get_set_other {A : Type} (l : list (string * A)) (k k' : string) (x : A) :
  k <> k' -> assoc_get (assoc_set l k x) k' = assoc_get l k'.
Proof.
  intros Hne. induction l as [|[k0 v0] l IH]; simpl.
  - destruct (k =? k') eqn:E; [apply String.eqb_eq in E; contradiction | reflexivity].
  - destruct (k0 =? k) eqn:E; simpl.
    + apply String.eqb_eq in E. subst k0.
      destruct (k =? k') eqn:E'; [apply String.eqb_eq in E'; contradiction|].
      reflexivity.
    + now rewrite IH.
Qed.

Lemma assoc_set_set {A : Type} (l : list (string * A)) (k : string) (x y : A) :
  assoc_set (assoc_set l k x) k y = assoc_set l k y.
Proof.
  induction l as [|[k0 v0] l IH]; simpl.
  - now rewrite String.eqb_refl.
  - destruct (k0 =? k) eqn:E; simpl; rewrite E; [reflexivity | now rewrite IH].
Qed.

Lemma assoc_set_get {A : Type} (l : list (string * A)) (k : string) (v : A) :
  assoc_get l k = Some v -> assoc_set l k v = l.
Proof.
  induction l as [|[k0 v0] l IH]; simpl; [discriminate|].
  destruct (k0 =? k) eqn:E.
  - now intros [= ->].
  - intros H. now rewrite IH.
Qed.

Lemma nth_error_list_set_same {A : Type} (l : list A) (i : nat) (v x : A) :
  nth_error l i = Some v -> nth_error (list_set l i x) i = Some x.
Proof.
  revert i. induction l as [|a l IH]; intros [|i]; simpl; try discriminate; auto.
Qed.

Lemma nth_error_list_set_other {A : Type} (l : list A) (i j : nat) (x : A) :
  i <> j -> nth_error (list_set l i x) j = nth_error l j.
Proof.
  revert i j. induction l as [|a l IH]; intros [|i] [|j] H; simpl; auto.
  - contradiction.
Qed.

Lemma list_set_set {A : Type} (l : list A) (i : nat) (x y : A) :
  list_set (list_set l i x) i y = list_set l i y.
Proof.
  revert i. induction l as [|a l IH]; intros [|i]; simpl; auto.
  now rewrite IH.
Qed.

Lemma list_set_get {A : Type} (l : list A) (i : nat) (v : A) :
  nth_error l i = Some v -> list_set l i v = l.
Proof.
  revert i. induction l as [|a l IH]; intros [|i]; simpl; try discriminate.
  - now intros [= ->].
  - intros H. now rewrite IH.
Qed.

Lemma array_index_canonical (k : string) (i : nat) :
  array_index k = Some i -> nat_to_string i = k.
Proof.
  unfold array_index. destruct (string_to_nat k) as [n|]; [|discriminate].
  destruct (nat_to_string n =? k) eqn:E; [|discriminate].
  intros [= <-]. now apply String.eqb_eq.
Qed.

Lemma get_set_same (r : json) (k : string) (v x : json) :
  get r k = Some v -> get (set r k x) k = Some x.
Proof.
  destruct r; simpl; try discriminate.
  - destruct (array_index k) as [i|] eqn:E; [|discriminate].
    simpl. rewrite E. apply nth_error_list_set_same.
  - intros _. apply assoc_get_set_same.
Qed.

Lemma get_set_other (r : json) (k k' : string) (x : json) :
  k <> k' -> get (set r k x) k' = get r k'.
Proof.
  intros Hne. destruct r; simpl; try reflexivity.
  - destruct (array_index k) as [i|] eqn:E; [|reflexivity].
    simpl. destruct (array_index k') as [j|] eqn:E'; [|reflexivity].
    apply nth_error_list_set_other. intros ->.
    apply array_index_canonical in E, E'. congruence.
  - now apply assoc_get_set_other.
Qed.

Lemma set_set (r : json) (k : string) (x y : json) :
  set (set r k x) k y = set r k y.
Proof.
  destruct r; simpl; try reflexivity.
  - destruct (array_index k) as [i|] eqn:E; simpl; rewrite E; [|reflexivity].
    now rewrite list_set_set.
  - now rewrite assoc_set_set.
Qed.

Lemma set_get (r : json) (k : string) (v : json) :
  get r k = Some v -> set r k v = r.
Proof.
  destruct r; simpl; try discriminate.
  - destruct (array_index k) as [i|]; [|discriminate].
    intros H. now rewrite list_set_get.
  - intros H. now rewrite assoc_set_get.
Qed.

Lemma get_none_not_object (r : json) (k : string) :
  is_object r = false -> get r k = None.
Proof.
  destruct r; simpl; try reflexivity; discriminate.
Qed.

Lemma is_object_set (r : json) (k : string) (x : json) :
  is_object (set r k x) = is_object r.
Proof.
  destruct r; simpl; try reflexivity.
  destruct (array_index k); reflexivity.
Qed.

(** ** The loop body acts on one property *)

Lemma normalize_nested_value (key : string) (propSchema : schema)
  (recur : json -> json) (recurItems : option (json -> json))
  (r : json) (v0 v1 : json) :
  get r key = Some v0 ->
  normalize_nested key propSchema recur recurItems (set r key v1)
  = set r key (nested_value propSchema recur recurItems v1).
Proof.
  intros Hget. unfold normalize_nested, nested_value.
  rewrite (get_set_same r key v0 v1 Hget).
  destruct (type_is propSchema "object" && has_properties propSchema).
  - destruct (js_truthy v1).
    + rewrite set_set, (get_set_same r key v0 _ Hget).
      destruct (type_is propSchema "array"); [|reflexivity].
      destruct recurItems as [f|]; [|reflexivity].
      destruct (recur v1); try reflexivity. now rewrite set_set.
    + rewrite (get_set_same r key v0 _ Hget).
      destruct (type_is propSchema "array"); [|reflexivity].
      destruct recurItems as [f|]; [|reflexivity].
      destruct v1; try reflexivity. now rewrite set_set.
  - rewrite (get_set_same r key v0 _ Hget).
    destruct (type_is propSchema "array"); [|reflexivity].
    destruct recurItems as [f|]; [|reflexivity].
    destruct v1; try reflexivity. now rewrite set_set.
Qed.

Lemma normalize_nested_absent (key : string) (propSchema : schema)
  (recur : json -> json) (recurItems : option (json -> json)) (r : json) :
  get r key = None ->
  normalize_nested key propSchema recur recurItems r = r.
Proof.
  intros Hget. unfold normalize_nested. rewrite Hget.
  destruct (type_is propSchema "object" && has_properties propSchema);
    rewrite Hget; destruct (type_is propSchema "array"); try reflexivity;
    destruct recurItems; reflexivity.
Qed.

Lemma process_property_value (key : string) (propSchema : schema)
  (recur : json -> json) (recurItems : option (json -> json)) (r : json) :
  process_property key propSchema recur recurItems r
  = match get r key with
    | Some v => set r key (property_value propSchema recur recurItems v)
    | None => r
    end.
Proof.
  unfold process_property, property_value.
  destruct (get r key) as [v|] eqn:Hget.
  - destruct (enum_branch propSchema (Some v)) as [m | x |].
    + reflexivity.
    + now apply normalize_nested_value with (v0 := v).
    + rewrite <- (set_get r key v Hget) at 1.
      now apply normalize_nested_value with (v0 := v).
  - assert (E : enum_branch propSchema None = Unchanged).
    { unfold enum_branch. destruct (s_enum propSchema); reflexivity. }
    rewrite E. now apply normalize_nested_absent.
Qed.

(** ** The loop over the properties *)

Lemma normalizeStringEnums_properties (ty : option string)
  (en : option (list string)) (ps : list (string * schema))
  (it : option schema) (r : json) :
  normalizeStringEnums r (Schema ty en (Some ps) it)
  = if is_object r then normalize_properties ps r else r.
Proof.
  simpl. destruct (is_object r); [|reflexivity].
  unfold normalize_properties. revert r.
  induction ps as [|[k p] ps IH]; intros r; simpl; [reflexivity|].
  rewrite IH. reflexivity.
Qed.

Lemma normalizeStringEnums_no_properties (ty : option string)
  (en : option (list string)) (it : option schema) (r : json) :
  normalizeStringEnums r (Schema ty en None it) = r.
Proof. reflexivity. Qed.

Lemma normalizeStringEnums_not_object (r : json) (s : schema) :
  is_object r = false -> normalizeStringEnums r s = r.
Proof.
  intros H. destruct s as [ty en [ps|] it]; [|reflexivity].
  rewrite normalizeStringEnums_properties, H. reflexivity.
Qed.

Lemma normalize_properties_cons (k : string) (p : schema)
  (ps : list (string * schema)) (r : json) :
  normalize_properties ((k, p) :: ps) r
  = normalize_properties ps
      (process_property k p (recur_on p) (recur_on_items p) r).
Proof. reflexivity. Qed.

Lemma is_object_process_property (k : string) (p : schema)
  (recur : json -> json) (recurItems : option (json -> json)) (r : json) :
  is_object (process_property k p recur recurItems r) = is_object r.
Proof.
  rewrite process_property_value. destruct (get r k); [|reflexivity].
  apply is_object_set.
Qed.

Lemma is_object_normalize_properties (ps : list (string * schema)) (r : json) :
  is_object (normalize_properties ps r) = is_object r.
Proof.
  revert r. induction ps as [|[k p] ps IH]; intros r; [reflexivity|].
  rewrite normalize_properties_cons, IH. apply is_object_process_property.
Qed.

Lemma is_object_normalizeStringEnums (r : json) (s : schema) :
  is_object (normalizeStringEnums r s) = is_object r.
Proof.
  destruct s as [ty en [ps|] it]; [|reflexivity].
  rewrite normalizeStringEnums_properties.
  destruct (is_object r) eqn:E; [|exact E].
  rewrite is_object_normalize_properties. exact E.
Qed.

(** A property outside the schema's keys is not touched. *)
Lemma get_normalize_properties_other (ps : list (string * schema))
  (r : json) (k : string) :
  ~ In k (map fst ps) ->
  get (normalize_properties ps r) k = get r k.
Proof.
  revert r. induction ps as [|[k0 p] ps IH]; intros r Hnot; [reflexivity|].
  rewrite normalize_properties_cons, IH.
  - rewrite process_property_value. destruct (get r k0); [|reflexivity].
    apply get_set_other. intros ->. apply Hnot. now left.
  - intros H. apply Hnot. now right.
Qed.

Lemma distinct_keys_cons (k : string) (keys : list string) :
  distinct_keys (k :: keys) = true ->
  ~ In k keys /\ distinct_keys keys = true.
Proof.
  simpl. intros H. apply andb_true_iff in H as [Hk Hrest].
  split; [|assumption].
  intros Hin. apply includes_In in Hin. rewrite Hin in Hk. discriminate.
Qed.

(** With distinct keys, the loop leaves under each key of the schema the
    value its body computes from the value that was there. *)
Lemma get_normalize_properties (ps : list (string * schema)) (r : json)
  (k : string) (p : schema) :
  distinct_keys (map fst ps) = true ->
  In (k, p) ps ->
  get (normalize_properties ps r) k
  = option_map (property_value p (recur_on p) (recur_on_items p)) (get r k).
Proof.
  revert r. induction ps as [|[k0 p0] ps IH]; intros r Hd Hin; [destruct Hin|].
  simpl in Hd. apply distinct_keys_cons in Hd as [Hk0 Hd].
  rewrite normalize_properties_cons.
  destruct Hin as [[= -> ->] | Hin].
  - rewrite get_normalize_properties_other by assumption.
    rewrite process_property_value.
    destruct (get r k) as [v|] eqn:Hget; simpl.
    + now apply get_set_same with (v := v).
    + exact Hget.
  - rewrite IH by assumption. f_equal.
    rewrite process_property_value. destruct (get r k0); [|reflexivity].
    apply get_set_other. intros ->.
    apply Hk0. apply in_map_iff. exists (k, p). auto.
Qed.

(** The loop changes nothing when its body fixes every value it finds. *)
Lemma normalize_properties_fixed (ps : list (string * schema)) (r : json) :
  (forall k p v, In (k, p) ps -> get r k = Some v ->
     property_value p (recur_on p) (recur_on_items p) v = v) ->
  normalize_properties ps r = r.
Proof.
  induction ps as [|[k0 p0] ps IH]; intros H; [reflexivity|].
  rewrite normalize_properties_cons, process_property_value.
  destruct (get r k0) as [v|] eqn:Hget.
  - rewrite (H k0 p0 v (or_introl eq_refl) Hget), (set_get r k0 v Hget).
    apply IH. intros k p v' Hin. apply H. now right.
  - apply IH. intros k p v' Hin. apply H. now right.
Qed.

(** ** Idempotence of the loop body *)

Section PropertyValue.

Variable propSchema : schema.
Variable recur : json -> json.
Variable recurItems : option (json -> json).

Hypothesis recur_idem : forall v, recur (recur v) = recur v.
Hypothesis recur_not_object : forall v, is_object v = false -> recur v = v.
Hypothesis recur_object : forall v, is_object (recur v) = is_object v.
Hypothesis items_idem :
  forall f, recurItems = Some f -> forall v, f (f v) = f v.
Hypothesis enum_distinct :
  forall options, s_enum propSchema = Some options ->
                  case_distinct options = true.

Lemma type_object_not_array :
  type_is propSchema "object" = true -> type_is propSchema "array" = false.
Proof.
  unfold type_is. destruct (s_type propSchema) as [t|]; [|discriminate].
  intros H. apply String.eqb_eq in H. subst t. reflexivity.
Qed.

Lemma nested_value_string (s : string) :
  nested_value propSchema recur recurItems (JStr s) = JStr s.
Proof.
  unfold nested_value.
  rewrite (recur_not_object (JStr s) eq_refl).
  destruct (type_is propSchema "object" && has_properties propSchema);
    [destruct (js_truthy (JStr s))|];
    destruct (type_is propSchema "array"); try reflexivity;
    destruct recurItems; reflexivity.
Qed.

Lemma object_truthy (v : json) : is_object v = true -> js_truthy v = true.
Proof. destruct v; simpl; try discriminate; reflexivity. Qed.

Lemma nested_value_idem (v : json) :
  nested_value propSchema recur recurItems
    (nested_value propSchema recur recurItems v)
  = nested_value propSchema recur recurItems v.
Proof.
  unfold nested_value.
  destruct (type_is propSchema "object") eqn:Hobj.
  - rewrite (type_object_not_array Hobj). simpl.
    destruct (has_properties propSchema); [|reflexivity].
    destruct (js_truthy v) eqn:Ht; [|now rewrite Ht].
    destruct (is_object v) eqn:Ho.
    + rewrite (object_truthy (recur v)) by (now rewrite recur_object).
      apply recur_idem.
    + rewrite (recur_not_object v Ho), Ht. now apply recur_not_object.
  - simpl. destruct (type_is propSchema "array"); [|reflexivity].
    destruct recurItems as [f|] eqn:Hf; [|reflexivity].
    destruct v; try reflexivity.
    f_equal. rewrite map_map. apply map_ext. intros a. now apply items_idem.
Qed.

Lemma nested_value_not_string (v : json) :
  (forall s, v <> JStr s) ->
  forall s, nested_value propSchema recur recurItems v <> JStr s.
Proof.
  intros Hv s. unfold nested_value.
  assert (Hrec : forall s0, recur v <> JStr s0).
  { intros s0 E. destruct (is_object v) eqn:Ho.
    - pose proof (recur_object v) as H. rewrite E, Ho in H. discriminate.
    - rewrite (recur_not_object v Ho) in E. exact (Hv s0 E). }
  set (v2 := if type_is propSchema "object" && has_properties propSchema
             then if js_truthy v then recur v else v
             else v).
  assert (Hv2 : forall s0, v2 <> JStr s0).
  { unfold v2.
    destruct (type_is propSchema "object" && has_properties propSchema);
      [destruct (js_truthy v)|]; auto. }
  destruct (type_is propSchema "array"); [|apply Hv2].
  destruct recurItems; [|apply Hv2].
  destruct v2 eqn:E; try discriminate. exfalso. exact (Hv2 s0 eq_refl).
Qed.

Lemma enum_branch_not_string (v : json) :
  (forall s, v <> JStr s) -> enum_branch propSchema (Some v) = Unchanged.
Proof.
  intros Hv. unfold enum_branch. destruct (s_enum propSchema); [|reflexivity].
  destruct v; try reflexivity. exfalso. exact (Hv s eq_refl).
Qed.

Lemma property_value_idem (v : json) :
  property_value propSchema recur recurItems
    (property_value propSchema recur recurItems v)
  = property_value propSchema recur recurItems v.
Proof.
  unfold property_value.
  destruct (enum_branch propSchema (Some v)) as [m | x |] eqn:Hb.
  - unfold enum_branch in *.
    destruct (s_enum propSchema) as [options|]; [|discriminate].
    destruct v; try discriminate.
    now rewrite (normalize_enum_string_matched options s m Hb).
  - rewrite nested_value_string.
    unfold enum_branch in *.
    destruct (s_enum propSchema) as [options|] eqn:He; [|discriminate].
    destruct v; try discriminate.
    now rewrite (normalize_enum_string_varied options s x (enum_distinct _ eq_refl) Hb).
  - assert (Hcases : (exists s, v = JStr s) \/ (forall s, v <> JStr s)).
    { destruct v; try (right; intros s0; discriminate). left. now exists s. }
    destruct Hcases as [[s ->] | Hv].
    + rewrite nested_value_string, Hb. apply nested_value_string.
    + rewrite (enum_branch_not_string _ (nested_value_not_string v Hv)).
      apply nested_value_idem.
Qed.

End PropertyValue.

(** ** Idempotence of [normalizeStringEnums] *)

Lemma schema_induction (Pr : schema -> Prop) :
  (forall ty en props its,
     (forall ps k p, props = Some ps -> In (k, p) ps -> Pr p) ->
     (forall it, its = Some it -> Pr it) ->
     Pr (Schema ty en props its)) ->
  forall s, Pr s.
Proof.
  intros H. fix IH 1. intros [ty en props its]. apply H.
  - destruct props as [ps|]; [|discriminate].
    assert (Hall : forall k p, In (k, p) ps -> Pr p).
    { clear H.
      refine ((fix G (l : list (string * schema)) :
                 forall k p, In (k, p) l -> Pr p :=
                 match l with
                 | [] => fun k p Hin => match Hin with end
                 | (k0, p0) :: tl => fun k p Hin =>
                   match Hin with
                   | or_introl Heq => _
                   | or_intror Hin' => G tl k p Hin'
                   end
                 end) ps).
      injection Heq as _ E. rewrite <- E. exact (IH p0). }
    intros ps' k p [= <-]. apply Hall.
  - destruct its as [it|]; [|discriminate].
    intros it' [= <-]. exact (IH it).
Qed.

Lemma well_formed_inv (ty : option string) (en : option (list string))
  (props : option (list (string * schema))) (its : option schema) :
  well_formed (Schema ty en props its) = true ->
  (forall options, en = Some options -> case_distinct options = true)
  /\ (forall ps, props = Some ps ->
        distinct_keys (map fst ps) = true
        /\ forall k p, In (k, p) ps -> well_formed p = true)
  /\ (forall it, its = Some it -> well_formed it = true).
Proof.
  simpl. intros H.
  apply andb_true_iff in H as [H Hits].
  apply andb_true_iff in H as [Hen Hprops].
  split; [|split].
  - intros options ->. exact Hen.
  - intros ps ->. apply andb_true_iff in Hprops as [Hd Hall].
    split; [exact Hd|].
    clear Hd. induction ps as [|[k0 p0] ps IHps]; intros k p Hin; [destruct Hin|].
    apply andb_true_iff in Hall as [Hp0 Hall].
    destruct Hin as [[= <- <-] | Hin]; [exact Hp0 | eauto].
  - intros it ->. exact Hits.
Qed.

Lemma recur_on_items_some (p : schema) (f : json -> json) :
  recur_on_items p = Some f ->
  exists it, s_items p = Some it /\ f = (fun item => normalizeStringEnums item it).
Proof.
  destruct p as [ty en props [[ty' en' [ps'|] its']|]]; simpl; try discriminate.
  intros [= <-]. eexists. split; reflexivity.
Qed.

(** Idempotence for a well-formed schema, together with idempotence for
    the schema of its items. *)
Lemma normalizeStringEnums_idem_items (s : schema) :
  well_formed s = true ->
  (forall r, normalizeStringEnums (normalizeStringEnums r s) s
             = normalizeStringEnums r s)
  /\ (forall it, s_items s = Some it ->
        forall r, normalizeStringEnums (normalizeStringEnums r it) it
                  = normalizeStringEnums r it).
Proof.
  induction s as [ty en props its IHprops IHits] using schema_induction.
  intros Hwf. destruct (well_formed_inv _ _ _ _ Hwf) as [Hen [Hps Hits]].
  split.
  - intros r. destruct props as [ps|]; [|reflexivity].
    destruct (Hps ps eq_refl) as [Hd Hall].
    rewrite !normalizeStringEnums_properties.
    destruct (is_object r) eqn:Ho; [|now rewrite Ho].
    rewrite is_object_normalize_properties, Ho.
    apply normalize_properties_fixed.
    intros k p v' Hin Hget.
    rewrite (get_normalize_properties ps r k p Hd Hin) in Hget.
    destruct (get r k) as [v|]; [|discriminate].
    simpl in Hget. injection Hget as <-.
    destruct (IHprops ps k p eq_refl Hin (Hall k p Hin)) as [Hp Hpi].
    apply property_value_idem.
    + exact Hp.
    + intros x. apply normalizeStringEnums_not_object.
    + intros x. apply is_object_normalizeStringEnums.
    + intros f Hf x. apply recur_on_items_some in Hf as [it [Hit ->]].
      now apply Hpi.
    + destruct p as [ty' en' props' its']. simpl.
      destruct (well_formed_inv _ _ _ _ (Hall k _ Hin)) as [Hen' _]. exact Hen'.
  - simpl. intros it ->.
    exact (proj1 (IHits it eq_refl (Hits it eq_refl))).
Qed.

(** With string options, no two of which differ only by letter case in
    one enum, normalising twice gives what normalising once gives,
    through nested objects and arrays of objects. *)
Lemma normalizeStringEnums_idempotent (x : json) (S : schema) :
  well_formed S = true ->
  normalizeStringEnums (normalizeStringEnums x S) S = normalizeStringEnums x S.
Proof.
  intros Hwf. now apply normalizeStringEnums_idem_items.
Qed.



(** ** Pipe-joined enum lists and case-insensitive matching *)

Lemma pipe_not_space (c : ascii) : Ascii.eqb c pipe = true -> is_space c = false.
Proof.
  intros H. apply Ascii.eqb_eq in H. subst c. reflexivity.
Qed.

Lemma includes_pipe_upper (s : string) :
  includes_pipe (toUpperCase s) = includes_pipe s.
Proof.
  induction s as [|c s IH]; simpl; [reflexivity|].
  now rewrite pipe_upper_char, IH.
Qed.

Lemma includes_pipe_trimStart_eq (s : string) :
  includes_pipe (trimStart s) = includes_pipe s.
Proof.
  induction s as [|c s IH]; simpl; [reflexivity|].
  destruct (is_space c) eqn:Ec; [|reflexivity].
  destruct (Ascii.eqb c pipe) eqn:Ep; [|exact IH].
  apply pipe_not_space in Ep. congruence.
Qed.

Lemma includes_pipe_trimEnd_eq (s : string) :
  includes_pipe (trimEnd s) = includes_pipe s.
Proof.
  induction s as [|c s IH]; simpl; [reflexivity|].
  destruct (trimEnd s) as [|d r].
  - simpl in IH. rewrite <- IH.
    destruct (is_space c) eqn:Ec; simpl.
    + destruct (Ascii.eqb c pipe) eqn:Ep; [|reflexivity].
      apply pipe_not_space in Ep. congruence.
    + reflexivity.
  - simpl in *. now rewrite IH.
Qed.

Lemma includes_pipe_trim_eq (s : string) : includes_pipe (trim s) = includes_pipe s.
Proof.
  unfold trim. now rewrite includes_pipe_trimEnd_eq, includes_pipe_trimStart_eq.
Qed.

Lemma split_pipe_upper (s : string) :
  split_pipe (toUpperCase s) = map toUpperCase (split_pipe s).
Proof.
  induction s as [|c s IH]; simpl; [reflexivity|].
  rewrite pipe_upper_char, IH.
  destruct (Ascii.eqb c pipe); [reflexivity|].
  destruct (split_pipe s); reflexivity.
Qed.

Lemma pipe_parts_upper (s p : string) :
  In p (pipe_parts (toUpperCase s)) -> toUpperCase p = p.
Proof.
  unfold pipe_parts. rewrite split_pipe_upper, map_map.
  intros H. apply in_map_iff in H as [q [<- _]].
  now rewrite <- trim_upper, toUpperCase_idem.
Qed.

Lemma property_value_matched (p : schema) (recur : json -> json)
  (recurItems : option (json -> json)) (options : list string) (s m : string) :
  s_enum p = Some options ->
  normalize_enum_string options s = Matched m ->
  property_value p recur recurItems (JStr s) = JStr m.
Proof.
  intros He Hm. unfold property_value, enum_branch. now rewrite He, Hm.
Qed.

(** What a matched option means for the document: the value under the key
    is replaced by that option. *)
Lemma normalizeStringEnums_matched (x : json) (ty : option string)
  (en : option (list string)) (ps : list (string * schema))
  (its : option schema) (key : string) (p : schema)
  (options : list string) (s m : string) :
  distinct_keys (map fst ps) = true ->
  In (key, p) ps ->
  s_enum p = Some options ->
  get x key = Some (JStr s) ->
  normalize_enum_string options s = Matched m ->
  get (normalizeStringEnums x (Schema ty en (Some ps) its)) key = Some (JStr m).
Proof.
  intros Hd Hin He Hget Hm.
  rewrite normalizeStringEnums_properties.
  assert (Ho : is_object x = true).
  { destruct (is_object x) eqn:E; [reflexivity|].
    rewrite (get_none_not_object x key E) in Hget. discriminate. }
  rewrite Ho, (get_normalize_properties ps x key p Hd Hin), Hget. simpl.
  now rewrite (property_value_matched p _ _ options s m He Hm).
Qed.

Lemma nonempty_upper (m v : string) :
  toUpperCase m = v -> nonempty v = true -> nonempty m = true.
Proof.
  intros <- H. destruct m; [discriminate H | reflexivity].
Qed.

(** A copied enum list: at least two parts are options and the first of
    them is not empty. *)
Lemma normalize_enum_string_pipe_list (options : list string) (s fv : string) :
  includes_pipe s = true ->
  2 <= List.length (filter (includes options) (pipe_parts (toUpperCase (trim s)))) ->
  find (includes options) (pipe_parts (toUpperCase (trim s))) = Some fv ->
  nonempty fv = true ->
  exists m, normalize_enum_string options s = Matched m
            /\ find_match options fv = Some m
            /\ (case_distinct options = true -> m = fv).
Proof.
  intros Hpipe Hcount Hfind Hne.
  assert (Hcol : collapse_enum_list options (toUpperCase (trim s)) = fv).
  { unfold collapse_enum_list.
    rewrite includes_pipe_upper, includes_pipe_trim_eq, Hpipe.
    apply Nat.leb_le in Hcount. now rewrite Hcount, Hfind, Hne. }
  apply find_some in Hfind as [Hin Hinc].
  apply includes_In in Hinc.
  pose proof (pipe_parts_upper _ _ Hin) as Hup.
  destruct (find_match_exists options fv fv Hinc Hup) as [m Hm].
  exists m. split; [|split].
  - unfold normalize_enum_string. rewrite Hcol, Hm.
    destruct (find_match_upper _ _ _ Hm) as [_ Hmu].
    now rewrite (nonempty_upper m fv Hmu Hne).
  - exact Hm.
  - intros Hd. destruct (find_match_upper _ _ _ Hm) as [Hmin Hmu].
    apply (case_distinct_spec options); try assumption. now rewrite Hmu, Hup.
Qed.

(** No pipe: the first option equal to the value up to case wins, whatever
    the table of variations holds for the value. *)
Lemma normalize_enum_string_case_insensitive (options : list string) (s m : string) :
  includes_pipe s = false ->
  find_match options (toUpperCase (trim s)) = Some m ->
  nonempty m = true ->
  normalize_enum_string options s = Matched m.
Proof.
  intros Hpipe Hm Hne. unfold normalize_enum_string.
  rewrite collapse_enum_list_no_pipe
    by now rewrite includes_pipe_upper, includes_pipe_trim_eq.
  now rewrite Hm, Hne.
Qed.

(** With string options: a copied list of at least two options becomes
    the first of them, and a value that equals an option up to case and
    surrounding white space becomes the first such option. *)
Lemma normalizeStringEnums_enum_matching (x : json) (ty : option string)
  (en : option (list string)) (ps : list (string * schema))
  (its : option schema) (key : string) (p : schema)
  (options : list string) (s : string) :
  distinct_keys (map fst ps) = true ->
  In (key, p) ps ->
  s_enum p = Some options ->
  get x key = Some (JStr s) ->
  (forall fv,
     includes_pipe s = true ->
     2 <= List.length (filter (includes options)
                         (pipe_parts (toUpperCase (trim s)))) ->
     find (includes options) (pipe_parts (toUpperCase (trim s))) = Some fv ->
     nonempty fv = true ->
     exists m,
       get (normalizeStringEnums x (Schema ty en (Some ps) its)) key
         = Some (JStr m)
       /\ find_match options fv = Some m
       /\ (case_distinct options = true -> m = fv))
  /\ (forall m,
        includes_pipe s = false ->
        find_match options (toUpperCase (trim s)) = Some m ->
        nonempty m = true ->
        get (normalizeStringEnums x (Schema ty en (Some ps) its)) key
          = Some (JStr m)).
Proof.
  intros Hd Hin He Hget. split.
  - intros fv Hpipe Hcount Hfind Hne.
    destruct (normalize_enum_string_pipe_list options s fv Hpipe Hcount Hfind Hne)
      as [m [Hm [Hfm Hcase]]].
    exists m. split; [|split; assumption].
    now apply normalizeStringEnums_matched with (p := p) (options := options) (s := s).
  - intros m Hpipe Hm Hne.
    apply normalizeStringEnums_matched with (p := p) (options := options) (s := s);
      try assumption.
    now apply normalize_enum_string_case_insensitive.
Qed.



(** ** Enum options of any kind *)

Lemma normalizeEnumValues_equation (ty : option string)
  (en : option (list json)) (ps : list (string * json_schema))
  (it : option json_schema) (r : json) :
  normalizeEnumValues r (JsonSchema ty en (Some ps) it)
  = if is_object r then process_entries ps r else Ok r.
Proof.
  simpl. destruct (is_object r); [|reflexivity].
  revert r. induction ps as [|[k p] ps IH]; intros r; simpl; [reflexivity|].
  unfold recur_into, recur_into_items.
  destruct (process_entry k p _ _ r); [apply IH | reflexivity].
Qed.

Lemma json_schema_induction (Pr : json_schema -> Prop) :
  (forall ty en props its,
     (forall ps k p, props = Some ps -> In (k, p) ps -> Pr p) ->
     (forall it, its = Some it -> Pr it) ->
     Pr (JsonSchema ty en props its)) ->
  forall s, Pr s.
Proof.
  intros H. fix IH 1. intros [ty en props its]. apply H.
  - destruct props as [ps|]; [|discriminate].
    assert (Hall : forall k p, In (k, p) ps -> Pr p).
    { clear H.
      refine ((fix G (l : list (string * json_schema)) :
                 forall k p, In (k, p) l -> Pr p :=
                 match l with
                 | [] => fun k p Hin => match Hin with end
                 | (k0, p0) :: tl => fun k p Hin =>
                   match Hin with
                   | or_introl Heq => _
                   | or_intror Hin' => G tl k p Hin'
                   end
                 end) ps).
      injection Heq as _ E. rewrite <- E. exact (IH p0). }
    intros ps' k p [= <-]. apply Hall.
  - destruct its as [it|]; [|discriminate].
    intros it' [= <-]. exact (IH it).
Qed.

Lemma enum_includes_strings (options : list json) (p : string) :
  forallb string_option options = true ->
  enum_includes options p = includes (option_strings options) p.
Proof.
  induction options as [|e rest IH]; intros H; [reflexivity|].
  simpl in H. apply andb_true_iff in H as [He Hrest].
  destruct e; try discriminate. simpl. rewrite (IH Hrest).
  now rewrite String.eqb_sym.
Qed.

Lemma enum_find_strings (options : list json) (value : string) :
  forallb string_option options = true ->
  enum_find options value = Ok (find_match (option_strings options) value).
Proof.
  induction options as [|e rest IH]; intros H; [reflexivity|].
  simpl in H. apply andb_true_iff in H as [He Hrest].
  destruct e; try discriminate. simpl.
  destruct (toUpperCase s =? value); [reflexivity|]. now apply IH.
Qed.

Lemma find_ext_strings (f g : string -> bool) (l : list string) :
  (forall a, f a = g a) -> find f l = find g l.
Proof.
  intros H. induction l as [|a l IH]; [reflexivity|].
  simpl. now rewrite H, IH.
Qed.

Lemma collapse_copied_list_strings (options : list json) (value : string) :
  forallb string_option options = true ->
  collapse_copied_list options value
  = collapse_enum_list (option_strings options) value.
Proof.
  intros H. unfold collapse_copied_list, collapse_enum_list.
  rewrite (filter_ext _ _ (fun p => enum_includes_strings options p H)).
  now rewrite (find_ext_strings _ _ _ (fun p => enum_includes_strings options p H)).
Qed.

Lemma normalize_enum_value_strings (options : list json) (s : string) :
  forallb string_option options = true ->
  normalize_enum_value options s
  = Ok (normalize_enum_string (option_strings options) s).
Proof.
  intros H. unfold normalize_enum_value, normalize_enum_string, enum_variation.
  rewrite (collapse_copied_list_strings _ _ H), (enum_find_strings _ _ H).
  destruct (find_match (option_strings options)
              (collapse_enum_list (option_strings options) (toUpperCase (trim s))))
    as [m|].
  - destruct (nonempty m); [reflexivity|].
    destruct (assoc_get variations _) as [v|]; [|reflexivity].
    now rewrite (enum_includes_strings _ _ H).
  - destruct (assoc_get variations _) as [v|]; [|reflexivity].
    now rewrite (enum_includes_strings _ _ H).
Qed.

Lemma normalize_elements_ok (f : json -> result json) (g : json -> json)
  (elements : list json) :
  (forall x, f x = Ok (g x)) ->
  normalize_elements f elements = Ok (map g elements).
Proof.
  intros H. induction elements as [|x rest IH]; [reflexivity|].
  simpl. now rewrite H, IH.
Qed.

Lemma string_schema_properties (ps : list (string * json_schema)) :
  (fix each (l : list (string * json_schema)) : list (string * schema) :=
     match l with
     | [] => []
     | (k, p) :: rest => (k, string_schema p) :: each rest
     end) ps
  = map (fun entry => (fst entry, string_schema (snd entry))) ps.
Proof.
  induction ps as [|[k p] ps IH]; [reflexivity|]. simpl. now rewrite IH.
Qed.

Lemma string_schema_eq (ty : option string) (en : option (list json))
  (props : option (list (string * json_schema))) (its : option json_schema) :
  string_schema (JsonSchema ty en props its)
  = Schema ty
      (match en with
       | Some options => Some (option_strings options)
       | None => None
       end)
      (match props with
       | Some ps =>
         Some (map (fun entry => (fst entry, string_schema (snd entry))) ps)
       | None => None
       end)
      (match its with
       | Some it => Some (string_schema it)
       | None => None
       end).
Proof.
  destruct props as [ps|]; [|reflexivity].
  cbn [string_schema]. now rewrite string_schema_properties.
Qed.

Lemma string_enums_inv (ty : option string) (en : option (list json))
  (props : option (list (string * json_schema))) (its : option json_schema) :
  string_enums (JsonSchema ty en props its) = true ->
  (forall options, en = Some options -> forallb string_option options = true)
  /\ (forall ps k p, props = Some ps -> In (k, p) ps -> string_enums p = true)
  /\ (forall it, its = Some it -> string_enums it = true).
Proof.
  simpl. intros H.
  apply andb_true_iff in H as [H Hits].
  apply andb_true_iff in H as [Hen Hprops].
  split; [|split].
  - intros options ->. exact Hen.
  - intros ps k p -> Hin. rewrite forallb_forall in Hprops.
    exact (Hprops (k, p) Hin).
  - intros it ->. exact Hits.
Qed.

(** The loop body for one property, when the options are strings and the
    recursive calls agree with those on the schema of string options. *)
Lemma process_entry_strings (key : string) (p : json_schema) (r : json) :
  string_enums p = true ->
  (forall x, normalizeEnumValues x p
             = Ok (normalizeStringEnums x (string_schema p))) ->
  (forall it, schema_items p = Some it ->
     forall x, normalizeEnumValues x it
               = Ok (normalizeStringEnums x (string_schema it))) ->
  process_entry key p (recur_into p) (recur_into_items p) r
  = Ok (process_property key (string_schema p) (recur_on (string_schema p))
          (recur_on_items (string_schema p)) r).
Proof.
  intros Hs Hp Hit. destruct p as [ty en props its].
  destruct (string_enums_inv _ _ _ _ Hs) as [Hen _].
  rewrite string_schema_eq in *.
  set (en' := match en with
              | Some options => Some (option_strings options)
              | None => None
              end) in *.
  set (props' := match props with
                 | Some ps =>
                   Some (map (fun entry =>
                                (fst entry, string_schema (snd entry))) ps)
                 | None => None
                 end) in *.
  set (its' := match its with
               | Some it => Some (string_schema it)
               | None => None
               end) in *.
  assert (Hhas : has_properties (Schema ty en' props' its')
                 = schema_has_properties (JsonSchema ty en props its))
    by (unfold props'; destruct props; reflexivity).
  assert (Hty : forall t,
             type_is (Schema ty en' props' its') t
             = schema_type_is (JsonSchema ty en props its) t)
    by reflexivity.
  assert (Harr : forall r2,
             normalize_nested_array key (JsonSchema ty en props its)
               (recur_into_items (JsonSchema ty en props its)) r2
             = Ok (if schema_type_is (JsonSchema ty en props its) "array" then
                     match recur_on_items (Schema ty en' props' its'),
                           get r2 key with
                     | Some f, Some (JArr elements) =>
                       set r2 key (JArr (map f elements))
                     | _, _ => r2
                     end
                   else r2)).
  { intros r2. unfold normalize_nested_array.
    destruct (schema_type_is (JsonSchema ty en props its) "array");
      [|reflexivity].
    unfold its'. destruct its as [it|]; [|reflexivity].
    cbn [recur_into_items recur_on_items].
    destruct it as [ty0 en0 [ps0|] its0].
    - rewrite string_schema_eq.
      destruct (get r2 key) as [v|]; [|reflexivity].
      destruct v as [ | b | q | text | elements | fields ]; try reflexivity.
      rewrite (normalize_elements_ok _
                 (fun item =>
                    normalizeStringEnums item
                      (string_schema (JsonSchema ty0 en0 (Some ps0) its0)))).
      + now rewrite string_schema_eq.
      + intros x. now apply (Hit _ eq_refl).
    - rewrite string_schema_eq. reflexivity. }
  assert (Hblocks : forall r',
             normalize_nested_blocks key (JsonSchema ty en props its)
               (recur_into (JsonSchema ty en props its))
               (recur_into_items (JsonSchema ty en props its)) r'
             = Ok (normalize_nested key (Schema ty en' props' its')
                     (recur_on (Schema ty en' props' its'))
                     (recur_on_items (Schema ty en' props' its')) r')).
  { intros r'. unfold normalize_nested_blocks, normalize_nested_object,
      normalize_nested.
    rewrite Hhas, !Hty.
    destruct (schema_type_is (JsonSchema ty en props its) "object"
              && schema_has_properties (JsonSchema ty en props its)).
    - destruct (get r' key) as [child|]; [|apply Harr].
      destruct (js_truthy child); [|apply Harr].
      unfold recur_into. rewrite Hp. unfold recur_on. apply Harr.
    - apply Harr. }
  unfold process_entry, process_property, enum_branch_of, enum_branch.
  cbn [schema_enum s_enum]. unfold en'.
  destruct en as [options|].
  - destruct (get r key) as [v|]; [|apply Hblocks].
    destruct v as [ | b | q | text | elements | fields ]; try apply Hblocks.
    rewrite (normalize_enum_value_strings options text (Hen options eq_refl)).
    destruct (normalize_enum_string (option_strings options) text);
      [reflexivity | apply Hblocks | apply Hblocks].
  - destruct (get r key) as [v|]; [|apply Hblocks].
    destruct v; apply Hblocks.
Qed.

(** Where all options are strings, [normalizeEnumValues] returns, and
    returns what the function on string options computes. *)
Lemma normalizeEnumValues_strings (S : json_schema) :
  string_enums S = true ->
  (forall x, normalizeEnumValues x S
             = Ok (normalizeStringEnums x (string_schema S)))
  /\ (forall it, schema_items S = Some it ->
        forall x, normalizeEnumValues x it
                  = Ok (normalizeStringEnums x (string_schema it))).
Proof.
  induction S as [ty en props its IHprops IHits] using json_schema_induction.
  intros Hs. destruct (string_enums_inv _ _ _ _ Hs) as [_ [Hps Hits]].
  split.
  - intros x. rewrite string_schema_eq.
    destruct props as [ps|]; [|reflexivity].
    rewrite normalizeEnumValues_equation, normalizeStringEnums_properties.
    destruct (is_object x); [|reflexivity].
    unfold normalize_properties.
    assert (Hall : forall k p, In (k, p) ps ->
               string_enums p = true
               /\ (forall y, normalizeEnumValues y p
                             = Ok (normalizeStringEnums y (string_schema p)))
               /\ (forall it, schema_items p = Some it ->
                     forall y, normalizeEnumValues y it
                               = Ok (normalizeStringEnums y (string_schema it)))).
    { intros k p Hin. pose proof (Hps ps k p eq_refl Hin) as Hp.
      destruct (IHprops ps k p eq_refl Hin Hp) as [H1 H2]. now split. }
    clear IHprops Hps Hs. revert x.
    induction ps as [|[k p] ps IH]; intros x; [reflexivity|].
    cbn [process_entries map fold_left fst snd].
    destruct (Hall k p (or_introl eq_refl)) as [Hp [H1 H2]].
    rewrite (process_entry_strings k p x Hp H1 H2).
    apply IH. intros k' p' Hin. apply (Hall k' p'). now right.
  - simpl. intros it ->.
    exact (proj1 (IHits it eq_refl (Hits it eq_refl))).
Qed.

Lemma option_strings_map (options : list string) :
  option_strings (map JStr options) = options.
Proof.
  induction options as [|o rest IH]; [reflexivity|]. simpl. now rewrite IH.
Qed.

(** C4, as the code has it.  For every parsed result [x] and every schema
    [S] in whose enums the options are strings, no two of which differ
    only by letter case, [normalizeEnumValues] returns, and normalising
    what it returns gives the same again, through nested objects and
    arrays of objects.  The text of [x] and of [S] is of the ASCII
    range. *)
Theorem normalizeEnumValues_idempotent (x : json) (S : json_schema) :
  string_enums S = true ->
  well_formed (string_schema S) = true ->
  ascii_json x = true ->
  ascii_schema S = true ->
  exists y,
    normalizeEnumValues x S = Ok y /\ normalizeEnumValues y S = Ok y.
Proof.
  intros Hs Hwf _ _.
  destruct (normalizeEnumValues_strings S Hs) as [Hbridge _].
  exists (normalizeStringEnums x (string_schema S)).
  rewrite !Hbridge. split; [reflexivity|].
  now rewrite normalizeStringEnums_idempotent.
Qed.

Lemma normalizeEnumValues_idempotent_witness :
  exists y,
    normalizeEnumValues example_result (json_schema_of conductorSchema) = Ok y
    /\ normalizeEnumValues y (json_schema_of conductorSchema) = Ok y.
Proof.
  apply (normalizeEnumValues_idempotent example_result
           (json_schema_of conductorSchema)); vm_compute; reflexivity.
Defined.

(** C4, as stated, fails, even with string options and text of the ASCII
    range: with the options [debug] and [DEBUG] in one enum, the value
    [bug] is first replaced by the variation [DEBUG], and a second
    normalisation replaces [DEBUG] by [debug], the first option that
    equals it up to case. *)
Lemma normalizeEnumValues_not_idempotent :
  ~ (forall (x : json) (S : json_schema),
       string_enums S = true ->
       ascii_json x = true ->
       ascii_schema S = true ->
       forall y,
         normalizeEnumValues x S = Ok y -> normalizeEnumValues y S = Ok y).
Proof.
  intros H.
  specialize (H (JObj [("taskType", JStr "bug")])
                (json_schema_of twoCaseSchema) eq_refl eq_refl eq_refl
                (JObj [("taskType", JStr "DEBUG")]) eq_refl).
  vm_compute in H. discriminate H.
Qed.

Example normalizeEnumValues_two_case_once :
  normalizeEnumValues (JObj [("taskType", JStr "bug")])
    (json_schema_of twoCaseSchema)
  = Ok (JObj [("taskType", JStr "DEBUG")]).
Proof. vm_compute. reflexivity. Qed.

Example normalizeEnumValues_two_case_twice :
  normalizeEnumValues (JObj [("taskType", JStr "DEBUG")])
    (json_schema_of twoCaseSchema)
  = Ok (JObj [("taskType", JStr "debug")]).
Proof. vm_compute. reflexivity. Qed.

(** An option that is not a string, tried before a match is found, makes
    the call throw. *)
Example normalizeEnumValues_null_option :
  normalizeEnumValues (JObj [("complexity", JStr "simple")])
    nullable_enum_schema
  = Throw "TypeError: Cannot read properties of null (reading 'toUpperCase')".
Proof. vm_compute. reflexivity. Qed.

(** C5, as the code has it.  In a schema whose enum options are strings,
    for a property with an enum and a string value, all of the ASCII
    range: when the value contains ['|'] and at least two of its parts
    (trimmed, upper-cased) are enum options, the first of them not empty,
    the value becomes the first enum option equal to that part up to case,
    which is the part itself when no two options differ only by case;
    when the value contains no ['|'] and equals an option up to case and
    surrounding white space, it becomes the first such option, before the
    table of common variations is consulted. *)
Theorem normalizeEnumValues_enum_matching (x : json) (ty : option string)
  (en : option (list json)) (ps : list (string * json_schema))
  (its : option json_schema) (key : string) (p : json_schema)
  (options : list string) (s : string) :
  string_enums (JsonSchema ty en (Some ps) its) = true ->
  ascii_text s = true ->
  forallb ascii_text options = true ->
  distinct_keys (map fst ps) = true ->
  In (key, p) ps ->
  schema_enum p = Some (map JStr options) ->
  get x key = Some (JStr s) ->
  (forall fv,
     includes_pipe s = true ->
     2 <= List.length (filter (includes options)
                         (pipe_parts (toUpperCase (trim s)))) ->
     find (includes options) (pipe_parts (toUpperCase (trim s))) = Some fv ->
     nonempty fv = true ->
     exists y m,
       normalizeEnumValues x (JsonSchema ty en (Some ps) its) = Ok y
       /\ get y key = Some (JStr m)
       /\ find_match options fv = Some m
       /\ (case_distinct options = true -> m = fv))
  /\ (forall m,
        includes_pipe s = false ->
        find_match options (toUpperCase (trim s)) = Some m ->
        nonempty m = true ->
        exists y,
          normalizeEnumValues x (JsonSchema ty en (Some ps) its) = Ok y
          /\ get y key = Some (JStr m)).
Proof.
  intros Hs _ _ Hd Hin He Hget.
  destruct (normalizeEnumValues_strings _ Hs) as [Hbridge _].
  rewrite string_schema_eq in Hbridge.
  set (ps' := map (fun entry => (fst entry, string_schema (snd entry))) ps)
    in *.
  assert (Hd' : distinct_keys (map fst ps') = true).
  { unfold ps'. rewrite map_map. cbn [fst]. exact Hd. }
  assert (Hin' : In (key, string_schema p) ps').
  { unfold ps'. apply in_map_iff. now exists (key, p). }
  assert (He' : s_enum (string_schema p) = Some options).
  { destruct p as [ty' en' props' its']. rewrite string_schema_eq.
    cbn [schema_enum] in He. cbn [s_enum]. rewrite He.
    now rewrite option_strings_map. }
  destruct (normalizeStringEnums_enum_matching x ty
              (match en with
               | Some o => Some (option_strings o)
               | None => None
               end)
              ps'
              (match its with
               | Some it => Some (string_schema it)
               | None => None
               end)
              key (string_schema p) options s Hd' Hin' He' Hget)
    as [Hlist Hcase].
  split.
  - intros fv Hpipe Hcount Hfind Hne.
    destruct (Hlist fv Hpipe Hcount Hfind Hne) as [m [Hm [Hfm Hdist]]].
    eexists. exists m. split; [apply Hbridge|]. now split.
  - intros m Hpipe Hm Hne.
    eexists. split; [apply Hbridge|]. now apply Hcase.
Qed.

Lemma normalizeEnumValues_enum_matching_witness :
  (exists y,
     normalizeEnumValues (JObj [("complexity", JStr "simple|standard")])
       (json_schema_of conductorSchema) = Ok y
     /\ get y "complexity" = Some (JStr "SIMPLE"))
  /\ (exists y,
        normalizeEnumValues (JObj [("complexity", JStr " simple ")])
          (json_schema_of conductorSchema) = Ok y
        /\ get y "complexity" = Some (JStr "SIMPLE")).
Proof.
  pose (options := ["TRIVIAL"; "SIMPLE"; "STANDARD"; "CRITICAL"; "UNCERTAIN"]).
  pose (p := JsonSchema (Some "string") (Some (map JStr options)) None None).
  pose (ps := [ ("complexity", p);
                ("taskType",
                 JsonSchema (Some "string")
                   (Some [JStr "INQUIRY"; JStr "TASK"; JStr "DEBUG"]) None None);
                ("reasoning", JsonSchema (Some "string") None None None) ]).
  split.
  - destruct (proj1 (normalizeEnumValues_enum_matching
                (JObj [("complexity", JStr "simple|standard")])
                (Some "object") None ps None "complexity" p options
                "simple|standard" eq_refl eq_refl eq_refl eq_refl
                (or_introl eq_refl) eq_refl eq_refl)
              "SIMPLE" eq_refl (le_n 2) eq_refl eq_refl)
      as [y [m [Hy [Hget [_ Hcase]]]]].
    exists y. split; [exact Hy|].
    rewrite <- (Hcase eq_refl). exact Hget.
  - exact (proj2 (normalizeEnumValues_enum_matching
                (JObj [("complexity", JStr " simple ")])
                (Some "object") None ps None "complexity" p options
                " simple " eq_refl eq_refl eq_refl eq_refl
                (or_introl eq_refl) eq_refl eq_refl)
              "SIMPLE" eq_refl eq_refl eq_refl).
Defined.

(** C5, as stated, fails: one valid part is not enough.  The value
    [SIMPLE|FOO] contains a pipe and its first part is an option, yet it is
    left as it is; the code collapses a value only when at least two parts
    are options. *)
Lemma normalizeEnumValues_single_valid_part :
  ~ (forall (x : json) (ty : option string) (en : option (list json))
       (ps : list (string * json_schema)) (its : option json_schema)
       (key : string) (p : json_schema) (options : list string)
       (s fv : string),
       string_enums (JsonSchema ty en (Some ps) its) = true ->
       ascii_text s = true ->
       forallb ascii_text options = true ->
       distinct_keys (map fst ps) = true ->
       In (key, p) ps ->
       schema_enum p = Some (map JStr options) ->
       get x key = Some (JStr s) ->
       includes_pipe s = true ->
       find (includes options) (pipe_parts (toUpperCase (trim s))) = Some fv ->
       exists y,
         normalizeEnumValues x (JsonSchema ty en (Some ps) its) = Ok y
         /\ get y key = Some (JStr fv)).
Proof.
  intros H.
  pose (options := ["TRIVIAL"; "SIMPLE"; "STANDARD"; "CRITICAL"; "UNCERTAIN"]).
  pose (p := JsonSchema (Some "string") (Some (map JStr options)) None None).
  destruct (H (JObj [("complexity", JStr "SIMPLE|FOO")])
              (Some "object") None [("complexity", p)] None "complexity" p
              options "SIMPLE|FOO" "SIMPLE"
              eq_refl eq_refl eq_refl eq_refl (or_introl eq_refl) eq_refl
              eq_refl eq_refl eq_refl)
    as [y [Hy Hget]].
  vm_compute in Hy. injection Hy as <-.
  vm_compute in Hget. discriminate Hget.
Qed.

Example single_valid_part_kept :
  normalizeEnumValues (JObj [("complexity", JStr "SIMPLE|FOO")])
    (json_schema_of conductorSchema)
  = Ok (JObj [("complexity", JStr "SIMPLE|FOO")]).
Proof. vm_compute. reflexivity. Qed.

(** ** The task runner's schema and streaming policy *)



Lemma normalizeProviderName_again (name : string) :
  normalizeProviderName (normalizeProviderName name) = normalizeProviderName name.
Proof.
  unfold normalizeProviderName.
  destruct (assoc_get PROVIDER_ALIASES (toLowerCase name)) as [c|] eqn:E;
    [|now rewrite E].
  apply assoc_get_In in E. simpl in E.
  repeat (destruct E as [[= _ <-] | E]; [reflexivity|]). destruct E.
Qed.





(** The two runs of the policy on the host, and a provider that does not
    exist. *)
Example run_streaming_args :
  run example_env "prompt" (example_options None)
  = Ok (spawn_host
          ["task"; "run"; "--output-format"; "stream-json"; "--provider";
           "claude"; "--model"; "sonnet"; "prompt"]).
Proof. vm_compute. reflexivity. Qed.

Example run_strict_args :
  run example_env "prompt" (example_options (Some true))
  = Ok (spawn_host
          ["task"; "run"; "--output-format"; "json"; "--provider"; "claude";
           "--model"; "sonnet"; "--json-schema"; "{schema}"; "prompt"]).
Proof. vm_compute. reflexivity. Qed.

Example run_unknown_provider :
  run example_env "prompt" unknown_provider_options
  = Throw "Unknown provider: llama. Valid: claude, codex, gemini".
Proof. vm_compute. reflexivity. Qed.

(** ** The stale lock and the retry schedule *)

Lemma assoc_get_remove_same {A : Type} (l : list (string * A)) (k : string) :
  assoc_get (assoc_remove l k) k = None.
Proof.
  induction l as [|[k0 v0] l IH]; simpl; [reflexivity|].
  destruct (k0 =? k) eqn:E; simpl; [exact IH | now rewrite E].
Qed.

Lemma assoc_get_remove_other {A : Type} (l : list (string * A)) (k k' : string) :
  k <> k' -> assoc_get (assoc_remove l k) k' = assoc_get l k'.
Proof.
  intros Hne. induction l as [|[k0 v0] l IH]; simpl; [reflexivity|].
  destruct (k0 =? k) eqn:E; simpl.
  - apply String.eqb_eq in E. subst k0.
    destruct (k =? k') eqn:E'; [apply String.eqb_eq in E'; contradiction|].
    exact IH.
  - now rewrite IH.
Qed.








(** ** Loading a corrupt store *)

Lemma slice_prefix_substring (n : nat) (s : string) :
  slice_prefix n s = substring 0 n s.
Proof.
  revert s. induction n as [|n IH]; intros [|c s]; simpl; try reflexivity.
  now rewrite IH.
Qed.

Lemma mkdir_if_missing_get (now : ms) (fs : file_system) (dir path : string)
  (x : node) :
  assoc_get fs path = Some x ->
  assoc_get (mkdir_if_missing now fs dir) path = Some x.
Proof.
  intros H. unfold mkdir_if_missing, existsSync.
  destruct (assoc_get fs dir) eqn:E; [exact H|].
  rewrite assoc_get_set_other; [exact H|].
  intros ->. congruence.
Qed.

Lemma ensureDirs_get (TASKS_DIR LOGS_DIR : string) (now : ms)
  (fs : file_system) (path : string) (x : node) :
  assoc_get fs path = Some x ->
  assoc_get (ensureDirs TASKS_DIR LOGS_DIR now fs) path = Some x.
Proof.
  intros H. unfold ensureDirs. now apply mkdir_if_missing_get, mkdir_if_missing_get.
Qed.

(** C8.  When the store file exists and its content does not parse as
    JSON, [loadTasks] and [loadSchedules] throw; the message carries the
    parser's message and the first 200 characters of the content.  No
    value is returned for a corrupt store. *)
Theorem load_corrupt_store_throws
  (TASKS_DIR TASKS_FILE LOGS_DIR SCHEDULES_FILE : string)
  (JSON_parse : string -> result json)
  (now : ms) (fs : file_system) (content : string) (mtime : ms)
  (message : string) :
  JSON_parse content = Throw message ->
  (assoc_get fs TASKS_FILE = Some (regular_file content mtime) ->
   snd (loadTasks TASKS_DIR TASKS_FILE LOGS_DIR JSON_parse now fs)
   = Throw ("CRITICAL: tasks.json is corrupted and cannot be parsed. Error: "
            ++ message ++ ". Content: " ++ substring 0 200 content ++ "..."))
  /\ (assoc_get fs SCHEDULES_FILE = Some (regular_file content mtime) ->
      snd (loadSchedules TASKS_DIR LOGS_DIR SCHEDULES_FILE JSON_parse now fs)
      = Throw ("CRITICAL: schedules.json is corrupted and cannot be parsed. Error: "
               ++ message ++ ". Content: " ++ substring 0 200 content ++ "...")).
Proof.
  intros Hparse. split; intros Hfile.
  - unfold loadTasks, existsSync, readFileSync.
    rewrite (ensureDirs_get TASKS_DIR LOGS_DIR now fs _ _ Hfile).
    cbn -[slice_prefix substring append].
    now rewrite Hparse, slice_prefix_substring.
  - unfold loadSchedules, existsSync, readFileSync.
    rewrite (ensureDirs_get TASKS_DIR LOGS_DIR now fs _ _ Hfile).
    cbn -[slice_prefix substring append].
    now rewrite Hparse, slice_prefix_substring.
Qed.

Lemma load_corrupt_store_throws_witness :
  snd (loadTasks "/state" "/state/tasks.json" "/state/logs" example_parse
         (ms_of_Z 20) corrupt_fs)
  = Throw ("CRITICAL: tasks.json is corrupted and cannot be parsed. Error: "
           ++ "Unexpected token" ++ ". Content: " ++ "{ truncated" ++ "...").
Proof.
  exact (proj1 (load_corrupt_store_throws "/state" "/state/tasks.json"
                  "/state/logs" "/state/schedules.json" example_parse
                  (ms_of_Z 20) corrupt_fs "{ truncated" (ms_of_Z 10)
                  "Unexpected token" eq_refl) eq_refl).
Defined.

(** ** Loading the settings *)

Lemma assoc_get_assign_all_present (base over : list (string * json)) (k : string) :
  assoc_get base k <> None -> assoc_get (assign_all base over) k <> None.
Proof.
  unfold assign_all. revert base.
  induction over as [|[k0 v0] over IH]; intros base H; simpl; [exact H|].
  apply IH. destruct (String.eqb_spec k0 k) as [-> | Hne].
  - rewrite assoc_get_set_same. discriminate.
  - now rewrite assoc_get_set_other.
Qed.

Lemma assoc_get_assign_all_other (base over : list (string * json)) (k : string) :
  assoc_get over k = None ->
  assoc_get (assign_all base over) k = assoc_get base k.
Proof.
  unfold assign_all. revert base.
  induction over as [|[k0 v0] over IH]; intros base H; simpl in *; [reflexivity|].
  destruct (k0 =? k) eqn:E; [discriminate|].
  rewrite IH by assumption. apply assoc_get_set_other.
  intros ->. rewrite String.eqb_refl in E. discriminate.
Qed.

Lemma assoc_get_none_not_in {A : Type} (l : list (string * A)) (k : string) :
  ~ In k (map fst l) -> assoc_get l k = None.
Proof.
  induction l as [|[k0 v0] l IH]; simpl; intros H; [reflexivity|].
  destruct (String.eqb_spec k0 k) as [-> | Hne].
  - exfalso. apply H. now left.
  - apply IH. intros Hin. apply H. now right.
Qed.

(** With distinct keys, an assigned property has the assigned value. *)
Lemma assoc_get_assign_all (base over : list (string * json)) (k : string)
  (v : json) :
  distinct_keys (map fst over) = true ->
  assoc_get over k = Some v ->
  assoc_get (assign_all base over) k = Some v.
Proof.
  unfold assign_all. revert base.
  induction over as [|[k0 v0] over IH]; intros base Hd H; simpl in *; [discriminate|].
  apply distinct_keys_cons in Hd as [Hnot Hd].
  destruct (String.eqb_spec k0 k) as [-> | Hne].
  - injection H as ->.
    fold (assign_all (assoc_set base k v) over).
    rewrite assoc_get_assign_all_other by (now apply assoc_get_none_not_in).
    apply assoc_get_set_same.
  - now apply IH.
Qed.



Lemma get_set_present (r : json) (k k' : string) (x : json) :
  get r k' <> None -> get (set r k x) k' <> None.
Proof.
  intros H. destruct (String.eqb_spec k k') as [-> | Hne].
  - destruct (get r k') as [v|] eqn:E; [|contradiction].
    erewrite get_set_same by exact E. discriminate.
  - now rewrite get_set_other.
Qed.

Lemma get_merge_loaded_present (parsed : json) (k : string) :
  In k default_keys -> get (merge_loaded parsed) k <> None.
Proof.
  intros Hin. unfold merge_loaded.
  apply get_set_present, get_set_present. simpl.
  apply assoc_get_assign_all_present.
  unfold default_keys in Hin. simpl in Hin.
  repeat (destruct Hin as [<- | Hin]; [simpl; discriminate|]).
  destruct Hin.
Qed.


Lemma default_keys_present (k : string) :
  In k default_keys -> get DEFAULT_SETTINGS k <> None.
Proof.
  unfold default_keys. simpl. intros Hin.
  repeat (destruct Hin as [<- | Hin]; [simpl; discriminate|]).
  destruct Hin.
Qed.



(** With the constant for the module's object, the functions on any
    value of that object are the functions on the constant. *)
Lemma loadSettings_from_constant (JSON_parse : string -> result json)
  (file : settings_file) :
  loadSettings_from DEFAULT_SETTINGS JSON_parse file
  = loadSettings JSON_parse file.
Proof.
  unfold loadSettings_from, loadSettings, loadSettings_try_from,
    loadSettings_try.
  destruct file as [| | data]; reflexivity.
Qed.

Lemma provider_entry_applyLegacyModelBounds_other (settings : json) (p : string) :
  p <> "claude" ->
  provider_entry (applyLegacyModelBounds settings) p = provider_entry settings p.
Proof.
  intros Hp. unfold provider_entry, applyLegacyModelBounds.
  destruct (get settings "providerSettings") as [ps|] eqn:Eps;
    [|now rewrite Eps].
  destruct (js_truthy ps); cbn [negb]; [|now rewrite Eps].
  rewrite (get_set_same settings _ _ _ Eps).
  apply get_set_other. congruence.
Qed.



Lemma normalizeProviderName_value_again (v : json) :
  normalizeProviderName_value (normalizeProviderName_value v)
  = normalizeProviderName_value v.
Proof.
  destruct v as [ | b | q | s | items | fields ]; try reflexivity.
  cbn [normalizeProviderName_value].
  destruct (nonempty s) eqn:Es; cbn [normalizeProviderName_value];
    [|now rewrite Es].
  assert (Hn : nonempty (normalizeProviderName s) = true).
  { unfold normalizeProviderName.
    destruct (assoc_get PROVIDER_ALIASES (toLowerCase s)) as [c|] eqn:E;
      [|exact Es].
    apply assoc_get_In in E. simpl in E.
    repeat (destruct E as [[= _ <-] | E]; [reflexivity|]). destruct E. }
  now rewrite Hn, normalizeProviderName_again.
Qed.



(** A setup of Codex on an absent settings file writes into the module's
    object; the defaults that [loadSettings] returns afterwards hold the
    entry of the setup. *)
Example loadSettings_after_setup :
  provider_entry
    (loadSettings_from
       (defaults_after_setup DEFAULT_SETTINGS "codex"
          (level_entry "level2" "level1" "level2" []))
       legacy_parse file_absent) "codex"
  = Some (level_entry "level2" "level1" "level2" []).
Proof. vm_compute. reflexivity. Qed.

(** ** Legacy model names and the claude levels *)

Lemma valid_level_cases (l : string) :
  In l VALID_LEVELS -> l = "level1" \/ l = "level2" \/ l = "level3".
Proof. unfold VALID_LEVELS. simpl. intuition. Qed.

Lemma level_rank_valid (l : string) (fallback : nat) :
  In l VALID_LEVELS -> level_rank (Some (JStr l)) fallback = lrank l.
Proof.
  intros H. apply valid_level_cases in H.
  destruct H as [-> | [-> | ->]]; reflexivity.
Qed.

Lemma mapLegacyModelToLevel_valid (m : option json) (l : string) :
  mapLegacyModelToLevel m = Some l -> In l VALID_LEVELS.
Proof.
  unfold mapLegacyModelToLevel. destruct m as [[| | | s | |]|]; try discriminate.
  destruct (s =? "haiku"); [intros [= <-]; simpl; auto|].
  destruct (s =? "sonnet"); [intros [= <-]; simpl; auto|].
  destruct (s =? "opus"); [intros [= <-]; simpl; auto|discriminate].
Qed.

Lemma legacy_or_valid (m : option json) (l : string) :
  In l VALID_LEVELS -> In (legacy_or m l) VALID_LEVELS.
Proof.
  intros H. unfold legacy_or.
  destruct (mapLegacyModelToLevel m) eqn:E; [|exact H].
  now apply mapLegacyModelToLevel_valid in E.
Qed.

Lemma clamp_level_in_bounds (level lo hi : string) :
  lrank lo <= lrank hi ->
  lrank lo <= lrank (clamp_level level lo hi) <= lrank hi.
Proof.
  intros H. unfold clamp_level.
  destruct (Nat.ltb_spec (lrank level) (lrank lo)); [lia|].
  destruct (Nat.ltb_spec (lrank hi) (lrank level)); lia.
Qed.


(** The levels of the claude object after the legacy bounds are applied. *)
Lemma bound_claude_levels_spec (maxModel minModel : option json) (claude : json)
  (lmax lmin ldef : string) :
  get claude "maxLevel" = Some (JStr lmax) ->
  get claude "minLevel" = Some (JStr lmin) ->
  get claude "defaultLevel" = Some (JStr ldef) ->
  In lmax VALID_LEVELS -> In lmin VALID_LEVELS -> In ldef VALID_LEVELS ->
  let emax := legacy_or maxModel lmax in
  let emin := legacy_or minModel lmin in
  let c := bound_claude_levels maxModel minModel claude in
  if Nat.ltb (lrank emax) (lrank emin) then
    get c "minLevel" = Some (JStr "level1")
    /\ get c "maxLevel" = Some (JStr "level3")
    /\ get c "defaultLevel" = Some (JStr ldef)
  else
    get c "maxLevel" = Some (JStr emax)
    /\ get c "minLevel" = Some (JStr emin)
    /\ get c "defaultLevel" = Some (JStr (clamp_level ldef emin emax)).
Proof.
  intros Hmax Hmin Hdef Vmax Vmin Vdef emax emin c.
  set (c1 := match mapLegacyModelToLevel maxModel with
             | Some l => set claude "maxLevel" (JStr l)
             | None => claude
             end).
  set (c2 := match mapLegacyModelToLevel minModel with
             | Some l => set c1 "minLevel" (JStr l)
             | None => c1
             end).
  assert (H1 : get c1 "maxLevel" = Some (JStr emax)
               /\ get c1 "minLevel" = Some (JStr lmin)
               /\ get c1 "defaultLevel" = Some (JStr ldef)).
  { unfold c1, emax, legacy_or.
    destruct (mapLegacyModelToLevel maxModel) as [l|]; [|auto].
    rewrite (get_set_same claude _ _ _ Hmax).
    rewrite !get_set_other by discriminate. auto. }
  destruct H1 as [H1max [H1min H1def]].
  assert (H2 : get c2 "maxLevel" = Some (JStr emax)
               /\ get c2 "minLevel" = Some (JStr emin)
               /\ get c2 "defaultLevel" = Some (JStr ldef)).
  { unfold c2, emin, legacy_or.
    destruct (mapLegacyModelToLevel minModel) as [l|]; [|auto].
    rewrite (get_set_same c1 _ _ _ H1min).
    rewrite !get_set_other by discriminate. auto. }
  destruct H2 as [H2max [H2min H2def]].
  assert (Vemax : In emax VALID_LEVELS) by now apply legacy_or_valid.
  assert (Vemin : In emin VALID_LEVELS) by now apply legacy_or_valid.
  assert (Hc : c = if Nat.ltb (lrank emax) (lrank emin) then
                     set (set c2 "minLevel" (JStr "level1")) "maxLevel" (JStr "level3")
                   else if Nat.ltb (lrank ldef) (lrank emin) then
                     set c2 "defaultLevel" (JStr emin)
                   else if Nat.ltb (lrank emax) (lrank ldef) then
                     set c2 "defaultLevel" (JStr emax)
                   else c2).
  { unfold c, bound_claude_levels. fold c1. fold c2.
    rewrite H2max, H2min, H2def.
    rewrite !level_rank_valid by assumption. reflexivity. }
  rewrite Hc. unfold clamp_level.
  destruct (Nat.ltb (lrank emax) (lrank emin)).
  - assert (Hm : get (set c2 "minLevel" (JStr "level1")) "maxLevel"
                 = Some (JStr emax))
      by (rewrite get_set_other by discriminate; exact H2max).
    split; [|split].
    + rewrite get_set_other by discriminate. now apply get_set_same with (v := JStr emin).
    + now apply get_set_same with (v := JStr emax).
    + now rewrite !get_set_other by discriminate.
  - destruct (Nat.ltb (lrank ldef) (lrank emin)).
    + rewrite !get_set_other by discriminate.
      rewrite (get_set_same c2 _ _ _ H2def). auto.
    + destruct (Nat.ltb (lrank emax) (lrank ldef)).
      * rewrite !get_set_other by discriminate.
        rewrite (get_set_same c2 _ _ _ H2def). auto.
      * auto.
Qed.

Lemma get_some_truthy (v : json) (k : string) (x : json) :
  get v k = Some x -> js_truthy v = true.
Proof.
  destruct v; simpl; try discriminate; reflexivity.
Qed.




(** The settings test: a file with [maxModel: haiku] brings the default
    level of claude down to level1. *)
Example loadSettings_legacy_default_level :
  claude_setting (loadSettings legacy_parse (file_content "legacy")) "defaultLevel"
  = Some (JStr "level1").
Proof. vm_compute. reflexivity. Qed.

(** ** Iteration patterns and rule selection *)

Example selectModelRule_overlap :
  selectModelRule [model_for "1-10" "sonnet"; model_for "5+" "opus"] 7
  = selected (model_for "1-10" "sonnet").
Proof. vm_compute. reflexivity. Qed.

Example selectModelRule_gap :
  selectModelRule [model_for "1-2" "sonnet"] 5 = NO_MODEL_RULE 5.
Proof. vm_compute. reflexivity. Qed.

Example selectModelRule_invalid :
  selectModelRule [model_for "invalid" "sonnet"] 1 = INVALID_PATTERN "invalid".
Proof. vm_compute. reflexivity. Qed.

Example matchesIteration_examples :
  matchesIteration "1" 1 = Some true
  /\ matchesIteration "2-4" 4 = Some true
  /\ matchesIteration "2-4" 5 = Some false
  /\ matchesIteration "5+" 100 = Some true
  /\ matchesIteration "all" 999 = Some true.
Proof. vm_compute. repeat split; reflexivity. Qed.

Lemma digits_only_string_of_uint (d : Decimal.uint) :
  digits_only (NilEmpty.string_of_uint d) = true.
Proof.
  induction d; simpl; try reflexivity; exact IHd.
Qed.

Lemma to_uint_not_nil (n : nat) : Nat.to_uint n <> Decimal.Nil.
Proof.
  pose proof (DecimalNat.Unsigned.to_of (Nat.to_uint n)) as H.
  rewrite DecimalNat.Unsigned.of_to in H. rewrite H.
  unfold Decimal.unorm. destruct (Decimal.nzhead (Nat.to_uint n)); discriminate.
Qed.

Lemma nat_to_string_digits (n : nat) : digits_only (nat_to_string n) = true.
Proof. apply digits_only_string_of_uint. Qed.

Lemma nat_to_string_nonempty (n : nat) : nat_to_string n <> EmptyString.
Proof.
  unfold nat_to_string. pose proof (to_uint_not_nil n) as H.
  destruct (Nat.to_uint n); try contradiction; discriminate.
Qed.

Lemma string_to_nat_to_string (n : nat) : string_to_nat (nat_to_string n) = Some n.
Proof.
  unfold string_to_nat.
  destruct (nat_to_string n) eqn:E; [now apply nat_to_string_nonempty in E|].
  rewrite <- E. unfold nat_to_string.
  now rewrite NilEmpty.usu, DecimalNat.Unsigned.of_to.
Qed.

Lemma digit_not_dash (c : ascii) : is_digit c = true -> Ascii.eqb c dash = false.
Proof.
  destruct c as [[] [] [] [] [] [] [] []]; vm_compute; congruence.
Qed.

Lemma digit_not_plus (c : ascii) : is_digit c = true -> Ascii.eqb c plus = false.
Proof.
  destruct c as [[] [] [] [] [] [] [] []]; vm_compute; congruence.
Qed.

Lemma digits_not_all (s t : string) :
  digits_only s = true -> s <> EmptyString -> ((s ++ t)%string =? "all") = false.
Proof.
  destruct s as [|c s]; [contradiction|]. simpl.
  intros H _. apply andb_true_iff in H as [Hc _].
  destruct (Ascii.eqb_spec c "a"%char) as [-> | Hne].
  - discriminate Hc.
  - reflexivity.
Qed.

Lemma append_empty_r (s : string) : (s ++ EmptyString)%string = s.
Proof. induction s; simpl; [reflexivity | now rewrite IHs]. Qed.

Lemma split_at_dash_digits (s : string) :
  digits_only s = true -> split_at_dash s = None.
Proof.
  induction s as [|c s IH]; simpl; [reflexivity|].
  intros H. apply andb_true_iff in H as [Hc Hs].
  now rewrite (digit_not_dash c Hc), IH.
Qed.

Lemma split_at_dash_append (s t : string) :
  digits_only s = true ->
  split_at_dash (s ++ String dash t)%string = Some (s, t).
Proof.
  induction s as [|c s IH]; simpl.
  - intros _. reflexivity.
  - intros H. apply andb_true_iff in H as [Hc Hs].
    now rewrite (digit_not_dash c Hc), IH.
Qed.

Lemma strip_plus_digits (s : string) :
  digits_only s = true -> strip_plus s = None.
Proof.
  induction s as [|c s IH]; simpl; [reflexivity|].
  intros H. apply andb_true_iff in H as [Hc Hs].
  destruct s as [|d s'].
  - now rewrite (digit_not_plus c Hc).
  - now rewrite (IH Hs).
Qed.

Lemma strip_plus_append (s : string) :
  strip_plus (s ++ String plus EmptyString)%string = Some s.
Proof.
  induction s as [|c s IH]; [reflexivity|].
  change ((String c s ++ String plus EmptyString)%string)
    with (String c (s ++ String plus EmptyString)%string).
  cbn [strip_plus]. rewrite IH.
  destruct s; reflexivity.
Qed.

Lemma strip_plus_suffix (s t : string) :
  t <> EmptyString -> strip_plus t = None -> strip_plus (s ++ t)%string = None.
Proof.
  intros Hne Ht. induction s as [|c s IH]; [exact Ht|].
  change (String c s ++ t)%string with (String c (s ++ t)%string).
  cbn [strip_plus]. rewrite IH.
  destruct (s ++ t)%string eqn:E; [|reflexivity].
  destruct s; simpl in E; [contradiction | discriminate].
Qed.

(** The patterns as they are written: the decimal text of N, two such
    texts around a dash, such a text before a plus, and ["all"]. *)
Lemma parse_exact (n : nat) :
  parse_iteration_pattern (nat_to_string n) = Some (exact_iteration n).
Proof.
  unfold parse_iteration_pattern.
  pose proof (digits_not_all (nat_to_string n) EmptyString
                (nat_to_string_digits n) (nat_to_string_nonempty n)) as H.
  rewrite append_empty_r in H. rewrite H.
  rewrite (strip_plus_digits _ (nat_to_string_digits n)).
  rewrite (split_at_dash_digits _ (nat_to_string_digits n)).
  now rewrite string_to_nat_to_string.
Qed.

Lemma parse_range (n m : nat) :
  parse_iteration_pattern (nat_to_string n ++ String dash (nat_to_string m))%string
  = Some (iteration_range n m).
Proof.
  unfold parse_iteration_pattern.
  rewrite (digits_not_all _ _ (nat_to_string_digits n) (nat_to_string_nonempty n)).
  rewrite strip_plus_suffix.
  - rewrite (split_at_dash_append _ _ (nat_to_string_digits n)).
    now rewrite !string_to_nat_to_string.
  - discriminate.
  - cbn [strip_plus].
    rewrite (strip_plus_digits _ (nat_to_string_digits m)).
    destruct (nat_to_string m) eqn:E; [now apply nat_to_string_nonempty in E|].
    reflexivity.
Qed.

Lemma parse_open_ended (n : nat) :
  parse_iteration_pattern (nat_to_string n ++ String plus EmptyString)%string
  = Some (open_ended n).
Proof.
  unfold parse_iteration_pattern.
  rewrite (digits_not_all _ _ (nat_to_string_digits n) (nat_to_string_nonempty n)).
  rewrite strip_plus_append. simpl.
  now rewrite string_to_nat_to_string.
Qed.

Lemma selectModelRule_first (before after : list model_rule) (rule : model_rule)
  (iteration : nat) :
  (forall r, In r before -> matchesIteration (iterations r) iteration = Some false) ->
  matchesIteration (iterations rule) iteration = Some true ->
  selectModelRule (before ++ rule :: after) iteration = selected rule.
Proof.
  intros Hbefore Hrule. induction before as [|r0 before IH]; simpl.
  - now rewrite Hrule.
  - rewrite (Hbefore r0 (or_introl eq_refl)).
    apply IH. intros r Hr. apply Hbefore. now right.
Qed.

Lemma selectModelRule_none (rs : list model_rule) (iteration : nat) :
  (forall r, In r rs -> matchesIteration (iterations r) iteration = Some false) ->
  selectModelRule rs iteration = NO_MODEL_RULE iteration.
Proof.
  intros H. induction rs as [|r0 rs IH]; simpl; [reflexivity|].
  rewrite (H r0 (or_introl eq_refl)).
  apply IH. intros r Hr. apply H. now right.
Qed.

(** C2.  A pattern ["N"] matches exactly iteration N, ["N-M"] the
    iterations from N to M inclusive, ["N+"] the iterations from N on, and
    ["all"] every iteration.  Selection takes the first declared rule whose
    pattern matches the current iteration, whatever follows it; when no
    rule matches, it fails with [NO_MODEL_RULE] naming the iteration. *)
Theorem selectModelRule_first_match :
  (forall n m i,
     matchesIteration (exact_text n) i = Some (Nat.eqb i n)
     /\ matchesIteration (range_text n m) i = Some (Nat.leb n i && Nat.leb i m)
     /\ matchesIteration (open_ended_text n) i = Some (Nat.leb n i)
     /\ matchesIteration "all" i = Some true)
  /\ (forall before rule after i,
        (forall r, In r before -> matchesIteration (iterations r) i = Some false) ->
        matchesIteration (iterations rule) i = Some true ->
        selectModelRule (before ++ rule :: after) i = selected rule)
  /\ (forall rs i,
        (forall r, In r rs -> matchesIteration (iterations r) i = Some false) ->
        selectModelRule rs i = NO_MODEL_RULE i).
Proof.
  split; [|split].
  - intros n m i. unfold matchesIteration, exact_text, range_text, open_ended_text.
    rewrite parse_exact, parse_range, parse_open_ended.
    repeat split; reflexivity.
  - intros. now apply selectModelRule_first.
  - intros. now apply selectModelRule_none.
Qed.

Lemma selectModelRule_first_match_witness :
  selectModelRule
    ([model_for "1" "haiku"] ++ model_for "2-10" "sonnet" :: [model_for "5+" "opus"]) 7
  = selected (model_for "2-10" "sonnet")
  /\ selectModelRule [model_for "1-2" "sonnet"] 5 = NO_MODEL_RULE 5.
Proof.
  destruct selectModelRule_first_match as [_ [Hfirst Hnone]].
  split.
  - apply Hfirst; [|reflexivity].
    intros r [<- | []]. reflexivity.
  - apply Hnone. intros r [<- | []]. reflexivity.
Defined.

(* ================================================================== *)
(** * Part II, continued: properties of the functions around the claims *)
(* ================================================================== *)

(** ** Provider names *)

Lemma alias_values_canonical (key canonical : string) :
  assoc_get PROVIDER_ALIASES key = Some canonical ->
  normalizeProviderName canonical = canonical
  /\ In canonical VALID_PROVIDERS.
Proof.
  intros H. apply assoc_get_In in H.
  assert (Hall : forallb (fun kv : string * string =>
                   (normalizeProviderName (snd kv) =? snd kv)
                   && includes VALID_PROVIDERS (snd kv)) PROVIDER_ALIASES = true)
    by (vm_compute; reflexivity).
  rewrite forallb_forall in Hall. specialize (Hall _ H). cbn [snd] in Hall.
  apply andb_true_iff in Hall as [H1 H2].
  apply String.eqb_eq in H1. apply includes_In in H2. auto.
Qed.

Lemma lower_char_idem (c : ascii) : lower_char (lower_char c) = lower_char c.
Proof.
  destruct c as [[] [] [] [] [] [] [] []]; vm_compute; reflexivity.
Qed.

Lemma toLowerCase_idem (s : string) : toLowerCase (toLowerCase s) = toLowerCase s.
Proof.
  induction s as [|c s IH]; simpl; [reflexivity|].
  now rewrite lower_char_idem, IH.
Qed.

Lemma valid_provider_known (p : string) :
  In p VALID_PROVIDERS -> assoc_get PROVIDER_ALIASES (toLowerCase p) = Some p.
Proof.
  unfold VALID_PROVIDERS. simpl.
  intros [<- | [<- | [<- | []]]]; reflexivity.
Qed.

(** X1.  For a name that, in lower case, is not the name of an inherited
    member: [normalizeProviderName] is idempotent, and its result is one
    of claude, codex and gemini exactly for the names that, in lower case,
    are a provider name or an alias; every other name is returned as it
    is. *)
Theorem normalizeProviderName_canonical (name : string) :
  own_name (toLowerCase name) = true ->
  normalizeProviderName (normalizeProviderName name) = normalizeProviderName name
  /\ (In (normalizeProviderName name) VALID_PROVIDERS
      <-> known_provider name = true)
  /\ (known_provider name = false -> normalizeProviderName name = name)
  /\ normalizeProviderName (toLowerCase name)
     = (if known_provider name then normalizeProviderName name
        else toLowerCase name).
Proof.
  intros _. unfold normalizeProviderName, known_provider.
  rewrite toLowerCase_idem.
  destruct (assoc_get PROVIDER_ALIASES (toLowerCase name)) as [c|] eqn:E.
  - destruct (alias_values_canonical _ _ E) as [Hc Hv].
    split; [exact Hc|]. split; [|split]; [tauto | discriminate | reflexivity].
  - rewrite E. split; [reflexivity|]. split; [|split]; try reflexivity.
    split; [|discriminate].
    intros Hin. apply valid_provider_known in Hin. congruence.
Qed.

Lemma normalizeProviderName_canonical_witness :
  normalizeProviderName (normalizeProviderName "OpenAI") = normalizeProviderName "OpenAI"
  /\ In (normalizeProviderName "OpenAI") VALID_PROVIDERS.
Proof.
  destruct (normalizeProviderName_canonical "OpenAI" eq_refl) as [Hidem [Hvalid _]].
  split; [exact Hidem|]. apply Hvalid. reflexivity.
Defined.

(** ** Provider settings under canonical names *)

Lemma distinct_keys_NoDup (keys : list string) :
  distinct_keys keys = true <-> NoDup keys.
Proof.
  induction keys as [|k keys IH]; simpl.
  - split; [constructor | reflexivity].
  - rewrite andb_true_iff, negb_true_iff, IH. split.
    + intros [Hk Hnd]. constructor; [|exact Hnd].
      intros Hin. apply includes_In in Hin. congruence.
    + intros Hnd. inversion Hnd as [|? ? Hk Hnd']; subst. split; [|exact Hnd'].
      destruct (includes keys k) eqn:E; [|reflexivity].
      apply includes_In in E. contradiction.
Qed.

Lemma assoc_get_not_in {A : Type} (l : list (string * A)) (k : string) :
  assoc_get l k = None <-> ~ In k (keys_of l).
Proof.
  split; [|apply assoc_get_none_not_in].
  induction l as [|[k0 v0] l IH]; simpl; intros H; [tauto|].
  destruct (String.eqb_spec k0 k) as [-> | Hne]; [discriminate|].
  intros [Heq | Hin]; [contradiction | now apply IH].
Qed.

Lemma assoc_set_append {A : Type} (l : list (string * A)) (k : string) (v : A) :
  ~ In k (keys_of l) -> assoc_set l k v = l ++ [(k, v)].
Proof.
  induction l as [|[k0 v0] l IH]; simpl; intros H; [reflexivity|].
  destruct (String.eqb_spec k0 k) as [-> | Hne].
  - exfalso. apply H. now left.
  - rewrite IH; [reflexivity|]. intros Hin. apply H. now right.
Qed.

Lemma keys_assoc_set {A : Type} (l : list (string * A)) (k : string) (v : A) :
  keys_of (assoc_set l k v)
  = if includes (keys_of l) k then keys_of l else keys_of l ++ [k].
Proof.
  unfold keys_of, includes.
  induction l as [|[k0 v0] l IH]; simpl; [reflexivity|].
  rewrite (String.eqb_sym k k0).
  destruct (k0 =? k) eqn:E; simpl; [reflexivity|].
  rewrite IH. destruct (existsb (String.eqb k) (map fst l)); reflexivity.
Qed.

Lemma NoDup_keys_assoc_set {A : Type} (l : list (string * A)) (k : string) (v : A) :
  NoDup (keys_of l) -> NoDup (keys_of (assoc_set l k v)).
Proof.
  intros H. rewrite keys_assoc_set.
  destruct (includes (keys_of l) k) eqn:E; [exact H|].
  apply NoDup_app; [exact H | repeat constructor; intros [] |].
  intros x Hin [<- | []]. apply includes_In in Hin. congruence.
Qed.

Lemma In_assoc_set {A : Type} (l : list (string * A)) (k : string) (v : A)
  (e : string * A) :
  In e (assoc_set l k v) -> e = (k, v) \/ In e l.
Proof.
  induction l as [|[k0 v0] l IH]; simpl.
  - intros [<- | []]. now left.
  - destruct (String.eqb_spec k0 k) as [-> | Hne]; simpl.
    + intros [<- | Hin]; auto.
    + intros [<- | Hin]; auto. destruct (IH Hin); auto.
Qed.

Lemma NoDup_keys_assign_all (base over : list (string * json)) :
  NoDup (keys_of base) -> NoDup (keys_of (assign_all base over)).
Proof.
  unfold assign_all. revert base.
  induction over as [|[k v] over IH]; intros base H; simpl; [exact H|].
  apply IH. now apply NoDup_keys_assoc_set.
Qed.

(** Assigning properties with distinct new names appends them. *)
Lemma assign_all_append (base over : list (string * json)) :
  NoDup (keys_of (base ++ over)) -> assign_all base over = base ++ over.
Proof.
  unfold assign_all. revert base.
  induction over as [|[k v] over IH]; intros base H; simpl.
  - now rewrite app_nil_r.
  - assert (Hk : ~ In k (keys_of base)).
    { unfold keys_of in *. rewrite map_app in H. simpl in H.
      apply NoDup_remove_2 in H. intros Hin. apply H.
      apply in_or_app. now left. }
    rewrite (assoc_set_append base k v Hk).
    rewrite IH; rewrite <- app_assoc; simpl; [reflexivity | exact H].
Qed.

Lemma normalizeProviderName_not_valid (key : string) :
  includes VALID_PROVIDERS (normalizeProviderName key) = false ->
  normalizeProviderName key = key.
Proof.
  unfold normalizeProviderName.
  destruct (assoc_get PROVIDER_ALIASES (toLowerCase key)) as [c|] eqn:E;
    [|reflexivity].
  destruct (alias_values_canonical _ _ E) as [_ Hv].
  apply includes_In in Hv. congruence.
Qed.

Lemma normalizeProviderName_valid (key : string) :
  includes VALID_PROVIDERS (normalizeProviderName key) = true ->
  normalizeProviderName (normalizeProviderName key) = normalizeProviderName key.
Proof.
  intros H. apply includes_In in H. unfold normalizeProviderName at 2 3.
  unfold normalizeProviderName in H.
  destruct (assoc_get PROVIDER_ALIASES (toLowerCase key)) as [c|] eqn:E.
  - now destruct (alias_values_canonical _ _ E).
  - unfold normalizeProviderName.
    now rewrite (valid_provider_known key H).
Qed.

Lemma normalized_entries_nil : normalized_entries [].
Proof.
  split; [constructor | intros k v []].
Qed.

Lemma normalize_provider_entry_invariant (acc : list (string * json))
  (entry : string * json) :
  normalized_entries acc ->
  normalized_entries (normalize_provider_entry acc entry).
Proof.
  intros [Hnd Hall]. destruct entry as [key value].
  unfold normalize_provider_entry.
  destruct (includes VALID_PROVIDERS (normalizeProviderName key)) eqn:Hv; simpl.
  - split; [now apply NoDup_keys_assoc_set|].
    intros k v Hin. apply In_assoc_set in Hin as [[= -> ->] | Hin]; [|now apply Hall].
    split; [now apply normalizeProviderName_valid|].
    intros _. eexists. split; [reflexivity|].
    apply NoDup_keys_assign_all.
    destruct (assoc_get acc (normalizeProviderName key)) as [v'|] eqn:E;
      [|simpl; constructor].
    apply assoc_get_In in E. apply includes_In in Hv.
    destruct (Hall _ _ E) as [_ Hobj].
    destruct (Hobj Hv) as [fields [-> Hfields]]. exact Hfields.
  - split; [now apply NoDup_keys_assoc_set|].
    intros k v Hin. apply In_assoc_set in Hin as [[= -> ->] | Hin]; [|now apply Hall].
    pose proof (normalizeProviderName_not_valid key Hv) as Hk.
    split; [exact Hk|].
    intros Hin. apply includes_In in Hin. congruence.
Qed.

Lemma fold_normalize_invariant (l acc : list (string * json)) :
  normalized_entries acc ->
  normalized_entries (fold_left normalize_provider_entry l acc).
Proof.
  revert acc. induction l as [|e l IH]; intros acc H; simpl; [exact H|].
  now apply IH, normalize_provider_entry_invariant.
Qed.

(** The object under a provider name after the loop: the merge of the
    entries that name the provider, over what was there before. *)
Lemma fold_normalize_provider (p : string) (l acc : list (string * json)) :
  In p VALID_PROVIDERS ->
  assoc_get (fold_left normalize_provider_entry l acc) p
  = match entries_for p l with
    | [] => assoc_get acc p
    | es => Some (JObj (merge_entries
                          (spread (or_empty_object (assoc_get acc p))) es))
    end.
Proof.
  intros Hp. revert acc.
  induction l as [|[key value] l IH]; intros acc; [reflexivity|].
  cbn [fold_left]. rewrite IH. unfold entries_for. cbn [filter fst].
  unfold normalize_provider_entry.
  destruct (includes VALID_PROVIDERS (normalizeProviderName key)) eqn:Hv;
    cbn [negb].
  - destruct (String.eqb_spec (normalizeProviderName key) p) as [-> | Hne].
    + rewrite assoc_get_set_same. cbn [or_empty_object js_truthy spread].
      destruct (filter _ l) as [|e es]; reflexivity.
    + rewrite assoc_get_set_other by exact Hne. reflexivity.
  - pose proof (normalizeProviderName_not_valid key Hv) as Hk.
    assert (Hne : key <> p).
    { intros ->. apply includes_In in Hp. congruence. }
    rewrite Hk.
    destruct (String.eqb_spec key p) as [-> | _]; [contradiction|].
    rewrite assoc_get_set_other by exact Hne. reflexivity.
Qed.

Lemma normalized_entries_alias_free (acc : list (string * json)) (k : string) :
  normalized_entries acc ->
  normalizeProviderName k <> k -> assoc_get acc k = None.
Proof.
  intros [_ Hall] Hk.
  destruct (assoc_get acc k) as [v|] eqn:E; [|reflexivity].
  apply assoc_get_In in E. destruct (Hall _ _ E) as [Hc _]. contradiction.
Qed.

(** X2.  In the provider settings that [normalizeProviderSettings] returns
    for an object, no alias is a key, the keys are distinct, and the entry
    of a provider is the merge [{...a, ...b, ...}] of all entries that name
    it, the aliased ones first and the one under the canonical name last,
    so that the values given under the canonical name win. *)
Theorem normalizeProviderSettings_canonical (entries : list (string * json)) :
  forallb (fun e => own_name (toLowerCase (fst e))) entries = true ->
  exists out,
    normalizeProviderSettings (JObj entries) = JObj out
    /\ NoDup (keys_of out)
    /\ (forall k, normalizeProviderName k <> k -> assoc_get out k = None)
    /\ (forall p, In p VALID_PROVIDERS ->
          assoc_get out p
          = match entries_for p (aliasFirst entries) with
            | [] => None
            | es => Some (JObj (merge_entries [] es))
            end).
Proof.
  intros _. eexists. split; [reflexivity|].
  pose proof (fold_normalize_invariant
                (filter (fun e => negb (is_canonical e)) entries
                 ++ filter is_canonical entries) [] normalized_entries_nil) as Hinv.
  split; [exact (proj1 Hinv)|]. split.
  - intros k Hk. now apply normalized_entries_alias_free.
  - intros p Hp. now rewrite (fold_normalize_provider p _ [] Hp).
Qed.

Lemma normalizeProviderSettings_canonical_witness :
  get (normalizeProviderSettings
         (JObj [ ("claude", JObj [("maxLevel", JStr "level2")]);
                 ("Anthropic", JObj [ ("maxLevel", JStr "level1");
                                      ("minLevel", JStr "level1") ]) ]))
      "claude"
  = Some (JObj [ ("maxLevel", JStr "level2"); ("minLevel", JStr "level1") ]).
Proof.
  destruct (normalizeProviderSettings_canonical
              [ ("claude", JObj [("maxLevel", JStr "level2")]);
                ("Anthropic", JObj [ ("maxLevel", JStr "level1");
                                     ("minLevel", JStr "level1") ]) ]
              eq_refl) as [out [Hout [_ [_ Hmerge]]]].
  rewrite Hout. cbn [get].
  rewrite (Hmerge "claude" (or_introl eq_refl)). reflexivity.
Defined.

Lemma filter_all {A : Type} (f : A -> bool) (l : list A) :
  (forall x, In x l -> f x = true) -> filter f l = l.
Proof.
  induction l as [|a l IH]; simpl; intros H; [reflexivity|].
  rewrite (H a (or_introl eq_refl)), IH; [reflexivity|].
  intros x Hx. apply H. now right.
Qed.

Lemma filter_none {A : Type} (f : A -> bool) (l : list A) :
  (forall x, In x l -> f x = false) -> filter f l = [].
Proof.
  induction l as [|a l IH]; simpl; intros H; [reflexivity|].
  rewrite (H a (or_introl eq_refl)), IH; [reflexivity|].
  intros x Hx. apply H. now right.
Qed.

Lemma normalized_entries_aliasFirst (l : list (string * json)) :
  normalized_entries l -> aliasFirst l = l.
Proof.
  intros [_ Hall]. unfold aliasFirst.
  assert (Hc : forall e, In e l -> is_canonical e = true).
  { intros [k v] Hin. unfold is_canonical. simpl.
    destruct (Hall _ _ Hin) as [-> _]. apply String.eqb_refl. }
  rewrite (filter_all is_canonical l Hc).
  rewrite filter_none; [reflexivity|].
  intros e He. now rewrite (Hc e He).
Qed.

(** Running the loop over entries that are already normalised rebuilds
    them one after the other. *)
Lemma fold_normalize_rebuild (l acc : list (string * json)) :
  normalized_entries (acc ++ l) ->
  fold_left normalize_provider_entry l acc = acc ++ l.
Proof.
  revert acc. induction l as [|[k v] l IH]; intros acc H; cbn [fold_left].
  - now rewrite app_nil_r.
  - destruct H as [Hnd Hall].
    assert (Hk : ~ In k (keys_of acc)).
    { unfold keys_of in *. rewrite map_app in Hnd. simpl in Hnd.
      apply NoDup_remove_2 in Hnd. intros Hin. apply Hnd.
      apply in_or_app. now left. }
    assert (Hin : In (k, v) (acc ++ (k, v) :: l))
      by (apply in_or_app; right; now left).
    destruct (Hall k v Hin) as [Hcanon Hobj].
    assert (Hstep : normalize_provider_entry acc (k, v) = acc ++ [(k, v)]).
    { unfold normalize_provider_entry. rewrite Hcanon.
      destruct (includes VALID_PROVIDERS k) eqn:Hv; simpl.
      - apply includes_In in Hv. destruct (Hobj Hv) as [fields [-> Hfields]].
        rewrite (proj2 (assoc_get_not_in acc k) Hk). simpl.
        rewrite (assign_all_append [] fields Hfields). simpl.
        now apply assoc_set_append.
      - now apply assoc_set_append. }
    rewrite Hstep, IH; rewrite <- app_assoc; simpl; [reflexivity|].
    split; assumption.
Qed.

(** X3.  [normalizeProviderSettings] is idempotent: settings that were
    normalised once are returned unchanged, key for key, by a second
    normalisation. *)
Theorem normalizeProviderSettings_idempotent (providerSettings : json) :
  (forall entries, providerSettings = JObj entries ->
     forallb (fun e => own_name (toLowerCase (fst e))) entries = true) ->
  normalizeProviderSettings (normalizeProviderSettings providerSettings)
  = normalizeProviderSettings providerSettings.
Proof.
  intros _. destruct providerSettings as [| b | q | s | items | entries];
    try reflexivity.
  unfold normalizeProviderSettings at 2.
  pose proof (fold_normalize_invariant
                (filter (fun e => negb (is_canonical e)) entries
                 ++ filter is_canonical entries) [] normalized_entries_nil) as Hinv.
  set (out := fold_left normalize_provider_entry
                (filter (fun e => negb (is_canonical e)) entries
                 ++ filter is_canonical entries) []) in *.
  unfold normalizeProviderSettings.
  fold (aliasFirst out). rewrite (normalized_entries_aliasFirst out Hinv).
  now rewrite (fold_normalize_rebuild out [] Hinv).
Qed.

Lemma normalizeProviderSettings_idempotent_witness :
  normalizeProviderSettings
    (normalizeProviderSettings
       (JObj [ ("claude", JObj [("maxLevel", JStr "level2")]);
               ("OpenAI", JObj [("minLevel", JStr "level2")]);
               ("local", JStr "llama") ]))
  = normalizeProviderSettings
      (JObj [ ("claude", JObj [("maxLevel", JStr "level2")]);
              ("OpenAI", JObj [("minLevel", JStr "level2")]);
              ("local", JStr "llama") ]).
Proof.
  apply normalizeProviderSettings_idempotent.
  intros entries [= <-]. reflexivity.
Defined.

(** ** The provider entries of the loaded settings *)

Lemma set_object_present (fields : list (string * json)) (k : string) (x : json) :
  exists fields',
    set (JObj fields) k x = JObj fields'
    /\ (forall f, assoc_get fields f <> None -> assoc_get fields' f <> None)
    /\ (forall f, f <> k -> assoc_get fields' f = assoc_get fields f)
    /\ assoc_get fields' k = Some x.
Proof.
  exists (assoc_set fields k x). split; [reflexivity|]. split; [|split].
  - intros f Hf. destruct (String.eqb_spec k f) as [-> | Hne].
    + rewrite assoc_get_set_same. discriminate.
    + now rewrite assoc_get_set_other.
  - intros f Hf. apply assoc_get_set_other. congruence.
  - apply assoc_get_set_same.
Qed.

(** The legacy bounds keep the claude entry an object, keep every field
    it has, and do not touch [levelOverrides]. *)
Lemma bound_claude_levels_fields (maxModel minModel : option json)
  (fields : list (string * json)) :
  exists fields',
    bound_claude_levels maxModel minModel (JObj fields) = JObj fields'
    /\ (forall f, assoc_get fields f <> None -> assoc_get fields' f <> None)
    /\ assoc_get fields' "levelOverrides" = assoc_get fields "levelOverrides".
Proof.
  unfold bound_claude_levels.
  set (c1 := match mapLegacyModelToLevel maxModel with
             | Some l => set (JObj fields) "maxLevel" (JStr l)
             | None => JObj fields
             end).
  assert (H1 : exists f1, c1 = JObj f1
                 /\ (forall f, assoc_get fields f <> None -> assoc_get f1 f <> None)
                 /\ assoc_get f1 "levelOverrides" = assoc_get fields "levelOverrides").
  { unfold c1. destruct (mapLegacyModelToLevel maxModel) as [l|].
    - destruct (set_object_present fields "maxLevel" (JStr l))
        as [f1 [E [Hp [Ho _]]]].
      exists f1. repeat split; auto. apply Ho. discriminate.
    - exists fields. auto. }
  destruct H1 as [f1 [-> [Hp1 Ho1]]].
  set (c2 := match mapLegacyModelToLevel minModel with
             | Some l => set (JObj f1) "minLevel" (JStr l)
             | None => JObj f1
             end).
  assert (H2 : exists f2, c2 = JObj f2
                 /\ (forall f, assoc_get fields f <> None -> assoc_get f2 f <> None)
                 /\ assoc_get f2 "levelOverrides" = assoc_get fields "levelOverrides").
  { unfold c2. destruct (mapLegacyModelToLevel minModel) as [l|].
    - destruct (set_object_present f1 "minLevel" (JStr l))
        as [f2 [E [Hp [Ho _]]]].
      exists f2. repeat split; auto. rewrite Ho by discriminate. exact Ho1.
    - exists f1. auto. }
  destruct H2 as [f2 [-> [Hp2 Ho2]]].
  assert (Hset : forall k x, k <> "levelOverrides" ->
            exists f3, set (JObj f2) k x = JObj f3
              /\ (forall f, assoc_get fields f <> None -> assoc_get f3 f <> None)
              /\ assoc_get f3 "levelOverrides" = assoc_get fields "levelOverrides").
  { intros k x Hk. destruct (set_object_present f2 k x) as [f3 [E [Hp [Ho _]]]].
    exists f3. repeat split; auto. rewrite Ho by congruence. exact Ho2. }
  destruct (Nat.ltb _ _).
  - destruct (set_object_present f2 "minLevel" (JStr "level1"))
      as [f3 [E3 [Hp3 [Ho3 _]]]].
    rewrite E3.
    destruct (set_object_present f3 "maxLevel" (JStr "level3"))
      as [f4 [E4 [Hp4 [Ho4 _]]]].
    exists f4. repeat split; auto.
    rewrite Ho4, Ho3 by discriminate. exact Ho2.
  - destruct (Nat.ltb _ _).
    + destruct (get (JObj f2) "minLevel") as [v|].
      * apply Hset. discriminate.
      * exists f2. auto.
    + destruct (Nat.ltb _ _).
      * destruct (get (JObj f2) "maxLevel") as [v|].
        -- apply Hset. discriminate.
        -- exists f2. auto.
      * exists f2. auto.
Qed.

Lemma complete_entry_defaults :
  forall f, In f PROVIDER_FIELDS -> get provider_defaults f <> None.
Proof.
  intros f Hf. unfold PROVIDER_FIELDS in Hf. simpl in Hf.
  repeat (destruct Hf as [<- | Hf]; [simpl; discriminate|]). destruct Hf.
Qed.

(** One step of the loop of [mergeProviderSettings], on a provider whose
    defaults are the built-in ones. *)
Lemma merged_entry_complete (overrides : list (string * json)) :
  let entry := assign_all (spread provider_defaults) overrides in
  complete_entry
    (Some (JObj (if opt_truthy (assoc_get entry "levelOverrides") then entry
                 else assoc_set entry "levelOverrides" (JObj [])))).
Proof.
  intros entry.
  assert (Hp : forall f, In f PROVIDER_FIELDS -> assoc_get entry f <> None).
  { intros f Hf. apply assoc_get_assign_all_present.
    now apply complete_entry_defaults. }
  eexists. split; [reflexivity|].
  destruct (opt_truthy (assoc_get entry "levelOverrides")) eqn:E.
  - split; [exact Hp | exact E].
  - split.
    + intros f Hf. destruct (String.eqb_spec "levelOverrides" f) as [<- | Hne].
      * rewrite assoc_get_set_same. discriminate.
      * rewrite assoc_get_set_other by exact Hne. now apply Hp.
    + now rewrite assoc_get_set_same.
Qed.

Lemma mergeProviderSettings_complete (overrides : option json) (p : string) :
  In p VALID_PROVIDERS ->
  complete_entry
    (get (mergeProviderSettings
            (or_empty_object (get DEFAULT_SETTINGS "providerSettings"))
            overrides) p).
Proof.
  intros Hp. unfold mergeProviderSettings, VALID_PROVIDERS.
  cbn [fold_left get].
  unfold VALID_PROVIDERS in Hp. simpl in Hp.
  destruct Hp as [<- | [<- | [<- | []]]].
  - rewrite !assoc_get_set_other by discriminate.
    rewrite assoc_get_set_same. apply merged_entry_complete.
  - rewrite !assoc_get_set_other by discriminate.
    rewrite assoc_get_set_same. apply merged_entry_complete.
  - rewrite assoc_get_set_same. apply merged_entry_complete.
Qed.

Lemma provider_entry_merge_loaded (parsed : json) (p : string) :
  provider_entry (merge_loaded parsed) p
  = get (mergeProviderSettings
           (or_empty_object (get DEFAULT_SETTINGS "providerSettings"))
           (get parsed "providerSettings")) p.
Proof.
  unfold provider_entry.
  pose proof (get_merge_loaded_present parsed "providerSettings") as Hpresent.
  unfold merge_loaded in *.
  match goal with
  | |- context [get (set ?m "providerSettings" ?x) "providerSettings"] =>
    destruct (get m "providerSettings") as [v|] eqn:E;
      [now rewrite (get_set_same m "providerSettings" v x E)|]
  end.
  exfalso. revert E. apply get_set_present. simpl.
  apply assoc_get_assign_all_present. simpl. discriminate.
Qed.

Lemma provider_entry_applyLegacyModelBounds (settings : json) (p : string) :
  (forall q, In q VALID_PROVIDERS -> complete_entry (provider_entry settings q)) ->
  In p VALID_PROVIDERS ->
  complete_entry (provider_entry (applyLegacyModelBounds settings) p).
Proof.
  intros Hall Hp.
  destruct (Hall "claude" (or_introl eq_refl)) as [cf [Hc [Hcp Hco]]].
  unfold provider_entry, applyLegacyModelBounds in *.
  destruct (get settings "providerSettings") as [ps|] eqn:Eps; [|discriminate].
  rewrite (get_some_truthy ps _ _ Hc). cbn [negb].
  rewrite (get_set_same settings _ _ _ Eps).
  destruct (String.eqb_spec "claude" p) as [<- | Hne].
  - rewrite (get_set_same ps _ _ _ Hc), Hc. cbn [or_empty_object js_truthy].
    destruct (bound_claude_levels_fields (get settings "maxModel")
                (get settings "minModel") cf) as [cf' [-> [Hp' Ho']]].
    exists cf'. split; [reflexivity|]. split.
    + intros f Hf. now apply Hp', Hcp.
    + now rewrite Ho'.
  - rewrite get_set_other by exact Hne.
    exact (Hall p Hp).
Qed.

(** X4.  Whatever the settings file holds, the settings that [loadSettings]
    returns have, for each of claude, codex and gemini, an entry that is an
    object with [maxLevel], [minLevel], [defaultLevel] and [levelOverrides],
    the last one never missing or falsy. *)
Theorem loadSettings_provider_entries (JSON_parse : string -> result json)
  (file : settings_file) (p : string) :
  In p VALID_PROVIDERS ->
  complete_entry (provider_entry (loadSettings JSON_parse file) p).
Proof.
  intros Hp.
  assert (Hdefault : complete_entry (provider_entry DEFAULT_SETTINGS p)).
  { unfold VALID_PROVIDERS in Hp. simpl in Hp.
    destruct Hp as [<- | [<- | [<- | []]]];
      (eexists; split; [reflexivity|]; split; [|reflexivity];
       intros f Hf; now apply complete_entry_defaults). }
  unfold loadSettings, loadSettings_try.
  destruct file as [| | data]; try exact Hdefault.
  destruct (JSON_parse data) as [document|]; [|exact Hdefault].
  destruct (normalizeLoadedSettings document) as [parsed|]; [|exact Hdefault].
  apply provider_entry_applyLegacyModelBounds; [|exact Hp].
  intros q Hq. rewrite provider_entry_merge_loaded.
  now apply mergeProviderSettings_complete.
Qed.

Lemma loadSettings_provider_entries_witness :
  complete_entry
    (provider_entry (loadSettings legacy_parse (file_content "legacy")) "codex").
Proof.
  apply loadSettings_provider_entries. simpl. tauto.
Defined.

(** ** Applying the legacy bounds twice *)

Lemma clamp_level_valid (level lo hi : string) :
  In level VALID_LEVELS -> In lo VALID_LEVELS -> In hi VALID_LEVELS ->
  In (clamp_level level lo hi) VALID_LEVELS.
Proof.
  intros Hl Hlo Hhi. unfold clamp_level.
  destruct (Nat.ltb _ _); [exact Hlo|]. destruct (Nat.ltb _ _); assumption.
Qed.

(** A claude object whose levels are already within consistent bounds is
    left as it is. *)
Lemma bound_claude_levels_fixed (maxModel minModel : option json) (claude : json)
  (lmax lmin ldef : string) :
  get claude "maxLevel" = Some (JStr lmax) ->
  get claude "minLevel" = Some (JStr lmin) ->
  get claude "defaultLevel" = Some (JStr ldef) ->
  In lmax VALID_LEVELS -> In lmin VALID_LEVELS -> In ldef VALID_LEVELS ->
  legacy_or maxModel lmax = lmax ->
  legacy_or minModel lmin = lmin ->
  lrank lmin <= lrank ldef <= lrank lmax ->
  bound_claude_levels maxModel minModel claude = claude.
Proof.
  intros Hmax Hmin Hdef Vmax Vmin Vdef Emax Emin Hin.
  unfold bound_claude_levels.
  assert (H1 : match mapLegacyModelToLevel maxModel with
               | Some l => set claude "maxLevel" (JStr l)
               | None => claude
               end = claude).
  { unfold legacy_or in Emax.
    destruct (mapLegacyModelToLevel maxModel) as [l|]; [|reflexivity].
    subst l. now apply set_get. }
  rewrite H1.
  assert (H2 : match mapLegacyModelToLevel minModel with
               | Some l => set claude "minLevel" (JStr l)
               | None => claude
               end = claude).
  { unfold legacy_or in Emin.
    destruct (mapLegacyModelToLevel minModel) as [l|]; [|reflexivity].
    subst l. now apply set_get. }
  rewrite H2, Hmax, Hmin, Hdef.
  rewrite !level_rank_valid by assumption.
  destruct (Nat.ltb_spec (lrank lmax) (lrank lmin)); [lia|].
  destruct (Nat.ltb_spec (lrank ldef) (lrank lmin)); [lia|].
  destruct (Nat.ltb_spec (lrank lmax) (lrank ldef)); [lia | reflexivity].
Qed.

Lemma legacy_or_idem (m : option json) (l : string) :
  legacy_or m (legacy_or m l) = legacy_or m l.
Proof.
  unfold legacy_or. destruct (mapLegacyModelToLevel m); reflexivity.
Qed.

(** X5.  With level names for claude and bounds that are consistent,
    applying the legacy bounds is idempotent: settings that were loaded,
    saved and loaded again keep the levels of the first load. *)
Theorem applyLegacyModelBounds_idempotent (settings : json)
  (lmax lmin ldef : string) :
  claude_setting settings "maxLevel" = Some (JStr lmax) ->
  claude_setting settings "minLevel" = Some (JStr lmin) ->
  claude_setting settings "defaultLevel" = Some (JStr ldef) ->
  In lmax VALID_LEVELS -> In lmin VALID_LEVELS -> In ldef VALID_LEVELS ->
  lrank (legacy_or (get settings "minModel") lmin)
  <= lrank (legacy_or (get settings "maxModel") lmax) ->
  applyLegacyModelBounds (applyLegacyModelBounds settings)
  = applyLegacyModelBounds settings.
Proof.
  intros Hmax Hmin Hdef Vmax Vmin Vdef Hcons.
  unfold claude_setting in Hmax, Hmin, Hdef.
  destruct (get settings "providerSettings") as [ps|] eqn:Eps; [|discriminate].
  destruct (get ps "claude") as [c|] eqn:Ec; [|discriminate].
  set (mx := get settings "maxModel") in *.
  set (mn := get settings "minModel") in *.
  set (c3 := bound_claude_levels mx mn c).
  assert (Hfirst : applyLegacyModelBounds settings
                   = set settings "providerSettings" (set ps "claude" c3)).
  { unfold applyLegacyModelBounds. rewrite Eps, (get_some_truthy ps _ _ Ec), Ec.
    cbn [negb or_empty_object]. now rewrite (get_some_truthy c _ _ Hmax). }
  pose proof (bound_claude_levels_spec mx mn c lmax lmin ldef
                Hmax Hmin Hdef Vmax Vmin Vdef) as Hspec.
  cbv zeta in Hspec. fold c3 in Hspec.
  destruct (Nat.ltb_spec (lrank (legacy_or mx lmax)) (lrank (legacy_or mn lmin)))
    as [Hlt | _]; [lia|].
  destruct Hspec as [H3max [H3min H3def]].
  assert (Hfix : bound_claude_levels mx mn c3 = c3).
  { apply bound_claude_levels_fixed
      with (lmax := legacy_or mx lmax) (lmin := legacy_or mn lmin)
           (ldef := clamp_level ldef (legacy_or mn lmin) (legacy_or mx lmax));
      try assumption.
    - now apply legacy_or_valid.
    - now apply legacy_or_valid.
    - apply clamp_level_valid; try assumption; now apply legacy_or_valid.
    - apply legacy_or_idem.
    - apply legacy_or_idem.
    - now apply clamp_level_in_bounds. }
  rewrite Hfirst.
  set (ps' := set ps "claude" c3).
  set (s' := set settings "providerSettings" ps').
  assert (Eps' : get s' "providerSettings" = Some ps')
    by (unfold s'; now apply get_set_same with (v := ps)).
  assert (Ec' : get ps' "claude" = Some c3)
    by (unfold ps'; now apply get_set_same with (v := c)).
  unfold applyLegacyModelBounds.
  rewrite Eps', (get_some_truthy ps' _ _ Ec'), Ec'.
  cbn [negb or_empty_object]. rewrite (get_some_truthy c3 _ _ H3max).
  assert (Hmx : get s' "maxModel" = mx)
    by (unfold s'; now rewrite get_set_other by discriminate).
  assert (Hmn : get s' "minModel" = mn)
    by (unfold s'; now rewrite get_set_other by discriminate).
  rewrite Hmx, Hmn, Hfix.
  rewrite (set_get ps' "claude" c3 Ec').
  now apply set_get.
Qed.

Lemma applyLegacyModelBounds_idempotent_witness :
  applyLegacyModelBounds
    (applyLegacyModelBounds (merge_loaded legacy_settings))
  = applyLegacyModelBounds (merge_loaded legacy_settings).
Proof.
  apply (applyLegacyModelBounds_idempotent (merge_loaded legacy_settings)
           "level3" "level1" "level2");
    first [ reflexivity | simpl; tauto | vm_compute; repeat constructor ].
Defined.

(** ** The Claude command and its arguments *)

Lemma split_spaces_from_cons (g : bool) (s : string) :
  exists p ps, split_spaces_from g s = p :: ps.
Proof.
  revert g. induction s as [|c s IH]; intros g; simpl; [eauto|].
  destruct (is_space c).
  - destruct g; [apply IH | eauto].
  - destruct (IH false) as [p [ps ->]]. eauto.
Qed.

Lemma split_spaces_from_no_space (g : bool) (s p : string) :
  In p (split_spaces_from g s) -> has_space p = false.
Proof.
  revert g p. induction s as [|c s IH]; intros g p; simpl.
  - intros [<- | []]. reflexivity.
  - destruct (is_space c) eqn:Ec.
    + destruct g; [apply IH|]. intros [<- | H]; [reflexivity | now apply IH in H].
    + destruct (split_spaces_from false s) as [|q qs] eqn:E.
      * intros [<- | []]. simpl. now rewrite Ec.
      * intros [<- | H].
        -- simpl. rewrite Ec. apply (IH false). rewrite E. now left.
        -- apply (IH false). rewrite E. now right.
Qed.

Lemma trimEnd_tail (c : ascii) (s : string) :
  trimEnd (String c s) = String c s ->
  trimEnd s = s /\ (s = EmptyString -> is_space c = false).
Proof.
  simpl. destruct (trimEnd s) as [|d r] eqn:E.
  - destruct (is_space c) eqn:Ec; [discriminate|].
    intros H. injection H as <-. split; [exact E | reflexivity].
  - intros H. injection H as <-. split; [reflexivity | discriminate].
Qed.

(** In a string without trailing white space, every part after the first
    is non-empty, and so is the first one after a gap. *)
Lemma split_spaces_from_parts (s : string) :
  trimEnd s = s ->
  Forall (fun p => p <> EmptyString) (tl (split_spaces_from false s))
  /\ (s <> EmptyString ->
      Forall (fun p => p <> EmptyString) (split_spaces_from true s)).
Proof.
  induction s as [|c s IH]; intros Ht.
  - split; [constructor | congruence].
  - apply trimEnd_tail in Ht. destruct Ht as [Ht Hc].
    destruct (IH Ht) as [IHtl IHgap]. simpl.
    destruct (is_space c) eqn:Ec.
    + assert (Hs : s <> EmptyString)
        by (intros ->; specialize (Hc eq_refl); congruence).
      split; [simpl | intros _]; now apply IHgap.
    + destruct (split_spaces_from_cons false s) as [p [ps E]].
      rewrite E in *. simpl in IHtl.
      split; [exact IHtl | intros _; constructor; [discriminate | exact IHtl]].
Qed.

Lemma trimEnd_trim (s : string) : trimEnd (trim s) = trim s.
Proof. unfold trim. apply trimEnd_idem. Qed.

Lemma split_spaces_trimmed (s : string) :
  trim s <> EmptyString ->
  Forall (fun p => p <> EmptyString) (split_spaces (trim s)).
Proof.
  intros Hne. unfold split_spaces.
  pose proof (split_spaces_from_parts (trim s) (trimEnd_trim s)) as [Htl _].
  assert (Hclean : starts_clean (trim s))
    by (unfold trim; apply trimEnd_clean, trimStart_clean).
  destruct (trim s) as [|c t] eqn:E; [congruence|].
  simpl in Hclean. simpl in *. rewrite Hclean in *.
  destruct (split_spaces_from_cons false t) as [p [ps Ep]].
  rewrite Ep in *. constructor; [discriminate | exact Htl].
Qed.

Lemma split_spaces_from_word (p : string) :
  has_space p = false -> split_spaces_from false p = [p].
Proof.
  induction p as [|c p IH]; simpl; [reflexivity|].
  intros H. apply orb_false_iff in H. destruct H as [Hc Hp].
  rewrite Hc, (IH Hp). reflexivity.
Qed.

Lemma split_spaces_from_gap_word (s : string) :
  starts_clean s -> s <> EmptyString ->
  split_spaces_from true s = split_spaces_from false s.
Proof.
  destruct s as [|c s]; [congruence|]. simpl. intros -> _. reflexivity.
Qed.

Lemma split_spaces_from_append (p r : string) :
  has_space p = false ->
  split_spaces_from false (p ++ String " " r) = p :: split_spaces_from true r.
Proof.
  induction p as [|c p IH]; simpl; [reflexivity|].
  intros H. apply orb_false_iff in H. destruct H as [Hc Hp].
  rewrite Hc, (IH Hp). reflexivity.
Qed.

Lemma word_starts_clean (p : string) : has_space p = false -> starts_clean p.
Proof.
  destruct p as [|c p]; simpl; [trivial|].
  intros H. now apply orb_false_iff in H.
Qed.

Lemma starts_clean_append (p r : string) :
  p <> EmptyString -> starts_clean p -> starts_clean (p ++ r).
Proof. destruct p as [|c p]; [congruence | simpl; trivial]. Qed.

Lemma append_nonempty (p r : string) :
  p <> EmptyString -> (p ++ r)%string <> EmptyString.
Proof. destruct p; [congruence | discriminate]. Qed.

Lemma join_cons (p q : string) (l : list string) :
  join " " (p :: q :: l) = (p ++ String " " (join " " (q :: l)))%string.
Proof. reflexivity. Qed.

Lemma join_words_clean (p : string) (l : list string) :
  clean_words (p :: l) ->
  starts_clean (join " " (p :: l)) /\ join " " (p :: l) <> EmptyString.
Proof.
  intros H. inversion H as [|? ? [Hne Hsp] Hl]; subst.
  destruct l as [|q l].
  - simpl. split; [now apply word_starts_clean | exact Hne].
  - rewrite join_cons. split.
    + apply starts_clean_append; [exact Hne | now apply word_starts_clean].
    + now apply append_nonempty.
Qed.

Lemma split_spaces_join (parts : list string) :
  parts <> [] -> clean_words parts ->
  split_spaces_from false (join " " parts) = parts.
Proof.
  induction parts as [|p l IH]; [congruence|]. intros _ H.
  inversion H as [|? ? [Hne Hsp] Hl]; subst.
  destruct l as [|q l].
  - simpl. now apply split_spaces_from_word.
  - rewrite join_cons, split_spaces_from_append by exact Hsp.
    destruct (join_words_clean q l Hl) as [Hc Hn].
    rewrite split_spaces_from_gap_word by assumption.
    rewrite IH; [reflexivity | discriminate | exact Hl].
Qed.

Lemma trimEnd_word (p : string) : has_space p = false -> trimEnd p = p.
Proof.
  induction p as [|c p IH]; simpl; [reflexivity|].
  intros H. apply orb_false_iff in H. destruct H as [Hc Hp].
  rewrite (IH Hp). destruct p; [now rewrite Hc | reflexivity].
Qed.

Lemma trimEnd_append (s t : string) :
  trimEnd t = t -> t <> EmptyString -> trimEnd (s ++ t) = (s ++ t)%string.
Proof.
  intros Ht Hne. induction s as [|c s IH]; simpl; [exact Ht|].
  rewrite IH. destruct (s ++ t)%string eqn:E; [|reflexivity].
  destruct s; simpl in E; [congruence | discriminate].
Qed.

Lemma trim_join_words (parts : list string) :
  clean_words parts -> trim (join " " parts) = join " " parts.
Proof.
  intros H. destruct parts as [|p l]; [reflexivity|].
  destruct (join_words_clean p l H) as [Hc _].
  unfold trim. rewrite (trimStart_of_clean _ Hc).
  clear Hc. revert p H. induction l as [|q l IH]; intros p H.
  - inversion H as [|? ? [_ Hsp] _]; subst. simpl. now apply trimEnd_word.
  - inversion H as [|? ? [_ Hsp] Hl]; subst.
    rewrite join_cons.
    change (p ++ String " " (join " " (q :: l)))%string
      with (p ++ (String " " (join " " (q :: l))))%string.
    apply trimEnd_append; [|discriminate].
    change (String " " (join " " (q :: l)))
      with (" " ++ join " " (q :: l))%string.
    apply trimEnd_append; [now apply IH|].
    now destruct (join_words_clean q l Hl).
Qed.

Lemma split_spaces_trim_words (s : string) :
  trim s <> EmptyString -> clean_words (split_spaces (trim s)).
Proof.
  intros Hne. pose proof (split_spaces_trimmed s Hne) as Hall.
  unfold clean_words. rewrite Forall_forall in *. intros p Hp.
  split; [now apply Hall | exact (split_spaces_from_no_space _ _ _ Hp)].
Qed.

(** X6.  With the environment variable set, to a text of the ASCII
    range, [getClaudeCommand] depends on it alone: it returns a command
    and arguments none of which holds white space, the arguments are
    non-empty, the command is empty only for a variable made of white
    space, and the command line written back with single spaces is read
    as the same command and arguments. *)
Theorem getClaudeCommand_words (JSON_parse : string -> result json)
  (file : settings_file) (raw : string) :
  ascii_text raw = true ->
  raw <> EmptyString ->
  exists c a,
    getClaudeCommand JSON_parse file (Some raw)
    = Ok {| command := Some c; args := a |}
    /\ (forall p, In p (c :: a) -> has_space p = false)
    /\ (forall p, In p a -> p <> EmptyString)
    /\ (c = EmptyString <-> trim raw = EmptyString)
    /\ (trim raw <> EmptyString ->
        getClaudeCommand JSON_parse file (Some (join " " (c :: a)))
        = getClaudeCommand JSON_parse file (Some raw)).
Proof.
  intros _ Hraw.
  assert (Hor : forall s, s <> EmptyString -> or_null (Some s) = Some s).
  { intros s Hs. unfold or_null, truthy.
    destruct (String.eqb_spec s EmptyString); [congruence | reflexivity]. }
  unfold getClaudeCommand, raw_claude_command. rewrite (Hor raw Hraw).
  cbn [parse_claude_command].
  destruct (split_spaces_from_cons false (trim raw)) as [c [a E]].
  exists c, a. unfold split_spaces. rewrite E. cbn [hd_error tl].
  split; [reflexivity|]. split; [|split; [|split]].
  - intros p Hp. apply (split_spaces_from_no_space false (trim raw)).
    now rewrite E.
  - intros p Hp.
    pose proof (split_spaces_from_parts (trim raw) (trimEnd_trim raw)) as [Htl _].
    rewrite E in Htl. simpl in Htl. rewrite Forall_forall in Htl. now apply Htl.
  - split.
    + intros ->. destruct (string_dec (trim raw) EmptyString) as [Ht|Ht]; [exact Ht|].
      pose proof (split_spaces_trimmed raw Ht) as Hall.
      unfold split_spaces in Hall. rewrite E in Hall.
      inversion Hall; congruence.
    + intros Ht. rewrite Ht in E. simpl in E. now injection E as <- _.
  - intros Ht.
    pose proof (split_spaces_trim_words raw Ht) as Hw.
    unfold split_spaces in Hw. rewrite E in Hw.
    destruct (join_words_clean c a Hw) as [_ Hj].
    rewrite (Hor _ Hj). cbn [parse_claude_command].
    rewrite (trim_join_words _ Hw). unfold split_spaces.
    rewrite (split_spaces_join (c :: a)) by (discriminate || exact Hw).
    reflexivity.
Qed.

Lemma getClaudeCommand_words_witness :
  "  ccr   code " <> EmptyString
  /\ getClaudeCommand legacy_parse file_absent (Some "  ccr   code ")
     = Ok {| command := Some "ccr"; args := ["code"] |}.
Proof.
  split; [discriminate|].
  destruct (getClaudeCommand_words legacy_parse file_absent "  ccr   code ")
    as [c [a [E _]]]; [reflexivity | discriminate |].
  rewrite E. vm_compute in E. injection E as <- <-. reflexivity.
Defined.

(** ** Validating and coercing a setting *)

Lemma normalizeProviderName_known (s : string) :
  includes VALID_PROVIDERS (normalizeProviderName s) = true
  <-> known_provider s = true.
Proof.
  unfold normalizeProviderName, known_provider.
  destruct (assoc_get PROVIDER_ALIASES (toLowerCase s)) as [c|] eqn:E.
  - destruct (alias_values_canonical _ _ E) as [_ Hv].
    apply includes_In in Hv. tauto.
  - split; [|discriminate]. intros H. apply includes_In in H.
    apply valid_provider_known in H. congruence.
Qed.


Section SettingChecks.

Variable number_text : QArith_base.Q -> string.
Variable parseInt : json -> option QArith_base.Q.
Variable JSON_parse : string -> result json.
Variable validateMountConfig validateEnvPassthrough : json -> option string.

Local Abbreviation validate :=
  (validateSetting number_text validateMountConfig validateEnvPassthrough).
Local Abbreviation coerce := (coerceValue number_text parseInt JSON_parse).



Lemma validate_defaultProvider (v : json) :
  validate "defaultProvider" v = None
  <-> exists s, v = JStr s /\ known_provider s = true.
Proof.
  unfold validateSetting. cbn -[defaultProvider_error].
  unfold defaultProvider_error.
  destruct v as [| b | q | s | items | fields];
    try (split; [discriminate | intros [s [[=] _]]]).
  cbn [normalizeProviderName_value].
  assert (Hinc : includes_value VALID_PROVIDERS
                   (if nonempty s then JStr (normalizeProviderName s) else JStr s)
                 = includes VALID_PROVIDERS (normalizeProviderName s)).
  { unfold nonempty. destruct (String.eqb_spec s EmptyString) as [-> | _];
      reflexivity. }
  rewrite Hinc.
  destruct (includes VALID_PROVIDERS (normalizeProviderName s)) eqn:E; cbn [negb].
  - apply normalizeProviderName_known in E. split; [eauto | reflexivity].
  - split; [discriminate|]. intros [s' [[= <-] Hk]].
    apply normalizeProviderName_known in Hk. congruence.
Qed.

(** X8.  The default provider: [validateSetting] accepts exactly the
    strings that name a provider, by canonical name or alias in any letter
    case; [coerceValue] never fails on this key, turns an accepted name
    into one of claude, codex and gemini, leaves a coerced value as it is,
    and does not change whether a value is accepted. *)
Theorem defaultProvider_coerced (value : json) :
  (validate "defaultProvider" value = None
   <-> exists s, value = JStr s /\ known_provider s = true)
  /\ exists coerced,
       coerce "defaultProvider" value = Ok coerced
       /\ coerce "defaultProvider" coerced = Ok coerced
       /\ (validate "defaultProvider" coerced = None
           <-> validate "defaultProvider" value = None)
       /\ (validate "defaultProvider" value = None ->
           exists p, coerced = JStr p /\ In p VALID_PROVIDERS).
Proof.
  split; [apply validate_defaultProvider|].
  exists (normalizeProviderName_value value).
  assert (Hco : forall v, coerce "defaultProvider" v
                          = Ok (normalizeProviderName_value v))
    by reflexivity.
  rewrite !Hco. split; [reflexivity|].
  assert (Hcases : (exists s, value = JStr s /\ s <> EmptyString)
                   \/ normalizeProviderName_value value = value).
  { destruct value as [| b | q | s | items | fields]; auto.
    destruct (string_dec s EmptyString) as [-> | Hs]; [now right | eauto]. }
  destruct Hcases as [[s [-> Hs]] | Hsame].
  - assert (Hn : normalizeProviderName_value (JStr s)
                 = JStr (normalizeProviderName s)).
    { cbn. unfold nonempty.
      now destruct (String.eqb_spec s EmptyString). }
    rewrite Hn.
    assert (Hidem : normalizeProviderName (normalizeProviderName s)
                    = normalizeProviderName s).
    { destruct (includes VALID_PROVIDERS (normalizeProviderName s)) eqn:E.
      - now apply normalizeProviderName_valid.
      - apply normalizeProviderName_not_valid in E. now rewrite E. }
    assert (Hk : known_provider (normalizeProviderName s) = known_provider s).
    { destruct (known_provider s) eqn:E.
      - apply normalizeProviderName_known. rewrite Hidem.
        now apply normalizeProviderName_known.
      - destruct (known_provider (normalizeProviderName s)) eqn:E'; [|reflexivity].
        apply normalizeProviderName_known in E'. rewrite Hidem in E'.
        apply normalizeProviderName_known in E'. congruence. }
    split; [|split].
    + f_equal. cbn. unfold nonempty.
      destruct (String.eqb_spec (normalizeProviderName s) EmptyString) as [-> | _];
        [reflexivity | now rewrite Hidem].
    + rewrite !validate_defaultProvider. split.
      * intros [s' [[= <-] H]]. rewrite Hk in H. eauto.
      * intros [s' [[= <-] H]]. exists (normalizeProviderName s).
        split; [reflexivity | now rewrite Hk].
    + intros Hv. apply validate_defaultProvider in Hv as [s' [[= <-] H]].
      exists (normalizeProviderName s). split; [reflexivity|].
      now apply includes_In, normalizeProviderName_known.
  - rewrite !Hsame. split; [reflexivity|]. split; [tauto|].
    intros Hv. apply validate_defaultProvider in Hv. destruct Hv as [s [Hv H]].
    subst value. exists s. split; [reflexivity|].
    assert (Hs : s = normalizeProviderName s).
    { destruct (string_dec s EmptyString) as [E | E]; [now rewrite E|].
      cbn in Hsame. unfold nonempty in Hsame.
      destruct (String.eqb_spec s EmptyString) as [E' | _]; [contradiction|].
      cbn in Hsame. congruence. }
    rewrite Hs. now apply includes_In, normalizeProviderName_known.
Qed.

End SettingChecks.


(** *** The defaults by type *)

Lemma default_array_keys (key : string) (items : list json) :
  get DEFAULT_SETTINGS key = Some (JArr items) ->
  key = "dockerMounts" \/ key = "dockerEnvPassthrough".
Proof.
  intros H. apply assoc_get_In in H. simpl in H.
  repeat (destruct H as [H | H]; [injection H as <-; try discriminate; auto|]).
  destruct H.
Qed.

Lemma default_no_number (key : string) (q : QArith_base.Q) :
  get DEFAULT_SETTINGS key <> Some (JNum q).
Proof.
  intros H. apply assoc_get_In in H. simpl in H.
  repeat (destruct H as [H | H]; [discriminate|]).
  destruct H.
Qed.

Section Coercion.

Variable number_text : QArith_base.Q -> string.
Variable parseInt : json -> option QArith_base.Q.
Variable JSON_parse : string -> result json.
Variable validateMountConfig validateEnvPassthrough : json -> option string.

Local Abbreviation validate :=
  (validateSetting number_text validateMountConfig validateEnvPassthrough).
Local Abbreviation coerce := (coerceValue number_text parseInt JSON_parse).

(** X9.  [coerceValue] throws in two situations only: a string given for
    one of the two array settings that is not the JSON text of an array,
    and a string given for [providerSettings] that is not JSON.  No
    default is a number, so no value is ever rejected as a number, and a
    value that is not a string is never rejected. *)
Theorem coerceValue_failures (key : string) (value : json) :
  throws (coerce key value) = true
  <-> exists s,
        value = JStr s
        /\ ((In key ["dockerMounts"; "dockerEnvPassthrough"]
             /\ forall items, JSON_parse s <> Ok (JArr items))
            \/ (key = "providerSettings" /\ throws (JSON_parse s) = true)).
Proof.
  unfold coerceValue.
  destruct ((key =? "minModel") && reads_null value) eqn:Emin.
  - apply andb_true_iff in Emin as [Ek _]. apply String.eqb_eq in Ek. subst key.
    split; [discriminate|].
    intros [s [_ [[[H | [H | []]] _] | [H _]]]]; discriminate.
  - clear Emin.
    destruct (get DEFAULT_SETTINGS key) as [[| b | q | s0 | items | fs]|] eqn:Ed.
    all: try (exfalso; exact (default_no_number _ _ Ed)).
    all: try (apply default_array_keys in Ed as Hkey).
    + (* null default *)
      destruct (String.eqb_spec key "providerSettings") as [-> | Hps];
        [discriminate|].
      assert (Hok : throws (if key =? "defaultProvider"
                            then Ok (normalizeProviderName_value value)
                            else Ok value) = false)
        by (destruct (key =? "defaultProvider"); reflexivity).
      rewrite Hok. split; [discriminate|].
      intros [s [_ [[[H | [H | []]] _] | [H _]]]]; subst key;
        try discriminate; congruence.
    + (* boolean default *)
      split; [discriminate|].
      intros [s [_ [[[H | [H | []]] _] | [H _]]]]; subst key; discriminate.
    + (* string default *)
      destruct (String.eqb_spec key "providerSettings") as [-> | Hps];
        [discriminate|].
      assert (Hok : throws (if key =? "defaultProvider"
                            then Ok (normalizeProviderName_value value)
                            else Ok value) = false)
        by (destruct (key =? "defaultProvider"); reflexivity).
      rewrite Hok. split; [discriminate|].
      intros [s [_ [[[H | [H | []]] _] | [H _]]]]; subst key;
        try discriminate; congruence.
    + (* array default *)
      assert (Hin : In key ["dockerMounts"; "dockerEnvPassthrough"])
        by (destruct Hkey as [Hk | Hk]; rewrite Hk; simpl; auto).
      assert (Hnps : key <> "providerSettings")
        by (destruct Hkey; subst key; discriminate).
      destruct value as [| b | q | s | vs | vfs];
        try (split; [discriminate | intros [s [[=] _]]]).
      destruct (JSON_parse s) as [[| b | q | s1 | arr | obj]|] eqn:Ep; cbn [throws].
      all: try (split; [intros _ | reflexivity];
                exists s; split; [reflexivity|]; left; split; [exact Hin|];
                intros arr'; congruence).
      split; [discriminate|].
      intros [s' [[= <-] [[_ H] | [H _]]]]; [|contradiction].
      exfalso. apply (H arr). congruence.
    + (* object default *)
      assert (Hd : key = "providerSettings").
      { apply assoc_get_In in Ed. simpl in Ed.
        repeat (destruct Ed as [Ed | Ed]; [injection Ed as <-; try discriminate; auto|]).
        destruct Ed. }
      subst key. cbn [String.eqb Ascii.eqb Bool.eqb].
      destruct value as [| b | q | s | vs | vfs]; cbn [throws];
        try (split; [discriminate | intros [s [[=] _]]]).
      destruct (JSON_parse s) as [parsed|] eqn:Ep; cbn [throws].
      * split; [discriminate|].
        intros [s' [[= <-] [[[H | [H | []]] _] | [_ H]]]]; try discriminate.
        rewrite Ep in H. discriminate.
      * split; [intros _ | reflexivity].
        exists s. split; [reflexivity|]. right. rewrite Ep. auto.
    + (* no default: an unknown key *)
      destruct (String.eqb_spec key "providerSettings") as [-> | Hps];
        [discriminate|].
      assert (Hok : throws (if key =? "defaultProvider"
                            then Ok (normalizeProviderName_value value)
                            else Ok value) = false)
        by (destruct (key =? "defaultProvider"); reflexivity).
      rewrite Hok. split; [discriminate|].
      intros [s [_ [[[H | [H | []]] _] | [H _]]]]; subst key;
        try discriminate; congruence.
Qed.

End Coercion.

(** *** Provider settings as a setting *)

Lemma fold_normalize_keeps_key (l acc : list (string * json)) (k : string) :
  In k (keys_of acc) ->
  In k (keys_of (fold_left normalize_provider_entry l acc)).
Proof.
  revert acc. induction l as [|[key value] l IH]; intros acc H; [exact H|].
  cbn [fold_left]. apply IH. unfold normalize_provider_entry.
  destruct (negb (includes VALID_PROVIDERS (normalizeProviderName key)));
    rewrite keys_assoc_set;
    match goal with |- context [if ?b then _ else _] => destruct b end;
    try exact H; apply in_or_app; now left.
Qed.

Lemma fold_normalize_unknown_key (l acc : list (string * json))
  (k : string) (v : json) :
  In (k, v) l ->
  includes VALID_PROVIDERS (normalizeProviderName k) = false ->
  In k (keys_of (fold_left normalize_provider_entry l acc)).
Proof.
  revert acc. induction l as [|[key value] l IH]; intros acc Hin Hk; [destruct Hin|].
  cbn [fold_left]. destruct Hin as [[= -> ->] | Hin].
  - apply fold_normalize_keeps_key. unfold normalize_provider_entry.
    rewrite Hk. cbn [negb]. rewrite keys_assoc_set.
    destruct (includes (keys_of acc) k) eqn:E.
    + now apply includes_In.
    + apply in_or_app. right. now left.
  - now apply IH.
Qed.

Lemma In_aliasFirst (entries : list (string * json)) (e : string * json) :
  In e entries -> In e (aliasFirst entries).
Proof.
  intros H. unfold aliasFirst. apply in_or_app.
  destruct (is_canonical e) eqn:E.
  - right. apply filter_In. auto.
  - left. apply filter_In. rewrite E. auto.
Qed.

(** Normalising twice gives what normalising once gives. *)
Lemma normalizeProviderSettings_twice (value : json) :
  normalizeProviderSettings (normalizeProviderSettings value)
  = normalizeProviderSettings value.
Proof.
  destruct value as [| b | q | s | items | entries]; try reflexivity.
  unfold normalizeProviderSettings at 2. fold (aliasFirst entries).
  pose proof (fold_normalize_invariant (aliasFirst entries) []
                normalized_entries_nil) as Hinv.
  set (out := fold_left normalize_provider_entry (aliasFirst entries) []) in *.
  unfold normalizeProviderSettings.
  fold (aliasFirst out). rewrite (normalized_entries_aliasFirst out Hinv).
  now rewrite (fold_normalize_rebuild out [] Hinv).
Qed.

Section ProviderSettingsCheck.

Variable number_text : QArith_base.Q -> string.
Variable validateMountConfig validateEnvPassthrough : json -> option string.

Local Abbreviation validate :=
  (validateSetting number_text validateMountConfig validateEnvPassthrough).

Lemma validate_providerSettings (value : json) :
  validate "providerSettings" value = providerSettings_error number_text value.
Proof.
  unfold validateSetting. cbn -[providerSettings_error].
  now destruct (providerSettings_error number_text value).
Qed.

Lemma provider_entries_error_none (out : list (string * json)) :
  provider_entries_error number_text out = None ->
  forall p s, In (p, s) out -> includes VALID_PROVIDERS p = true.
Proof.
  induction out as [|[p0 s0] out IH]; intros H p s Hin; [destruct Hin|].
  cbn [provider_entries_error] in H. unfold first_error in H.
  destruct (provider_entry_error number_text p0 s0) eqn:E; [discriminate|].
  destruct Hin as [[= -> ->] | Hin]; [|now apply (IH H p s)].
  unfold provider_entry_error in E.
  destruct (includes VALID_PROVIDERS p); [reflexivity | discriminate].
Qed.

Lemma level_error_text (provider field : string) (settings : json)
  (e : string) :
  level_error number_text provider settings field = Some e ->
  exists rest, e = ("Invalid " ++ rest)%string.
Proof.
  unfold level_error. destruct (get settings field) as [level|]; [|discriminate].
  destruct (js_truthy level && negb (level_known number_text level));
    [|discriminate].
  intros [= <-]. eexists. reflexivity.
Qed.

(** The error of an entry that is an object never says that the entry
    must be one. *)
Lemma provider_entry_error_object (p : string) (s : json) (provider : string) :
  (includes VALID_PROVIDERS p = true -> is_object s = true) ->
  provider_entry_error number_text p s
  <> Some ("providerSettings." ++ provider ++ " must be an object")%string.
Proof.
  intros Hobj. unfold provider_entry_error.
  destruct (includes VALID_PROVIDERS p); cbn [negb]; [|discriminate].
  rewrite (Hobj eq_refl). cbn [negb]. unfold first_error.
  destruct (level_error number_text p s "maxLevel") as [e|] eqn:E1.
  { apply level_error_text in E1 as [rest ->]. discriminate. }
  destruct (level_error number_text p s "minLevel") as [e|] eqn:E2.
  { apply level_error_text in E2 as [rest ->]. discriminate. }
  destruct (level_error number_text p s "defaultLevel") as [e|] eqn:E3.
  { apply level_error_text in E3 as [rest ->]. discriminate. }
  destruct (get s "levelOverrides") as [o|]; [|discriminate].
  destruct (js_truthy o && negb (is_plain_object o)); discriminate.
Qed.

Lemma provider_entries_error_object (out : list (string * json))
  (provider : string) :
  (forall p s, In (p, s) out ->
     includes VALID_PROVIDERS p = true -> is_object s = true) ->
  provider_entries_error number_text out
  <> Some ("providerSettings." ++ provider ++ " must be an object")%string.
Proof.
  induction out as [|[p0 s0] out IH]; intros Hall; [discriminate|].
  cbn [provider_entries_error]. unfold first_error.
  destruct (provider_entry_error number_text p0 s0) as [e|] eqn:E.
  - rewrite <- E. apply provider_entry_error_object.
    apply Hall. now left.
  - apply IH. intros p s Hin. apply Hall. now right.
Qed.

(** X10.  Provider settings, given as an object whose keys are not names
    of inherited members: when [validateSetting] accepts them, every key
    names a provider (by canonical name or alias, in any letter case); it
    never answers that the settings of a provider must be an object, since
    the normalisation has made each of them one; and it answers the same
    for the settings and for their normalised form, which is what
    [coerceValue] stores. *)
Theorem validateSetting_providerSettings (entries : list (string * json)) :
  forallb (fun e => own_name (toLowerCase (fst e))) entries = true ->
  (validate "providerSettings" (JObj entries) = None ->
   forall k, In k (keys_of entries) -> known_provider k = true)
  /\ (forall provider,
        validate "providerSettings" (JObj entries)
        <> Some ("providerSettings." ++ provider ++ " must be an object")%string)
  /\ validate "providerSettings" (normalizeProviderSettings (JObj entries))
     = validate "providerSettings" (JObj entries).
Proof.
  intros _. rewrite !validate_providerSettings.
  pose proof (fold_normalize_invariant (aliasFirst entries) []
                normalized_entries_nil) as Hinv.
  assert (Herr : providerSettings_error number_text (JObj entries)
                 = provider_entries_error number_text
                     (fold_left normalize_provider_entry (aliasFirst entries) []))
    by reflexivity.
  split; [|split].
  - rewrite Herr. intros Hnone k Hk.
    apply normalizeProviderName_known.
    destruct (includes VALID_PROVIDERS (normalizeProviderName k)) eqn:E;
      [reflexivity|].
    unfold keys_of in Hk. apply in_map_iff in Hk as [[k' v] [Hfst Hin]].
    cbn [fst] in Hfst. subst k'.
    pose proof (fold_normalize_unknown_key (aliasFirst entries) [] k v
                  (In_aliasFirst _ _ Hin) E) as Hkey.
    unfold keys_of in Hkey. apply in_map_iff in Hkey as [[k' v'] [Hfst Hin']].
    cbn [fst] in Hfst. subst k'.
    pose proof (provider_entries_error_none _ Hnone _ _ Hin') as Hvalid.
    rewrite (normalizeProviderName_not_valid k E) in E. congruence.
  - intros provider. rewrite Herr.
    apply provider_entries_error_object.
    intros p s Hin Hp. destruct Hinv as [_ Hall].
    destruct (Hall _ _ Hin) as [_ Hobj]. apply includes_In in Hp.
    destruct (Hobj Hp) as [fields [-> _]]. reflexivity.
  - unfold providerSettings_error.
    rewrite normalizeProviderSettings_twice. reflexivity.
Qed.

End ProviderSettingsCheck.

Lemma validateSetting_providerSettings_witness :
  validateSetting example_number_text no_docker_error no_docker_error
    "providerSettings"
    (JObj [ ("Anthropic", JObj [("maxLevel", JStr "level2")]);
            ("codex", JNum (QArith_base.Qmake 5 1)) ])
  = None
  /\ known_provider "Anthropic" = true.
Proof.
  pose proof (validateSetting_providerSettings example_number_text
                no_docker_error no_docker_error
                [ ("Anthropic", JObj [("maxLevel", JStr "level2")]);
                  ("codex", JNum (QArith_base.Qmake 5 1)) ] eq_refl)
    as [Hkeys _].
  split; [reflexivity|].
  apply (Hkeys eq_refl). simpl. auto.
Defined.

(** ** The store under its lock *)

Lemma append_same_inv (p s : string) : p = (p ++ s)%string -> s = EmptyString.
Proof.
  induction p as [|c p IH]; simpl; [congruence|].
  intros H. injection H as H. now apply IH.
Qed.

Lemma lock_path_apart (path : string) : path <> lock_path path.
Proof.
  unfold lock_path. intros H. apply append_same_inv in H. discriminate.
Qed.

Lemma cleanStaleLock_other (now : ms) (path : string) (fs : file_system)
  (other : string) :
  other <> lock_path path ->
  assoc_get (cleanStaleLock now path fs) other = assoc_get fs other.
Proof.
  intros Hne. unfold cleanStaleLock.
  destruct (existsSync fs (lock_path path)); [|reflexivity].
  destruct (statSync_mtimeMs fs (lock_path path)) as [mtime|]; [|reflexivity].
  destruct (ms_gt _ _); [|reflexivity].
  unfold unlinkSync.
  destruct (assoc_get fs (lock_path path)) as [[m | c m]|]; try reflexivity.
  apply assoc_get_remove_other. congruence.
Qed.

Lemma mkdir_if_missing_other (now : ms) (fs : file_system) (dir path : string) :
  path <> dir ->
  assoc_get (mkdir_if_missing now fs dir) path = assoc_get fs path.
Proof.
  intros Hne. unfold mkdir_if_missing.
  destruct (existsSync fs dir); [reflexivity|].
  apply assoc_get_set_other. congruence.
Qed.

Lemma ensureDirs_other (TASKS_DIR LOGS_DIR : string) (now : ms)
  (fs : file_system) (path : string) :
  file_apart TASKS_DIR LOGS_DIR path ->
  assoc_get (ensureDirs TASKS_DIR LOGS_DIR now fs) path = assoc_get fs path.
Proof.
  intros [H1 H2]. unfold ensureDirs.
  now rewrite !mkdir_if_missing_other.
Qed.

Section LockedStoreFacts.

Variable TASKS_DIR TASKS_FILE LOGS_DIR SCHEDULES_FILE : string.
Variable JSON_parse : string -> result json.
Variable JSON_stringify : json -> string.
Variable lockfile_lock :
  string -> lock_options -> file_system -> result file_system.
Variable lockfile_release : string -> file_system -> result file_system.

Hypothesis Hframe : lock_frame lockfile_lock lockfile_release.

Local Abbreviation locked :=
  (with_file_lock TASKS_DIR LOGS_DIR JSON_parse JSON_stringify
     lockfile_lock lockfile_release).
Local Abbreviation update :=
  (locked_update JSON_parse JSON_stringify).

(** The store file when the lock is asked for: as it was, or just
    created. *)
Lemma store_file_prepared (path : string) (now : ms) (fs : file_system) :
  file_apart TASKS_DIR LOGS_DIR path ->
  let fs1 := ensureDirs TASKS_DIR LOGS_DIR now fs in
  exists fs2,
    (if negb (existsSync fs1 path) then writeFileSync now fs1 path "{}"
     else Ok fs1) = Ok fs2
    /\ assoc_get (cleanStaleLock now path fs2) path
       = Some (match assoc_get fs path with
               | Some file => file
               | None => regular_file "{}" now
               end).
Proof.
  intros Hapart fs1.
  pose proof (ensureDirs_other TASKS_DIR LOGS_DIR now fs path Hapart) as H1.
  fold fs1 in H1. unfold existsSync, writeFileSync. rewrite H1.
  destruct (assoc_get fs path) as [file|] eqn:E; cbn [negb].
  - exists fs1. split; [reflexivity|].
    rewrite cleanStaleLock_other by apply lock_path_apart. now rewrite H1.
  - eexists. split; [reflexivity|].
    rewrite cleanStaleLock_other by apply lock_path_apart.
    apply assoc_get_set_same.
Qed.

Lemma writeFileSync_file (now : ms) (fs : file_system) (path data : string)
  (content : string) (mtime : ms) :
  assoc_get fs path = Some (regular_file content mtime) ->
  writeFileSync now fs path data
  = Ok (assoc_set fs path (regular_file data now)).
Proof. intros H. unfold writeFileSync. now rewrite H. Qed.

(** What the update does with the lock held, by the state of the file. *)
Lemma locked_update_cases (path name : string) (m : modifier) (now : ms)
  (fs : file_system) (file : node) :
  assoc_get fs path = Some file ->
  let (fs', outcome) := update path name m now fs in
  match file with
  | directory _ => fs' = fs /\ throws outcome = true
  | regular_file content _ =>
    match JSON_parse content with
    | Throw message =>
      fs' = fs
      /\ outcome = Throw ("CRITICAL: " ++ name ++ " is corrupted. Error: "
                          ++ message)%string
    | Ok document =>
      match m document with
      | Throw e => fs' = fs /\ outcome = Throw e
      | Ok (document', value) =>
        fs' = assoc_set fs path (regular_file (JSON_stringify document') now)
        /\ outcome = Ok value
      end
    end
  end.
Proof.
  intros Hfile. unfold locked_update, readFileSync. rewrite Hfile.
  destruct file as [mtime | content mtime]; [split; reflexivity|].
  destruct (JSON_parse content) as [document | message]; [|split; reflexivity].
  destruct (m document) as [[document' value] | e]; [|split; reflexivity].
  rewrite (writeFileSync_file now fs path _ content mtime Hfile).
  split; reflexivity.
Qed.

(** A successful update: the file held a text that parses, the modifier
    accepted the document, and the file holds the new document. *)
Lemma with_file_lock_ok (path name : string) (m : modifier) (now : ms)
  (fs fs' : file_system) (value : option json) :
  file_apart TASKS_DIR LOGS_DIR path ->
  locked path name m now fs = (fs', Ok value) ->
  exists content document document',
    store_text fs path = Some content
    /\ JSON_parse content = Ok document
    /\ m document = Ok (document', value)
    /\ assoc_get fs' path
       = Some (regular_file (JSON_stringify document') now).
Proof.
  intros Hapart Hrun. unfold with_file_lock in Hrun.
  destruct (store_file_prepared path now fs Hapart) as [fs2 [Hcreate Hfile]].
  cbv zeta in Hcreate. rewrite Hcreate in Hrun.
  destruct (lockfile_lock path LOCK_OPTIONS (cleanStaleLock now path fs2))
    as [fs4|] eqn:Hlock; [|discriminate].
  assert (Hfile4 : assoc_get fs4 path = assoc_get (cleanStaleLock now path fs2) path)
    by (apply (proj1 Hframe path _ _ path Hlock), lock_path_apart).
  rewrite Hfile in Hfile4.
  pose proof (locked_update_cases path name m now fs4 _ Hfile4) as Hcases.
  destruct (update path name m now fs4) as [fs5 outcome].
  destruct (lockfile_release path fs5) as [fs6|] eqn:Hrel; [|discriminate].
  injection Hrun as <- ->.
  assert (Hfile6 : assoc_get fs6 path = assoc_get fs5 path)
    by (apply (proj2 Hframe path _ _ path Hrel), lock_path_apart).
  unfold store_text.
  destruct (assoc_get fs path) as [[mtime | content mtime]|] eqn:E.
  - destruct Hcases as [_ H]. discriminate.
  - destruct (JSON_parse content) as [document | message] eqn:Ep;
      [|destruct Hcases; discriminate].
    destruct (m document) as [[document' v] | e] eqn:Em;
      [|destruct Hcases; discriminate].
    destruct Hcases as [-> [= ->]].
    exists content, document, document'.
    rewrite Hfile6, assoc_get_set_same. auto.
  - destruct (JSON_parse "{}") as [document | message] eqn:Ep;
      [|destruct Hcases; discriminate].
    destruct (m document) as [[document' v] | e] eqn:Em;
      [|destruct Hcases; discriminate].
    destruct Hcases as [-> [= ->]].
    exists "{}", document, document'.
    rewrite Hfile6, assoc_get_set_same. auto.
Qed.

(** An update that does not get to write leaves the file as it was; its
    error is the one given, unless the lock library threw. *)
Lemma with_file_lock_unwritten (path name : string) (m : modifier) (now : ms)
  (fs fs' : file_system) (outcome : result (option json))
  (content : string) (mtime : ms) (error : string) :
  file_apart TASKS_DIR LOGS_DIR path ->
  assoc_get fs path = Some (regular_file content mtime) ->
  (forall fs4, assoc_get fs4 path = Some (regular_file content mtime) ->
     update path name m now fs4 = (fs4, Throw error)) ->
  locked path name m now fs = (fs', outcome) ->
  assoc_get fs' path = Some (regular_file content mtime)
  /\ exists e,
       outcome = Throw e
       /\ (e = error
           \/ (exists fs0, lockfile_lock path LOCK_OPTIONS fs0 = Throw e)
           \/ (exists fs0, lockfile_release path fs0 = Throw e)).
Proof.
  intros Hapart Hfile Hbody Hrun. unfold with_file_lock in Hrun.
  destruct (store_file_prepared path now fs Hapart) as [fs2 [Hcreate Hfile3]].
  cbv zeta in Hcreate. rewrite Hcreate in Hrun. rewrite Hfile in Hfile3.
  destruct (lockfile_lock path LOCK_OPTIONS (cleanStaleLock now path fs2))
    as [fs4|] eqn:Hlock.
  - assert (Hfile4 : assoc_get fs4 path = Some (regular_file content mtime)).
    { rewrite <- Hfile3.
      apply (proj1 Hframe path _ _ path Hlock), lock_path_apart. }
    rewrite (Hbody fs4 Hfile4) in Hrun.
    destruct (lockfile_release path fs4) as [fs6|] eqn:Hrel;
      injection Hrun as <- <-.
    + split.
      * rewrite <- Hfile4.
        apply (proj2 Hframe path _ _ path Hrel), lock_path_apart.
      * exists error. auto.
    + split; [exact Hfile4|]. eexists. split; [reflexivity|].
      right. right. eauto.
  - injection Hrun as <- <-. split; [exact Hfile3|].
    eexists. split; [reflexivity|]. right. left. eauto.
Qed.

End LockedStoreFacts.

Section LockedStoreTheorems.

Variable TASKS_DIR TASKS_FILE LOGS_DIR SCHEDULES_FILE : string.
Variable JSON_parse : string -> result json.
Variable JSON_stringify : json -> string.
Variable lockfile_lock :
  string -> lock_options -> file_system -> result file_system.
Variable lockfile_release : string -> file_system -> result file_system.
Variable toISOString : ms -> string.
Variable number_text : QArith_base.Q -> string.
Variable other_read : json -> string -> result (option json).
Variable other_write : json -> string -> json -> result json.
Variable other_delete : json -> string -> result json.

Local Abbreviation withTasksLock' :=
  (withTasksLock TASKS_DIR TASKS_FILE LOGS_DIR JSON_parse JSON_stringify
     lockfile_lock lockfile_release).
Local Abbreviation withSchedulesLock' :=
  (withSchedulesLock TASKS_DIR LOGS_DIR SCHEDULES_FILE JSON_parse JSON_stringify
     lockfile_lock lockfile_release).
Local Abbreviation getTask' :=
  (getTask TASKS_DIR TASKS_FILE LOGS_DIR JSON_parse other_read).
Local Abbreviation addTask' :=
  (addTask TASKS_DIR TASKS_FILE LOGS_DIR JSON_parse JSON_stringify
     lockfile_lock lockfile_release number_text other_read other_write).
Local Abbreviation removeTask' :=
  (removeTask TASKS_DIR TASKS_FILE LOGS_DIR JSON_parse JSON_stringify
     lockfile_lock lockfile_release other_delete).
Local Abbreviation updateTask' :=
  (updateTask TASKS_DIR TASKS_FILE LOGS_DIR JSON_parse JSON_stringify
     lockfile_lock lockfile_release toISOString other_read other_write).

(** X11.  An update under the lock of a store file whose content does not
    parse never runs the modifier and never writes: the file is left as it
    was, with its time stamp, and the call throws.  The error says that
    the file is corrupted and carries the parser's message, unless the
    lock library itself threw. *)
Theorem withTasksLock_corrupt (m : modifier) (now : ms)
  (fs fs' : file_system) (outcome : result (option json))
  (content : string) (mtime : ms) (message : string) :
  lock_frame lockfile_lock lockfile_release ->
  JSON_parse content = Throw message ->
  (file_apart TASKS_DIR LOGS_DIR TASKS_FILE ->
   assoc_get fs TASKS_FILE = Some (regular_file content mtime) ->
   withTasksLock' m now fs = (fs', outcome) ->
   assoc_get fs' TASKS_FILE = Some (regular_file content mtime)
   /\ exists e,
        outcome = Throw e
        /\ (e = ("CRITICAL: tasks.json is corrupted. Error: " ++ message)%string
            \/ (exists fs0, lockfile_lock TASKS_FILE LOCK_OPTIONS fs0 = Throw e)
            \/ (exists fs0, lockfile_release TASKS_FILE fs0 = Throw e)))
  /\ (file_apart TASKS_DIR LOGS_DIR SCHEDULES_FILE ->
      assoc_get fs SCHEDULES_FILE = Some (regular_file content mtime) ->
      withSchedulesLock' m now fs = (fs', outcome) ->
      assoc_get fs' SCHEDULES_FILE = Some (regular_file content mtime)
      /\ exists e,
           outcome = Throw e
           /\ (e = ("CRITICAL: schedules.json is corrupted. Error: " ++ message)%string
               \/ (exists fs0, lockfile_lock SCHEDULES_FILE LOCK_OPTIONS fs0 = Throw e)
               \/ (exists fs0, lockfile_release SCHEDULES_FILE fs0 = Throw e))).
Proof.
  intros Hframe Hparse. split; intros Hapart Hfile Hrun.
  - apply (with_file_lock_unwritten TASKS_DIR LOGS_DIR JSON_parse JSON_stringify
             lockfile_lock lockfile_release Hframe TASKS_FILE "tasks.json" m now
             fs fs' outcome content mtime _ Hapart Hfile); [|exact Hrun].
    intros fs4 Hfile4. unfold locked_update, readFileSync.
    now rewrite Hfile4, Hparse.
  - apply (with_file_lock_unwritten TASKS_DIR LOGS_DIR JSON_parse JSON_stringify
             lockfile_lock lockfile_release Hframe SCHEDULES_FILE "schedules.json"
             m now fs fs' outcome content mtime _ Hapart Hfile); [|exact Hrun].
    intros fs4 Hfile4. unfold locked_update, readFileSync.
    now rewrite Hfile4, Hparse.
Qed.

(** X12.  When the modifier throws, whatever it did to the document in
    memory, nothing is written: the store file is left as it was and the
    call throws the modifier's error, unless the lock library threw. *)
Theorem withTasksLock_modifier_throws (m : modifier) (now : ms)
  (fs fs' : file_system) (outcome : result (option json))
  (content : string) (mtime : ms) (document : json) (error : string) :
  lock_frame lockfile_lock lockfile_release ->
  file_apart TASKS_DIR LOGS_DIR TASKS_FILE ->
  assoc_get fs TASKS_FILE = Some (regular_file content mtime) ->
  JSON_parse content = Ok document ->
  m document = Throw error ->
  withTasksLock' m now fs = (fs', outcome) ->
  assoc_get fs' TASKS_FILE = Some (regular_file content mtime)
  /\ exists e,
       outcome = Throw e
       /\ (e = error
           \/ (exists fs0, lockfile_lock TASKS_FILE LOCK_OPTIONS fs0 = Throw e)
           \/ (exists fs0, lockfile_release TASKS_FILE fs0 = Throw e)).
Proof.
  intros Hframe Hapart Hfile Hparse Hm Hrun.
  apply (with_file_lock_unwritten TASKS_DIR LOGS_DIR JSON_parse JSON_stringify
           lockfile_lock lockfile_release Hframe TASKS_FILE "tasks.json" m now
           fs fs' outcome content mtime _ Hapart Hfile); [|exact Hrun].
  intros fs4 Hfile4. unfold locked_update, readFileSync.
  now rewrite Hfile4, Hparse, Hm.
Qed.

Lemma getTask_stored (id : string) (now : ms) (fs : file_system)
  (text : string) (mtime : ms) (tasks : list (string * json)) :
  assoc_get fs TASKS_FILE = Some (regular_file text mtime) ->
  JSON_parse text = Ok (JObj tasks) ->
  snd (getTask' id now fs) = Ok (assoc_get tasks id).
Proof.
  intros Hfile Hparse. unfold getTask, loadTasks, existsSync, readFileSync.
  rewrite (ensureDirs_get TASKS_DIR LOGS_DIR now fs _ _ Hfile).
  cbn -[slice_prefix]. rewrite Hparse. reflexivity.
Qed.

(** X13.  After [addTask(task)] has returned, for a task with a string
    [id] and a store that held an object, [getTask(task.id)] returns the
    task, and every other task is as before; [addTask] itself returned the
    task. *)
Theorem addTask_getTask (task_fields tasks : list (string * json))
  (id content : string) (now later : ms) (fs fs' : file_system)
  (value : option json) :
  lock_frame lockfile_lock lockfile_release ->
  file_apart TASKS_DIR LOGS_DIR TASKS_FILE ->
  own_name id = true ->
  assoc_get task_fields "id" = Some (JStr id) ->
  store_text fs TASKS_FILE = Some content ->
  JSON_parse content = Ok (JObj tasks) ->
  JSON_parse (JSON_stringify (JObj (assoc_set tasks id (JObj task_fields))))
  = Ok (JObj (assoc_set tasks id (JObj task_fields))) ->
  addTask' (JObj task_fields) now fs = (fs', Ok value) ->
  value = Some (JObj task_fields)
  /\ snd (getTask' id later fs') = Ok (Some (JObj task_fields))
  /\ forall other, own_name other = true -> other <> id ->
       snd (getTask' other later fs') = Ok (assoc_get tasks other).
Proof.
  intros Hframe Hapart _ Hid Htext Hparse Hround Hrun.
  unfold addTask, withTasksLock in Hrun.
  apply (with_file_lock_ok TASKS_DIR LOGS_DIR JSON_parse JSON_stringify
           lockfile_lock lockfile_release Hframe) in Hrun; [|exact Hapart].
  destruct Hrun as [content' [document [document' [Htext' [Hparse' [Hm Hfile]]]]]].
  rewrite Htext in Htext'. injection Htext' as <-.
  rewrite Hparse in Hparse'. injection Hparse' as <-.
  unfold add_entry in Hm. cbn [read_member] in Hm. rewrite Hid in Hm.
  cbn [property_key to_text write_member] in Hm. injection Hm as <- <-.
  split; [reflexivity|].
  split.
  - rewrite (getTask_stored id later fs' _ _ _ Hfile Hround).
    now rewrite assoc_get_set_same.
  - intros other _ Hne.
    rewrite (getTask_stored other later fs' _ _ _ Hfile Hround).
    rewrite assoc_get_set_other by congruence. reflexivity.
Qed.

(** X14.  After [removeTask(id)] has returned, on a store that held an
    object, [getTask(id)] returns [undefined] and every other task is as
    before; [removeTask] returns nothing. *)
Theorem removeTask_getTask (tasks : list (string * json))
  (id content : string) (now later : ms) (fs fs' : file_system)
  (value : option json) :
  lock_frame lockfile_lock lockfile_release ->
  file_apart TASKS_DIR LOGS_DIR TASKS_FILE ->
  own_name id = true ->
  store_text fs TASKS_FILE = Some content ->
  JSON_parse content = Ok (JObj tasks) ->
  JSON_parse (JSON_stringify (JObj (assoc_remove tasks id)))
  = Ok (JObj (assoc_remove tasks id)) ->
  removeTask' id now fs = (fs', Ok value) ->
  value = None
  /\ snd (getTask' id later fs') = Ok None
  /\ forall other, own_name other = true -> other <> id ->
       snd (getTask' other later fs') = Ok (assoc_get tasks other).
Proof.
  intros Hframe Hapart _ Htext Hparse Hround Hrun.
  unfold removeTask, withTasksLock in Hrun.
  destruct (with_file_lock TASKS_DIR LOGS_DIR JSON_parse JSON_stringify
              lockfile_lock lockfile_release TASKS_FILE "tasks.json"
              (remove_entry other_delete id) now fs)
    as [fs1 [v|e]] eqn:Hlocked; [|discriminate].
  injection Hrun as <- <-.
  apply (with_file_lock_ok TASKS_DIR LOGS_DIR JSON_parse JSON_stringify
           lockfile_lock lockfile_release Hframe) in Hlocked; [|exact Hapart].
  destruct Hlocked as [content' [document [document' [Htext' [Hparse' [Hm Hfile]]]]]].
  rewrite Htext in Htext'. injection Htext' as <-.
  rewrite Hparse in Hparse'. injection Hparse' as <-.
  unfold remove_entry in Hm. cbn [delete_member] in Hm. injection Hm as <- <-.
  split; [reflexivity|].
  split.
  - rewrite (getTask_stored id later fs1 _ _ _ Hfile Hround).
    now rewrite assoc_get_remove_same.
  - intros other _ Hne.
    rewrite (getTask_stored other later fs1 _ _ _ Hfile Hround).
    rewrite assoc_get_remove_other by congruence. reflexivity.
Qed.

(** X15.  [updateTask(id, updates)] that has returned, on a store that
    held an object: for an [id] that names no task (or a falsy value) it
    returned [null], and the document was written back as it was read;
    for a task that is there it returned the task with the updates laid
    over it and [updatedAt] set to the time of the call, which is also
    what [getTask(id)] returns afterwards. *)
Theorem updateTask_getTask (tasks : list (string * json)) (updates : json)
  (id content : string) (now later : ms) (fs fs' : file_system)
  (value : option json) :
  lock_frame lockfile_lock lockfile_release ->
  file_apart TASKS_DIR LOGS_DIR TASKS_FILE ->
  own_name id = true ->
  store_text fs TASKS_FILE = Some content ->
  JSON_parse content = Ok (JObj tasks) ->
  updateTask' id updates now fs = (fs', Ok value) ->
  (opt_truthy (assoc_get tasks id) = false ->
   value = Some JNull
   /\ content_of fs' TASKS_FILE = Some (JSON_stringify (JObj tasks)))
  /\ (forall current,
        assoc_get tasks id = Some current -> js_truthy current = true ->
        let merged :=
          JObj (assign_all (assign_all (spread current) (spread updates))
                  [("updatedAt", JStr (toISOString now))]) in
        value = Some merged
        /\ get merged "updatedAt" = Some (JStr (toISOString now))
        /\ (forall k, k <> "updatedAt" ->
              assoc_get (spread updates) k = None ->
              get merged k = assoc_get (spread current) k)
        /\ (forall k x, k <> "updatedAt" ->
              distinct_keys (map fst (spread updates)) = true ->
              assoc_get (spread updates) k = Some x ->
              get merged k = Some x)
        /\ (JSON_parse (JSON_stringify (JObj (assoc_set tasks id merged)))
            = Ok (JObj (assoc_set tasks id merged)) ->
            snd (getTask' id later fs') = Ok (Some merged))).
Proof.
  intros Hframe Hapart _ Htext Hparse Hrun.
  unfold updateTask, withTasksLock in Hrun.
  apply (with_file_lock_ok TASKS_DIR LOGS_DIR JSON_parse JSON_stringify
           lockfile_lock lockfile_release Hframe) in Hrun; [|exact Hapart].
  destruct Hrun as [content' [document [document' [Htext' [Hparse' [Hm Hfile]]]]]].
  rewrite Htext in Htext'. injection Htext' as <-.
  rewrite Hparse in Hparse'. injection Hparse' as <-.
  unfold update_entry in Hm. cbn [read_member] in Hm.
  split.
  - intros Hfalsy. rewrite Hfalsy in Hm. cbn [negb] in Hm.
    injection Hm as <- <-. split; [reflexivity|].
    unfold content_of. now rewrite Hfile.
  - intros current Hcur Htruthy merged.
    rewrite Hcur in Hm. cbn [opt_truthy or_empty_object] in Hm.
    rewrite Htruthy in Hm. cbn [negb write_member read_member] in Hm.
    rewrite assoc_get_set_same in Hm. injection Hm as <- <-.
    split; [reflexivity|]. split; [|split; [|split]].
    + unfold merged. cbn [get].
      apply assoc_get_assign_all; reflexivity.
    + intros k Hk Hnone. unfold merged. cbn [get].
      assert (Hu : assoc_get [("updatedAt", JStr (toISOString now))] k = None).
      { unfold assoc_get.
        destruct (String.eqb_spec "updatedAt" k) as [E | E];
          [congruence | reflexivity]. }
      rewrite (assoc_get_assign_all_other _ _ k Hu).
      now apply assoc_get_assign_all_other.
    + intros k x Hk Hd Hsome. unfold merged. cbn [get].
      assert (Hu : assoc_get [("updatedAt", JStr (toISOString now))] k = None).
      { unfold assoc_get.
        destruct (String.eqb_spec "updatedAt" k) as [E | E];
          [congruence | reflexivity]. }
      rewrite (assoc_get_assign_all_other _ _ k Hu).
      now apply assoc_get_assign_all.
    + intros Hround.
      rewrite (getTask_stored id later fs' _ _ _ Hfile Hround).
      now rewrite assoc_get_set_same.
Qed.

End LockedStoreTheorems.

Lemma example_lock_frame : lock_frame example_lock example_release.
Proof.
  split; intros path fs fs' other H Hne.
  - unfold example_lock in H.
    destruct (existsSync fs (lock_path path)); [discriminate|].
    injection H as <-. apply assoc_get_set_other. congruence.
  - unfold example_release in H. injection H as <-.
    apply assoc_get_remove_other. congruence.
Qed.

Lemma state_file_apart : file_apart "/state" "/state/logs" "/state/tasks.json".
Proof. split; discriminate. Qed.

Lemma withTasksLock_corrupt_witness :
  assoc_get
    (fst (withTasksLock "/state" "/state/tasks.json" "/state/logs"
            example_parse_tasks example_stringify example_lock example_release
            (remove_entry no_other_delete "task-1") (ms_of_Z 20) corrupt_fs))
    "/state/tasks.json"
  = Some (regular_file "{ truncated" (ms_of_Z 10)).
Proof.
  apply (proj1 (withTasksLock_corrupt "/state" "/state/tasks.json" "/state/logs"
                  "/state/schedules.json" example_parse_tasks example_stringify
                  example_lock example_release
                  (remove_entry no_other_delete "task-1") (ms_of_Z 20)
                  corrupt_fs _ _ "{ truncated" (ms_of_Z 10) "Unexpected token"
                  example_lock_frame eq_refl)
           state_file_apart eq_refl (surjective_pairing _)).
Defined.

Lemma withTasksLock_modifier_throws_witness :
  assoc_get
    (fst (withTasksLock "/state" "/state/tasks.json" "/state/logs"
            example_parse_tasks example_stringify example_lock example_release
            (add_entry example_number_text no_other_read no_other_write JNull)
            (ms_of_Z 20) empty_store_fs))
    "/state/tasks.json"
  = Some (regular_file "{}" (ms_of_Z 10)).
Proof.
  apply (withTasksLock_modifier_throws "/state" "/state/tasks.json" "/state/logs"
           example_parse_tasks example_stringify example_lock example_release
           (add_entry example_number_text no_other_read no_other_write JNull)
           (ms_of_Z 20) empty_store_fs _ _ "{}" (ms_of_Z 10) (JObj [])
           "TypeError: Cannot read properties of null"
           example_lock_frame state_file_apart eq_refl eq_refl eq_refl
           (surjective_pairing _)).
Defined.

Lemma addTask_getTask_witness :
  snd (getTask "/state" "/state/tasks.json" "/state/logs" example_parse_tasks
         no_other_read "task-1" (ms_of_Z 30)
         (fst (addTask "/state" "/state/tasks.json" "/state/logs"
                 example_parse_tasks example_stringify example_lock
                 example_release example_number_text no_other_read
                 no_other_write example_task (ms_of_Z 20) fresh_fs)))
  = Ok (Some example_task).
Proof.
  refine (proj1 (proj2 (addTask_getTask "/state" "/state/tasks.json" "/state/logs"
           example_parse_tasks example_stringify example_lock example_release
           example_number_text no_other_read no_other_write
           [ ("id", JStr "task-1"); ("status", JStr "running") ] []
           "task-1" "{}" (ms_of_Z 20) (ms_of_Z 30) fresh_fs _ (Some example_task)
           example_lock_frame state_file_apart eq_refl eq_refl eq_refl eq_refl
           eq_refl _))).
  vm_compute. reflexivity.
Defined.

Lemma removeTask_getTask_witness :
  snd (getTask "/state" "/state/tasks.json" "/state/logs" example_parse_tasks
         no_other_read "task-1" (ms_of_Z 30)
         (fst (removeTask "/state" "/state/tasks.json" "/state/logs"
                 example_parse_tasks example_stringify example_lock
                 example_release no_other_delete "task-1" (ms_of_Z 20) tasks_fs)))
  = Ok None.
Proof.
  refine (proj1 (proj2 (removeTask_getTask "/state" "/state/tasks.json"
           "/state/logs" example_parse_tasks example_stringify example_lock
           example_release no_other_read no_other_delete
           [ ("task-1", example_task) ] "task-1" "tasks"
           (ms_of_Z 20) (ms_of_Z 30) tasks_fs _ None
           example_lock_frame state_file_apart eq_refl eq_refl eq_refl eq_refl _))).
  vm_compute. reflexivity.
Defined.

Lemma updateTask_getTask_witness :
  content_of
    (fst (updateTask "/state" "/state/tasks.json" "/state/logs"
            example_parse_tasks example_stringify example_lock example_release
            example_toISOString no_other_read no_other_write "task-2"
            example_updates (ms_of_Z 20) tasks_fs))
    "/state/tasks.json"
  = Some "tasks".
Proof.
  refine (proj2 (proj1 (updateTask_getTask "/state" "/state/tasks.json"
           "/state/logs" example_parse_tasks example_stringify example_lock
           example_release example_toISOString no_other_read no_other_write
           [ ("task-1", example_task) ] example_updates "task-2" "tasks"
           (ms_of_Z 20) (ms_of_Z 30) tasks_fs _ (Some JNull)
           example_lock_frame state_file_apart eq_refl eq_refl eq_refl _)
           eq_refl)).
  vm_compute. reflexivity.
Defined.

Example updateTask_running_task :
  snd (updateTask "/state" "/state/tasks.json" "/state/logs" example_parse_tasks
         example_stringify example_lock example_release example_toISOString
         no_other_read no_other_write "task-1" example_updates (ms_of_Z 20)
         tasks_fs)
  = Ok (Some (JObj [ ("id", JStr "task-1"); ("status", JStr "completed");
                     ("updatedAt", JStr "1970-01-01T00:00:00.000Z") ])).
Proof. vm_compute. reflexivity. Qed.

(** ** The schema on its way to the CLI *)







(** ** The levels of a provider *)

Lemma has_level_rank (mapping : list (string * level_spec)) (key : string) :
  (has_level mapping key = true -> exists r, rank_of mapping key = Some r)
  /\ (has_level mapping key = false -> rank_of mapping key = None).
Proof.
  unfold has_level, rank_of. destruct (assoc_get mapping key); split;
    try discriminate; eauto.
Qed.

(** X17.  [validateLevel] returns nothing but the level it was given, and
    it returns it exactly when the provider has the level, has each bound
    that is given, and the rank of the level is neither below that of the
    floor nor above that of the ceiling; in every other case it throws. *)
Theorem validateLevel_bounds (p : provider) (level : string)
  (minLevel maxLevel : option string) :
  own_name level = true ->
  own_name (or_empty minLevel) = true ->
  own_name (or_empty maxLevel) = true ->
  (forall x, validateLevel p level minLevel maxLevel = Ok x -> x = level)
  /\ (validateLevel p level minLevel maxLevel = Ok level
      <-> exists r,
            rank_of (getLevelMapping p) level = Some r
            /\ (truthy minLevel = true ->
                exists rmin,
                  rank_of (getLevelMapping p) (or_empty minLevel) = Some rmin
                  /\ (rmin <= r)%Z)
            /\ (truthy maxLevel = true ->
                exists rmax,
                  rank_of (getLevelMapping p) (or_empty maxLevel) = Some rmax
                  /\ (r <= rmax)%Z)).
Proof.
  intros _ _ _. unfold validateLevel.
  set (mapping := getLevelMapping p).
  destruct (has_level_rank mapping level) as [Hl Hl'].
  destruct (has_level_rank mapping (or_empty minLevel)) as [Hmin Hmin'].
  destruct (has_level_rank mapping (or_empty maxLevel)) as [Hmax Hmax'].
  destruct (has_level mapping level); cbn [negb].
  2:{ split; [discriminate|]. split; [discriminate|].
      intros [r [Hr _]]. rewrite (Hl' eq_refl) in Hr. discriminate. }
  destruct (Hl eq_refl) as [r Hr]. clear Hl Hl'. rewrite Hr.
  destruct (truthy minLevel) eqn:Tmin; cbn [andb].
  - destruct (has_level mapping (or_empty minLevel)); cbn [negb].
    2:{ split; [discriminate|]. split; [discriminate|].
        intros [r' [_ [H _]]]. destruct (H eq_refl) as [rmin [Hr' _]].
        rewrite (Hmin' eq_refl) in Hr'. discriminate. }
    destruct (Hmin eq_refl) as [rmin Hrmin]. clear Hmin Hmin'. rewrite Hrmin.
    destruct (truthy maxLevel) eqn:Tmax; cbn [andb].
    + destruct (has_level mapping (or_empty maxLevel)); cbn [negb].
      2:{ split; [discriminate|]. split; [discriminate|].
          intros [r' [_ [_ H]]]. destruct (H eq_refl) as [rmax [Hr' _]].
          rewrite (Hmax' eq_refl) in Hr'. discriminate. }
      destruct (Hmax eq_refl) as [rmax Hrmax]. clear Hmax Hmax'. rewrite Hrmax.
      cbn [number_gt].
      destruct (Z.ltb_spec rmax rmin) as [Hlt1 | Hge1].
      { split; [discriminate|]. split; [discriminate|].
        intros [r' [[= <-] [H1 H2]]].
        destruct (H1 eq_refl) as [a [[= <-] Ha]].
        destruct (H2 eq_refl) as [b [[= <-] Hb]]. lia. }
      destruct (Z.ltb_spec rmax r) as [Hlt2 | Hge2].
      { split; [discriminate|]. split; [discriminate|].
        intros [r' [[= <-] [_ H2]]].
        destruct (H2 eq_refl) as [b [[= <-] Hb]]. lia. }
      destruct (Z.ltb_spec r rmin) as [Hlt3 | Hge3].
      { split; [discriminate|]. split; [discriminate|].
        intros [r' [[= <-] [H1 _]]].
        destruct (H1 eq_refl) as [a [[= <-] Ha]]. lia. }
      split; [now intros x [= <-]|]. split; [|reflexivity].
      intros _. exists r. split; [reflexivity|]. split; intros _; eauto.
    + cbn [number_gt].
      destruct (Z.ltb_spec r rmin) as [Hlt4 | Hge4].
      { split; [discriminate|]. split; [discriminate|].
        intros [r' [[= <-] [H1 _]]].
        destruct (H1 eq_refl) as [a [[= <-] Ha]]. lia. }
      split; [now intros x [= <-]|]. split; [|reflexivity].
      intros _. exists r. split; [reflexivity|].
      split; [intros _; eauto | discriminate].
  - destruct (truthy maxLevel) eqn:Tmax; cbn [andb].
    + destruct (has_level mapping (or_empty maxLevel)); cbn [negb].
      2:{ split; [discriminate|]. split; [discriminate|].
          intros [r' [_ [_ H]]]. destruct (H eq_refl) as [rmax [Hr' _]].
          rewrite (Hmax' eq_refl) in Hr'. discriminate. }
      destruct (Hmax eq_refl) as [rmax Hrmax]. clear Hmax Hmax'. rewrite Hrmax.
      cbn [number_gt].
      destruct (Z.ltb_spec rmax r) as [Hlt5 | Hge5].
      { split; [discriminate|]. split; [discriminate|].
        intros [r' [[= <-] [_ H2]]].
        destruct (H2 eq_refl) as [b [[= <-] Hb]]. lia. }
      split; [now intros x [= <-]|]. split; [|reflexivity].
      intros _. exists r. split; [reflexivity|].
      split; [discriminate | intros _; eauto].
    + split; [now intros x [= <-]|]. split; [|reflexivity].
      intros _. exists r. split; [reflexivity|]. split; discriminate.
Qed.

Lemma validateLevel_bounds_witness :
  validateLevel OpenAIProvider "level2" (Some "level1") (Some "level3")
  = Ok "level2"
  /\ throws (validateLevel OpenAIProvider "level3" None (Some "level2")) = true.
Proof.
  split.
  - apply (proj2 (validateLevel_bounds OpenAIProvider "level2" (Some "level1")
                    (Some "level3") eq_refl eq_refl eq_refl)).
    exists 2%Z. split; [reflexivity|].
    split; intros _; [exists 1%Z | exists 3%Z]; (split; [reflexivity | lia]).
  - destruct (validateLevel OpenAIProvider "level3" None (Some "level2"))
      as [x|] eqn:E; [|reflexivity].
    pose proof (proj1 (validateLevel_bounds OpenAIProvider "level3" None
                         (Some "level2") eq_refl eq_refl eq_refl) x E) as Hx.
    subst x.
    apply (proj2 (validateLevel_bounds OpenAIProvider "level3" None
                    (Some "level2") eq_refl eq_refl eq_refl)) in E.
    destruct E as [r [[= <-] [_ H]]].
    destruct (H eq_refl) as [rmax [[= <-] Hle]]. lia.
Defined.

(** ** The levels that the provider setup saves *)

Lemma insert_by_In (rank : string -> Z) (x k : string) (l : list string) :
  In k (insert_by rank x l) <-> k = x \/ In k l.
Proof.
  induction l as [|y l IH]; simpl.
  - intuition.
  - destruct (Z.ltb (rank x) (rank y)); simpl; rewrite ?IH; intuition.
Qed.

Lemma insert_by_length (rank : string -> Z) (x : string) (l : list string) :
  List.length (insert_by rank x l) = S (List.length l).
Proof.
  induction l as [|y l IH]; simpl; [reflexivity|].
  destruct (Z.ltb (rank x) (rank y)); simpl; [reflexivity | now rewrite IH].
Qed.

Lemma insert_by_sorted (rank : string -> Z) (x : string) (l : list string) :
  StronglySorted (fun a b => (rank a <= rank b)%Z) l ->
  StronglySorted (fun a b => (rank a <= rank b)%Z) (insert_by rank x l).
Proof.
  induction l as [|y l IH]; intros Hs; simpl.
  - repeat constructor.
  - inversion Hs as [|? ? Hl Hy]; subst.
    destruct (Z.ltb_spec (rank x) (rank y)) as [Hlt | Hge].
    + constructor; [exact Hs|]. constructor; [lia|].
      rewrite Forall_forall in *. intros z Hz. specialize (Hy z Hz). lia.
    + constructor; [now apply IH|].
      rewrite Forall_forall in *. intros z Hz.
      apply insert_by_In in Hz as [-> | Hz]; [lia | now apply Hy].
Qed.

Lemma sort_by_spec (rank : string -> Z) (l acc : list string) :
  StronglySorted (fun a b => (rank a <= rank b)%Z) acc ->
  let sorted := fold_left (fun sorted key => insert_by rank key sorted) l acc in
  StronglySorted (fun a b => (rank a <= rank b)%Z) sorted
  /\ List.length sorted = List.length l + List.length acc
  /\ forall k, In k sorted <-> In k l \/ In k acc.
Proof.
  revert acc. induction l as [|x l IH]; intros acc Hs; cbn [fold_left].
  - cbv zeta. split; [exact Hs|]. split; [reflexivity|].
    intros k. simpl. tauto.
  - destruct (IH (insert_by rank x acc) (insert_by_sorted rank x acc Hs))
      as [H1 [H2 H3]].
    cbv zeta in *. split; [exact H1|]. split.
    + rewrite H2, insert_by_length. simpl. lia.
    + intros k. rewrite H3, insert_by_In. simpl. intuition.
Qed.

Lemma sorted_nth (rank : string -> Z) (l : list string) (i j : nat)
  (a b : string) :
  StronglySorted (fun a b => (rank a <= rank b)%Z) l ->
  i <= j -> nth_error l i = Some a -> nth_error l j = Some b ->
  (rank a <= rank b)%Z.
Proof.
  intros Hs. revert i j. induction Hs as [|x l Hs IH Hall]; intros i j Hij Ha Hb.
  - destruct i; discriminate.
  - destruct i as [|i]; destruct j as [|j]; simpl in *; try lia.
    + injection Ha as <-. injection Hb as <-. lia.
    + injection Ha as <-. apply nth_error_In in Hb.
      rewrite Forall_forall in Hall. now apply Hall.
    + apply (IH i j); [lia | assumption | assumption].
Qed.

Lemma choose_levels_ordered (parseInt : string -> option Z)
  (typed : nat -> string) (count : Z) :
  (1 <= count)%Z ->
  let choice := choose_levels parseInt typed count in
  (1 <= minIdx choice <= defaultIdxNum choice)%Z
  /\ (defaultIdxNum choice <= maxIdx choice <= count)%Z.
Proof.
  intros Hc. unfold choose_levels. cbn [minIdx maxIdx defaultIdxNum].
  generalize (or_number (parseInt (question typed 0)) count).
  generalize (or_number (parseInt (question typed 1)) 1).
  intros a b.
  set (lo := Z.min (Z.min count (Z.max 1 a)) (Z.min count (Z.max 1 b))).
  set (hi := Z.max (Z.min count (Z.max 1 a)) (Z.min count (Z.max 1 b))).
  generalize (or_number (parseInt (question typed 2)) hi). intros c.
  unfold lo, hi. lia.
Qed.

Lemma key_at_some (keys : list string) (index : Z) :
  (1 <= index <= Z.of_nat (List.length keys))%Z ->
  exists k, key_at keys index = Some k
            /\ nth_error keys (Z.to_nat (index - 1)) = Some k.
Proof.
  intros H. unfold key_at.
  destruct (Z.ltb_spec (index - 1) 0) as [Hlt | _]; [lia|].
  destruct (nth_error keys (Z.to_nat (index - 1))) as [k|] eqn:E; [eauto|].
  apply nth_error_None in E. lia.
Qed.

Lemma rank_of_key (levels : list (string * level_spec)) (k : string) :
  In k (keys_of levels) -> rank_of levels k = Some (rank_key levels k).
Proof.
  intros Hin. unfold rank_of, rank_key.
  destruct (assoc_get levels k) eqn:E; [reflexivity|].
  apply assoc_get_not_in in E. contradiction.
Qed.

(** Levels of the provider in the order of their ranks pass the check. *)
Lemma validateLevel_ordered (p : provider) (level lo hi : string) :
  In level (keys_of (getLevelMapping p)) ->
  In lo (keys_of (getLevelMapping p)) ->
  In hi (keys_of (getLevelMapping p)) ->
  (rank_key (getLevelMapping p) lo <= rank_key (getLevelMapping p) level)%Z ->
  (rank_key (getLevelMapping p) level <= rank_key (getLevelMapping p) hi)%Z ->
  validateLevel p level (Some lo) (Some hi) = Ok level.
Proof.
  intros Hl Hlo Hhi H1 H2. unfold validateLevel, has_level.
  rewrite !rank_of_key by assumption. cbn [or_empty].
  assert (Hget : forall k, In k (keys_of (getLevelMapping p)) ->
                   match assoc_get (getLevelMapping p) k with
                   | Some _ => true | None => false end = true).
  { intros k Hk. destruct (assoc_get (getLevelMapping p) k) eqn:E; [reflexivity|].
    apply assoc_get_not_in in E. contradiction. }
  rewrite !Hget by assumption. cbn [negb andb number_gt].
  rewrite !andb_false_r. cbn [andb].
  destruct (Z.ltb_spec (rank_key (getLevelMapping p) hi)
              (rank_key (getLevelMapping p) lo)) as [Hlt | _]; [lia|].
  destruct (Z.ltb_spec (rank_key (getLevelMapping p) hi)
              (rank_key (getLevelMapping p) level)) as [Hlt | _]; [lia|].
  destruct (Z.ltb_spec (rank_key (getLevelMapping p) level)
              (rank_key (getLevelMapping p) lo)) as [Hlt | _]; [lia|].
  rewrite !andb_false_r. reflexivity.
Qed.

(** X18.  Whatever the user answers, the setup of a provider that has a
    level saves a floor, a default and a ceiling that are levels of the
    provider with ranks in this order, so that [validateLevel] accepts the
    default level between the two bounds. *)
Theorem setup_levels_valid (parseInt : string -> option Z)
  (typed : nat -> string) (p : provider) (provider_key : string) :
  getLevelMapping p <> [] ->
  forallb own_name (keys_of (getLevelMapping p)) = true ->
  exists lmin ldefault lmax,
    get (setup_entry parseInt typed p provider_key) "minLevel"
    = Some (JStr lmin)
    /\ get (setup_entry parseInt typed p provider_key) "defaultLevel"
       = Some (JStr ldefault)
    /\ get (setup_entry parseInt typed p provider_key) "maxLevel"
       = Some (JStr lmax)
    /\ (rank_key (getLevelMapping p) lmin
        <= rank_key (getLevelMapping p) ldefault
        <= rank_key (getLevelMapping p) lmax)%Z
    /\ validateLevel p ldefault (Some lmin) (Some lmax) = Ok ldefault.
Proof.
  intros Hne _. unfold setup_entry.
  set (levels := getLevelMapping p).
  set (keys := levelKeys levels).
  pose proof (sort_by_spec (rank_key levels) (keys_of levels) []
                (SSorted_nil _)) as Hspec.
  cbv zeta in Hspec.
  change (fold_left (fun sorted key => insert_by (rank_key levels) key sorted)
            (keys_of levels) []) with keys in Hspec.
  destruct Hspec as [Hsorted [Hlen Hin]].
  set (rk := rank_key levels) in *.
  assert (Hcount : (1 <= Z.of_nat (List.length keys))%Z).
  { rewrite Hlen. unfold keys_of. rewrite length_map.
    unfold levels. destruct (getLevelMapping p); [contradiction | simpl; lia]. }
  pose proof (choose_levels_ordered parseInt typed _ Hcount) as Hord.
  cbv zeta in Hord.
  set (choice := choose_levels parseInt typed (Z.of_nat (List.length keys))) in *.
  destruct Hord as [[H1 H2] [H3 H4]].
  destruct (key_at_some keys (minIdx choice)) as [lmin [Kmin Nmin]]; [lia|].
  destruct (key_at_some keys (defaultIdxNum choice)) as [ldef [Kdef Ndef]]; [lia|].
  destruct (key_at_some keys (maxIdx choice)) as [lmax [Kmax Nmax]]; [lia|].
  exists lmin, ldef, lmax. rewrite Kmin, Kdef, Kmax.
  split; [reflexivity|]. split; [reflexivity|]. split; [reflexivity|].
  assert (Hkey : forall k i, nth_error keys i = Some k -> In k (keys_of levels)).
  { intros k i Hk. apply nth_error_In in Hk. apply Hin in Hk.
    destruct Hk as [Hk | []]. exact Hk. }
  assert (Hlo : (rk lmin <= rk ldef)%Z)
    by (apply (sorted_nth rk keys (Z.to_nat (minIdx choice - 1))
                 (Z.to_nat (defaultIdxNum choice - 1)) lmin ldef Hsorted);
        [lia | exact Nmin | exact Ndef]).
  assert (Hhi : (rk ldef <= rk lmax)%Z)
    by (apply (sorted_nth rk keys (Z.to_nat (defaultIdxNum choice - 1))
                 (Z.to_nat (maxIdx choice - 1)) ldef lmax Hsorted);
        [lia | exact Ndef | exact Nmax]).
  split; [split; assumption|].
  apply validateLevel_ordered; eauto.
Qed.

Lemma setup_levels_valid_witness :
  get (setup_entry example_parseInt_answer example_typed OpenAIProvider "codex")
    "minLevel" = Some (JStr "level2")
  /\ get (setup_entry example_parseInt_answer example_typed OpenAIProvider "codex")
       "maxLevel" = Some (JStr "level3")
  /\ validateLevel OpenAIProvider "level3" (Some "level2") (Some "level3")
     = Ok "level3".
Proof.
  destruct (setup_levels_valid example_parseInt_answer example_typed
              OpenAIProvider "codex")
    as [lmin [ldef [lmax [Hmin [Hdef [Hmax [_ Hvalid]]]]]]];
    [discriminate | reflexivity |].
  vm_compute in Hmin, Hdef, Hmax.
  injection Hmin as <-. injection Hdef as <-. injection Hmax as <-.
  split; [reflexivity|]. split; [reflexivity | exact Hvalid].
Defined.

(** ** What the setup saves is what the next load returns *)

Lemma setup_entry_shape (parseInt : string -> option Z) (typed : nat -> string)
  (p : provider) (provider_key : string) :
  getLevelMapping p <> [] ->
  exists lmax lmin ldefault levelOverrides,
    setup_entry parseInt typed p provider_key
    = level_entry lmax lmin ldefault levelOverrides.
Proof.
  intros Hne. unfold setup_entry.
  set (levels := getLevelMapping p).
  set (keys := levelKeys levels).
  pose proof (sort_by_spec (rank_key levels) (keys_of levels) []
                (SSorted_nil _)) as Hspec.
  cbv zeta in Hspec.
  change (fold_left (fun sorted key => insert_by (rank_key levels) key sorted)
            (keys_of levels) []) with keys in Hspec.
  destruct Hspec as [_ [Hlen _]].
  assert (Hcount : (1 <= Z.of_nat (List.length keys))%Z).
  { rewrite Hlen. unfold keys_of. rewrite length_map.
    unfold levels. destruct (getLevelMapping p); [contradiction | simpl; lia]. }
  pose proof (choose_levels_ordered parseInt typed _ Hcount) as Hord.
  cbv zeta in Hord.
  set (choice := choose_levels parseInt typed (Z.of_nat (List.length keys))) in *.
  destruct Hord as [[H1 H2] [H3 H4]].
  destruct (key_at_some keys (minIdx choice)) as [lmin [Kmin _]]; [lia|].
  destruct (key_at_some keys (defaultIdxNum choice)) as [ldef [Kdef _]]; [lia|].
  destruct (key_at_some keys (maxIdx choice)) as [lmax [Kmax _]]; [lia|].
  rewrite Kmin, Kdef, Kmax. do 4 eexists. reflexivity.
Qed.

Lemma default_keys_NoDup : NoDup (keys_of (spread DEFAULT_SETTINGS)).
Proof. apply distinct_keys_NoDup. vm_compute. reflexivity. Qed.

(** The loaded settings are an object with distinct keys whose provider
    settings have the three providers, in this order. *)
Lemma loadSettings_shape (JSON_parse : string -> result json)
  (file : settings_file) :
  exists fields claude codex gemini,
    loadSettings JSON_parse file = JObj fields
    /\ NoDup (keys_of fields)
    /\ assoc_get fields "providerSettings"
       = Some (JObj [("claude", claude); ("codex", codex); ("gemini", gemini)]).
Proof.
  assert (Hdefault : exists fields claude codex gemini,
             DEFAULT_SETTINGS = JObj fields
             /\ NoDup (keys_of fields)
             /\ assoc_get fields "providerSettings"
                = Some (JObj [("claude", claude); ("codex", codex);
                              ("gemini", gemini)])).
  { do 4 eexists. split; [reflexivity|]. split; [apply default_keys_NoDup|].
    reflexivity. }
  unfold loadSettings, loadSettings_try.
  destruct file as [| | data]; try exact Hdefault.
  destruct (JSON_parse data) as [document|]; [|exact Hdefault].
  destruct (normalizeLoadedSettings document) as [parsed|]; [|exact Hdefault].
  clear Hdefault. unfold merge_loaded.
  set (merged := assign_all (spread DEFAULT_SETTINGS) (spread parsed)).
  assert (Hnd : NoDup (keys_of merged))
    by (apply NoDup_keys_assign_all, default_keys_NoDup).
  match goal with
  | |- context [set (JObj merged) "defaultProvider" ?d] => set (dp := d)
  end.
  unfold mergeProviderSettings. cbn [fold_left VALID_PROVIDERS].
  match goal with
  | |- context [set (set (JObj merged) "defaultProvider" dp) "providerSettings"
                  (JObj ?m)] => set (ps := m)
  end.
  assert (Hps : exists claude codex gemini,
             ps = [("claude", claude); ("codex", codex); ("gemini", gemini)]).
  { unfold ps. cbn. do 3 eexists. reflexivity. }
  destruct Hps as [claude [codex [gemini Hps]]]. rewrite Hps. clear Hps ps.
  cbn [set]. unfold applyLegacyModelBounds. cbn [get].
  rewrite assoc_get_set_same. cbn [js_truthy negb set assoc_set].
  cbn. rewrite assoc_set_set.
  do 4 eexists. split; [reflexivity|]. split.
  - now apply NoDup_keys_assoc_set, NoDup_keys_assoc_set.
  - apply assoc_get_set_same.
Qed.

Lemma normalizeLoadedSettings_providerSettings (fields : list (string * json))
  (v : json) :
  assoc_get fields "providerSettings" = Some v -> js_truthy v = true ->
  exists fields',
    normalizeLoadedSettings (JObj fields) = Ok (JObj fields')
    /\ assoc_get fields' "providerSettings" = Some (normalizeProviderSettings v).
Proof.
  intros Hget Ht. unfold normalizeLoadedSettings. cbn [get spread].
  rewrite Hget, Ht. eexists. split; [reflexivity|]. apply assoc_get_set_same.
Qed.

(** The entry of Codex or Gemini goes through normalisation and through
    the merge with the defaults as it is. *)
Lemma level_entry_survives (claude codex gemini : json) (key : string)
  (lmax lmin ldefault : string) (levelOverrides : list (string * json)) :
  key = "codex" \/ key = "gemini" ->
  let entry := level_entry lmax lmin ldefault levelOverrides in
  let saved :=
    set (JObj [("claude", claude); ("codex", codex); ("gemini", gemini)])
      key entry in
  get (mergeProviderSettings
         (or_empty_object (get DEFAULT_SETTINGS "providerSettings"))
         (Some (normalizeProviderSettings saved))) key
  = Some entry.
Proof.
  intros [-> | ->]; reflexivity.
Qed.

(** X19.  What the setup saves for Codex or Gemini is what the next load
    returns: when the provider has a level and the saved settings survive
    [JSON.stringify] and [JSON.parse], the settings loaded from the saved
    file hold, for this provider, exactly the entry that the setup made. *)
Theorem setup_persists (JSON_parse : string -> result json)
  (JSON_stringify : json -> string) (parseInt : string -> option Z)
  (typed : nat -> string) (p : provider) (key : string)
  (file : settings_file) :
  key = "codex" \/ key = "gemini" ->
  getLevelMapping p <> [] ->
  JSON_parse
    (JSON_stringify
       (setup_settings parseInt typed p key (loadSettings JSON_parse file)))
  = Ok (setup_settings parseInt typed p key (loadSettings JSON_parse file)) ->
  provider_entry
    (loadSettings JSON_parse
       (saveSettings JSON_stringify
          (setup_settings parseInt typed p key (loadSettings JSON_parse file))))
    key
  = Some (setup_entry parseInt typed p key).
Proof.
  intros Hkey Hne Hround.
  destruct (setup_entry_shape parseInt typed p key Hne)
    as [lmax [lmin [ldef [lo Hentry]]]].
  destruct (loadSettings_shape JSON_parse file)
    as [fields [claude [codex [gemini [Hload [Hnd Hps]]]]]].
  unfold saveSettings, loadSettings at 1, loadSettings_try.
  rewrite Hround. unfold setup_settings. rewrite Hload, Hentry.
  cbn [get]. rewrite Hps. cbn [or_empty_object js_truthy].
  set (saved := set (JObj [("claude", claude); ("codex", codex); ("gemini", gemini)])
                  key (level_entry lmax lmin ldef lo)).
  cbn [set].
  destruct (normalizeLoadedSettings_providerSettings
              (assoc_set fields "providerSettings" saved) saved)
    as [fields' [-> Hnorm]].
  { apply assoc_get_set_same. }
  { unfold saved. destruct Hkey as [-> | ->]; reflexivity. }
  rewrite provider_entry_applyLegacyModelBounds_other
    by (destruct Hkey as [-> | ->]; discriminate).
  rewrite provider_entry_merge_loaded. cbn [get]. rewrite Hnorm.
  now apply level_entry_survives.
Qed.

Lemma setup_persists_witness :
  provider_entry
    (loadSettings saved_parse
       (saveSettings saved_stringify
          (setup_settings example_parseInt_answer example_typed OpenAIProvider
             "codex" (loadSettings saved_parse file_absent))))
    "codex"
  = Some (level_entry "level3" "level2" "level3" []).
Proof.
  exact (setup_persists saved_parse saved_stringify example_parseInt_answer
           example_typed OpenAIProvider "codex" file_absent (or_introl eq_refl)
           ltac:(discriminate) eq_refl).
Defined.

(** ** The events of a chunk *)

Lemma split_lines_cons (s : string) : exists l ls, split_lines s = l :: ls.
Proof.
  induction s as [|c s IH]; simpl; [eauto|].
  destruct (Ascii.eqb c line_feed); [eauto|].
  destruct IH as [l [ls ->]]. eauto.
Qed.

Lemma split_lines_append (a b : string) :
  split_lines (a ++ String line_feed b) = split_lines a ++ split_lines b.
Proof.
  induction a as [|c a IH]; simpl; [reflexivity|].
  rewrite IH. destruct (Ascii.eqb c line_feed); [reflexivity|].
  destruct (split_lines_cons a) as [l [ls ->]]. reflexivity.
Qed.

Section ChunkParsingFacts.

Variable event : Type.
Variable parser_state : Type.
Variable parseEvent : parser_state -> string -> parser_state * result (parsed event).

Local Abbreviation lines_of := (parse_lines event parser_state parseEvent).
Local Abbreviation chunk_of :=
  (parseChunkWithProvider event parser_state parseEvent).

Lemma parse_lines_events (lines : list string) (st : parser_state)
  (events : list event) :
  lines_of lines st events
  = match lines_of lines st [] with
    | (st', Ok found) => (st', Ok (events ++ found))
    | (st', Throw e) => (st', Throw e)
    end.
Proof.
  revert st events. induction lines as [|line rest IH]; intros st events.
  - simpl. now rewrite app_nil_r.
  - cbn [parse_lines].
    destruct (stripTimestampPrefix line =? EmptyString); [apply IH|].
    destruct (parseEvent st (stripTimestampPrefix line)) as [st' [[| e | es] | msg]].
    + apply IH.
    + rewrite (IH st' (events ++ [e])), (IH st' ([] ++ [e])).
      destruct (lines_of rest st' []) as [st2 [found | msg]]; [|reflexivity].
      now rewrite <- !app_assoc.
    + rewrite (IH st' (events ++ es)), (IH st' ([] ++ es)).
      destruct (lines_of rest st' []) as [st2 [found | msg]]; [|reflexivity].
      now rewrite <- !app_assoc.
    + reflexivity.
Qed.

Lemma parse_lines_app (first second : list string) (st : parser_state)
  (events : list event) :
  lines_of (first ++ second) st events
  = match lines_of first st events with
    | (st', Ok found) => lines_of second st' found
    | (st', Throw e) => (st', Throw e)
    end.
Proof.
  revert st events. induction first as [|line rest IH]; intros st events.
  - reflexivity.
  - rewrite <- app_comm_cons. cbn [parse_lines].
    destruct (stripTimestampPrefix line =? EmptyString); [apply IH|].
    destruct (parseEvent st (stripTimestampPrefix line)) as [st' [[| e | es] | msg]];
      try apply IH. reflexivity.
Qed.

Lemma parseChunk_lines (chunk : string) (st : parser_state) :
  chunk_of chunk st = lines_of (split_lines chunk) st [].
Proof.
  unfold parseChunkWithProvider.
  destruct (String.eqb_spec chunk EmptyString) as [-> | _]; reflexivity.
Qed.

(** X20.  A chunk may be cut at any line feed: the events of two chunks
    joined by a line feed are the events of the first followed by those of
    the second, the parser of the provider taking its state from the one
    chunk to the other; an error of the parser in the first chunk is the
    error of the whole, and the second chunk is not looked at. *)
Theorem parseChunkWithProvider_append (first second : string)
  (st : parser_state) :
  chunk_of (first ++ String line_feed second) st
  = parse_then event parser_state parseEvent first second st.
Proof.
  unfold parse_then. rewrite !parseChunk_lines, split_lines_append.
  rewrite parse_lines_app.
  destruct (lines_of (split_lines first) st []) as [st1 [found | msg]];
    [|reflexivity].
  rewrite parseChunk_lines, (parse_lines_events (split_lines second) st1 found).
  destruct (lines_of (split_lines second) st1 []) as [st2 [found2 | msg]];
    reflexivity.
Qed.

End ChunkParsingFacts.

Example parseChunkWithProvider_two_lines :
  parseChunkWithProvider string nat count_lines
    ("[1721088000000]first" ++ newline ++ newline ++ "  second ") 0
  = (2, Ok ["first"; "second"]).
Proof. vm_compute. reflexivity. Qed.

(** ** The time stamp in front of a line *)

Lemma drop_final_cr_trimmed (s : string) : trimEnd s = s -> drop_final_cr s = s.
Proof.
  induction s as [|c s IH]; [reflexivity|]. intros H.
  apply trimEnd_tail in H. destruct H as [Ht Hc].
  destruct s as [|d r].
  - simpl. specialize (Hc eq_refl).
    destruct (Ascii.eqb_spec c carriage_return) as [-> | _]; [discriminate|].
    reflexivity.
  - change (drop_final_cr (String c (String d r)))
      with (String c (drop_final_cr (String d r))).
    now rewrite IH.
Qed.

Lemma trimEnd_suffix (p r : string) :
  trimEnd (p ++ r) = (p ++ r)%string -> trimEnd r = r.
Proof.
  induction p as [|c p IH]; simpl; [trivial|].
  intros H. apply IH.
  change (trimEnd (String c (p ++ r)) = String c (p ++ r)) in H.
  now apply trimEnd_tail in H.
Qed.

Lemma string_append_assoc (a b c : string) :
  ((a ++ b) ++ c)%string = (a ++ (b ++ c))%string.
Proof. induction a as [|x a IH]; simpl; [reflexivity | now rewrite IH]. Qed.

Lemma take_digits_prefix (n : nat) (s r : string) :
  take_digits n s = Some r ->
  exists p, s = (p ++ r)%string /\ String.length p = n /\ digits_only p = true.
Proof.
  revert s. induction n as [|n IH]; intros s H; simpl in H.
  - injection H as <-. exists EmptyString. auto.
  - destruct s as [|c s]; [discriminate|].
    destruct (is_digit c) eqn:Ec; [|discriminate].
    destruct (IH s H) as [p [-> [Hl Hd]]].
    exists (String c p). simpl. rewrite Ec, Hl, Hd. auto.
Qed.

Lemma take_digits_append (p r : string) :
  digits_only p = true -> take_digits (String.length p) (p ++ r) = Some r.
Proof.
  induction p as [|c p IH]; simpl; [reflexivity|].
  intros H. apply andb_true_iff in H as [Hc Hp]. rewrite Hc. now apply IH.
Qed.

Lemma timestamp_rest_suffix (s rest : string) :
  timestamp_rest s = Some rest ->
  exists digits,
    s = ("[" ++ digits ++ "]" ++ rest)%string
    /\ String.length digits = 13 /\ digits_only digits = true
    /\ one_line rest = true.
Proof.
  unfold timestamp_rest. destruct s as [|c s]; [discriminate|].
  destruct (Ascii.eqb_spec c "["%char) as [-> | _]; [|discriminate].
  destruct (take_digits 13 s) as [[|d tail]|] eqn:E; try discriminate.
  destruct (Ascii.eqb_spec d "]"%char) as [-> | _]; [|discriminate].
  destruct (one_line tail) eqn:El; [|discriminate].
  intros [= <-]. apply take_digits_prefix in E as [p [-> [Hl Hd]]].
  exists p. auto.
Qed.

(** X21.  On a line of the ASCII range, [stripTimestampPrefix] gives
    the trimmed line, or what follows a time stamp of thirteen digits in
    brackets at its start; cutting a final carriage return changes
    nothing, the trimming having removed it.  The result has no white
    space at its end.  A line made of a time stamp and a rest on one
    line, with nothing but white space around them, is cut down to the
    rest. *)
Theorem stripTimestampPrefix_rest (line : string) :
  ascii_text line = true ->
  drop_final_cr (trim line) = trim line
  /\ stripTimestampPrefix line
     = match timestamp_rest (trim line) with
       | Some rest => rest
       | None => trim line
       end
  /\ trimEnd (stripTimestampPrefix line) = stripTimestampPrefix line
  /\ (forall digits rest,
        String.length digits = 13 -> digits_only digits = true ->
        one_line rest = true ->
        trim line = ("[" ++ digits ++ "]" ++ rest)%string ->
        stripTimestampPrefix line = rest).
Proof.
  intros _.
  assert (Hcr : drop_final_cr (trim line) = trim line)
    by apply drop_final_cr_trimmed, trimEnd_trim.
  assert (Hstrip : stripTimestampPrefix line
                   = match timestamp_rest (trim line) with
                     | Some rest => rest
                     | None => trim line
                     end).
  { unfold stripTimestampPrefix. rewrite Hcr.
    destruct (String.eqb_spec line EmptyString) as [-> | _]; [reflexivity|].
    destruct (String.eqb_spec (trim line) EmptyString) as [-> | _]; reflexivity. }
  split; [exact Hcr|]. split; [exact Hstrip|]. split.
  - rewrite Hstrip.
    destruct (timestamp_rest (trim line)) as [rest|] eqn:E; [|apply trimEnd_trim].
    apply timestamp_rest_suffix in E as [digits [E _]].
    apply (trimEnd_suffix ("[" ++ digits ++ "]")%string).
    rewrite !string_append_assoc. rewrite <- E. apply trimEnd_trim.
  - intros digits rest Hlen Hd Hone Htrim. rewrite Hstrip, Htrim.
    unfold timestamp_rest. cbn [append].
    rewrite <- Hlen, (take_digits_append digits _ Hd). cbn [append].
    now rewrite Hone.
Qed.

Lemma stripTimestampPrefix_rest_witness :
  stripTimestampPrefix timestamped_line = "{}".
Proof.
  apply (proj2 (proj2 (proj2 (stripTimestampPrefix_rest timestamped_line
                                eq_refl)))
           "1721088000000" "{}"); reflexivity.
Defined.

(** ** Strict schemas: the recursion *)

Lemma list_max_In (l : list nat) (x : nat) : In x l -> x <= list_max l.
Proof.
  intros Hin. pose proof (proj1 (list_max_le l (list_max l)) (le_n _)) as H.
  rewrite Forall_forall in H. now apply H.
Qed.

Lemma depth_element (items : list json) (x : json) :
  In x items -> depth x < depth (JArr items).
Proof.
  intros Hin. cbn [depth]. apply Nat.lt_succ_r, list_max_In.
  apply in_map_iff. eauto.
Qed.

Lemma depth_field (fields : list (string * json)) (k : string) (x : json) :
  In (k, x) fields -> depth x < depth (JObj fields).
Proof.
  intros Hin. cbn [depth]. apply Nat.lt_succ_r, list_max_In.
  apply in_map_iff. exists (k, x). auto.
Qed.

Lemma In_indexed {A : Type} (n : nat) (l : list A) (k : string) (x : A) :
  In (k, x) (indexed n l) -> In x l /\ exists i, k = nat_to_string i.
Proof.
  revert n. induction l as [|y l IH]; intros n; simpl; [tauto|].
  intros [[= <- <-] | H]; [eauto|].
  destruct (IH _ H) as [Hin Hk]. auto.
Qed.

Lemma depth_characters (s : string) (x : json) :
  In x (characters s) -> depth x = 0.
Proof.
  induction s as [|c s IH]; simpl; [tauto|].
  intros [<- | H]; [reflexivity | now apply IH].
Qed.

(** What a spread copies lies inside the value. *)
Lemma depth_spread (v : json) (k : string) (x : json) :
  In (k, x) (spread v) -> depth x < depth v \/ depth x = 0.
Proof.
  destruct v as [| b | q | s | items | fields]; simpl; try tauto.
  - intros H. apply In_indexed in H as [H _]. right.
    now apply depth_characters in H.
  - intros H. apply In_indexed in H as [H _]. left.
    now apply depth_element.
  - intros H. left. now apply depth_field in H.
Qed.

Lemma depth_spread_object (v : json) (k : string) (x : json) :
  is_object v = true -> In (k, x) (spread v) -> depth x < depth v.
Proof.
  intros Hobj Hin. destruct (depth_spread v k x Hin) as [H | H]; [exact H|].
  destruct v; try discriminate; cbn [depth]; lia.
Qed.

Lemma assoc_get_indexed_name {A : Type} (n : nat) (l : list A) (k : string) :
  digits_only k = false -> assoc_get (indexed n l) k = None.
Proof.
  intros Hk. apply assoc_get_none_not_in. intros Hin.
  apply in_map_iff in Hin as [[k' x] [Hfst Hin]]. cbn [fst] in Hfst. subst k'.
  apply In_indexed in Hin as [_ [i ->]].
  rewrite nat_to_string_digits in Hk. discriminate.
Qed.

(** A property with a name that is no index is read from the copy as it
    is read from the value. *)
Lemma get_spread (v : json) (k : string) :
  is_object v = true -> digits_only k = false ->
  get v k = assoc_get (spread v) k.
Proof.
  intros Hobj Hk. destruct v as [| b | q | s | items | fields];
    try discriminate; [|reflexivity].
  cbn [get spread]. rewrite assoc_get_indexed_name by exact Hk.
  destruct (array_index k) as [i|] eqn:E; [|reflexivity].
  apply array_index_canonical in E. subst k.
  rewrite nat_to_string_digits in Hk. discriminate.
Qed.

Lemma depth_get (v : json) (k : string) (x : json) :
  get v k = Some x -> depth x < depth v.
Proof.
  destruct v as [| b | q | s | items | fields]; simpl; try discriminate.
  - destruct (array_index k) as [i|]; [|discriminate].
    intros H. apply nth_error_In in H. now apply depth_element.
  - intros H. apply assoc_get_In in H. now apply depth_field in H.
Qed.

Section EnforceStepFacts.

Variable recur : json -> json.

Lemma strict_object_other (result : list (string * json)) (k : string) :
  k <> "additionalProperties" ->
  assoc_get (strict_object result) k = assoc_get result k.
Proof.
  intros Hk. unfold strict_object. destruct (type_is_object result); [|reflexivity].
  apply assoc_get_set_other. congruence.
Qed.

Lemma strict_properties_other (schema : json) (result : list (string * json))
  (k : string) :
  k <> "properties" ->
  assoc_get (strict_properties recur schema result) k = assoc_get result k.
Proof.
  intros Hk. unfold strict_properties.
  destruct (opt_truthy (assoc_get result "properties")); [|reflexivity].
  apply assoc_get_set_other. congruence.
Qed.

Lemma strict_items_other (schema : json) (result : list (string * json))
  (k : string) :
  k <> "items" ->
  assoc_get (strict_items recur schema result) k = assoc_get result k.
Proof.
  intros Hk. unfold strict_items.
  destruct (opt_truthy (assoc_get result "items")); [|reflexivity].
  destruct (get schema "items"); [|reflexivity].
  apply assoc_get_set_other. congruence.
Qed.

Lemma strict_combinator_other (result : list (string * json)) (key k : string) :
  k <> key ->
  assoc_get (strict_combinator recur result key) k = assoc_get result k.
Proof.
  intros Hk. unfold strict_combinator.
  destruct (assoc_get result key) as [[| b | q | s | items | fields]|];
    try reflexivity.
  apply assoc_get_set_other. congruence.
Qed.

Lemma strict_combinators_other (result : list (string * json)) (k : string) :
  ~ In k COMBINATORS ->
  assoc_get (fold_left (strict_combinator recur) COMBINATORS result) k
  = assoc_get result k.
Proof.
  intros Hk. unfold COMBINATORS in *. cbn [fold_left].
  rewrite !strict_combinator_other; [reflexivity | | |];
    intros ->; apply Hk; simpl; auto.
Qed.

Lemma strict_additional_other (result : list (string * json)) (k : string) :
  k <> "additionalProperties" ->
  assoc_get (strict_additional recur result) k = assoc_get result k.
Proof.
  intros Hk. unfold strict_additional.
  destruct (assoc_get result "additionalProperties") as [ap|]; [|reflexivity].
  destruct (js_truthy ap && is_object ap); [|reflexivity].
  apply assoc_get_set_other. congruence.
Qed.

End EnforceStepFacts.

Lemma map_ext_entries (f g : json -> json) (l : list (string * json)) :
  (forall k x, In (k, x) l -> f x = g x) ->
  map (fun entry => (fst entry, f (snd entry))) l
  = map (fun entry => (fst entry, g (snd entry))) l.
Proof.
  intros H. apply map_ext_in. intros [k x] Hin. cbn [fst snd].
  now rewrite (H k x Hin).
Qed.

(** The body calls the function on schemas inside the schema only. *)
Lemma enforce_step_ext (f g : json -> json) (schema : json) :
  (forall v, depth v < depth schema -> f v = g v) ->
  enforce_step f schema = enforce_step g schema.
Proof.
  intros Hext. unfold enforce_step.
  destruct (js_truthy schema && is_object schema) eqn:Eobj; cbn [negb];
    [|reflexivity].
  apply andb_true_iff in Eobj as [_ Hobj].
  set (r1 := strict_object (spread schema)).
  assert (Hsub : forall k x, assoc_get r1 k = Some x ->
                   k <> "additionalProperties" -> depth x < depth schema).
  { intros k x Hget Hk. unfold r1 in Hget.
    rewrite strict_object_other in Hget by exact Hk.
    apply assoc_get_In in Hget. now apply depth_spread_object in Hget. }
  assert (H2 : strict_properties f schema r1 = strict_properties g schema r1).
  { unfold strict_properties.
    destruct (opt_truthy (assoc_get r1 "properties")); [|reflexivity].
    f_equal. f_equal. apply map_ext_entries. intros k x Hin. apply Hext.
    unfold entries_of in Hin.
    destruct (get schema "properties") as [p|] eqn:Ep; [|destruct Hin].
    apply depth_get in Ep.
    destruct (depth_spread p k x Hin) as [H | H]; lia. }
  rewrite H2. set (r2 := strict_properties g schema r1).
  assert (H3 : strict_items f schema r2 = strict_items g schema r2).
  { unfold strict_items.
    destruct (opt_truthy (assoc_get r2 "items")); [|reflexivity].
    destruct (get schema "items") as [items|] eqn:Ei; [|reflexivity].
    now rewrite (Hext items (depth_get _ _ _ Ei)). }
  rewrite H3. set (r3 := strict_items g schema r2).
  assert (Hr3 : forall k, k <> "properties" -> k <> "items" ->
                  assoc_get r3 k = assoc_get r1 k).
  { intros k Hp Hi. unfold r3, r2.
    now rewrite strict_items_other, strict_properties_other. }
  assert (Hcomb : forall r key,
             (forall x, assoc_get r key = Some x -> depth x < depth schema) ->
             strict_combinator f r key = strict_combinator g r key).
  { intros r key Hr. unfold strict_combinator.
    destruct (assoc_get r key) as [[| b | q | s | schemas | fields]|] eqn:E;
      try reflexivity.
    f_equal. f_equal. apply map_ext_in. intros x Hin. apply Hext.
    pose proof (Hr _ eq_refl) as Hd. apply depth_element in Hin. lia. }
  unfold COMBINATORS. cbn [fold_left].
  rewrite (Hcomb r3 "anyOf").
  2:{ intros x Hx. rewrite Hr3 in Hx by discriminate.
      apply (Hsub _ _ Hx). discriminate. }
  set (r4 := strict_combinator g r3 "anyOf").
  rewrite (Hcomb r4 "oneOf").
  2:{ intros x Hx. unfold r4 in Hx.
      rewrite strict_combinator_other, Hr3 in Hx by discriminate.
      apply (Hsub _ _ Hx). discriminate. }
  set (r5 := strict_combinator g r4 "oneOf").
  rewrite (Hcomb r5 "allOf").
  2:{ intros x Hx. unfold r5, r4 in Hx.
      rewrite !strict_combinator_other, Hr3 in Hx by discriminate.
      apply (Hsub _ _ Hx). discriminate. }
  set (r6 := strict_combinator g r5 "allOf").
  f_equal. unfold strict_additional.
  destruct (assoc_get r6 "additionalProperties") as [ap|] eqn:Eap; [|reflexivity].
  destruct (js_truthy ap && is_object ap) eqn:Et; [|reflexivity].
  f_equal. apply Hext.
  unfold r6, r5, r4 in Eap.
  rewrite !strict_combinator_other, Hr3 in Eap by discriminate.
  unfold r1, strict_object in Eap.
  destruct (type_is_object (spread schema)).
  - rewrite assoc_get_set_same in Eap. injection Eap as <-. discriminate.
  - apply assoc_get_In in Eap. now apply depth_spread_object in Eap.
Qed.

Lemma enforce_step_flat (f : json -> json) (schema : json) :
  depth schema = 0 -> enforce_step f schema = schema.
Proof.
  intros Hd. unfold enforce_step.
  destruct schema; try discriminate; cbn; rewrite ?andb_false_r; reflexivity.
Qed.

Lemma enforce_to_enough (n m : nat) (schema : json) :
  depth schema <= n -> depth schema <= m ->
  enforce_to n schema = enforce_to m schema.
Proof.
  revert m schema. induction n as [|n IH]; intros m schema Hn Hm.
  - destruct m as [|m]; [reflexivity|]. cbn [enforce_to].
    symmetry. apply enforce_step_flat. lia.
  - destruct m as [|m]; cbn [enforce_to].
    + apply enforce_step_flat. lia.
    + apply enforce_step_ext. intros v Hv. apply IH; lia.
Qed.

(** [enforceStrictSchema] satisfies the equation that the source writes:
    it is its body, calling itself. *)
Lemma enforceStrictSchema_equation (schema : json) :
  enforceStrictSchema schema = enforce_step enforceStrictSchema schema.
Proof.
  unfold enforceStrictSchema at 1.
  destruct (depth schema) as [|d] eqn:Ed.
  - cbn [enforce_to]. symmetry. now apply enforce_step_flat.
  - cbn [enforce_to]. apply enforce_step_ext. intros v Hv.
    unfold enforceStrictSchema. apply enforce_to_enough; lia.
Qed.

(** ** Strict schemas: a second pass changes nothing *)

Lemma map_entries_twice (f : json -> json) (l : list (string * json)) :
  (forall k x, In (k, x) l -> f (f x) = f x) ->
  map (fun entry => (fst entry, f (snd entry)))
    (map (fun entry => (fst entry, f (snd entry))) l)
  = map (fun entry => (fst entry, f (snd entry))) l.
Proof.
  intros H. rewrite map_map. apply map_ext_in. intros [k x] Hin.
  cbn [fst snd]. now rewrite (H k x Hin).
Qed.

Lemma map_twice (f : json -> json) (l : list json) :
  (forall x, In x l -> f (f x) = f x) -> map f (map f l) = map f l.
Proof.
  intros H. rewrite map_map. apply map_ext_in. exact H.
Qed.

Lemma enforceStrictSchema_object (schema : json) :
  js_truthy schema && is_object schema = true ->
  js_truthy (enforceStrictSchema schema)
  && is_object (enforceStrictSchema schema) = true.
Proof.
  intros H. rewrite enforceStrictSchema_equation. unfold enforce_step.
  rewrite H. reflexivity.
Qed.

Section SecondPass.

Variable schema : json.
Hypothesis Hobject : js_truthy schema && is_object schema = true.
Hypothesis Hinside :
  forall v, depth v < depth schema ->
    enforceStrictSchema (enforceStrictSchema v) = enforceStrictSchema v.

Local Abbreviation E := enforceStrictSchema.
Local Abbreviation f0 := (spread schema).
Local Abbreviation r1 := (strict_object f0).
Local Abbreviation r2 := (strict_properties E schema r1).
Local Abbreviation r3 := (strict_items E schema r2).
Local Abbreviation r4 := (strict_combinator E r3 "anyOf").
Local Abbreviation r5 := (strict_combinator E r4 "oneOf").
Local Abbreviation r6 := (strict_combinator E r5 "allOf").
Local Abbreviation final := (strict_additional E r6).

Lemma first_pass : E schema = JObj final.
Proof.
  rewrite enforceStrictSchema_equation. unfold enforce_step.
  rewrite Hobject. reflexivity.
Qed.

Lemma is_object_schema : is_object schema = true.
Proof. now apply andb_true_iff in Hobject. Qed.

Lemma inside_field (k : string) (x : json) :
  assoc_get f0 k = Some x -> depth x < depth schema.
Proof.
  intros H. apply assoc_get_In in H.
  exact (depth_spread_object schema k x is_object_schema H).
Qed.

Lemma final_other (k : string) :
  k <> "additionalProperties" -> k <> "properties" -> k <> "items" ->
  ~ In k COMBINATORS ->
  assoc_get final k = assoc_get f0 k.
Proof.
  intros Ha Hp Hi Hc.
  rewrite strict_additional_other by exact Ha.
  change r6 with (fold_left (strict_combinator E) COMBINATORS r3).
  rewrite strict_combinators_other by exact Hc.
  rewrite strict_items_other, strict_properties_other, strict_object_other;
    auto.
Qed.

Lemma final_type : type_is_object final = type_is_object f0.
Proof.
  unfold type_is_object. rewrite final_other; try discriminate; [reflexivity|].
  unfold COMBINATORS. simpl. intuition discriminate.
Qed.

Lemma r6_additional :
  assoc_get r6 "additionalProperties" = assoc_get r1 "additionalProperties".
Proof.
  rewrite !strict_combinator_other by discriminate.
  now rewrite strict_items_other, strict_properties_other by discriminate.
Qed.

(** The first step of the second pass. *)
Lemma second_object : strict_object final = final.
Proof.
  unfold strict_object at 1. rewrite final_type.
  destruct (type_is_object f0) eqn:Et; [|reflexivity].
  apply assoc_set_get.
  assert (H6 : assoc_get r6 "additionalProperties" = Some (JBool false)).
  { rewrite r6_additional. unfold strict_object. rewrite Et.
    apply assoc_get_set_same. }
  unfold strict_additional. rewrite H6. exact H6.
Qed.

Lemma final_properties :
  assoc_get final "properties" = assoc_get r2 "properties".
Proof.
  rewrite strict_additional_other by discriminate.
  rewrite !strict_combinator_other by discriminate.
  now rewrite strict_items_other by discriminate.
Qed.

Lemma r2_properties :
  assoc_get r2 "properties"
  = if opt_truthy (assoc_get r1 "properties")
    then Some (JObj (map (fun entry => (fst entry, E (snd entry)))
                       (entries_of (get schema "properties"))))
    else assoc_get r1 "properties".
Proof.
  unfold strict_properties.
  destruct (opt_truthy (assoc_get r1 "properties"));
    [apply assoc_get_set_same | reflexivity].
Qed.

Lemma second_properties : strict_properties E (JObj final) final = final.
Proof.
  assert (Hread := final_properties). rewrite r2_properties in Hread.
  unfold strict_properties at 1. cbn [get]. rewrite Hread.
  destruct (opt_truthy (assoc_get r1 "properties")) eqn:Et.
  - cbn [opt_truthy js_truthy entries_of spread].
    apply assoc_set_get. rewrite Hread. f_equal. f_equal.
    symmetry. apply map_entries_twice.
    intros k x Hin. apply Hinside.
    unfold entries_of in Hin.
    destruct (get schema "properties") as [p|] eqn:Ep; [|destruct Hin].
    apply depth_get in Ep.
    destruct (depth_spread p k x Hin) as [H | H]; lia.
  - rewrite Et. reflexivity.
Qed.

Lemma final_items : assoc_get final "items" = assoc_get r3 "items".
Proof.
  rewrite strict_additional_other by discriminate.
  now rewrite !strict_combinator_other by discriminate.
Qed.

Lemma second_items : strict_items E (JObj final) final = final.
Proof.
  unfold strict_items at 1. rewrite final_items.
  destruct (opt_truthy (assoc_get r3 "items")) eqn:Et; [|reflexivity].
  cbn [get]. rewrite final_items.
  destruct (assoc_get r3 "items") as [x|] eqn:Ex; [|discriminate].
  apply assoc_set_get. rewrite final_items, Ex. f_equal.
  unfold strict_items in Ex.
  destruct (opt_truthy (assoc_get r2 "items")) eqn:Et2.
  - destruct (get schema "items") as [items|] eqn:Ei.
    + rewrite assoc_get_set_same in Ex. injection Ex as <-.
      symmetry. apply Hinside. now apply depth_get in Ei.
    + rewrite Ex in Et2. rewrite Et2 in Et.
      cbn [opt_truthy] in Et2, Et.
      rewrite (get_spread schema "items" is_object_schema eq_refl) in Ei.
      rewrite strict_properties_other, strict_object_other in Ex by discriminate.
      congruence.
  - rewrite Ex in Et2. cbn [opt_truthy] in Et, Et2. congruence.
Qed.

Lemma second_combinator (r : list (string * json)) (key : string) :
  In key COMBINATORS ->
  assoc_get final key = assoc_get (strict_combinator E r key) key ->
  assoc_get r key = assoc_get f0 key ->
  strict_combinator E final key = final.
Proof.
  intros Hkey Hfinal Hr. unfold strict_combinator at 1.
  destruct (assoc_get final key) as [[| b | q | s | schemas | fields]|] eqn:Ef;
    try reflexivity.
  apply assoc_set_get. rewrite Ef. f_equal.
  unfold strict_combinator in Hfinal. rewrite Hr in Hfinal.
  destruct (assoc_get f0 key) as [[| b | q | s | originals | fields]|] eqn:E0;
    try congruence.
  rewrite assoc_get_set_same in Hfinal. injection Hfinal as ->.
  f_equal. symmetry. apply map_twice. intros x Hin. apply Hinside.
  apply inside_field in E0. apply depth_element in Hin. lia.
Qed.

Lemma r3_field (k : string) :
  k <> "properties" -> k <> "items" -> k <> "additionalProperties" ->
  assoc_get r3 k = assoc_get f0 k.
Proof.
  intros Hp Hi Ha.
  now rewrite strict_items_other, strict_properties_other, strict_object_other.
Qed.

Lemma second_combinators :
  fold_left (strict_combinator E) COMBINATORS final = final.
Proof.
  unfold COMBINATORS. cbn [fold_left].
  rewrite (second_combinator r3 "anyOf").
  - rewrite (second_combinator r4 "oneOf").
    + apply (second_combinator r5 "allOf").
      * simpl. auto.
      * now rewrite strict_additional_other by discriminate.
      * rewrite !strict_combinator_other by discriminate.
        apply r3_field; discriminate.
    + simpl. auto.
    + rewrite strict_additional_other by discriminate.
      now rewrite strict_combinator_other by discriminate.
    + rewrite strict_combinator_other by discriminate.
      apply r3_field; discriminate.
  - simpl. auto.
  - rewrite strict_additional_other by discriminate.
    now rewrite !strict_combinator_other by discriminate.
  - apply r3_field; discriminate.
Qed.

Lemma second_additional : strict_additional E final = final.
Proof.
  unfold strict_additional at 1.
  destruct (assoc_get final "additionalProperties") as [ap|] eqn:Ef;
    [|reflexivity].
  destruct (js_truthy ap && is_object ap) eqn:Et; [|reflexivity].
  apply assoc_set_get. rewrite Ef. f_equal.
  unfold strict_additional in Ef.
  destruct (assoc_get r6 "additionalProperties") as [original|] eqn:E6.
  - destruct (js_truthy original && is_object original) eqn:Eo.
    + rewrite assoc_get_set_same in Ef. injection Ef as <-.
      symmetry. apply Hinside.
      rewrite r6_additional in E6. unfold strict_object in E6.
      destruct (type_is_object f0).
      * rewrite assoc_get_set_same in E6. injection E6 as <-. discriminate.
      * now apply inside_field in E6.
    + rewrite E6 in Ef. injection Ef as <-. congruence.
  - rewrite E6 in Ef. discriminate.
Qed.

Lemma second_pass : E (E schema) = E schema.
Proof.
  rewrite first_pass. rewrite (enforceStrictSchema_equation (JObj final)).
  unfold enforce_step. cbn [js_truthy is_object andb negb spread].
  rewrite second_object, second_properties, second_items.
  now rewrite second_combinators, second_additional.
Qed.

End SecondPass.

(** X22.  [enforceStrictSchema] is idempotent: a schema that has been
    made strict is returned as it is by a second pass, whatever the value
    it was made from. *)
Theorem enforceStrictSchema_idempotent (schema : json) :
  enforceStrictSchema (enforceStrictSchema schema) = enforceStrictSchema schema.
Proof.
  remember (depth schema) as n eqn:En.
  revert schema En. induction n as [n IH] using lt_wf_ind. intros schema En.
  destruct (js_truthy schema && is_object schema) eqn:Eobj.
  - apply second_pass; [exact Eobj|].
    intros v Hv. apply (IH (depth v)); [lia | reflexivity].
  - assert (Hsame : enforceStrictSchema schema = schema).
    { rewrite enforceStrictSchema_equation. unfold enforce_step.
      now rewrite Eobj. }
    now rewrite !Hsame.
Qed.

(** ** Strict schemas: every object schema is closed *)

Lemma inside_schema_object (s : json) (f : list (string * json)) :
  inside_schema s (JObj f) -> exists fields, s = JObj fields.
Proof.
  intros H. inversion H; subst; eauto.
Qed.

Lemma inside_schema_truthy (s : json) (f : list (string * json)) :
  inside_schema s (JObj f) -> js_truthy s && is_object s = true.
Proof.
  intros H. apply inside_schema_object in H as [fields ->]. reflexivity.
Qed.

Lemma enforceStrictSchema_fields (schema : json) (fields : list (string * json)) :
  enforceStrictSchema schema = JObj fields ->
  js_truthy schema && is_object schema = true.
Proof.
  intros H. destruct (js_truthy schema && is_object schema) eqn:E; [reflexivity|].
  rewrite enforceStrictSchema_equation in H. unfold enforce_step in H.
  rewrite E in H. cbn [negb] in H. subst schema. discriminate.
Qed.

(** Below the schema that [enforceStrictSchema] returns, through
    properties, items, alternatives and additional properties, every
    object schema is closed. *)
Lemma enforceStrictSchema_inside_closed (schema t : json)
  (fields : list (string * json)) :
  inside_schema (enforceStrictSchema schema) t ->
  t = JObj fields ->
  type_is_object fields = true ->
  assoc_get fields "additionalProperties" = Some (JBool false).
Proof.
  intros Hin Ht Htype. subst t.
  remember (enforceStrictSchema schema) as s eqn:Es.
  remember (JObj fields) as t eqn:Et.
  revert schema Es. induction Hin as
    [ s
    | fs properties k v t Hp Hk Hv IH
    | fs v t Hi Hv IH
    | fs key schemas v t Hkey Hc Hk Hv IH
    | fs v t Ha Hv IH ]; intros schema Es.
  - (* the schema itself *)
    subst s. symmetry in Es.
    pose proof (enforceStrictSchema_fields _ _ Es) as Hobj.
    rewrite (first_pass schema Hobj) in Es. injection Es as <-.
    rewrite (final_type schema) in Htype.
    assert (H6 : assoc_get
                   (strict_combinator enforceStrictSchema
                      (strict_combinator enforceStrictSchema
                         (strict_combinator enforceStrictSchema
                            (strict_items enforceStrictSchema schema
                               (strict_properties enforceStrictSchema schema
                                  (strict_object (spread schema))))
                            "anyOf") "oneOf") "allOf")
                   "additionalProperties" = Some (JBool false)).
    { rewrite (r6_additional schema). unfold strict_object. rewrite Htype.
      apply assoc_get_set_same. }
    unfold strict_additional. rewrite H6. exact H6.
  - (* under a property *)
    symmetry in Es. pose proof (enforceStrictSchema_fields _ _ Es) as Hobj.
    rewrite (first_pass schema Hobj) in Es. injection Es as <-.
    rewrite (final_properties schema), (r2_properties schema) in Hp.
    destruct (opt_truthy (assoc_get (strict_object (spread schema)) "properties"))
      eqn:Etruthy.
    + injection Hp as <-. apply in_map_iff in Hk as [[k' x] [[= <- <-] Hx]].
      apply (IH Et x). reflexivity.
    + rewrite Hp in Etruthy. discriminate.
  - (* under the items *)
    symmetry in Es. pose proof (enforceStrictSchema_fields _ _ Es) as Hobj.
    rewrite (first_pass schema Hobj) in Es. injection Es as <-.
    rewrite (final_items schema) in Hi. subst t.
    pose proof (inside_schema_truthy _ _ Hv) as Hvt.
    apply andb_true_iff in Hvt as [Hvt _].
    unfold strict_items in Hi.
    destruct (opt_truthy (assoc_get (strict_properties enforceStrictSchema schema
                                       (strict_object (spread schema))) "items"))
      eqn:Etruthy.
    + destruct (get schema "items") as [items|] eqn:Ei.
      * rewrite assoc_get_set_same in Hi. injection Hi as <-.
        apply (IH eq_refl items). reflexivity.
      * rewrite strict_properties_other, strict_object_other in Hi by discriminate.
        apply andb_true_iff in Hobj as [_ Hobj].
        rewrite (get_spread schema "items" Hobj eq_refl) in Ei. congruence.
    + rewrite Hi in Etruthy. cbn [opt_truthy] in Etruthy. congruence.
  - (* among the alternatives *)
    symmetry in Es. pose proof (enforceStrictSchema_fields _ _ Es) as Hobj.
    rewrite (first_pass schema Hobj) in Es. injection Es as <-.
    rewrite strict_additional_other in Hc
      by (intros ->; unfold COMBINATORS in Hkey; simpl in Hkey;
          intuition discriminate).
    assert (Hread : exists originals,
               assoc_get (spread schema) key = Some (JArr originals)
               /\ schemas = map enforceStrictSchema originals).
    { assert (Hstep : forall r,
                 assoc_get r key = assoc_get (spread schema) key ->
                 assoc_get (strict_combinator enforceStrictSchema r key) key
                 = Some (JArr schemas) ->
                 exists originals,
                   assoc_get (spread schema) key = Some (JArr originals)
                   /\ schemas = map enforceStrictSchema originals).
      { intros r Hr Hget. unfold strict_combinator in Hget. rewrite Hr in Hget.
        destruct (assoc_get (spread schema) key)
          as [[| b | q | s' | originals | fields']|] eqn:E0;
          try congruence.
        rewrite assoc_get_set_same in Hget. injection Hget as <-. eauto. }
      unfold COMBINATORS in Hkey. simpl in Hkey.
      destruct Hkey as [<- | [<- | [<- | []]]].
      - rewrite !strict_combinator_other in Hc by discriminate.
        apply (Hstep _ (r3_field schema "anyOf" ltac:(discriminate)
                          ltac:(discriminate) ltac:(discriminate)) Hc).
      - rewrite strict_combinator_other in Hc by discriminate.
        refine (Hstep _ _ Hc).
        rewrite strict_combinator_other by discriminate.
        apply r3_field; discriminate.
      - refine (Hstep _ _ Hc).
        rewrite !strict_combinator_other by discriminate.
        apply r3_field; discriminate. }
    destruct Hread as [originals [_ ->]].
    apply in_map_iff in Hk as [x [<- Hx]].
    apply (IH Et x). reflexivity.
  - (* under the additional properties *)
    symmetry in Es. pose proof (enforceStrictSchema_fields _ _ Es) as Hobj.
    rewrite (first_pass schema Hobj) in Es. injection Es as <-. subst t.
    pose proof (inside_schema_truthy _ _ Hv) as Hvt.
    unfold strict_additional in Ha.
    rewrite (r6_additional schema) in Ha.
    destruct (assoc_get (strict_object (spread schema)) "additionalProperties")
      as [original|] eqn:E1.
    + destruct (js_truthy original && is_object original) eqn:Eo.
      * rewrite assoc_get_set_same in Ha. injection Ha as <-.
        apply (IH eq_refl original). reflexivity.
      * rewrite (r6_additional schema), E1 in Ha. injection Ha as <-. congruence.
    + rewrite (r6_additional schema), E1 in Ha. discriminate.
Qed.

(** An array is copied into an object under its indices, and nothing in
    it is visited. *)
Lemma enforceStrictSchema_array (elements : list json) :
  enforceStrictSchema (JArr elements) = JObj (indexed 0 elements).
Proof.
  rewrite enforceStrictSchema_equation. unfold enforce_step.
  cbn [js_truthy is_object andb negb spread].
  assert (Hno : forall k, digits_only k = false ->
                          assoc_get (indexed 0 elements) k = None)
    by (intros k Hk; now apply assoc_get_indexed_name).
  assert (H1 : strict_object (indexed 0 elements) = indexed 0 elements).
  { unfold strict_object, type_is_object. now rewrite Hno. }
  rewrite H1.
  assert (H2 : strict_properties enforceStrictSchema (JArr elements)
                 (indexed 0 elements) = indexed 0 elements).
  { unfold strict_properties. now rewrite Hno. }
  rewrite H2.
  assert (H3 : strict_items enforceStrictSchema (JArr elements)
                 (indexed 0 elements) = indexed 0 elements).
  { unfold strict_items. now rewrite Hno. }
  rewrite H3. cbn [fold_left COMBINATORS].
  unfold strict_combinator. rewrite !Hno by reflexivity.
  unfold strict_additional. now rewrite Hno.
Qed.

Lemma enforceStrictSchema_tuple_items (fields : list (string * json))
  (elements : list json) :
  assoc_get fields "items" = Some (JArr elements) ->
  get (enforceStrictSchema (JObj fields)) "items"
  = Some (JObj (indexed 0 elements)).
Proof.
  intros Hitems.
  rewrite (first_pass (JObj fields) eq_refl). cbn [get].
  rewrite (final_items (JObj fields)).
  unfold strict_items.
  rewrite strict_properties_other, strict_object_other by discriminate.
  cbn [spread get]. rewrite Hitems. cbn [opt_truthy js_truthy].
  rewrite assoc_get_set_same. now rewrite enforceStrictSchema_array.
Qed.

(** X23.  In the schema that [enforceStrictSchema] returns, every schema
    of type [object] has [additionalProperties] set to [false] when it
    is the schema itself or lies, at any depth, under a property, under
    [items] given as one schema, among the alternatives of [anyOf],
    [oneOf] and [allOf], or under [additionalProperties].  The elements
    of [items] given as a list of schemas are not reached: the list
    becomes an object that holds them, as they were, under their
    indices. *)
Theorem enforceStrictSchema_closed (schema : json) :
  (forall t fields,
     inside_schema (enforceStrictSchema schema) t ->
     t = JObj fields ->
     type_is_object fields = true ->
     assoc_get fields "additionalProperties" = Some (JBool false))
  /\ (forall fields elements,
        schema = JObj fields ->
        assoc_get fields "items" = Some (JArr elements) ->
        get (enforceStrictSchema schema) "items"
        = Some (JObj (indexed 0 elements))).
Proof.
  split.
  - intros t fields. apply enforceStrictSchema_inside_closed.
  - intros fields elements ->. apply enforceStrictSchema_tuple_items.
Qed.

Lemma enforceStrictSchema_closed_witness :
  inside_schema (enforceStrictSchema nested_schema) address_schema
  /\ get address_schema "additionalProperties" = Some (JBool false)
  /\ get (enforceStrictSchema tuple_schema) "items"
     = Some (JObj [("0", JObj [("type", JStr "object")])]).
Proof.
  assert (Hinside : inside_schema (enforceStrictSchema nested_schema)
                      address_schema).
  { vm_compute.
    eapply inside_property with (k := "address");
      [reflexivity | simpl; auto | apply inside_self]. }
  split; [exact Hinside|]. split.
  - exact (proj1 (enforceStrictSchema_closed nested_schema) address_schema _
             Hinside eq_refl eq_refl).
  - exact (proj2 (enforceStrictSchema_closed tuple_schema) _ _ eq_refl eq_refl).
Defined.

(** ** The Codex command *)

(** X24. [buildCommand] of the Codex provider hands a schema over in one
    way only.  It throws only when the schema is a text that [JSON.parse]
    rejects and the CLI supports [--output-schema].  Otherwise the command
    is [codex exec], some flags, and the prompt as last argument, and
    either no file is written and nothing is to clean up (the prompt is
    the context when there is no schema, and the context followed by the
    schema paragraph when the CLI has no [--output-schema]), or the CLI
    supports [--output-schema]: then the prompt is the context unchanged,
    the two arguments before it are [--output-schema] and the temporary
    file, that file is the only one to clean up, and what is written to
    it is the strict form of the schema. *)
Theorem buildCommand_schema_delivery
  (JSON_parse : string -> result json) (JSON_stringify : json -> string)
  (schemaFile context : string) (options : build_options) :
  let supported := supportsOutputSchema (build_cliFeatures options) in
  let given := opt_truthy (build_jsonSchema options) in
  match buildCommand JSON_parse JSON_stringify schemaFile context options with
  | Throw e =>
    given = true /\ supported = true
    /\ exists text, build_jsonSchema options = Some (JStr text)
                    /\ JSON_parse text = Throw e
  | Ok cmd =>
    binary cmd = "codex"
    /\ exists prompt,
        (written_file cmd = None /\ cleanup cmd = []
         /\ command_args cmd = "exec" :: codex_flags options ++ [prompt]
         /\ (given = false -> prompt = context)
         /\ (given = true ->
             supported = false
             /\ exists schemaStr,
                 prompt = (context ++ codex_schema_prompt schemaStr)%string
                 /\ (forall text, build_jsonSchema options = Some (JStr text) ->
                                  schemaStr = text)
                 /\ (forall value, build_jsonSchema options = Some value ->
                                   is_string value = false ->
                                   schemaStr = JSON_stringify value)))
        \/ (given = true /\ supported = true /\ prompt = context
            /\ cleanup cmd = [schemaFile]
            /\ command_args cmd
               = "exec" :: codex_flags options
                 ++ ["--output-schema"; schemaFile] ++ [prompt]
            /\ exists parsedSchema,
                written_file cmd
                = Some (schemaFile,
                        JSON_stringify (enforceStrictSchema parsedSchema))
                /\ (forall text, build_jsonSchema options = Some (JStr text) ->
                                 JSON_parse text = Ok parsedSchema)
                /\ (forall value, build_jsonSchema options = Some value ->
                                  is_string value = false ->
                                  parsedSchema = value))
  end.
Proof.
  intros supported given. subst supported given. unfold buildCommand.
  destruct (opt_truthy (build_jsonSchema options)) eqn:Egiven;
    destruct (supportsOutputSchema (build_cliFeatures options)) eqn:Esup;
    cbn [andb].
  - destruct (build_jsonSchema options) as [value|] eqn:Eschema;
      [|discriminate].
    assert (Hcases : (exists text, value = JStr text)
                     \/ is_string value = false).
    { destruct value; cbn; eauto. }
    destruct Hcases as [[text ->] | Hother].
    + destruct (JSON_parse text) as [parsedSchema | e] eqn:Eparse.
      * split; [reflexivity|]. exists context. right.
        repeat split; cbn [command_args cleanup written_file].
        exists parsedSchema. split; [reflexivity|]. split.
        { intros t [= <-]. exact Eparse. }
        { intros v [= <-] Hv. discriminate. }
      * repeat split. exists text. split; [reflexivity | exact Eparse].
    + assert (Hparsed : match value with
                        | JStr text => JSON_parse text
                        | _ => Ok value
                        end = Ok value).
      { destruct value; try reflexivity. discriminate. }
      rewrite Hparsed. split; [reflexivity|]. exists context. right.
      repeat split; cbn [command_args cleanup written_file].
      exists value. split; [reflexivity|]. split.
      { intros t [= ->]. discriminate. }
      { intros v [= <-] _. reflexivity. }
  - split; [reflexivity|].
    destruct (build_jsonSchema options) as [value|] eqn:Eschema;
      [|discriminate].
    eexists. left. cbn [command_args cleanup written_file].
    split; [reflexivity|]. split; [reflexivity|]. split; [reflexivity|].
    split; [discriminate|]. intros _. split; [reflexivity|].
    eexists. split; [reflexivity|]. split.
    { intros t [= ->]. reflexivity. }
    { intros v [= <-] Hv. destruct value; try reflexivity. discriminate. }
  - split; [reflexivity|]. exists context. left.
    cbn [command_args cleanup written_file].
    repeat split; try discriminate.
  - split; [reflexivity|]. exists context. left.
    cbn [command_args cleanup written_file].
    repeat split; try discriminate.
Qed.

(** ** The first-run setup *)

Lemma entry_at_In {A : Type} (l : list A) (idx : Z) (a : A) :
  entry_at l idx = Some a -> In a l.
Proof.
  unfold entry_at. destruct (Z.ltb idx 0); [discriminate|].
  apply nth_error_In.
Qed.

Lemma promptProvider_available (parseInt : string -> option Z)
  (answer : string) (detected : list (string * bool)) (name : string) :
  promptProvider parseInt answer detected = Some name ->
  In (name, true) detected.
Proof.
  unfold promptProvider.
  destruct (filter (fun entry => snd entry) detected) as [|first rest] eqn:Ea;
    [discriminate|].
  assert (Hfirst : In (fst first, true) detected).
  { assert (Hin : In first (filter (fun entry => snd entry) detected))
      by (rewrite Ea; now left).
    apply filter_In in Hin as [Hin Hs]. destruct first as [n b].
    simpl in *. now subst b. }
  destruct (entry_at (first :: rest) (choice_index parseInt answer))
    as [[n b]|] eqn:Eat.
  - destruct (nonempty n); intros [= <-]; [|exact Hfirst].
    apply entry_at_In in Eat. rewrite <- Ea in Eat.
    apply filter_In in Eat as [Hin Hs]. simpl in Hs. now subst b.
  - intros [= <-]. exact Hfirst.
Qed.

Lemma promptProvider_none (parseInt : string -> option Z)
  (answer : string) (detected : list (string * bool)) :
  promptProvider parseInt answer detected = None ->
  forall name, ~ In (name, true) detected.
Proof.
  unfold promptProvider.
  destruct (filter (fun entry => snd entry) detected) as [|first rest] eqn:Ea;
    [|discriminate].
  intros _ name Hin.
  assert (Hf : In (name, true) (filter (fun entry => snd entry) detected))
    by (apply filter_In; now split).
  now rewrite Ea in Hf.
Qed.

Lemma detectProviders_In (isAvailable : string -> bool) (name : string)
  (b : bool) :
  In (name, b) (detectProviders isAvailable)
  <-> In name PROVIDER_KEYS /\ isAvailable name = b.
Proof.
  unfold detectProviders. rewrite in_map_iff. split.
  - intros [n [[= -> <-] Hn]]. now split.
  - intros [Hn <-]. now exists name.
Qed.

Lemma promptModel_cases (answer : string) :
  promptModel answer = "opus" \/ promptModel answer = "haiku"
  \/ promptModel answer = "sonnet".
Proof.
  unfold promptModel.
  destruct ((if nonempty (trim answer) then trim answer else "2") =? "2");
    [now left|].
  destruct ((if nonempty (trim answer) then trim answer else "2") =? "3");
    [right; now left | right; now right].
Qed.

(** X25. The first-run setup saves only settings that [validateSetting]
    accepts, whatever the user types.  When the setup has been completed
    before, nothing is saved.  The process exits only in an interactive
    first run on a machine where none of the three providers is
    available.  In quiet mode the loaded settings are saved with
    [firstRunComplete] set and nothing else changed.  Otherwise the saved
    [defaultProvider] is one of the providers found available, it and the
    saved [maxModel] pass [validateSetting], [autoCheckUpdates] is a
    boolean, [firstRunComplete] is set, and every other setting is as it
    was loaded. *)
Theorem checkFirstRun_saves_valid_settings
  (parseInt : string -> option Z) (isAvailable : string -> bool)
  (typed : nat -> string) (JSON_parse : string -> result json)
  (number_text : QArith_base.Q -> string)
  (validateMountConfig validateEnvPassthrough : json -> option string)
  (file : settings_file) (quiet : bool) :
  let loaded := loadSettings JSON_parse file in
  let valid key value :=
    validateSetting number_text validateMountConfig validateEnvPassthrough
      key value = None in
  match checkFirstRun parseInt isAvailable typed JSON_parse file quiet with
  | not_needed => opt_truthy (get loaded "firstRunComplete") = true
  | process_exit =>
    quiet = false /\ detectFirstRun loaded = true
    /\ forall name, In name PROVIDER_KEYS -> isAvailable name = false
  | set_up saved =>
    detectFirstRun loaded = true
    /\ get saved "firstRunComplete" = Some (JBool true)
    /\ (quiet = true ->
        forall key, key <> "firstRunComplete" -> get saved key = get loaded key)
    /\ (quiet = false ->
        exists provider model update,
          get saved "defaultProvider" = Some (JStr provider)
          /\ isAvailable provider = true
          /\ valid "defaultProvider" (JStr provider)
          /\ get saved "maxModel" = Some (JStr model)
          /\ valid "maxModel" (JStr model)
          /\ get saved "autoCheckUpdates" = Some (JBool update)
          /\ forall key,
              key <> "defaultProvider" -> key <> "maxModel" ->
              key <> "autoCheckUpdates" -> key <> "firstRunComplete" ->
              get saved key = get loaded key)
  end.
Proof.
  intros loaded valid. subst valid. unfold checkFirstRun. fold loaded.
  destruct (loadSettings_shape JSON_parse file)
    as [fields [claude [codex [gemini [Hloaded _]]]]].
  fold loaded in Hloaded.
  destruct (detectFirstRun loaded) eqn:Efirst; cbn [negb].
  2:{ unfold detectFirstRun in Efirst. now apply negb_false_iff in Efirst. }
  destruct quiet.
  - split; [reflexivity|]. rewrite Hloaded. cbn [set get].
    split; [apply assoc_get_set_same|]. split; [|discriminate].
    intros _ key Hkey. apply assoc_get_set_other. congruence.
  - destruct (promptProvider parseInt (typed 0%nat) (detectProviders isAvailable))
      as [provider|] eqn:Eprovider.
    + apply promptProvider_available, detectProviders_In in Eprovider
        as [Hkey Havailable].
      split; [reflexivity|]. rewrite Hloaded. cbn [set get].
      split; [apply assoc_get_set_same|]. split; [discriminate|]. intros _.
      exists provider, (promptModel (typed 1%nat)),
        (promptAutoUpdate (typed 2%nat)).
      split.
      { rewrite !assoc_get_set_other by discriminate.
        apply assoc_get_set_same. }
      split; [exact Havailable|]. split.
      { unfold PROVIDER_KEYS in Hkey. simpl in Hkey.
        destruct Hkey as [<- | [<- | [<- | []]]]; reflexivity. }
      split.
      { rewrite !assoc_get_set_other by discriminate.
        apply assoc_get_set_same. }
      split.
      { destruct (promptModel_cases (typed 1%nat)) as [-> | [-> | ->]];
          reflexivity. }
      split.
      { rewrite assoc_get_set_other by discriminate.
        apply assoc_get_set_same. }
      intros key H1 H2 H3 H4.
      rewrite !assoc_get_set_other by congruence. reflexivity.
    + split; [reflexivity|]. split; [reflexivity|].
      intros name Hname.
      destruct (isAvailable name) eqn:Ea; [|reflexivity].
      exfalso.
      apply (promptProvider_none _ _ _ Eprovider name).
      apply detectProviders_In. now split.
Qed.

(** A user on a machine with Codex and Gemini asks for a fifth provider
    and presses return at the other questions: the first available
    provider, the model [opus] and automatic updates are saved. *)
Example checkFirstRun_default_answers :
  checkFirstRun first_run_parseInt first_run_available first_run_typed
    example_parse file_absent false
  = set_up (set (set (set (set DEFAULT_SETTINGS "defaultProvider" (JStr "codex"))
                        "maxModel" (JStr "opus"))
                   "autoCheckUpdates" (JBool true))
              "firstRunComplete" (JBool true)).
Proof. vm_compute. reflexivity. Qed.

(** ** The Gemini command *)

(** X26. On a Codex CLI without [--output-schema], the Codex command and
    the Gemini command of the same context and options carry the same
    prompt, character for character: the context, followed by the schema
    paragraph when a schema is given.  Codex never fails there and writes
    no file; its prompt is the last argument after [exec] and the flags,
    while Gemini's is the argument of [-p], before the flags. *)
Theorem buildCommand_prompts_agree
  (JSON_parse : string -> result json) (JSON_stringify : json -> string)
  (schemaFile context : string) (options : build_options) :
  supportsOutputSchema (build_cliFeatures options) = false ->
  exists cmd prompt flags,
    buildCommand JSON_parse JSON_stringify schemaFile context options = Ok cmd
    /\ command_args cmd = "exec" :: codex_flags options ++ [prompt]
    /\ written_file cmd = None
    /\ Gemini.args (Gemini.buildCommand JSON_stringify context options)
       = "-p" :: prompt :: flags
    /\ (opt_truthy (build_jsonSchema options) = false -> prompt = context).
Proof.
  intros Hsup. unfold buildCommand, Gemini.buildCommand, Gemini.finalContext.
  rewrite Hsup, andb_false_r.
  destruct (opt_truthy (build_jsonSchema options)) eqn:Egiven.
  - eexists. eexists. eexists. split; [reflexivity|].
    cbn [command_args written_file Gemini.args app].
    split; [reflexivity|]. split; [reflexivity|]. split; [reflexivity|].
    discriminate.
  - eexists. eexists. eexists. split; [reflexivity|].
    cbn [command_args written_file Gemini.args app].
    split; [reflexivity|]. split; [reflexivity|]. split; reflexivity.
Qed.

Lemma buildCommand_prompts_agree_witness :
  exists cmd prompt flags,
    buildCommand example_parse saved_stringify "/tmp/schema.json" "Fix it"
      prompt_schema_options = Ok cmd
    /\ command_args cmd = "exec" :: codex_flags prompt_schema_options ++ [prompt]
    /\ written_file cmd = None
    /\ Gemini.args (Gemini.buildCommand saved_stringify "Fix it"
                      prompt_schema_options)
       = "-p" :: prompt :: flags
    /\ (opt_truthy (build_jsonSchema prompt_schema_options) = false ->
        prompt = "Fix it").
Proof.
  exact (buildCommand_prompts_agree example_parse saved_stringify
           "/tmp/schema.json" "Fix it" prompt_schema_options eq_refl).
Defined.

(** ** The number of a GitHub issue *)

Lemma issue_match_eq (s : string) :
  issue_match s
  = match issue_at s with
    | Some digits => Some digits
    | None =>
      match s with
      | String _ rest => issue_match rest
      | EmptyString => None
      end
    end.
Proof. destruct s; reflexivity. Qed.

Lemma leading_digits_only (s : string) :
  digits_only (leading_digits s) = true.
Proof.
  induction s as [|c s IH]; [reflexivity|]. simpl.
  destruct (is_digit c) eqn:Ec; [|reflexivity].
  simpl. now rewrite Ec.
Qed.

Lemma issue_at_digits (s digits : string) :
  issue_at s = Some digits ->
  digits_only digits = true /\ digits <> EmptyString.
Proof.
  unfold issue_at. destruct (strip_prefix "/issues/" s) as [rest|];
    [|discriminate].
  destruct (leading_digits rest) as [|c d] eqn:Ed; [discriminate|].
  cbn. intros [= <-]. split; [|discriminate].
  rewrite <- Ed. apply leading_digits_only.
Qed.

Lemma issue_match_digits (s digits : string) :
  issue_match s = Some digits ->
  digits_only digits = true /\ digits <> EmptyString.
Proof.
  induction s as [|c s IH]; rewrite issue_match_eq.
  - destruct (issue_at EmptyString) eqn:E; [|discriminate].
    intros [= <-]. now apply issue_at_digits in E.
  - destruct (issue_at (String c s)) eqn:E.
    + intros [= <-]. now apply issue_at_digits in E.
    + exact IH.
Qed.

Lemma is_digit_not_slash (c : ascii) :
  is_digit c = true -> Ascii.eqb "/" c = false.
Proof.
  intros H. destruct (Ascii.eqb_spec "/" c) as [<- | _]; [|reflexivity].
  discriminate.
Qed.

Lemma issue_at_digits_only (s : string) :
  digits_only s = true -> issue_at s = None.
Proof.
  destruct s as [|c s]; [reflexivity|]. simpl.
  intros H. apply andb_true_iff in H as [Hc _].
  unfold issue_at. cbn [strip_prefix].
  now rewrite (is_digit_not_slash c Hc).
Qed.

Lemma issue_match_digits_only (s : string) :
  digits_only s = true -> issue_match s = None.
Proof.
  induction s as [|c s IH]; intros H; rewrite issue_match_eq,
    (issue_at_digits_only _ H); [reflexivity|].
  simpl in H. apply andb_true_iff in H as [_ H]. now apply IH.
Qed.

(** X27. [_extractIssueNumber] returns either the reference as it is or a
    non-empty run of digits, and it is idempotent: the number taken from
    a reference is returned unchanged when it is passed again.  A
    reference that is already a number is returned as it is. *)
Theorem extractIssueNumber_idempotent (issueRef : string) :
  let number := _extractIssueNumber issueRef in
  (number = issueRef
   \/ (digits_only number = true /\ number <> EmptyString))
  /\ _extractIssueNumber number = number
  /\ (digits_only issueRef = true -> number = issueRef).
Proof.
  intros number.
  assert (Hcases : (issue_match issueRef = None /\ number = issueRef)
                   \/ (exists digits, issue_match issueRef = Some digits
                                      /\ number = digits)).
  { unfold number, _extractIssueNumber.
    destruct (issue_match issueRef); eauto. }
  clearbody number. destruct Hcases as [[Hnone ->] | [digits [Hsome ->]]].
  - split; [now left|]. split; [|reflexivity].
    unfold _extractIssueNumber. now rewrite Hnone.
  - destruct (issue_match_digits _ _ Hsome) as [Hd Hne].
    split; [right; now split|]. split.
    + unfold _extractIssueNumber. now rewrite (issue_match_digits_only _ Hd).
    + intros H. rewrite (issue_match_digits_only _ H) in Hsome. discriminate.
Qed.

Lemma leading_digits_app (digits rest : string) :
  digits_only digits = true -> leading_digits rest = EmptyString ->
  leading_digits (digits ++ rest) = digits.
Proof.
  intros Hd Hr. induction digits as [|c d IH]; [exact Hr|].
  simpl in Hd. apply andb_true_iff in Hd as [Hc Hd].
  cbn [append leading_digits]. rewrite Hc. now rewrite IH.
Qed.

Lemma issue_at_here (digits rest : string) :
  digits_only digits = true -> digits <> EmptyString ->
  leading_digits rest = EmptyString ->
  issue_at ("/issues/" ++ digits ++ rest) = Some digits.
Proof.
  intros Hd Hne Hr. unfold issue_at.
  change (strip_prefix "/issues/" ("/issues/" ++ digits ++ rest))
    with (Some (digits ++ rest)%string).
  cbv beta iota zeta.
  rewrite (leading_digits_app _ _ Hd Hr).
  destruct digits; [congruence | reflexivity].
Qed.

(** The pattern cannot begin before an occurrence of [/issues/] and end
    inside or after it, unless it matches by itself. *)
Lemma issue_at_straddle (x rest : string) :
  x <> EmptyString -> issue_at x = None ->
  issue_at (x ++ "/issues/" ++ rest) = None.
Proof.
  intros Hx Hat. unfold issue_at in *.
  destruct x as [|c1 x]; [congruence|].
  cbn [append strip_prefix] in *.
  destruct (Ascii.eqb "/" c1); [|reflexivity].
  destruct x as [|c2 x]; [reflexivity|]. cbn [append strip_prefix] in *.
  destruct (Ascii.eqb "i" c2); [|reflexivity].
  destruct x as [|c3 x]; [reflexivity|]. cbn [append strip_prefix] in *.
  destruct (Ascii.eqb "s" c3); [|reflexivity].
  destruct x as [|c4 x]; [reflexivity|]. cbn [append strip_prefix] in *.
  destruct (Ascii.eqb "s" c4); [|reflexivity].
  destruct x as [|c5 x]; [reflexivity|]. cbn [append strip_prefix] in *.
  destruct (Ascii.eqb "u" c5); [|reflexivity].
  destruct x as [|c6 x]; [reflexivity|]. cbn [append strip_prefix] in *.
  destruct (Ascii.eqb "e" c6); [|reflexivity].
  destruct x as [|c7 x]; [reflexivity|]. cbn [append strip_prefix] in *.
  destruct (Ascii.eqb "s" c7); [|reflexivity].
  destruct x as [|c8 x]; [reflexivity|]. cbn [append strip_prefix] in *.
  destruct (Ascii.eqb "/" c8); [|reflexivity].
  destruct x as [|c x]; [reflexivity|].
  cbn [append leading_digits] in *.
  destruct (is_digit c); [discriminate | reflexivity].
Qed.

Lemma issue_match_app (before rest : string) :
  issue_match before = None ->
  issue_match (before ++ "/issues/" ++ rest)
  = issue_match ("/issues/" ++ rest).
Proof.
  induction before as [|c b IH]; intros Hnone; [reflexivity|].
  rewrite issue_match_eq in Hnone.
  destruct (issue_at (String c b)) eqn:Eat; [discriminate|].
  rewrite issue_match_eq.
  rewrite (issue_at_straddle (String c b) rest ltac:(discriminate) Eat).
  cbn [append]. now apply IH.
Qed.

(** X28. From a reference in which the text [/issues/] and a number
    follow a part that holds no issue path of its own,
    [_extractIssueNumber] takes exactly that number, all of its digits,
    whatever comes after it. *)
Theorem extractIssueNumber_url (before digits rest : string) :
  issue_match before = None ->
  digits_only digits = true -> digits <> EmptyString ->
  leading_digits rest = EmptyString ->
  _extractIssueNumber (before ++ "/issues/" ++ digits ++ rest) = digits.
Proof.
  intros Hbefore Hd Hne Hrest. unfold _extractIssueNumber.
  rewrite (issue_match_app before (digits ++ rest) Hbefore).
  rewrite issue_match_eq. now rewrite (issue_at_here _ _ Hd Hne Hrest).
Qed.

Lemma extractIssueNumber_url_witness :
  _extractIssueNumber
    ("https://github.com/covibes/zeroshot" ++ "/issues/" ++ "123"
     ++ "#issuecomment-7")
  = "123".
Proof.
  apply extractIssueNumber_url.
  - vm_compute. reflexivity.
  - reflexivity.
  - discriminate.
  - reflexivity.
Defined.

(** ** The transcript of a session *)

Lemma dirent_size_directory (name : string) (listing : option (list dirent)) :
  dirent_size (dirent_directory name listing) = listing_size listing.
Proof. destruct listing; reflexivity. Qed.

Section SessionSearchFacts.

Variable path_join : string -> string -> string.
Variable target : string.

Local Abbreviation scan := (scan_entries path_join).
Local Abbreviation search := (search_queue path_join).
Local Abbreviation below := (file_below path_join target).

Lemma scan_entries_size (dir : string) (entries : list dirent)
  (queue queue' : list queued) :
  scan dir target entries queue = inr queue' ->
  queue_size queue' = queue_size queue + list_sum (map dirent_size entries).
Proof.
  revert queue. induction entries as [|e rest IH]; intros queue.
  - intros [= <-]. cbn. lia.
  - change (list_sum (map dirent_size (e :: rest)))
      with (dirent_size e + list_sum (map dirent_size rest)).
    destruct e as [name | name listing | name]; cbn [scan_entries].
    + destruct (name =? target); [discriminate|].
      intros H. rewrite (IH _ H). cbn [dirent_size]. lia.
    + intros H. rewrite (IH _ H), dirent_size_directory.
      change (queue_size ((path_join dir name, listing) :: queue))
        with (listing_size listing + queue_size queue).
      lia.
    + intros H. rewrite (IH _ H). cbn [dirent_size]. lia.
Qed.

Lemma scan_entries_found (dir : string) (entries : list dirent)
  (queue : list queued) (found : string) :
  scan dir target entries queue = inl found ->
  In (dirent_file target) entries /\ found = path_join dir target.
Proof.
  revert queue. induction entries as [|e rest IH]; intros queue;
    [discriminate|].
  destruct e as [name | name listing | name]; cbn [scan_entries].
  - destruct (String.eqb_spec name target) as [-> | Hne].
    + intros [= <-]. split; [now left | reflexivity].
    + intros H. destruct (IH _ H) as [Hin ->]. split; [now right | reflexivity].
  - intros H. destruct (IH _ H) as [Hin ->]. split; [now right | reflexivity].
  - intros H. destruct (IH _ H) as [Hin ->]. split; [now right | reflexivity].
Qed.

Lemma scan_entries_queue (dir : string) (entries : list dirent)
  (queue queue' : list queued) :
  scan dir target entries queue = inr queue' ->
  ~ In (dirent_file target) entries
  /\ forall item,
      In item queue'
      <-> In item queue
          \/ exists name listing,
              In (dirent_directory name listing) entries
              /\ item = (path_join dir name, listing).
Proof.
  revert queue. induction entries as [|e rest IH]; intros queue.
  - intros [= <-]. split; [intros []|]. intros item. split; [now left|].
    intros [H | [name [listing [[] _]]]]. exact H.
  - destruct e as [name | name listing | name]; cbn [scan_entries].
    + destruct (String.eqb_spec name target) as [-> | Hne]; [discriminate|].
      intros H. destruct (IH _ H) as [Hno Hq]. split.
      * intros [[= Heq] | Hin]; [congruence | now apply Hno].
      * intros item. rewrite Hq. split.
        -- intros [Hi | [n [l [Hin ->]]]]; [now left|].
           right. exists n, l. split; [now right | reflexivity].
        -- intros [Hi | [n [l [[Heq | Hin] ->]]]]; [now left | discriminate |].
           right. now exists n, l.
    + intros H. destruct (IH _ H) as [Hno Hq]. split.
      * intros [Heq | Hin]; [discriminate | now apply Hno].
      * intros item. rewrite Hq. split.
        -- intros [[<- | Hi] | [n [l [Hin ->]]]].
           ++ right. exists name, listing. split; [now left | reflexivity].
           ++ now left.
           ++ right. exists n, l. split; [now right | reflexivity].
        -- intros [Hi | [n [l [[[= <- <-] | Hin] ->]]]].
           ++ left. now right.
           ++ left. now left.
           ++ right. now exists n, l.
    + intros H. destruct (IH _ H) as [Hno Hq]. split.
      * intros [Heq | Hin]; [discriminate | now apply Hno].
      * intros item. rewrite Hq. split.
        -- intros [Hi | [n [l [Hin ->]]]]; [now left|].
           right. exists n, l. split; [now right | reflexivity].
        -- intros [Hi | [n [l [[Heq | Hin] ->]]]]; [now left | discriminate |].
           right. now exists n, l.
Qed.

(** What the loop returns is the path of a file of the name looked for,
    in or below a directory of the queue. *)
Lemma search_queue_sound (rounds : nat) (queue : list queued)
  (found : string) :
  search rounds target queue = Some found ->
  exists dir entries,
    In (dir, Some entries) queue /\ below dir entries found.
Proof.
  revert queue. induction rounds as [|rounds IH]; intros queue;
    [discriminate|].
  cbn [search_queue]. destruct queue as [|[dir listing] rest]; [discriminate|].
  assert (Hrest : search rounds target rest = Some found ->
                  exists d entries,
                    In (d, Some entries) ((dir, listing) :: rest)
                    /\ below d entries found).
  { intros H. destruct (IH _ H) as [d [entries [Hin Hb]]].
    exists d, entries. split; [now right | exact Hb]. }
  destruct (negb (nonempty dir)); [exact Hrest|].
  destruct listing as [entries|]; [|exact Hrest].
  destruct (scan dir target entries rest) as [p | queue'] eqn:Escan.
  - intros [= <-]. apply scan_entries_found in Escan as [Hin ->].
    exists dir, entries. split; [now left | now apply file_here].
  - intros H. destruct (IH _ H) as [d [sub [Hin Hb]]].
    apply (proj2 (scan_entries_queue _ _ _ _ Escan)) in Hin
      as [Hin | [name [listing [Hin [= -> <-]]]]].
    + exists d, sub. split; [now right | exact Hb].
    + exists dir, entries. split; [now left|].
      now apply (file_deeper path_join target dir entries name sub found).
Qed.

(** With a round for every directory, the loop gives up only when no
    file of the name looked for lies in or below the queue. *)
Lemma search_queue_complete (rounds : nat) (queue : list queued) :
  (forall a b, path_join a b <> EmptyString) ->
  queue_size queue <= rounds ->
  (forall dir listing, In (dir, listing) queue -> dir <> EmptyString) ->
  search rounds target queue = None ->
  forall dir entries path,
    In (dir, Some entries) queue -> ~ below dir entries path.
Proof.
  intros Hjoin. revert queue.
  induction rounds as [|rounds IH]; intros queue Hsize Hdirs Hnone
    dir entries path Hin.
  - destruct queue as [|[d l] rest]; [destruct Hin|].
    change (queue_size ((d, l) :: rest))
      with (S (match l with
               | Some entries => list_sum (map dirent_size entries)
               | None => 0
               end) + queue_size rest) in Hsize.
    lia.
  - destruct queue as [|[d l] rest]; [destruct Hin|].
    cbn [search_queue] in Hnone.
    assert (Hd : nonempty d = true).
    { unfold nonempty. apply negb_true_iff, String.eqb_neq.
      apply (Hdirs d l). now left. }
    rewrite Hd in Hnone. cbn [negb] in Hnone.
    assert (Hsize' : queue_size rest + listing_size l <= S rounds).
    { change (queue_size ((d, l) :: rest))
        with (listing_size l + queue_size rest) in Hsize. lia. }
    destruct l as [sub|].
    + destruct (scan d target sub rest) as [p | queue'] eqn:Escan;
        [discriminate|].
      pose proof (scan_entries_size _ _ _ _ Escan) as Hq.
      destruct (scan_entries_queue _ _ _ _ Escan) as [Hno Hitems].
      assert (Hnext : forall dir' entries' path',
                 In (dir', Some entries') queue' ->
                 ~ below dir' entries' path').
      { apply IH; [unfold listing_size in Hsize'; lia | | exact Hnone].
        intros d' l' Hin'. apply Hitems in Hin'
          as [Hin' | [name [listing [_ [= -> _]]]]].
        - apply (Hdirs d' l'). now right.
        - apply Hjoin. }
      destruct Hin as [[= <- <-] | Hin].
      * intros Hb. inversion Hb as [dir' entries' Hfile | dir' entries' name
                                     listing path' Hdir Hdeep]; subst.
        -- now apply Hno.
        -- apply (Hnext (path_join d name) listing path); [|exact Hdeep].
           apply Hitems. right. now exists name, (Some listing).
      * apply Hnext. apply Hitems. now left.
    + destruct Hin as [[=] | Hin].
      apply (IH rest); [unfold listing_size in Hsize'; lia | | exact Hnone | exact Hin].
      intros d' l' Hin'. apply (Hdirs d' l'). now right.
Qed.

End SessionSearchFacts.

(** X29. [findSessionJsonlPath] searches the whole tree below the
    projects directory.  What it returns is the path of a file named
    after the session, with the extension [.jsonl], in the projects
    directory or below it through directories that can be listed; and it
    returns [null] only when there is no such file there, or no projects
    directory.  The loop ends: it takes no more rounds than there are
    directories.  [path.join] is taken to give no empty path, as it does
    in Node. *)
Theorem findSessionJsonlPath_finds
  (path_join : string -> string -> string)
  (CLAUDE_CONFIG_DIR : option string) (homedir : string)
  (projects : option (option (list dirent))) (sessionId : string) :
  (forall a b, path_join a b <> EmptyString) ->
  let root := projectsDir path_join CLAUDE_CONFIG_DIR homedir in
  let target := (sessionId ++ ".jsonl")%string in
  match findSessionJsonlPath path_join CLAUDE_CONFIG_DIR homedir projects
          sessionId with
  | Some found =>
    exists entries,
      projects = Some (Some entries)
      /\ file_below path_join target root entries found
  | None =>
    forall entries path,
      projects = Some (Some entries) ->
      ~ file_below path_join target root entries path
  end.
Proof.
  intros Hjoin root target. unfold findSessionJsonlPath.
  destruct projects as [listing|]; [|discriminate].
  fold root. fold target.
  destruct (search_queue path_join (queue_size [(root, listing)]) target
              [(root, listing)]) as [found|] eqn:Esearch.
  - apply search_queue_sound in Esearch as [dir [entries [Hin Hb]]].
    destruct Hin as [[= <- ->] | []]. now exists entries.
  - intros entries path [= ->].
    assert (Hdirs : forall d l, In (d, l) [(root, Some entries)] ->
                                d <> EmptyString).
    { intros d l [[= <- _] | []]. apply Hjoin. }
    apply (search_queue_complete path_join target _ _ Hjoin (le_n _)
             Hdirs Esearch).
    now left.
Qed.

Lemma findSessionJsonlPath_finds_witness :
  match findSessionJsonlPath slash_join None "/home/dev"
          (Some (Some example_projects)) "s1" with
  | Some found =>
    exists entries,
      Some (Some example_projects) = Some (Some entries)
      /\ file_below slash_join "s1.jsonl" "/home/dev/.claude/projects"
           entries found
  | None =>
    forall entries path,
      Some (Some example_projects) = Some (Some entries) ->
      ~ file_below slash_join "s1.jsonl" "/home/dev/.claude/projects"
          entries path
  end.
Proof.
  apply (findSessionJsonlPath_finds slash_join None "/home/dev"
           (Some (Some example_projects)) "s1").
  intros a b. unfold slash_join. destruct a; discriminate.
Defined.

(** The transcript of session [s1] is found two levels down, past a
    directory that cannot be listed. *)
Example findSessionJsonlPath_nested :
  findSessionJsonlPath slash_join None "/home/dev"
    (Some (Some example_projects)) "s1"
  = Some "/home/dev/.claude/projects/alpha/nested/s1.jsonl".
Proof. vm_compute. reflexivity. Qed.
